(** * mcp-client-kit: transports, request correlation and aggregation

    A shallow embedding of
      - src/utils/jsonrpc.ts        (createRequest, validateResponse, isErrorResponse)
      - src/transports/BaseTransport.ts, SseTransport.ts, HttpStreamTransport.ts,
        StdioTransport.ts
      - src/client/McpClient.ts
    together with the pieces of the JavaScript runtime the code leans on:
    insertion-ordered Map objects, promises that keep the first settlement,
    setTimeout / clearTimeout, and the event callbacks of the underlying
    channels.  Promise-returning methods are split where they suspend: the
    part that runs at the call, the callbacks the runtime runs later, and the
    part that runs once the awaited promises have settled. *)

From Stdlib Require Import List String Ascii ZArith Bool Arith Lia DecimalString.
Import ListNotations.
Local Open Scope string_scope.
Local Open Scope list_scope.

(* ------------------------------------------------------------------ *)
(** ** Exceptions *)

(** A computation that returns a value or throws. *)
Inductive Exc (E A : Type) : Type :=
| Ok (a : A)
| Throw (e : E).
Arguments Ok {E A} a.
Arguments Throw {E A} e.

Definition bind {E A B : Type} (c : Exc E A) (k : A -> Exc E B) : Exc E B :=
  match c with
  | Ok a => k a
  | Throw e => Throw e
  end.

Notation "'do' x <- c ; k" := (bind c (fun x => k))
  (at level 10, x name, c at level 100, k at level 200).


(* ------------------------------------------------------------------ *)
(** ** Keys with a boolean equality *)

Class Key (K : Type) : Type := { key_eqb : K -> K -> bool }.

Class KeyLaws (K : Type) `{Key K} : Prop :=
  { key_eqb_eq : forall a b : K, key_eqb a b = true <-> a = b }.

#[export] Instance string_Key : Key string := {| key_eqb := String.eqb |}.

#[export] Instance nat_Key : Key nat := {| key_eqb := Nat.eqb |}.

(* ------------------------------------------------------------------ *)
(** ** JavaScript Map objects

    A Map iterates in insertion order; set on a key that is present keeps
    the position of the key and replaces its value. *)

Module JsMap.

Section Ops.
Context {K V : Type} `{Key K}.

Definition t : Type := list (K * V).

Definition empty : t := [].

Fixpoint get (k : K) (m : t) : option V :=
  match m with
  | [] => None
  | (k', v) :: m' => if key_eqb k k' then Some v else get k m'
  end.

Fixpoint set (k : K) (v : V) (m : t) : t :=
  match m with
  | [] => [(k, v)]
  | (k', v') :: m' => if key_eqb k k' then (k', v) :: m' else (k', v') :: set k v m'
  end.

Fixpoint delete (k : K) (m : t) : t :=
  match m with
  | [] => []
  | (k', v') :: m' => if key_eqb k k' then delete k m' else (k', v') :: delete k m'
  end.

Definition keys (m : t) : list K := map fst m.

Definition values (m : t) : list V := map snd m.

Definition entries (m : t) : list (K * V) := m.

Definition size (m : t) : nat := List.length m.

End Ops.

Arguments t : clear implicits.

End JsMap.

(* ------------------------------------------------------------------ *)
(** ** JSON values

    What JSON.parse returns.  Numbers are the integers: the ids this program
    issues are integers, and a fractional number behaves, for every test the
    code makes on it, like a non-zero integer that equals no issued id.  An
    object is its list of own properties in property order.  [None] in an
    [option JsonValue] is the JavaScript value undefined. *)

#[warnings="-register-all"]
Inductive JsonValue : Type :=
| JNull
| JBool (b : bool)
| JNum (n : Z)
| JStr (s : string)
| JArr (items : list JsonValue)
| JObj (fields : list (string * JsonValue)).

(** ToBoolean. *)
Definition truthy (v : JsonValue) : bool :=
  match v with
  | JNull => false
  | JBool b => b
  | JNum n => negb (n =? 0)%Z
  | JStr s => negb (s =? "")
  | JArr _ => true
  | JObj _ => true
  end.

Definition truthy_opt (v : option JsonValue) : bool :=
  match v with
  | None => false
  | Some v => truthy v
  end.

(** [v.name] for a value that is neither null nor undefined, and a name that
    is not a built-in property of strings or arrays. *)
Definition prop (v : JsonValue) (name : string) : option JsonValue :=
  match v with
  | JObj fields => JsMap.get name fields
  | _ => None
  end.

(** ToString, as a template literal applies it to a value JSON.parse made:
    [true] when the conversion completes, [false] when it throws a TypeError.
    An object is converted by its toString method, which is
    Object.prototype.toString unless the object has an own property of that
    name; such a property is no function, so the conversion goes on to
    valueOf, gets the object itself or nothing it can call, and throws.  An
    array is converted by join, which converts every element that is not
    null.  Null, booleans, numbers and strings always convert, and so does
    undefined. *)
Fixpoint stringifies (v : JsonValue) : bool :=
  match v with
  | JObj fields =>
      match JsMap.get "toString" fields with
      | Some _ => false
      | None => true
      end
  | JArr items => forallb stringifies items
  | _ => true
  end.

Definition stringifies_opt (v : option JsonValue) : bool :=
  match v with
  | None => true
  | Some v => stringifies v
  end.

(* ------------------------------------------------------------------ *)
(** ** Errors and settlements *)

(** types.ts: the id of a request is a string or a number. *)
Inductive RequestId : Type :=
| IdNum (n : Z)
| IdStr (s : string).

Definition RequestId_eqb (a b : RequestId) : bool :=
  match a, b with
  | IdNum x, IdNum y => (x =? y)%Z
  | IdStr x, IdStr y => (x =? y)%string
  | _, _ => false
  end.

#[export] Instance RequestId_Key : Key RequestId := {| key_eqb := RequestId_eqb |}.

(** The Error objects the code creates, by the template of their message, and
    the errors the runtime raises. *)
Inductive JsError : Type :=
| SyntaxError                                         (* JSON.parse *)
| TypeError                                           (* a property of null, a call of a non-function,
                                                         a value that has no string conversion *)
| ResponseNotAnObject                                 (* 'Invalid JSON-RPC response: not an object' *)
| ResponseBadVersion                                  (* '... missing or invalid jsonrpc field' *)
| ResponseMissingId                                   (* '... missing id field' *)
| TransportNotConnected                               (* 'Transport not connected' *)
| RequestTimedOut (id : RequestId) (ms : Z)           (* 'Request ${id} timed out after ${ms}ms' *)
| JsonRpcErrorResponse (code message : option JsonValue) (* 'JSON-RPC error ${code}: ${message}' *)
| TransportDisconnected                               (* 'Transport disconnected' *)
| ChannelError (detail : string)                      (* raised by the network, the process or the file system *)
| ServerNotFound (name : string)                      (* 'Server not found: ${serverName}' *)
| ToolCallFailed (message : option JsonValue)         (* 'Tool call failed: ${message}' *)
| ResourceReadFailed (message : option JsonValue)     (* 'Resource read failed: ${message}' *)
| GetPromptFailed (message : option JsonValue)        (* 'Get prompt failed: ${message}' *)
| ConfigurationLoadFailed (path : string)             (* 'Failed to load configuration from ${path}: ...' *)
| NoServersConfigured                                 (* 'No servers configured in mcp_servers.json' *)
| InvalidServerConfiguration                          (* '... missing type, command, or url' *)
| UnsupportedTransportType (type : string)            (* 'Unsupported transport type: ${type}' *)
| SseRequiresUrl                                      (* 'SSE transport requires a URL' *)
| HttpStreamRequiresUrl                               (* 'HTTP Stream transport requires a URL' *)
| StdioRequiresCommand                                (* 'Stdio transport requires a command' *)
| SseConnectFailed (url : string) (status : option Z) (message : option string)
| HttpConnectFailed (status : Z)                      (* 'Failed to connect: ${statusCode} ...' *)
| ProcessFailedToStart.                               (* 'Process failed to start' *)

(** How a promise of sendRequest is settled. *)
Inductive Settlement : Type :=
| Resolved (response : JsonValue)
| Rejected (reason : JsError).

(** The state of a promise of connect(). *)
Inductive PromiseState : Type :=
| Pending
| Fulfilled
| RejectedWith (reason : JsError).

(** The resolving functions of a promise act on the first call only. *)
Definition settle_promise (outcome : PromiseState) (p : PromiseState) : PromiseState :=
  match p with
  | Pending => outcome
  | _ => p
  end.

(* ------------------------------------------------------------------ *)
(** ** utils/jsonrpc.ts *)

Module JsonRpc.

(** JsonRpcRequest; the jsonrpc field is the constant '2.0'. *)
Record JsonRpcRequest : Type := {
  method : string;
  params : option JsonValue;
  id : RequestId
}.

(** generateRequestId: [++requestIdCounter] on the module variable. *)
Definition generateRequestId (requestIdCounter : Z) : Z * Z :=
  let n := (requestIdCounter + 1)%Z in (n, n).

Definition createRequest (method : string) (params : option JsonValue)
    (requestIdCounter : Z) : JsonRpcRequest * Z :=
  let (n, counter) := generateRequestId requestIdCounter in
  ({| method := method; params := params; id := IdNum n |}, counter).

(** typeof response !== 'object', given that response is not falsy. *)
Definition is_object (v : JsonValue) : bool :=
  match v with
  | JArr _ | JObj _ | JNull => true
  | _ => false
  end.

Definition validateResponse (response : JsonValue) : Exc JsError JsonValue :=
  if negb (truthy response) || negb (is_object response) then Throw ResponseNotAnObject
  else
    match prop response "jsonrpc" with
    | Some (JStr "2.0") =>
        match prop response "id" with
        | None => Throw ResponseMissingId
        | Some _ => Ok response
        end
    | _ => Throw ResponseBadVersion
    end.

Definition isErrorResponse (response : JsonValue) : bool :=
  match prop response "error" with
  | None => false
  | Some _ => true
  end.

End JsonRpc.
Export JsonRpc.

(* ------------------------------------------------------------------ *)
(** ** The runtime a transport runs on

    Each sendRequest call creates one promise and one timer and starts one
    sendMessage; all three are numbered from one counter.  A timer and a
    pending sendMessage keep what their callbacks close over. *)

Module Runtime.

(** A timer created by setTimeout in sendRequest; its callback closes over
    request.id and over reject of the promise [waiter]. *)
Record Timer : Type := {
  handle : nat;
  due : Z;
  timer_id : RequestId;
  timer_waiter : nat
}.

(** A sendMessage whose promise has not settled; its catch callback closes
    over request.id, the timer and reject of the promise [waiter]. *)
Record Send : Type := {
  send_call : nat;
  send_request : JsonRpcRequest;
  send_timeout : nat;
  send_waiter : nat
}.

(** Which piece of code called resolve or reject. *)
Inductive Source : Type :=
| ByResponse          (* handleResponse *)
| ByTimer             (* the callback of the timer *)
| BySendFailure       (* the catch callback of sendMessage *)
| ByCleanup.          (* cleanup *)

(** One call of resolve or reject of the promise [who]. *)
Record Settled : Type := {
  who : nat;
  source : Source;
  what : Settlement
}.

Record t : Type := {
  clock : Z;                                (* milliseconds *)
  timers : list Timer;                      (* live timers, oldest first *)
  settlements : list Settled;               (* calls of resolve and reject, oldest first *)
  sending : list Send;                      (* sendMessage promises not yet settled *)
  console : list JsError;                   (* console.error('Error handling response:', error) *)
  nextCall : nat
}.

Definition initial : t :=
  {| clock := 0; timers := []; settlements := []; sending := []; console := []; nextCall := 0 |}.

(** Node replaces a delay below 1 or above 2^31 - 1 by 1. *)
Definition timer_delay (ms : Z) : Z :=
  if ((ms <? 1) || (2147483647 <? ms))%Z then 1%Z else ms.

Definition setTimeout (h : nat) (ms : Z) (id : RequestId) (waiter : nat) (rt : t) : t :=
  {| clock := clock rt;
     timers := timers rt ++ [{| handle := h; due := (clock rt + timer_delay ms)%Z;
                                timer_id := id; timer_waiter := waiter |}];
     settlements := settlements rt; sending := sending rt; console := console rt;
     nextCall := nextCall rt |}.

Definition clearTimeout (h : nat) (rt : t) : t :=
  {| clock := clock rt;
     timers := filter (fun tm => negb (Nat.eqb (handle tm) h)) (timers rt);
     settlements := settlements rt; sending := sending rt; console := console rt;
     nextCall := nextCall rt |}.

(** A call of resolve or reject of promise [waiter]. *)
Definition settle (by_whom : Source) (waiter : nat) (s : Settlement) (rt : t) : t :=
  {| clock := clock rt; timers := timers rt;
     settlements := settlements rt ++ [{| who := waiter; source := by_whom; what := s |}];
     sending := sending rt; console := console rt; nextCall := nextCall rt |}.

Definition console_error (e : JsError) (rt : t) : t :=
  {| clock := clock rt; timers := timers rt; settlements := settlements rt;
     sending := sending rt; console := console rt ++ [e]; nextCall := nextCall rt |}.

Definition start_send (s : Send) (rt : t) : t :=
  {| clock := clock rt; timers := timers rt; settlements := settlements rt;
     sending := sending rt ++ [s]; console := console rt; nextCall := nextCall rt |}.

Definition finish_send (call : nat) (rt : t) : t :=
  {| clock := clock rt; timers := timers rt; settlements := settlements rt;
     sending := filter (fun s => negb (Nat.eqb (send_call s) call)) (sending rt);
     console := console rt; nextCall := nextCall rt |}.

Definition fresh (rt : t) : t :=
  {| clock := clock rt; timers := timers rt; settlements := settlements rt;
     sending := sending rt; console := console rt; nextCall := S (nextCall rt) |}.

(** The clock moves one millisecond on; the due timers leave the live ones. *)
Definition is_due (now : Z) (tm : Timer) : bool := (due tm <=? now)%Z.

Definition advance (rt : t) : t :=
  {| clock := (clock rt + 1)%Z;
     timers := filter (fun tm => negb (is_due (clock rt + 1) tm)) (timers rt);
     settlements := settlements rt; sending := sending rt; console := console rt;
     nextCall := nextCall rt |}.

(** The state of a promise: the first call of resolve or reject settles it,
    later calls do nothing. *)
Fixpoint first_settlement (waiter : nat) (log : list Settled) : option Settlement :=
  match log with
  | [] => None
  | c :: log' => if Nat.eqb (who c) waiter then Some (what c) else first_settlement waiter log'
  end.

Definition promise (rt : t) (waiter : nat) : option Settlement :=
  first_settlement waiter (settlements rt).

End Runtime.

(* ------------------------------------------------------------------ *)
(** ** transports/BaseTransport.ts *)

Module BaseTransport.

(** An entry of pendingRequests: resolve and reject are the resolving
    functions of promise [waiter]; [timeout] is the handle of the timer. *)
Record PendingRequest : Type := {
  waiter : nat;
  timeout : nat
}.

Record t : Type := {
  connected : bool;
  pendingRequests : JsMap.t RequestId PendingRequest;
  requestTimeout : Z;
  rt : Runtime.t
}.

(** The field initialisers of the class. *)
Definition create : t :=
  {| connected := false; pendingRequests := JsMap.empty; requestTimeout := 30000;
     rt := Runtime.initial |}.

Definition isConnected (this : t) : bool := connected this.

Definition with_rt (f : Runtime.t -> Runtime.t) (this : t) : t :=
  {| connected := connected this; pendingRequests := pendingRequests this;
     requestTimeout := requestTimeout this; rt := f (rt this) |}.

Definition with_pending
    (f : JsMap.t RequestId PendingRequest -> JsMap.t RequestId PendingRequest) (this : t) : t :=
  {| connected := connected this; pendingRequests := f (pendingRequests this);
     requestTimeout := requestTimeout this; rt := rt this |}.

Definition set_connected (b : bool) (this : t) : t :=
  {| connected := b; pendingRequests := pendingRequests this;
     requestTimeout := requestTimeout this; rt := rt this |}.

(** sendRequest up to the point where the caller is suspended: throws, or
    returns the number of the promise the caller awaits. *)
Definition sendRequest (request : JsonRpcRequest) (this : t) : t * Exc JsError nat :=
  if negb (connected this) then (this, Throw TransportNotConnected)
  else
    let n := Runtime.nextCall (rt this) in
    let this1 := with_rt (Runtime.setTimeout n (requestTimeout this) (id request) n) this in
    let this2 := with_pending (JsMap.set (id request) {| waiter := n; timeout := n |}) this1 in
    let this3 := with_rt (Runtime.start_send
                   {| Runtime.send_call := n; Runtime.send_request := request;
                      Runtime.send_timeout := n; Runtime.send_waiter := n |}) this2 in
    (with_rt Runtime.fresh this3, Ok n).

(** The callback of the timer. *)
Definition onTimeout (tm : Runtime.Timer) (this : t) : t :=
  let this1 := with_pending (JsMap.delete (Runtime.timer_id tm)) this in
  with_rt (Runtime.settle Runtime.ByTimer (Runtime.timer_waiter tm)
             (Rejected (RequestTimedOut (Runtime.timer_id tm) (requestTimeout this)))) this1.

(** The catch callback of sendMessage. *)
Definition onSendFailed (s : Runtime.Send) (error : JsError) (this : t) : t :=
  let this1 := with_pending (JsMap.delete (id (Runtime.send_request s))) this in
  let this2 := with_rt (Runtime.clearTimeout (Runtime.send_timeout s)) this1 in
  with_rt (Runtime.settle Runtime.BySendFailure (Runtime.send_waiter s) (Rejected error)) this2.

(** The key pendingRequests.get(response.id) looks up: a Map whose keys are
    strings and numbers has no entry for a value of another type. *)
Definition lookup_key (v : JsonValue) : option RequestId :=
  match v with
  | JNum n => Some (IdNum n)
  | JStr s => Some (IdStr s)
  | _ => None
  end.

Definition get_pending (v : JsonValue) (this : t) : option (RequestId * PendingRequest) :=
  match lookup_key v with
  | None => None
  | Some k =>
      match JsMap.get k (pendingRequests this) with
      | None => None
      | Some pending => Some (k, pending)
      end
  end.

(** The argument of pending.reject for an error response:
    [new Error(`JSON-RPC error ${response.error.code}: ${response.error.message}`)].
    Reading a property of null throws, and so does the conversion of a code
    or a message that has no string conversion. *)
Definition rejection (error : JsonValue) : Exc JsError JsError :=
  match error with
  | JNull => Throw TypeError
  | _ =>
      if stringifies_opt (prop error "code") && stringifies_opt (prop error "message") then
        Ok (JsonRpcErrorResponse (prop error "code") (prop error "message"))
      else Throw TypeError
  end.

(** The body of the try block of handleResponse once JSON.parse has returned
    [parsed]; a throw is what the catch clause receives.  The argument of
    pending.reject is evaluated after the entry was deleted and before reject
    is called. *)
Definition handleResponse_try (parsed : JsonValue) (this : t) : t * Exc JsError unit :=
  match validateResponse parsed with
  | Throw e => (this, Throw e)
  | Ok response =>
      if negb (truthy_opt (prop response "id")) then (this, Ok tt)
      else
        match prop response "id" with
        | None => (this, Ok tt)
        | Some rid =>
            match get_pending rid this with
            | None => (this, Ok tt)
            | Some (k, pending) =>
                let this1 := with_rt (Runtime.clearTimeout (timeout pending)) this in
                let this2 := with_pending (JsMap.delete k) this1 in
                if isErrorResponse response then
                  match prop response "error" with
                  | None => (this2, Throw TypeError)
                  | Some error =>
                      match rejection error with
                      | Throw e => (this2, Throw e)
                      | Ok reason =>
                          (with_rt (Runtime.settle Runtime.ByResponse (waiter pending)
                                      (Rejected reason)) this2,
                           Ok tt)
                      end
                  end
                else
                  (with_rt (Runtime.settle Runtime.ByResponse (waiter pending)
                              (Resolved response)) this2, Ok tt)
            end
        end
  end.

(** handleResponse on what JSON.parse made of the data: [None] when it threw
    a SyntaxError. *)
Definition handleParsed (parsed : option JsonValue) (this : t) : t :=
  match parsed with
  | None => with_rt (Runtime.console_error SyntaxError) this
  | Some v =>
      match handleResponse_try v this with
      | (this', Ok _) => this'
      | (this', Throw e) => with_rt (Runtime.console_error e) this'
      end
  end.

Definition cleanup_entry (r : Runtime.t) (entry : RequestId * PendingRequest) : Runtime.t :=
  Runtime.settle Runtime.ByCleanup (waiter (snd entry)) (Rejected TransportDisconnected)
    (Runtime.clearTimeout (timeout (snd entry)) r).

Definition cleanup (this : t) : t :=
  {| connected := false;
     pendingRequests := JsMap.empty;
     requestTimeout := requestTimeout this;
     rt := fold_left cleanup_entry (JsMap.entries (pendingRequests this)) (rt this) |}.

(** One millisecond passes and the callbacks of the due timers run, oldest
    timer first. *)
Definition tick (this : t) : t :=
  let now := (Runtime.clock (rt this) + 1)%Z in
  let fired := filter (Runtime.is_due now) (Runtime.timers (rt this)) in
  fold_left (fun acc tm => onTimeout tm acc) fired (with_rt Runtime.advance this).

Definition find_send (call : nat) (this : t) : option Runtime.Send :=
  find (fun s => Nat.eqb (Runtime.send_call s) call) (Runtime.sending (rt this)).

(** The promise sendMessage returned for call [call] settles. *)
Definition onSendSettled (call : nat) (failure : option JsError) (this : t) : t :=
  match find_send call this with
  | None => this
  | Some s =>
      let this1 := with_rt (Runtime.finish_send call) this in
      match failure with
      | None => this1
      | Some error => onSendFailed s error this1
      end
  end.

Section Steps.

(** JSON.parse: [None] when it throws. *)
Variable JSON_parse : string -> option JsonValue.

Definition handleResponse (data : string) (this : t) : t :=
  handleParsed (JSON_parse data) this.

(** What happens to a transport, as seen from the base class. *)
Inductive Event : Type :=
| Connects                                         (* a subclass sets this.connected = true *)
| Sends (request : JsonRpcRequest)                 (* a caller calls sendRequest *)
| Receives (data : string)                         (* a subclass calls handleResponse *)
| SendSettles (call : nat) (failure : option JsError)
| CleansUp                                         (* a subclass calls cleanup *)
| Ticks.                                           (* a millisecond passes *)

Definition step (this : t) (e : Event) : t :=
  match e with
  | Connects => set_connected true this
  | Sends request => fst (sendRequest request this)
  | Receives data => handleResponse data this
  | SendSettles call failure => onSendSettled call failure this
  | CleansUp => cleanup this
  | Ticks => tick this
  end.

Definition run (events : list Event) (this : t) : t := fold_left step events this.

End Steps.

(** The state of the promise sendRequest returned as call [n]. *)
Definition outcome (this : t) (n : nat) : option Settlement := Runtime.promise (rt this) n.

End BaseTransport.

(* ------------------------------------------------------------------ *)
(** ** Strings as the stream handlers use them *)

Module Text.

Definition newline : ascii := "010"%char.

(** The characters String.prototype.trim removes, among the code units below
    256: tab, line feed, vertical tab, form feed, carriage return, space and
    no-break space. *)
Definition is_whitespace (c : ascii) : bool :=
  let n := nat_of_ascii c in
  ((9 <=? n)%nat && (n <=? 13)%nat) || Nat.eqb n 32 || Nat.eqb n 160.

(** buffer.split('\n'): never empty. *)
Fixpoint split_newline (s : string) : list string :=
  match s with
  | EmptyString => [EmptyString]
  | String c s' =>
      if Ascii.eqb c newline then EmptyString :: split_newline s'
      else
        match split_newline s' with
        | [] => [String c EmptyString]
        | segment :: rest => String c segment :: rest
        end
  end.

Fixpoint trimStart (s : string) : string :=
  match s with
  | EmptyString => EmptyString
  | String c s' => if is_whitespace c then trimStart s' else s
  end.

Fixpoint trimEnd (s : string) : string :=
  match s with
  | EmptyString => EmptyString
  | String c s' =>
      match trimEnd s' with
      | EmptyString => if is_whitespace c then EmptyString else String c EmptyString
      | rest => String c rest
      end
  end.

Definition trim (s : string) : string := trimEnd (trimStart s).

(** A string is truthy when it is not empty. *)
Definition nonempty (s : string) : bool :=
  match s with
  | EmptyString => false
  | String _ _ => true
  end.

End Text.

(* ------------------------------------------------------------------ *)
(** ** handleStreamData

    HttpStreamTransport and StdioTransport carry the same method; it is
    written once here over the buffer and over whatever handleResponse acts
    on. *)

Module Framing.

Section HandleStreamData.
Context {S : Type}.
Variable handle : string -> S -> S.

(** The loop over the complete lines. *)
Definition process_line (s : S) (line : string) : S :=
  let trimmed := Text.trim line in
  if Text.nonempty trimmed then handle trimmed s else s.

Definition handleStreamData (chunk : string) (state : string * S) : string * S :=
  let buffer := (fst state ++ chunk)%string in
  let lines := Text.split_newline buffer in
  (* this.buffer = lines.pop() || '' *)
  let buffer' := last lines EmptyString in
  let lines' := removelast lines in
  (buffer', fold_left process_line lines' (snd state)).

(** The chunks of a stream, in the order the data events deliver them. *)
Definition feed (chunks : list string) (state : string * S) : string * S :=
  fold_left (fun st chunk => handleStreamData chunk st) chunks state.

End HandleStreamData.

(** The text the chunks make up. *)
Definition whole (chunks : list string) : string := fold_right String.append EmptyString chunks.

Definition no_newline (s : string) : bool :=
  match Text.split_newline s with
  | [_] => true
  | _ => false
  end.

(** The lines a whole text hands to handleResponse. *)
Definition delivered (text : string) : list string :=
  filter Text.nonempty (map Text.trim (removelast (Text.split_newline text))).

(** A handler that only records what it is called with. *)
Definition record (line : string) (calls : list string) : list string := calls ++ [line].

End Framing.

(* ------------------------------------------------------------------ *)
(** ** types.ts: server configuration *)

(** IMcpServerConfig as JSON.parse delivers it: a field that is absent is
    [None]. *)
Record IMcpServerConfig : Type := {
  cfg_type : option string;
  cfg_url : option string;
  cfg_command : option string;
  cfg_args : list string;
  cfg_headers : list (string * string);
  cfg_env : list (string * string)
}.

(** IMcpServersConfig: mcpServers in property order, [None] when absent. *)
Record IMcpServersConfig : Type := {
  mcpServers : option (list (string * IMcpServerConfig))
}.

(** Truthiness of an optional string field. *)
Definition present (field : option string) : bool :=
  match field with
  | None => false
  | Some s => Text.nonempty s
  end.

(** The promise of the last connect() call on a transport, when there was one. *)
Definition settle_connect (outcome : PromiseState) (call : option PromiseState)
    : option PromiseState :=
  option_map (settle_promise outcome) call.

(* ------------------------------------------------------------------ *)
(** ** transports/SseTransport.ts *)

Module SseTransport.

Record t : Type := {
  base : BaseTransport.t;
  eventSource : bool;                 (* this.eventSource is not null *)
  url : string;
  headers : list (string * string);
  messageEndpoint : option string;
  receivedEvent : bool;               (* the variable of the running connect() *)
  connectCall : option PromiseState
}.

Definition create (config : IMcpServerConfig) : Exc JsError t :=
  if negb (present (cfg_url config)) then Throw SseRequiresUrl
  else
    Ok {| base := BaseTransport.create; eventSource := false;
          url := match cfg_url config with Some u => u | None => EmptyString end;
          headers := cfg_headers config; messageEndpoint := None;
          receivedEvent := false; connectCall := None |}.

Definition with_base (f : BaseTransport.t -> BaseTransport.t) (this : t) : t :=
  {| base := f (base this); eventSource := eventSource this; url := url this;
     headers := headers this; messageEndpoint := messageEndpoint this;
     receivedEvent := receivedEvent this; connectCall := connectCall this |}.

(** The error object an error event carries: its status when it has one, and
    its message. *)
Record ErrorInfo : Type := {
  status : option Z;
  message : option string
}.

Inductive Event : Type :=
| EndpointEvent (data : string)
| OpenEvent
| MessageEvent (data : string)
| ErrorEvent (error : ErrorInfo).

(** connect() up to the return of the promise; [constructed] tells whether
    [new EventSource] returned or threw. *)
Definition connect (constructed : Exc JsError unit) (this : t) : t :=
  if BaseTransport.connected (base this) then
    {| base := base this; eventSource := eventSource this; url := url this;
       headers := headers this; messageEndpoint := messageEndpoint this;
       receivedEvent := receivedEvent this; connectCall := Some Fulfilled |}
  else
    match constructed with
    | Throw e =>
        {| base := base this; eventSource := eventSource this; url := url this;
           headers := headers this; messageEndpoint := messageEndpoint this;
           receivedEvent := receivedEvent this; connectCall := Some (RejectedWith e) |}
    | Ok _ =>
        {| base := base this; eventSource := true; url := url this;
           headers := headers this; messageEndpoint := messageEndpoint this;
           receivedEvent := false; connectCall := Some Pending |}
    end.

Definition handleDisconnect (this : t) : t := with_base BaseTransport.cleanup this.

Definition connect_error (this : t) (error : ErrorInfo) : JsError :=
  SseConnectFailed (url this) (status error)
    (if present (message error) then message error else None).

Section Handlers.
Variable JSON_parse : string -> option JsonValue.

(** The listeners connect() installs on the EventSource. *)
Definition onEndpoint (data : string) (this : t) : t :=
  {| base := BaseTransport.set_connected true (base this);
     eventSource := eventSource this; url := url this; headers := headers this;
     messageEndpoint := Some data; receivedEvent := true;
     connectCall := settle_connect Fulfilled (connectCall this) |}.

Definition onMessage (data : string) (this : t) : t :=
  {| base := BaseTransport.handleResponse JSON_parse data (base this);
     eventSource := eventSource this; url := url this; headers := headers this;
     messageEndpoint := messageEndpoint this; receivedEvent := true;
     connectCall := connectCall this |}.

Definition onError (error : ErrorInfo) (this : t) : t :=
  if negb (BaseTransport.connected (base this)) && negb (receivedEvent this) then
    {| base := base this; eventSource := false; url := url this; headers := headers this;
       messageEndpoint := messageEndpoint this; receivedEvent := receivedEvent this;
       connectCall := settle_connect (RejectedWith (connect_error this error)) (connectCall this) |}
  else handleDisconnect this.

(** An EventSource that was closed, or never made, dispatches nothing. *)
Definition dispatch (this : t) (e : Event) : t :=
  if negb (eventSource this) then this
  else
    match e with
    | EndpointEvent data => onEndpoint data this
    | OpenEvent => this
    | MessageEvent data => onMessage data this
    | ErrorEvent error => onError error this
    end.

Definition run (events : list Event) (this : t) : t := fold_left dispatch events this.

End Handlers.

Definition disconnect (this : t) : t :=
  with_base BaseTransport.cleanup
    {| base := base this; eventSource := false; url := url this; headers := headers this;
       messageEndpoint := messageEndpoint this; receivedEvent := receivedEvent this;
       connectCall := connectCall this |}.

End SseTransport.

(* ------------------------------------------------------------------ *)
(** ** transports/HttpStreamTransport.ts *)

Module HttpStreamTransport.

Record t : Type := {
  base : BaseTransport.t;
  url : string;
  headers : list (string * string);
  responseStream : bool;              (* this.responseStream is not null *)
  buffer : string;
  connectCall : option PromiseState
}.

Definition create (config : IMcpServerConfig) : Exc JsError t :=
  if negb (present (cfg_url config)) then Throw HttpStreamRequiresUrl
  else
    Ok {| base := BaseTransport.create;
          url := match cfg_url config with Some u => u | None => EmptyString end;
          headers := cfg_headers config; responseStream := false;
          buffer := EmptyString; connectCall := None |}.

Definition with_base (f : BaseTransport.t -> BaseTransport.t) (this : t) : t :=
  {| base := f (base this); url := url this; headers := headers this;
     responseStream := responseStream this; buffer := buffer this;
     connectCall := connectCall this |}.

Definition with_connectCall (c : option PromiseState) (this : t) : t :=
  {| base := base this; url := url this; headers := headers this;
     responseStream := responseStream this; buffer := buffer this; connectCall := c |}.

Inductive Event : Type :=
| Response (statusCode : Z)
| RequestError (error : JsError)
| StreamData (chunk : string)
| StreamEnds
| StreamError (error : JsError).

(** connect() up to the return of the promise; [requested] tells whether
    building the request returned or threw. *)
Definition connect (requested : Exc JsError unit) (this : t) : t :=
  if BaseTransport.connected (base this) then with_connectCall (Some Fulfilled) this
  else
    match requested with
    | Throw e => with_connectCall (Some (RejectedWith e)) this
    | Ok _ => with_connectCall (Some Pending) this
    end.

Definition handleDisconnect (this : t) : t := with_base BaseTransport.cleanup this.

Section Handlers.
Variable JSON_parse : string -> option JsonValue.

Definition handleStreamData (chunk : string) (this : t) : t :=
  let (buffer', base') :=
    Framing.handleStreamData (BaseTransport.handleResponse JSON_parse) chunk
      (buffer this, base this) in
  {| base := base'; url := url this; headers := headers this;
     responseStream := responseStream this; buffer := buffer';
     connectCall := connectCall this |}.

(** The data events of a stream, in order. *)
Definition feed (chunks : list string) (this : t) : t :=
  fold_left (fun acc chunk => handleStreamData chunk acc) chunks this.

Definition onResponse (statusCode : Z) (this : t) : t :=
  if negb (statusCode =? 200)%Z then
    with_connectCall (settle_connect (RejectedWith (HttpConnectFailed statusCode))
                        (connectCall this)) this
  else
    {| base := BaseTransport.set_connected true (base this); url := url this;
       headers := headers this; responseStream := true; buffer := buffer this;
       connectCall := settle_connect Fulfilled (connectCall this) |}.

(** The request exists once connect() was called; the listeners on the
    response exist while the response stream does. *)
Definition dispatch (this : t) (e : Event) : t :=
  match e with
  | Response statusCode =>
      match connectCall this with
      | None => this
      | Some _ => onResponse statusCode this
      end
  | RequestError error =>
      with_connectCall (settle_connect (RejectedWith error) (connectCall this)) this
  | StreamData chunk => if responseStream this then handleStreamData chunk this else this
  | StreamEnds => if responseStream this then handleDisconnect this else this
  | StreamError _ => if responseStream this then handleDisconnect this else this
  end.

End Handlers.

Definition disconnect (this : t) : t :=
  with_base BaseTransport.cleanup
    {| base := base this; url := url this; headers := headers this;
       responseStream := false; buffer := buffer this; connectCall := connectCall this |}.

End HttpStreamTransport.

(* ------------------------------------------------------------------ *)
(** ** transports/StdioTransport.ts *)

Module StdioTransport.

Record ChildProcess : Type := { killed : bool }.

Record t : Type := {
  base : BaseTransport.t;
  process : option ChildProcess;
  command : string;
  args : list string;
  env : list (string * string);
  buffer : string;
  connectCall : option PromiseState
}.

Definition create (config : IMcpServerConfig) : Exc JsError t :=
  if negb (present (cfg_command config)) then Throw StdioRequiresCommand
  else
    Ok {| base := BaseTransport.create; process := None;
          command := match cfg_command config with Some c => c | None => EmptyString end;
          args := cfg_args config; env := cfg_env config;
          buffer := EmptyString; connectCall := None |}.

Definition with_base (f : BaseTransport.t -> BaseTransport.t) (this : t) : t :=
  {| base := f (base this); process := process this; command := command this;
     args := args this; env := env this; buffer := buffer this;
     connectCall := connectCall this |}.

Definition with_connectCall (c : option PromiseState) (this : t) : t :=
  {| base := base this; process := process this; command := command this;
     args := args this; env := env this; buffer := buffer this; connectCall := c |}.

Definition with_process (p : option ChildProcess) (this : t) : t :=
  {| base := base this; process := p; command := command this;
     args := args this; env := env this; buffer := buffer this;
     connectCall := connectCall this |}.

Inductive Event : Type :=
| Stdout (data : string)
| Stderr (data : string)
| ProcessError (error : JsError)
| ProcessExit (code : option Z) (signal : option string)
| StartTimer.                          (* the 100 ms timer of connect() *)

(** connect() up to the return of the promise; [spawned] tells whether spawn
    returned or threw. *)
Definition connect (spawned : Exc JsError unit) (this : t) : t :=
  if BaseTransport.connected (base this) then with_connectCall (Some Fulfilled) this
  else
    match spawned with
    | Throw e => with_connectCall (Some (RejectedWith e)) this
    | Ok _ => with_connectCall (Some Pending) (with_process (Some {| killed := false |}) this)
    end.

Definition handleDisconnect (this : t) : t := with_base BaseTransport.cleanup this.

Section Handlers.
Variable JSON_parse : string -> option JsonValue.

Definition handleStreamData (chunk : string) (this : t) : t :=
  let (buffer', base') :=
    Framing.handleStreamData (BaseTransport.handleResponse JSON_parse) chunk
      (buffer this, base this) in
  {| base := base'; process := process this; command := command this;
     args := args this; env := env this; buffer := buffer';
     connectCall := connectCall this |}.

(** The data events of standard output, in order. *)
Definition feed (chunks : list string) (this : t) : t :=
  fold_left (fun acc chunk => handleStreamData chunk acc) chunks this.

Definition onProcessError (error : JsError) (this : t) : t :=
  if negb (BaseTransport.connected (base this)) then
    with_connectCall (settle_connect (RejectedWith error) (connectCall this)) this
  else handleDisconnect this.

Definition onStartTimer (this : t) : t :=
  match process this with
  | Some p =>
      if negb (killed p) then
        with_connectCall (settle_connect Fulfilled (connectCall this))
          (with_base (BaseTransport.set_connected true) this)
      else
        with_connectCall (settle_connect (RejectedWith ProcessFailedToStart) (connectCall this)) this
  | None =>
      with_connectCall (settle_connect (RejectedWith ProcessFailedToStart) (connectCall this)) this
  end.

(** The listeners exist once connect() has spawned the process. *)
Definition dispatch (this : t) (e : Event) : t :=
  match connectCall this with
  | None => this
  | Some _ =>
      match e with
      | Stdout data => handleStreamData data this
      | Stderr _ => this
      | ProcessError error => onProcessError error this
      | ProcessExit _ _ => handleDisconnect this
      | StartTimer => onStartTimer this
      end
  end.

End Handlers.

Definition disconnect (this : t) : t :=
  with_base BaseTransport.cleanup (with_process None this).

End StdioTransport.

(* ------------------------------------------------------------------ *)
(** ** types.ts: ITransport *)

(** The interface the client programs against.  [connect] is the call up to
    the return of its promise, [connectCall] the state of that promise;
    sendRequest and isConnected are the methods of the base class. *)
Class ITransport (T : Type) : Type := {
  base : T -> BaseTransport.t;
  with_base : (BaseTransport.t -> BaseTransport.t) -> T -> T;
  connect : Exc JsError unit -> T -> T;
  disconnect : T -> T;
  connectCall : T -> option PromiseState
}.

#[export] Instance SseTransport_ITransport : ITransport SseTransport.t := {|
  base := SseTransport.base;
  with_base := SseTransport.with_base;
  connect := SseTransport.connect;
  disconnect := SseTransport.disconnect;
  connectCall := SseTransport.connectCall
|}.

#[export] Instance HttpStreamTransport_ITransport : ITransport HttpStreamTransport.t := {|
  base := HttpStreamTransport.base;
  with_base := HttpStreamTransport.with_base;
  connect := HttpStreamTransport.connect;
  disconnect := HttpStreamTransport.disconnect;
  connectCall := HttpStreamTransport.connectCall
|}.

#[export] Instance StdioTransport_ITransport : ITransport StdioTransport.t := {|
  base := StdioTransport.base;
  with_base := StdioTransport.with_base;
  connect := StdioTransport.connect;
  disconnect := StdioTransport.disconnect;
  connectCall := StdioTransport.connectCall
|}.

(** A transport object of one of the three classes. *)
Inductive Transport : Type :=
| Sse (this : SseTransport.t)
| HttpStream (this : HttpStreamTransport.t)
| Stdio (this : StdioTransport.t).

#[export] Instance Transport_ITransport : ITransport Transport := {|
  base tr := match tr with Sse s => base s | HttpStream h => base h | Stdio p => base p end;
  with_base f tr :=
    match tr with
    | Sse s => Sse (with_base f s)
    | HttpStream h => HttpStream (with_base f h)
    | Stdio p => Stdio (with_base f p)
    end;
  connect opened tr :=
    match tr with
    | Sse s => Sse (connect opened s)
    | HttpStream h => HttpStream (connect opened h)
    | Stdio p => Stdio (connect opened p)
    end;
  disconnect tr :=
    match tr with
    | Sse s => Sse (disconnect s)
    | HttpStream h => HttpStream (disconnect h)
    | Stdio p => Stdio (disconnect p)
    end;
  connectCall tr :=
    match tr with
    | Sse s => connectCall s
    | HttpStream h => connectCall h
    | Stdio p => connectCall p
    end
|}.

Definition isConnected {T} `{ITransport T} (tr : T) : bool :=
  BaseTransport.isConnected (base tr).

Definition sendRequest {T} `{ITransport T} (request : JsonRpcRequest) (tr : T)
    : T * Exc JsError nat :=
  let result := BaseTransport.sendRequest request (base tr) in
  (with_base (fun _ => fst result) tr, snd result).

(** What the runtime and the channel of a transport can make happen to it. *)
Inductive TransportEvent : Type :=
| TimePasses
| SendSettles (call : nat) (failure : option JsError)
| FromEventSource (e : SseTransport.Event)
| FromHttp (e : HttpStreamTransport.Event)
| FromProcess (e : StdioTransport.Event).

Definition dispatch (JSON_parse : string -> option JsonValue) (tr : Transport)
    (e : TransportEvent) : Transport :=
  match e, tr with
  | TimePasses, _ => with_base BaseTransport.tick tr
  | SendSettles call failure, _ => with_base (BaseTransport.onSendSettled call failure) tr
  | FromEventSource e, Sse s => Sse (SseTransport.dispatch JSON_parse s e)
  | FromHttp e, HttpStream h => HttpStream (HttpStreamTransport.dispatch JSON_parse h e)
  | FromProcess e, Stdio p => Stdio (StdioTransport.dispatch JSON_parse p e)
  | _, _ => tr
  end.

(* ------------------------------------------------------------------ *)
(** ** client/McpClient.ts *)

Module McpClient.

(** One of the async closures connect() maps over the configured servers:
    [job_transport] is the transport it made, when createTransport returned;
    [job_state] is the state of the promise of the closure. *)
Record ConnectJob : Type := {
  job_name : string;
  job_transport : option nat;
  job_state : PromiseState
}.

(** A call of connect() that another call has followed: the state of its
    promise and its closures, which go on running. *)
Record ConnectCall : Type := {
  call_result : PromiseState;
  call_jobs : list ConnectJob
}.

(** The client, the transport objects it made ([heap], a transport is
    referred to by its position) and the counter of utils/jsonrpc. *)
Record t : Type := {
  servers : JsMap.t string nat;
  heap : list Transport;
  requestIdCounter : Z;
  connectJobs : list ConnectJob;            (* the closures of the last connect() *)
  connectResult : option PromiseState;      (* the promise of the last connect() *)
  earlierCalls : list ConnectCall           (* the calls of connect() before it, oldest first *)
}.

Definition create : t :=
  {| servers := JsMap.empty; heap := []; requestIdCounter := 0;
     connectJobs := []; connectResult := None; earlierCalls := [] |}.

Definition createTransport (config : IMcpServerConfig) : Exc JsError Transport :=
  do type <-
    (if present (cfg_type config) then
       match cfg_type config with Some ty => Ok ty | None => Throw InvalidServerConfiguration end
     else if present (cfg_command config) then Ok "stdio"
     else if present (cfg_url config) then Ok "sse"
     else Throw InvalidServerConfiguration);
  if (type =? "sse")%string then
    do s <- SseTransport.create config; Ok (Sse s)
  else if (type =? "httpStream")%string then
    do h <- HttpStreamTransport.create config; Ok (HttpStream h)
  else if (type =? "stdio")%string then
    do p <- StdioTransport.create config; Ok (Stdio p)
  else Throw (UnsupportedTransportType type).

Definition with_heap (h : list Transport) (c : t) : t :=
  {| servers := servers c; heap := h; requestIdCounter := requestIdCounter c;
     connectJobs := connectJobs c; connectResult := connectResult c;
     earlierCalls := earlierCalls c |}.

Definition with_servers (s : JsMap.t string nat) (c : t) : t :=
  {| servers := s; heap := heap c; requestIdCounter := requestIdCounter c;
     connectJobs := connectJobs c; connectResult := connectResult c;
     earlierCalls := earlierCalls c |}.

Definition with_counter (n : Z) (c : t) : t :=
  {| servers := servers c; heap := heap c; requestIdCounter := n;
     connectJobs := connectJobs c; connectResult := connectResult c;
     earlierCalls := earlierCalls c |}.

Definition with_jobs (jobs : list ConnectJob) (c : t) : t :=
  {| servers := servers c; heap := heap c; requestIdCounter := requestIdCounter c;
     connectJobs := jobs; connectResult := connectResult c;
     earlierCalls := earlierCalls c |}.

Definition with_result (r : option PromiseState) (c : t) : t :=
  {| servers := servers c; heap := heap c; requestIdCounter := requestIdCounter c;
     connectJobs := connectJobs c; connectResult := r;
     earlierCalls := earlierCalls c |}.

Definition with_earlier (calls : list ConnectCall) (c : t) : t :=
  {| servers := servers c; heap := heap c; requestIdCounter := requestIdCounter c;
     connectJobs := connectJobs c; connectResult := connectResult c;
     earlierCalls := calls |}.

(** Replace the transport at a position. *)
Fixpoint update {A : Type} (i : nat) (x : A) (l : list A) : list A :=
  match l, i with
  | [], _ => []
  | _ :: l', O => x :: l'
  | y :: l', S i' => y :: update i' x l'
  end.

Definition on_transport (ref : nat) (f : Transport -> Transport) (c : t) : t :=
  match nth_error (heap c) ref with
  | None => c
  | Some tr => with_heap (update ref (f tr) (heap c)) c
  end.

(** *** connect *)

(** The closure for one server up to its await: createTransport, then
    transport.connect().  [opened] tells, per server, whether opening the
    channel returned or threw. *)
Definition start_job (opened : string -> Exc JsError unit) (c : t)
    (entry : string * IMcpServerConfig) : t :=
  let (serverName, serverConfig) := entry in
  match createTransport serverConfig with
  | Throw e =>
      with_result (settle_connect (RejectedWith e) (connectResult c))
        (with_jobs (connectJobs c ++
           [{| job_name := serverName; job_transport := None; job_state := RejectedWith e |}]) c)
  | Ok transport =>
      let ref := List.length (heap c) in
      with_jobs (connectJobs c ++
          [{| job_name := serverName; job_transport := Some ref; job_state := Pending |}])
        (with_heap (heap c ++ [connect (opened serverName) transport]) c)
  end.

(** The closure of a job after its await, once the promise of
    transport.connect() has settled. *)
Definition resume_job (c : t) (job : ConnectJob) : t * ConnectJob :=
  match job_state job, job_transport job with
  | Pending, Some ref =>
      match option_map connectCall (nth_error (heap c) ref) with
      | Some (Some Fulfilled) =>
          (with_servers (JsMap.set (job_name job) ref (servers c)) c,
           {| job_name := job_name job; job_transport := Some ref; job_state := Fulfilled |})
      | Some (Some (RejectedWith e)) =>
          (with_result (settle_connect (RejectedWith e) (connectResult c)) c,
           {| job_name := job_name job; job_transport := Some ref; job_state := RejectedWith e |})
      | _ => (c, job)
      end
  | _, _ => (c, job)
  end.

Fixpoint resume_jobs (c : t) (jobs : list ConnectJob) : t * list ConnectJob :=
  match jobs with
  | [] => (c, [])
  | job :: rest =>
      let (c1, job') := resume_job c job in
      let (c2, rest') := resume_jobs c1 rest in
      (c2, job' :: rest')
  end.

Definition is_fulfilled (job : ConnectJob) : bool :=
  match job_state job with
  | Fulfilled => true
  | _ => false
  end.

(** Run the closures of the last connect() that can continue; its
    Promise.all fulfils once every closure has. *)
Definition resume_last (c : t) : t :=
  let (c1, jobs) := resume_jobs c (connectJobs c) in
  let c2 := with_jobs jobs c1 in
  if forallb is_fulfilled jobs then
    with_result (settle_connect Fulfilled (connectResult c2)) c2
  else c2.

(** The closures of an earlier call run the same code on the same registry
    and settle the promise of their own call: they are run in the place of
    the last call, which is put back afterwards. *)
Definition resume_earlier (c : t) (call : ConnectCall) : t * ConnectCall :=
  let c1 := resume_last (with_result (Some (call_result call)) (with_jobs (call_jobs call) c)) in
  (with_result (connectResult c) (with_jobs (connectJobs c) c1),
   {| call_result := match connectResult c1 with
                     | Some p => p
                     | None => call_result call
                     end;
      call_jobs := connectJobs c1 |}).

Fixpoint resume_earlier_calls (c : t) (calls : list ConnectCall) : t * list ConnectCall :=
  match calls with
  | [] => (c, [])
  | call :: rest =>
      let (c1, call') := resume_earlier c call in
      let (c2, rest') := resume_earlier_calls c1 rest in
      (c2, call' :: rest')
  end.

(** Run every closure that can continue, those of the earlier calls of
    connect() first. *)
Definition resume (c : t) : t :=
  let (c1, calls) := resume_earlier_calls c (earlierCalls c) in
  resume_last (with_earlier calls c1).

(** A call of connect() begins, with a pending promise and no closure yet:
    the call before it, when there was one, joins the earlier calls. *)
Definition begin_connect (c : t) : t :=
  {| servers := servers c; heap := heap c; requestIdCounter := requestIdCounter c;
     connectJobs := []; connectResult := Some Pending;
     earlierCalls :=
       match connectResult c with
       | Some p => earlierCalls c ++ [{| call_result := p; call_jobs := connectJobs c |}]
       | None => earlierCalls c
       end |}.

(** connect() once loadConfig has settled, up to the point where it awaits
    Promise.all.  [loaded] is what loadConfig returned or threw. *)
Definition connect (loaded : Exc JsError IMcpServersConfig)
    (opened : string -> Exc JsError unit) (c : t) : t :=
  match loaded with
  | Throw e => with_result (Some (RejectedWith e)) (begin_connect c)
  | Ok config =>
      match mcpServers config with
      | None | Some [] => with_result (Some (RejectedWith NoServersConfigured)) (begin_connect c)
      | Some entries => resume (fold_left (start_job opened) entries (begin_connect c))
      end
  end.

(** An event reaches the transport at [ref]; then the closures waiting on
    it continue. *)
Definition deliver (JSON_parse : string -> option JsonValue) (c : t)
    (event : nat * TransportEvent) : t :=
  resume (on_transport (fst event) (fun tr => dispatch JSON_parse tr (snd event)) c).

Definition run (JSON_parse : string -> option JsonValue) (events : list (nat * TransportEvent))
    (c : t) : t :=
  fold_left (deliver JSON_parse) events c.

(** *** disconnect *)

Definition disconnect (c : t) : t :=
  let c1 := fold_left (fun acc entry => on_transport (snd entry) disconnect acc)
              (JsMap.entries (servers c)) c in
  with_servers JsMap.empty c1.

(** *** listTools, listResources, listPrompts *)

(** The closure for one server up to its await: the number of the promise of
    sendRequest, or what sendRequest threw. *)
Record ListJob : Type := {
  list_server : string;
  list_transport : nat;
  list_call : Exc JsError nat
}.

Definition list_start_one (method : string) (acc : t * list ListJob) (entry : string * nat)
    : t * list ListJob :=
  let (c, jobs) := acc in
  let (serverName, ref) := entry in
  let (request, counter) := createRequest method (Some (JObj [])) (requestIdCounter c) in
  let c1 := with_counter counter c in
  match nth_error (heap c1) ref with
  | None =>
      (c1, jobs ++ [{| list_server := serverName; list_transport := ref;
                       list_call := Throw TypeError |}])
  | Some tr =>
      let (tr', result) := sendRequest request tr in
      (with_heap (update ref tr' (heap c1)) c1,
       jobs ++ [{| list_server := serverName; list_transport := ref; list_call := result |}])
  end.

Definition list_start (method : string) (c : t) : t * list ListJob :=
  fold_left (list_start_one method) (JsMap.entries (servers c)) (c, []).

(** The spread of a value into an object literal: the own enumerable
    properties. *)
Definition index_name (i : nat) : string := NilEmpty.string_of_uint (Nat.to_uint i).

Fixpoint indexed {A : Type} (i : nat) (l : list A) : list (string * A) :=
  match l with
  | [] => []
  | x :: l' => (index_name i, x) :: indexed (S i) l'
  end.

Fixpoint characters (s : string) : list JsonValue :=
  match s with
  | EmptyString => []
  | String c s' => JStr (String c EmptyString) :: characters s'
  end.

Definition spread (v : JsonValue) : list (string * JsonValue) :=
  match v with
  | JObj fields => fields
  | JArr items => indexed 0 items
  | JStr s => indexed 0 (characters s)
  | _ => []
  end.

(** [{ ...item, serverName }] *)
Definition tag (serverName : string) (item : JsonValue) : JsonValue :=
  JObj (JsMap.set "serverName" (JStr serverName) (spread item)).

(** The try block after the await, for the list under [key] of the result. *)
Definition list_items (key serverName : string) (response : JsonValue)
    : Exc JsError (list JsonValue) :=
  match prop response "result" with
  | None => Ok []
  | Some result =>
      if negb (truthy result) then Ok []
      else
        match prop result key with
        | None => Ok []
        | Some items =>
            if negb (truthy items) then Ok []
            else
              match items with
              | JArr l => Ok (map (tag serverName) l)
              | _ => Throw TypeError           (* items.map is not a function *)
              end
        end
  end.

(** The try block of the closure of one server: what it returns, or what it
    throws (sendRequest threw, the awaited promise was rejected, or the block
    after the await threw); [None] while the promise of sendRequest is not
    settled. *)
Definition list_try (key : string) (c : t) (job : ListJob)
    : option (Exc JsError (list JsonValue)) :=
  match list_call job with
  | Throw e => Some (Throw e)
  | Ok n =>
      match nth_error (heap c) (list_transport job) with
      | None => None
      | Some tr =>
          match BaseTransport.outcome (base tr) n with
          | None => None
          | Some (Rejected e) => Some (Throw e)
          | Some (Resolved response) => Some (list_items key (list_server job) response)
          end
      end
  end.

(** What the closure of one server returns: the catch clause logs the error
    and returns []. *)
Definition list_result (key : string) (c : t) (job : ListJob) : option (list JsonValue) :=
  match list_try key c job with
  | None => None
  | Some (Ok items) => Some items
  | Some (Throw _) => Some []
  end.

(** Promise.all over the closures, then flat(): [None] while a closure is
    suspended. *)
Fixpoint list_finish (key : string) (c : t) (jobs : list ListJob) : option (list JsonValue) :=
  match jobs with
  | [] => Some []
  | job :: rest =>
      match list_result key c job, list_finish key c rest with
      | Some items, Some more => Some (items ++ more)
      | _, _ => None
      end
  end.

Definition listTools_start : t -> t * list ListJob := list_start "tools/list".
Definition listTools_finish : t -> list ListJob -> option (list JsonValue) := list_finish "tools".
Definition listResources_start : t -> t * list ListJob := list_start "resources/list".
Definition listResources_finish : t -> list ListJob -> option (list JsonValue) :=
  list_finish "resources".
Definition listPrompts_start : t -> t * list ListJob := list_start "prompts/list".
Definition listPrompts_finish : t -> list ListJob -> option (list JsonValue) :=
  list_finish "prompts".

(** *** callTool, readResource, getPrompt *)

(** A call up to its await: it threw, or it awaits promise [call] of the
    transport at [ref]. *)
Inductive Call : Type :=
| Threw (e : JsError)
| Awaits (ref call : nat).

Definition call_start (serverName method : string) (params : JsonValue) (c : t) : t * Call :=
  match JsMap.get serverName (servers c) with
  | None => (c, Threw (ServerNotFound serverName))
  | Some ref =>
      let (request, counter) := createRequest method (Some params) (requestIdCounter c) in
      let c1 := with_counter counter c in
      match nth_error (heap c1) ref with
      | None => (c1, Threw TypeError)
      | Some tr =>
          let (tr', result) := sendRequest request tr in
          (with_heap (update ref tr' (heap c1)) c1,
           match result with
           | Throw e => Threw e
           | Ok n => Awaits ref n
           end)
      end
  end.

(** The call after its await: [None] while the promise is not settled. *)
Definition call_finish (failed : option JsonValue -> JsError) (c : t) (ref call : nat)
    : option (Exc JsError (option JsonValue)) :=
  match nth_error (heap c) ref with
  | None => None
  | Some tr =>
      match BaseTransport.outcome (base tr) call with
      | None => None
      | Some (Rejected e) => Some (Throw e)
      | Some (Resolved response) =>
          match prop response "error" with
          | Some error =>
              if truthy error then Some (Throw (failed (prop error "message")))
              else Some (Ok (prop response "result"))
          | None => Some (Ok (prop response "result"))
          end
      end
  end.

(** A property whose value may be undefined. *)
Definition optional (name : string) (v : option JsonValue) : list (string * JsonValue) :=
  match v with
  | None => []
  | Some v => [(name, v)]
  end.

Definition callTool (serverName toolName : string) (params : option JsonValue) (c : t)
    : t * Call :=
  call_start serverName "tools/call"
    (JObj (("name", JStr toolName) :: optional "arguments" params)) c.

Definition readResource (serverName uri : string) (c : t) : t * Call :=
  call_start serverName "resources/read" (JObj [("uri", JStr uri)]) c.

Definition getPrompt (serverName promptName : string) (args : option JsonValue) (c : t)
    : t * Call :=
  call_start serverName "prompts/get"
    (JObj (("name", JStr promptName) :: optional "arguments" args)) c.

(** *** getConnectedServers, isServerConnected *)

Definition getConnectedServers (c : t) : list string := JsMap.keys (servers c).

Definition isServerConnected (serverName : string) (c : t) : bool :=
  match JsMap.get serverName (servers c) with
  | None => false
  | Some ref =>
      match nth_error (heap c) ref with
      | None => false
      | Some tr => isConnected tr
      end
  end.

End McpClient.

(* ------------------------------------------------------------------ *)
(** ** utils/jsonrpc.ts: the counter over several calls *)

(** Successive calls of createRequest, each with its method and its params;
    the module variable requestIdCounter is threaded through. *)
Fixpoint createRequests (calls : list (string * option JsonValue)) (requestIdCounter : Z)
    : list JsonRpcRequest * Z :=
  match calls with
  | [] => ([], requestIdCounter)
  | (method, params) :: rest =>
      let (request, counter) := createRequest method params requestIdCounter in
      let (requests, counter') := createRequests rest counter in
      (request :: requests, counter')
  end.

(** Number.MAX_SAFE_INTEGER: up to it ++ on a number is exact. *)
Definition MAX_SAFE_INTEGER : Z := 9007199254740991.

(* ------------------------------------------------------------------ *)
(** ** sendMessage of the transports, up to the call that leaves the process *)

(** The errors sendMessage throws before it sends anything. *)
Inductive SendMessageError : Type :=
| MessageEndpointNotAvailable   (* 'Message endpoint not available. Connection may not be fully established.' *)
| ProcessNotAvailable           (* 'Process not available' *)
| InvalidUrl (e : JsError).     (* new URL(this.url) threw *)

Module SseSendMessage.
Import SseTransport.

Section Send.
(** [URL_origin u] is what `${urlObj.protocol}//${urlObj.host}` evaluates to
    for [urlObj = new URL(u)], or what [new URL(u)] throws. *)
Variable URL_origin : string -> Exc JsError string.

(** SseTransport.sendMessage up to the call of fetch: the URL the message is
    POSTed to, or the throw. *)
Definition sendMessage (this : t) : Exc SendMessageError string :=
  match messageEndpoint this with
  | None => Throw MessageEndpointNotAvailable
  | Some endpoint =>
      if negb (Text.nonempty endpoint) then Throw MessageEndpointNotAvailable
      else
        match URL_origin (url this) with
        | Throw e => Throw (InvalidUrl e)
        | Ok origin => Ok (origin ++ endpoint)%string
        end
  end.

End Send.

End SseSendMessage.

Module StdioSendMessage.
Import StdioTransport.

(** StdioTransport.sendMessage up to the write: what is written to the
    standard input of the process (a pipe, by the stdio option of spawn), or
    the throw. *)
Definition sendMessage (message : string) (this : t) : Exc SendMessageError string :=
  match process this with
  | None => Throw ProcessNotAvailable
  | Some _ => Ok (message ++ String Text.newline EmptyString)%string
  end.

End StdioSendMessage.


(* ------------------------------------------------------------------ *)
(** ** Vocabulary of the statements about a transport *)

Module Correlation.
Import BaseTransport.

(** The entry of the table a frame is answered to: the frame parses to a
    JSON-RPC 2.0 response object that has an id, the id is truthy, and it is a
    key of the table. *)
Definition correlates (parsed : option JsonValue) (this : t)
    : option (RequestId * PendingRequest) :=
  match parsed with
  | None => None
  | Some v =>
      match validateResponse v with
      | Throw _ => None
      | Ok response =>
          match prop response "id" with
          | None => None
          | Some rid => if truthy rid then get_pending rid this else None
          end
      end
  end.

(** The frame is not JSON, or not an object with jsonrpc '2.0' and an id. *)
Definition malformed (parsed : option JsonValue) : option JsError :=
  match parsed with
  | None => Some SyntaxError
  | Some v =>
      match validateResponse v with
      | Throw e => Some e
      | Ok _ => None
      end
  end.

(** What handleResponse hands to resolve or reject for a frame it has found
    the entry of, or the error that keeps it from calling either: the error
    field is null, or the code or the message of the error has no string
    conversion. *)
Definition reply (v : JsonValue) : Exc JsError Settlement :=
  match prop v "error" with
  | None => Ok (Resolved v)
  | Some error =>
      match rejection error with
      | Ok reason => Ok (Rejected reason)
      | Throw e => Throw e
      end
  end.

(** What handleResponse does to the table and the timer of the entry a frame
    is answered to. *)
Definition answered (k : RequestId) (p : PendingRequest) (this : t) : t :=
  with_pending (JsMap.delete k) (with_rt (Runtime.clearTimeout (timeout p)) this).

(** The call of reject cleanup makes for an entry of the table. *)
Definition cleanup_call (entry : RequestId * PendingRequest) : Runtime.Settled :=
  {| Runtime.who := waiter (snd entry); Runtime.source := Runtime.ByCleanup;
     Runtime.what := Rejected TransportDisconnected |}.

(** The call of reject the callback of a timer makes. *)
Definition timer_call (ms : Z) (tm : Runtime.Timer) : Runtime.Settled :=
  {| Runtime.who := Runtime.timer_waiter tm; Runtime.source := Runtime.ByTimer;
     Runtime.what := Rejected (RequestTimedOut (Runtime.timer_id tm) ms) |}.

Definition is_send_failure (c : Runtime.Settled) : bool :=
  match Runtime.source c with
  | Runtime.BySendFailure => true
  | _ => false
  end.

(** A log in which handleResponse, the timers and cleanup only ever settled
    promises nothing had settled before. *)
Definition first_only (log : list Runtime.Settled) : Prop :=
  forall before c after,
    log = before ++ c :: after ->
    is_send_failure c = false ->
    ~ In (Runtime.who c) (map Runtime.who before).

(** A promise is live in a state when an entry of the table or a live timer
    can still reach its resolving functions. *)
Definition in_table (this : t) (n : nat) : Prop :=
  exists k p, JsMap.get k (pendingRequests this) = Some p /\ waiter p = n.

Definition has_timer (this : t) (n : nat) : Prop :=
  exists tm, In tm (Runtime.timers (rt this)) /\ Runtime.timer_waiter tm = n.

(** What holds of every state a transport can be in. *)
Record Inv (this : t) : Prop := {
  inv_keys : NoDup (JsMap.keys (pendingRequests this));
  inv_entry : forall k p,
      JsMap.get k (pendingRequests this) = Some p ->
      exists tm, In tm (Runtime.timers (rt this)) /\ Runtime.handle tm = timeout p /\
                 Runtime.timer_id tm = k /\ Runtime.timer_waiter tm = waiter p;
  inv_handles : NoDup (map Runtime.handle (Runtime.timers (rt this)));
  inv_timer : forall tm,
      In tm (Runtime.timers (rt this)) ->
      Runtime.timer_waiter tm = Runtime.handle tm /\
      (Runtime.handle tm < Runtime.nextCall (rt this))%nat /\
      ~ In (Runtime.timer_waiter tm) (map Runtime.who (Runtime.settlements (rt this)));
  inv_settled : forall c,
      In c (Runtime.settlements (rt this)) -> (Runtime.who c < Runtime.nextCall (rt this))%nat;
  inv_send : forall s,
      In s (Runtime.sending (rt this)) ->
      Runtime.send_timeout s = Runtime.send_call s /\
      Runtime.send_waiter s = Runtime.send_call s /\
      (Runtime.send_call s < Runtime.nextCall (rt this))%nat /\
      forall tm, In tm (Runtime.timers (rt this)) ->
                 Runtime.handle tm = Runtime.send_call s ->
                 Runtime.timer_id tm = id (Runtime.send_request s);
  inv_log : first_only (Runtime.settlements (rt this))
}.

(** The request an event makes: the number of the promise a call of
    sendRequest that did not throw returned, with the id of its request. *)
Definition issues (this : t) (e : Event) : list (nat * RequestId) :=
  match e with
  | Sends request =>
      match snd (sendRequest request this) with
      | Ok n => [(n, id request)]
      | Throw _ => []
      end
  | _ => []
  end.

(** The requests made along a run. *)
Fixpoint issued (JSON_parse : string -> option JsonValue) (events : list Event) (this : t)
    : list (nat * RequestId) :=
  match events with
  | [] => []
  | e :: rest => issues this e ++ issued JSON_parse rest (step JSON_parse this e)
  end.

(** A frame that is answered to an entry of the table and for which the
    argument of reject cannot be built (the error field is null, or the code
    or the message of the error has no string conversion): handleResponse
    removes the entry, and the TypeError keeps it from calling resolve or
    reject. *)
Definition orphans (parsed : option JsonValue) (this : t) : bool :=
  match parsed, correlates parsed this with
  | Some v, Some _ =>
      match reply v with
      | Throw _ => true
      | Ok _ => false
      end
  | _, _ => false
  end.

(** No frame of a run is of that kind. *)
Fixpoint answers_settle (JSON_parse : string -> option JsonValue) (events : list Event)
    (this : t) : bool :=
  match events with
  | [] => true
  | e :: rest =>
      match e with
      | Receives data => negb (orphans (JSON_parse data) this)
      | _ => true
      end && answers_settle JSON_parse rest (step JSON_parse this e)
  end.

(** The timers and the pending sendMessage calls belong to requests of the
    ledger [made], and a promise nothing has called has its entry in the
    table. *)
Record Tracked (made : list (nat * RequestId)) (this : t) : Prop := {
  tracked_timer : forall tm,
      In tm (Runtime.timers (rt this)) ->
      In (Runtime.timer_waiter tm, Runtime.timer_id tm) made;
  tracked_send : forall s,
      In s (Runtime.sending (rt this)) ->
      In (Runtime.send_waiter s, id (Runtime.send_request s)) made;
  tracked_table : forall n,
      (n < Runtime.nextCall (rt this))%nat ->
      ~ In n (map Runtime.who (Runtime.settlements (rt this))) ->
      in_table this n
}.

Definition count_ticks (events : list Event) : Z :=
  Z.of_nat (List.length (filter (fun e => match e with Ticks => true | _ => false end) events)).

Definition same_id (a : option RequestId) (b : RequestId) : bool :=
  match a with
  | None => false
  | Some a => RequestId_eqb a b
  end.

(** The key a frame is looked up under, when handleResponse gets that far. *)
Definition frame_key (parsed : option JsonValue) : option RequestId :=
  match parsed with
  | None => None
  | Some v =>
      match validateResponse v with
      | Throw _ => None
      | Ok response =>
          match prop response "id" with
          | None => None
          | Some rid => if truthy rid then lookup_key rid else None
          end
      end
  end.

(** Nothing in [events] settles call [n] made with id [rid] other than its
    timer: no cleanup, no failure of its sendMessage, no response with its
    id. *)
Definition undisturbed (JSON_parse : string -> option JsonValue) (n : nat) (rid : RequestId)
    (events : list Event) : bool :=
  forallb (fun e =>
             match e with
             | CleansUp => false
             | SendSettles call (Some _) => negb (Nat.eqb call n)
             | Receives data => negb (same_id (frame_key (JSON_parse data)) rid)
             | _ => true
             end) events.

(** Call [n], made with id [rid], has its timer running, due at [d], and
    nothing has called its promise. *)
Definition awaiting_timer (n : nat) (rid : RequestId) (d : Z) (this : t) : Prop :=
  In {| Runtime.handle := n; Runtime.due := d; Runtime.timer_id := rid;
        Runtime.timer_waiter := n |} (Runtime.timers (rt this)) /\
  ~ In n (map Runtime.who (Runtime.settlements (rt this))) /\
  (Runtime.clock (rt this) < d)%Z.

Definition is_receive (e : Event) : bool :=
  match e with
  | Receives _ => true
  | _ => false
  end.

(** [k] milliseconds pass. *)
Definition ticks (k : Z) : list Event := repeat Ticks (Z.to_nat k).

End Correlation.

(* ------------------------------------------------------------------ *)
(** ** Vocabulary of the statements about connect() of the SSE transport *)

Module SseConnect.
Import SseTransport.

Definition is_endpoint (e : Event) : bool :=
  match e with
  | EndpointEvent _ => true
  | _ => false
  end.

Definition is_open (e : Event) : bool :=
  match e with
  | OpenEvent => true
  | _ => false
  end.

(** The state of the promise of connect() after the events the EventSource
    has dispatched since the call: the first event other than 'open'
    decides between rejection (an error), fulfilment (the endpoint) and,
    after a message, waiting for an endpoint event for as long as it
    takes. *)
Fixpoint expected (this : t) (events : list Event) : PromiseState :=
  match events with
  | [] => Pending
  | OpenEvent :: rest => expected this rest
  | ErrorEvent error :: _ => RejectedWith (connect_error this error)
  | EndpointEvent _ :: _ => Fulfilled
  | MessageEvent _ :: rest => if existsb is_endpoint rest then Fulfilled else Pending
  end.

End SseConnect.

(* ------------------------------------------------------------------ *)
(** ** Vocabulary of the statements about the client *)

Module Aggregation.
Import McpClient.

(** The items a server itself listed for a closure of a list call: the
    array under result.<key> of the response that resolved the request, and
    nothing when sendRequest threw, when the promise was rejected or is not
    settled, or when the response carries no such array. *)
Definition served (key : string) (c : t) (job : ListJob) : list JsonValue :=
  match list_call job with
  | Throw _ => []
  | Ok n =>
      match nth_error (heap c) (list_transport job) with
      | None => []
      | Some tr =>
          match BaseTransport.outcome (base tr) n with
          | Some (Resolved response) =>
              match prop response "result" with
              | Some result =>
                  match prop result key with
                  | Some (JArr items) => items
                  | _ => []
                  end
              | None => []
              end
          | _ => []
          end
      end
  end.

(** The request the closure of the [i]-th entry of the registry makes in a
    list call on the client [c]: createRequest(method, {}) after the [i]
    closures before it have called createRequest. *)
Definition list_request (method : string) (c : t) (i : nat) : JsonRpcRequest :=
  fst (createRequest method (Some (JObj [])) (requestIdCounter c + Z.of_nat i)).

(** The sendMessage a call of sendRequest starts on a connected transport:
    promise, timer and sendMessage carry the number [n]. *)
Definition sent (request : JsonRpcRequest) (n : nat) : Runtime.Send :=
  {| Runtime.send_call := n; Runtime.send_request := request;
     Runtime.send_timeout := n; Runtime.send_waiter := n |}.

(** The closure of a server failed: sendRequest threw, or its promise was
    rejected. *)
Definition failed (c : t) (job : ListJob) : Prop :=
  match list_call job with
  | Throw _ => True
  | Ok n =>
      exists tr e, nth_error (heap c) (list_transport job) = Some tr /\
                   BaseTransport.outcome (base tr) n = Some (Rejected e)
  end.

(** The event is one of the failures after which a transport runs
    handleDisconnect: the end or an error of the response stream, the exit of
    the process or an error of it once connected, an error of the event
    stream once the transport is connected or has received an event. *)
Definition dies (tr : Transport) (e : TransportEvent) : bool :=
  match tr, e with
  | Sse s, FromEventSource (SseTransport.ErrorEvent _) =>
      SseTransport.eventSource s &&
      (BaseTransport.connected (SseTransport.base s) || SseTransport.receivedEvent s)
  | HttpStream h, FromHttp HttpStreamTransport.StreamEnds =>
      HttpStreamTransport.responseStream h
  | HttpStream h, FromHttp (HttpStreamTransport.StreamError _) =>
      HttpStreamTransport.responseStream h
  | Stdio p, FromProcess (StdioTransport.ProcessExit _ _) =>
      match StdioTransport.connectCall p with Some _ => true | None => false end
  | Stdio p, FromProcess (StdioTransport.ProcessError _) =>
      match StdioTransport.connectCall p with
      | Some _ => BaseTransport.connected (StdioTransport.base p)
      | None => false
      end
  | _, _ => false
  end.

(** No event of the run is a failure after connection of the transport it
    reaches. *)
Fixpoint survives (JSON_parse : string -> option JsonValue)
    (events : list (nat * TransportEvent)) (c : t) : bool :=
  match events with
  | [] => true
  | event :: rest =>
      negb (match nth_error (heap c) (fst event) with
            | Some tr => dies tr (snd event)
            | None => false
            end) &&
      survives JSON_parse rest (deliver JSON_parse c event)
  end.

Definition is_rejected (job : ConnectJob) : bool :=
  match job_state job with
  | RejectedWith _ => true
  | _ => false
  end.

(** The names the closures of the earlier calls of connect() carry. *)
Definition names_of (calls : list ConnectCall) : list string :=
  flat_map (fun call => map job_name (call_jobs call)) calls.

Definition earlier_names (c : t) : list string := names_of (earlierCalls c).

(** A name is taken in a client when the registry holds it or a closure of
    one of the calls of connect() made so far carries it.  In a new client
    no name is taken. *)
Definition taken (c : t) (name : string) : Prop :=
  In name (JsMap.keys (servers c)) \/ In name (map job_name (connectJobs c)) \/
  In name (earlier_names c).

(** The transport the closure of a job made and called connect() on;
    [None] when createTransport threw. *)
Definition transport_of (c : t) (job : ConnectJob) : option Transport :=
  match job_transport job with
  | None => None
  | Some ref => nth_error (heap c) ref
  end.

(** The name and the transport of a closure, which it keeps. *)
Definition job_key (job : ConnectJob) : string * option nat := (job_name job, job_transport job).

(** How the registry, the closures of a call of connect() and the promise of
    the call stand to each other: [s] is the registry, [r] the promise,
    [jobs] the closures; [old] holds of the names that were taken when the
    call began. *)
Record Registry (old : string -> Prop) (s : JsMap.t string nat) (r : option PromiseState)
    (jobs : list ConnectJob) : Prop := {
  reg_names : NoDup (map job_name jobs);
  reg_fulfilled : forall job,
      In job jobs -> job_state job = Fulfilled -> ~ old (job_name job) ->
      exists ref, job_transport job = Some ref /\ JsMap.get (job_name job) s = Some ref;
  reg_only : forall name ref,
      ~ old name -> JsMap.get name s = Some ref ->
      exists job, In job jobs /\ job_name job = name /\ job_transport job = Some ref /\
                  job_state job = Fulfilled;
  reg_result : exists p,
      r = Some p /\
      (existsb is_rejected jobs = true -> exists e, p = RejectedWith e) /\
      (p = Fulfilled -> forallb is_fulfilled jobs = true)
}.

(** The state a closure is in once it has gone as far as the promise of
    transport.connect() lets it. *)
Definition verdict (call : option PromiseState) : PromiseState :=
  match call with
  | Some Fulfilled => Fulfilled
  | Some (RejectedWith e) => RejectedWith e
  | _ => Pending
  end.

(** A closure has gone that far: it has failed when createTransport threw,
    and otherwise its transport is in the heap and its state is the one the
    promise of transport.connect() calls for. *)
Definition follows (h : list Transport) (job : ConnectJob) : Prop :=
  match job_transport job with
  | None => is_rejected job = true
  | Some ref => exists tr, nth_error h ref = Some tr /\ job_state job = verdict (connectCall tr)
  end.

(** A closure may still wait while the promise of transport.connect() has
    settled. *)
Definition lags (h : list Transport) (job : ConnectJob) : Prop :=
  match job_transport job with
  | None => is_rejected job = true
  | Some ref =>
      exists tr, nth_error h ref = Some tr /\
                 (job_state job = Pending \/ job_state job = verdict (connectCall tr))
  end.

(** What holds of a client from a call of connect() on, as long as nothing
    but events of the transports happens: [c0] is the client the call was
    made on. *)
Record Connecting (c0 c : t) : Prop := {
  cg_registry : Registry (taken c0) (servers c) (connectResult c) (connectJobs c);
  cg_follows : forall job, In job (connectJobs c) -> follows (heap c) job;
  cg_member : forall job,
      In job (connectJobs c) -> job_state job = Fulfilled ->
      In (job_name job) (JsMap.keys (servers c));
  cg_earlier : forall name, In name (earlier_names c) -> taken c0 name
}.

(** The transports the closures of a list have made. *)
Definition refs_of (jobs : list ConnectJob) : list nat :=
  flat_map (fun job => match job_transport job with
                       | Some ref => [ref]
                       | None => []
                       end) jobs.

(** The closures of every call of connect() made so far. *)
Definition all_jobs (c : t) : list ConnectJob :=
  flat_map call_jobs (earlierCalls c) ++ connectJobs c.

(** What the operations of the client keep: every closure that has made a
    transport has a transport of its own, which is in the heap, and an entry
    of the registry holds, under the name of a closure, the transport that
    closure made. *)
Record Owned (c : t) : Prop := {
  own_distinct : NoDup (refs_of (all_jobs c));
  own_heap : forall ref, In ref (refs_of (all_jobs c)) -> ref < List.length (heap c);
  own_entry : forall name ref,
      JsMap.get name (servers c) = Some ref ->
      In (name, Some ref) (map job_key (all_jobs c));
  own_keys : NoDup (JsMap.keys (servers c));
  own_called : connectResult c = None -> connectJobs c = []
}.

(** The states a client reaches from a new one by its methods and by the
    events of its transports. *)
Inductive Reach (JSON_parse : string -> option JsonValue) : t -> Prop :=
| reach_create : Reach JSON_parse create
| reach_connect c loaded opened :
    Reach JSON_parse c -> Reach JSON_parse (connect loaded opened c)
| reach_deliver c event :
    Reach JSON_parse c -> Reach JSON_parse (deliver JSON_parse c event)
| reach_disconnect c :
    Reach JSON_parse c -> Reach JSON_parse (disconnect c)
| reach_call c serverName method params :
    Reach JSON_parse c -> Reach JSON_parse (fst (call_start serverName method params c))
| reach_list c method :
    Reach JSON_parse c -> Reach JSON_parse (fst (list_start method c)).

(** The transport at [ref] is connected if its connect() has succeeded. *)
Definition live_at (c : t) (ref : nat) : Prop :=
  forall tr,
    nth_error (heap c) ref = Some tr -> connectCall tr = Some Fulfilled -> isConnected tr = true.

End Aggregation.
(* ------------------------------------------------------------------ *)
(** ** Vocabulary of the further statements about a transport *)

Module Waiting.
Import BaseTransport Correlation.

(** An id the test [!response.id] of handleResponse takes for absent. *)
Definition falsy_id (rid : RequestId) : bool :=
  match rid with
  | IdNum n => (n =? 0)%Z
  | IdStr s => (s =? "")%string
  end.

(** Neither cleanup nor a failure of the sendMessage of call [n] is among
    the events. *)
Definition left_alone (n : nat) (events : list Event) : bool :=
  forallb (fun e =>
             match e with
             | CleansUp => false
             | SendSettles call (Some _) => negb (Nat.eqb call n)
             | _ => true
             end) events.

(** A promise nothing has called has a live timer, and a live timer is due
    later than now. *)
Record Alarmed (this : t) : Prop := {
  alarm_pending : forall n,
      (n < Runtime.nextCall (rt this))%nat ->
      ~ In n (map Runtime.who (Runtime.settlements (rt this))) ->
      has_timer this n;
  alarm_future : forall tm,
      In tm (Runtime.timers (rt this)) -> (Runtime.clock (rt this) < Runtime.due tm)%Z
}.

(** The timers and the pending sendMessage calls belong to requests of the
    ledger [made], and every live timer is the timer of an entry of the
    table. *)
Record Timed (made : list (nat * RequestId)) (this : t) : Prop := {
  timed_timer : forall tm,
      In tm (Runtime.timers (rt this)) ->
      In (Runtime.timer_waiter tm, Runtime.timer_id tm) made;
  timed_send : forall s,
      In s (Runtime.sending (rt this)) ->
      In (Runtime.send_waiter s, id (Runtime.send_request s)) made;
  timed_entry : forall tm,
      In tm (Runtime.timers (rt this)) ->
      exists p, JsMap.get (Runtime.timer_id tm) (pendingRequests this) = Some p /\
                timeout p = Runtime.handle tm
}.

(** The live timers of call [n] are due at [d]. *)
Definition due_at (n : nat) (d : Z) (this : t) : Prop :=
  forall tm,
    In tm (Runtime.timers (rt this)) -> Runtime.timer_waiter tm = n -> Runtime.due tm = d.

End Waiting.

(* ------------------------------------------------------------------ *)
(** ** Vocabulary of the statements about connect() of the other transports *)

Module HttpConnect.
Import HttpStreamTransport.

Definition run (JSON_parse : string -> option JsonValue) (events : list Event) (this : t) : t :=
  fold_left (dispatch JSON_parse) events this.

(** The state of the promise of connect() after the events of the request
    and of the response stream: the first response or error of the request
    decides. *)
Fixpoint expected (events : list Event) : PromiseState :=
  match events with
  | [] => Pending
  | Response statusCode :: _ =>
      if (statusCode =? 200)%Z then Fulfilled else RejectedWith (HttpConnectFailed statusCode)
  | RequestError error :: _ => RejectedWith error
  | _ :: rest => expected rest
  end.

Definition is_ok (e : Event) : bool :=
  match e with
  | Response statusCode => (statusCode =? 200)%Z
  | _ => false
  end.

End HttpConnect.

Module StdioConnect.
Import StdioTransport.

Definition run (JSON_parse : string -> option JsonValue) (events : list Event) (this : t) : t :=
  fold_left (dispatch JSON_parse) events this.

(** The state of the promise of connect() after the events of the process:
    the first of an error of the process and the 100 ms timer decides. *)
Fixpoint expected (events : list Event) : PromiseState :=
  match events with
  | [] => Pending
  | ProcessError error :: _ => RejectedWith error
  | StartTimer :: _ => Fulfilled
  | _ :: rest => expected rest
  end.

End StdioConnect.

(* ------------------------------------------------------------------ *)
(** ** Vocabulary of the further statements about the client *)

Module Session.

(** A state of the base class that a run of events reaches from the state
    the constructor leaves. *)
Definition reachable (JSON_parse : string -> option JsonValue) (b : BaseTransport.t) : Prop :=
  exists events, b = BaseTransport.run JSON_parse events BaseTransport.create.

(** Every transport the client has made is in such a state. *)
Definition sound (JSON_parse : string -> option JsonValue) (c : McpClient.t) : Prop :=
  forall tr, In tr (McpClient.heap c) -> reachable JSON_parse (base tr).

(** The transport at [ref] is in the registry. *)
Definition registered (c : McpClient.t) (ref : nat) : bool :=
  existsb (Nat.eqb ref) (JsMap.values (McpClient.servers c)).

End Session.

(* ------------------------------------------------------------------ *)
(** ** Vocabulary of the statement about line endings *)

Module LineEndings.

Definition carriage_return : ascii := "013"%char.

(** A line as a peer writes it: its text, then a line feed, after a carriage
    return when [snd item] says so. *)
Definition terminated (item : string * bool) : string :=
  (fst item ++
   (if snd item then String carriage_return (String Text.newline EmptyString)
    else String Text.newline EmptyString))%string.

(** The text a sequence of such lines makes up. *)
Definition written (items : list (string * bool)) : string :=
  fold_right (fun item rest => (terminated item ++ rest)%string) EmptyString items.

End LineEndings.


(* ------------------------------------------------------------------ *)
(** ** Sample data *)

Module Sample.

(** A parser that accepts nothing, for runs in which no frame arrives. *)
Definition no_frames (data : string) : option JsonValue := None.

(** { jsonrpc: '2.0', method: 'tools/list', params: {}, id: 0 } *)
Definition zero_request : JsonRpcRequest :=
  {| method := "tools/list"; params := Some (JObj []); id := IdNum 0 |}.

(** { jsonrpc: '2.0', id: 0, result: {} } *)
Definition zero_frame : JsonValue :=
  JObj [("jsonrpc", JStr "2.0"); ("id", JNum 0); ("result", JObj [])].

(** The first request createRequest makes. *)
Definition first_request : JsonRpcRequest :=
  fst (createRequest "tools/list" (Some (JObj [])) 0).

(** { jsonrpc: '2.0', id: 1, result: { tools: [] }, error: null } *)
Definition null_error_frame : JsonValue :=
  JObj [("jsonrpc", JStr "2.0"); ("id", JNum 1);
        ("result", JObj [("tools", JArr [])]); ("error", JNull)].

(** { jsonrpc: '2.0', id: 1, error: { code: { toString: 1 }, message: 'no' } } *)
Definition unprintable_error_frame : JsonValue :=
  JObj [("jsonrpc", JStr "2.0"); ("id", JNum 1);
        ("error", JObj [("code", JObj [("toString", JNum 1)]); ("message", JStr "no")])].

(** { jsonrpc: '2.0', id: 1, result: { tools: [{ name: 'echo' }] } } *)
Definition tools_frame : JsonValue :=
  JObj [("jsonrpc", JStr "2.0"); ("id", JNum 1);
        ("result", JObj [("tools", JArr [JObj [("name", JStr "echo")]])])].

(** A parser that knows one text, which stands for that frame. *)
Definition one_frame (data : string) : option JsonValue :=
  if (data =? "tools")%string then Some tools_frame else None.

(** A streaming-HTTP transport and a process-pipe transport as their
    constructors build them. *)
Definition http_transport : HttpStreamTransport.t :=
  {| HttpStreamTransport.base := BaseTransport.create;
     HttpStreamTransport.url := "http://localhost:3000/mcp";
     HttpStreamTransport.headers := [];
     HttpStreamTransport.responseStream := false;
     HttpStreamTransport.buffer := EmptyString;
     HttpStreamTransport.connectCall := None |}.

Definition stdio_transport : StdioTransport.t :=
  {| StdioTransport.base := BaseTransport.create;
     StdioTransport.process := None;
     StdioTransport.command := "npx";
     StdioTransport.args := ["server"];
     StdioTransport.env := [];
     StdioTransport.buffer := EmptyString;
     StdioTransport.connectCall := None |}.

(** An event-stream transport as its constructor builds it. *)
Definition sse_transport : SseTransport.t :=
  {| SseTransport.base := BaseTransport.create;
     SseTransport.eventSource := false;
     SseTransport.url := "http://localhost:3000/sse";
     SseTransport.headers := [];
     SseTransport.messageEndpoint := None;
     SseTransport.receivedEvent := false;
     SseTransport.connectCall := None |}.

(** An error event without status and message. *)
Definition bare_error : SseTransport.ErrorInfo :=
  {| SseTransport.status := None; SseTransport.message := None |}.

(** One line, cut in different places. *)
Definition line_feed : string := String Text.newline EmptyString.

Definition cut_once : list string := ["{ab"; ("c}" ++ line_feed ++ "{d")%string].

Definition cut_twice : list string := ["{"; "ab"; ("c}" ++ line_feed)%string; "{d"].

(** Two servers: an event stream and a streaming-HTTP endpoint. *)
Definition two_servers : list (string * IMcpServerConfig) :=
  [("events", {| cfg_type := None; cfg_url := Some "http://localhost:3000/sse";
                 cfg_command := None; cfg_args := []; cfg_headers := []; cfg_env := [] |});
   ("stream", {| cfg_type := Some "httpStream"; cfg_url := Some "http://localhost:3001/mcp";
                 cfg_command := None; cfg_args := []; cfg_headers := []; cfg_env := [] |})].

Definition opens_fine (serverName : string) : Exc JsError unit := Ok tt.

(** The client after connect() with the two servers: the streaming-HTTP
    server answers 200, the event stream fails before any event. *)
Definition connecting : McpClient.t :=
  McpClient.connect (Ok {| mcpServers := Some two_servers |}) opens_fine McpClient.create.

Definition one_up_one_down : list (nat * TransportEvent) :=
  [(1, FromHttp (HttpStreamTransport.Response 200));
   (0, FromEventSource (SseTransport.ErrorEvent bare_error))].

Definition half_connected : McpClient.t := McpClient.run no_frames one_up_one_down connecting.

(** The transport of the server 'stream' in that client. *)
Definition stream_transport : Transport :=
  match nth_error (McpClient.heap half_connected) 1 with
  | Some tr => tr
  | None => HttpStream http_transport
  end.

(** A connected streaming-HTTP transport with the first request in flight. *)
Definition waiting_transport : Transport :=
  HttpStream
    (HttpStreamTransport.with_base
       (fun b => fst (BaseTransport.sendRequest first_request (BaseTransport.set_connected true b)))
       http_transport).

(** A parser that knows one text, which stands for the response with a null
    error. *)
Definition null_parser (data : string) : option JsonValue :=
  if (data =? "null-error")%string then Some null_error_frame else None.

(** A streaming-HTTP transport that has connected and has the first request
    in flight. *)
Definition asked_transport : HttpStreamTransport.t :=
  HttpStreamTransport.with_base
    (fun b => fst (BaseTransport.sendRequest first_request b))
    (HttpStreamTransport.dispatch null_parser
       (HttpStreamTransport.connect (Ok tt) http_transport)
       (HttpStreamTransport.Response 200)).

(** The same transport once the response with the null error has arrived on
    its stream. *)
Definition orphaned_transport : Transport :=
  HttpStream
    (HttpStreamTransport.dispatch null_parser asked_transport
       (HttpStreamTransport.StreamData ("null-error" ++ line_feed))).

(** That client once the response stream of 'stream' has ended. *)
Definition stream_down : McpClient.t :=
  McpClient.deliver no_frames half_connected (1, FromHttp HttpStreamTransport.StreamEnds).

Definition dead_transport : Transport :=
  match nth_error (McpClient.heap stream_down) 1 with
  | Some tr => tr
  | None => HttpStream http_transport
  end.

(** The answer to a list call arrives on the response stream of 'stream'. *)
Definition tools_arrive : list (nat * TransportEvent) :=
  [(1, FromHttp (HttpStreamTransport.StreamData ("tools" ++ line_feed)))].

End Sample.
(* ------------------------------------------------------------------ *)
(** ** More sample data *)

Module Scenario.

(** Two calls of createRequest. *)
Definition two_calls : list (string * option JsonValue) :=
  [("tools/list", Some (JObj [])); ("resources/list", None)].

(** A parser that knows one text, which stands for a response with id 0. *)
Definition zero_parser (data : string) : option JsonValue :=
  if (data =? "zero")%string then Some Sample.zero_frame else None.

(** A response with id 0 arrives, then time passes. *)
Definition frame_then_wait : list BaseTransport.Event :=
  BaseTransport.Receives "zero" :: Correlation.ticks 29999.

(** One request on a connected transport, and a millisecond. *)
Definition one_request : list BaseTransport.Event :=
  [BaseTransport.Connects; BaseTransport.Sends Sample.first_request; BaseTransport.Ticks].

(** The process exits before the 100 ms timer fires. *)
Definition exit_then_timer : list StdioTransport.Event :=
  [StdioTransport.ProcessExit (Some 1%Z) None; StdioTransport.StartTimer].

Definition origin_of (u : string) : Exc JsError string := Ok "http://localhost:3000".

(** Both servers of Sample.two_servers connect. *)
Definition both_up : list (nat * TransportEvent) :=
  [(1, FromHttp (HttpStreamTransport.Response 200));
   (0, FromEventSource (SseTransport.EndpointEvent "/messages?sessionId=1"))].

(** Three lines: one ending in CR LF, a blank one, one with blanks around it. *)
Definition three_lines : list (string * bool) :=
  [("{a}", true); ("", false); ("  {b} ", false)].

Definition three_lines_cut : list string :=
  [("{a" ++ "}" ++ String LineEndings.carriage_return EmptyString)%string;
   (Sample.line_feed ++ Sample.line_feed ++ "  {");
   ("b} " ++ Sample.line_feed)]%string.

(** A configuration with a command and a url and no type. *)
Definition command_and_url : IMcpServerConfig :=
  {| cfg_type := None; cfg_url := Some "http://localhost:3000/sse";
     cfg_command := Some "npx"; cfg_args := ["server"]; cfg_headers := []; cfg_env := [] |}.

(** The client of Sample.half_connected, with the parser of one frame, then
    a call of a tool of 'stream' and the arrival of the frame. *)
Definition called : McpClient.t :=
  fst (McpClient.callTool "stream" "echo" None
         (McpClient.run Sample.one_frame Sample.one_up_one_down Sample.connecting)).

Definition answered_call : McpClient.t :=
  McpClient.run Sample.one_frame Sample.tools_arrive called.

(** connect() is called again on the client of Sample.half_connected, whose
    server 'stream' is up; this time the streaming-HTTP server answers 503
    to the request of the new transport, which is the fourth of the heap. *)
Definition connecting_again : McpClient.t :=
  McpClient.connect (Ok {| mcpServers := Some Sample.two_servers |}) Sample.opens_fine
    Sample.half_connected.

Definition refused_again : McpClient.t :=
  McpClient.run Sample.no_frames [(3, FromHttp (HttpStreamTransport.Response 503))]
    connecting_again.

(** connect() is called twice in a row, before any server has answered;
    then the streaming-HTTP server answers 200 to the request of the first
    call. *)
Definition connecting_twice : McpClient.t :=
  McpClient.connect (Ok {| mcpServers := Some Sample.two_servers |}) Sample.opens_fine
    Sample.connecting.

Definition first_call_answered : McpClient.t :=
  McpClient.run Sample.no_frames [(1, FromHttp (HttpStreamTransport.Response 200))]
    connecting_twice.

End Scenario.

(* ================================================================== *)
(** * Facts *)

(* ------------------------------------------------------------------ *)
(** ** Keys *)

Lemma key_eqb_spec {K} `{KeyLaws K} (a b : K) : reflect (a = b) (key_eqb a b).
Proof. apply iff_reflect. symmetry. apply key_eqb_eq. Qed.

Lemma key_eqb_refl {K} `{KeyLaws K} (a : K) : key_eqb a a = true.
Proof. now apply key_eqb_eq. Qed.

Lemma key_eqb_neq {K} `{KeyLaws K} (a b : K) : key_eqb a b = false <-> a <> b.
Proof. destruct (key_eqb_spec a b); split; congruence. Qed.

#[export] Instance string_KeyLaws : KeyLaws string.
Proof. constructor. apply String.eqb_eq. Qed.

#[export] Instance nat_KeyLaws : KeyLaws nat.
Proof. constructor. apply Nat.eqb_eq. Qed.

Lemma RequestId_eqb_eq (a b : RequestId) : RequestId_eqb a b = true <-> a = b.
Proof.
  destruct a as [x|x], b as [y|y]; simpl; split; try discriminate.
  - intros E. apply Z.eqb_eq in E. now subst.
  - intros [= ->]. apply Z.eqb_refl.
  - intros E. apply String.eqb_eq in E. now subst.
  - intros [= ->]. apply String.eqb_refl.
Qed.

#[export] Instance RequestId_KeyLaws : KeyLaws RequestId.
Proof. constructor. apply RequestId_eqb_eq. Qed.

(* ------------------------------------------------------------------ *)
(** ** Map objects *)

Module JsMapFacts.
Import JsMap.

Section Facts.
Context {K V : Type} `{KeyLaws K}.
Implicit Types (m : JsMap.t K V) (k : K) (v : V).

Lemma get_set_same k v m : get k (set k v m) = Some v.
Proof.
  induction m as [|[k' v'] m IH]; simpl.
  - now rewrite key_eqb_refl.
  - destruct (key_eqb k k') eqn:E; simpl; rewrite E; auto.
Qed.

Lemma get_set_other k k' v m : k <> k' -> get k (set k' v m) = get k m.
Proof.
  intros Hne. induction m as [|[k2 v2] m IH]; simpl.
  - apply key_eqb_neq in Hne. now rewrite Hne.
  - destruct (key_eqb k' k2) eqn:E; simpl.
    + apply key_eqb_eq in E. subst k2.
      apply key_eqb_neq in Hne. now rewrite Hne.
    + now rewrite IH.
Qed.

Lemma get_delete_same k m : get k (delete k m) = None.
Proof.
  induction m as [|[k' v'] m IH]; simpl; auto.
  destruct (key_eqb k k') eqn:E; simpl; auto. now rewrite E.
Qed.

Lemma get_delete_other k k' m : k <> k' -> get k (delete k' m) = get k m.
Proof.
  intros Hne. induction m as [|[k2 v2] m IH]; simpl; auto.
  destruct (key_eqb k' k2) eqn:E; simpl.
  - apply key_eqb_eq in E. subst k2.
    apply key_eqb_neq in Hne. now rewrite Hne.
  - now rewrite IH.
Qed.

Lemma get_delete_Some k k' v m : get k (delete k' m) = Some v -> get k m = Some v /\ k <> k'.
Proof.
  intros Hg. destruct (key_eqb_spec k k') as [->|Hne].
  - now rewrite get_delete_same in Hg.
  - now rewrite get_delete_other in Hg.
Qed.

Lemma get_None_delete k m : get k m = None -> delete k m = m.
Proof.
  induction m as [|[k' v'] m IH]; simpl; auto.
  destruct (key_eqb k k'); [discriminate|]. intros Hg. now rewrite IH.
Qed.

Lemma get_In k v m : get k m = Some v -> In (k, v) m.
Proof.
  induction m as [|[k' v'] m IH]; simpl; [discriminate|].
  destruct (key_eqb_spec k k') as [->|Hne].
  - intros [= ->]. now left.
  - intros Hg. right. auto.
Qed.

Lemma get_Some_key k v m : get k m = Some v -> In k (keys m).
Proof. intros Hg. apply get_In in Hg. now apply (in_map fst) in Hg. Qed.

Lemma get_None_key k m : get k m = None <-> ~ In k (keys m).
Proof.
  induction m as [|[k' v'] m IH]; simpl.
  - tauto.
  - destruct (key_eqb_spec k k') as [->|Hne].
    + split; [discriminate|]. intros Hn. exfalso. apply Hn. now left.
    + rewrite IH. split; intros Hn; [intros [->|Hin]|]; tauto.
Qed.

Lemma In_get k v m : NoDup (keys m) -> In (k, v) m -> get k m = Some v.
Proof.
  induction m as [|[k' v'] m IH]; simpl; [tauto|].
  intros Hnd Hin. inversion Hnd as [|? ? Hnotin Hnd']; subst.
  destruct Hin as [[= -> ->]|Hin].
  - now rewrite key_eqb_refl.
  - destruct (key_eqb_spec k k') as [->|Hne]; auto.
    exfalso. apply Hnotin. now apply (in_map fst) in Hin.
Qed.

Lemma keys_set_In k v m : In k (keys m) -> keys (set k v m) = keys m.
Proof.
  induction m as [|[k' v'] m IH]; simpl; [tauto|].
  destruct (key_eqb_spec k k') as [->|Hne]; simpl; auto.
  intros [Heq|Hin]; [congruence|]. now rewrite IH.
Qed.

Lemma keys_set_fresh k v m : ~ In k (keys m) -> keys (set k v m) = keys m ++ [k].
Proof.
  induction m as [|[k' v'] m IH]; simpl; auto.
  destruct (key_eqb_spec k k') as [->|Hne]; simpl.
  - intros Hn. exfalso. apply Hn. now left.
  - intros Hn. rewrite IH; auto.
Qed.

Lemma NoDup_keys_set k v m : NoDup (keys m) -> NoDup (keys (set k v m)).
Proof.
  intros Hnd. destruct (in_dec (fun a b => reflect_dec _ _ (key_eqb_spec a b)) k (keys m)) as [Hin|Hn].
  - now rewrite keys_set_In.
  - rewrite keys_set_fresh by assumption.
    apply NoDup_app; [assumption| repeat constructor; simpl; tauto |].
    intros x Hx [<-|[]]. contradiction.
Qed.

Lemma In_keys_delete x k m : In x (keys (delete k m)) <-> In x (keys m) /\ x <> k.
Proof.
  induction m as [|[k' v'] m IH]; simpl; [tauto|].
  destruct (key_eqb_spec k k') as [->|Hne]; simpl; rewrite IH.
  - split; [tauto|]. intros [[->|Hin] Hx]; tauto.
  - split; [intros [->|[Hin Hx]]|intros [[->|Hin] Hx]]; auto.
Qed.

Lemma NoDup_keys_delete k m : NoDup (keys m) -> NoDup (keys (delete k m)).
Proof.
  induction m as [|[k' v'] m IH]; simpl; auto.
  intros Hnd. inversion Hnd as [|? ? Hnotin Hnd']; subst.
  destruct (key_eqb k k'); simpl; auto.
  constructor; auto. rewrite In_keys_delete. tauto.
Qed.

Lemma In_delete k k' v m : In (k, v) (delete k' m) -> In (k, v) m /\ k <> k'.
Proof.
  induction m as [|[k2 v2] m IH]; simpl; [tauto|].
  destruct (key_eqb_spec k' k2) as [->|Hne]; simpl.
  - intros Hin. destruct (IH Hin). auto.
  - intros [[= -> ->]|Hin]; [auto|]. destruct (IH Hin). auto.
Qed.

End Facts.

End JsMapFacts.

(* ------------------------------------------------------------------ *)
(** ** The correlation table *)

Module BaseTransportFacts.
Import JsMap JsMapFacts Runtime BaseTransport Correlation.

Lemma first_settlement_app n l1 l2 :
  first_settlement n (l1 ++ l2) =
  match first_settlement n l1 with
  | Some s => Some s
  | None => first_settlement n l2
  end.
Proof.
  induction l1 as [|c l1 IH]; simpl; auto.
  destruct (Nat.eqb (who c) n); auto.
Qed.

Lemma first_settlement_None n l : first_settlement n l = None <-> ~ In n (map who l).
Proof.
  induction l as [|c l IH]; simpl; [tauto|].
  destruct (Nat.eqb_spec (who c) n) as [E|E].
  - split; [discriminate|]. intros Hn. exfalso. apply Hn. now left.
  - rewrite IH. tauto.
Qed.

Lemma first_settlement_Some_In n l s : first_settlement n l = Some s -> In n (map who l).
Proof.
  intros Hs. destruct (in_dec Nat.eq_dec n (map who l)) as [Hin|Hn]; auto.
  apply first_settlement_None in Hn. congruence.
Qed.

(** *** handleResponse, case by case *)

Section Frames.
Variable JSON_parse : string -> option JsonValue.

Lemma handleParsed_malformed parsed e this :
  malformed parsed = Some e ->
  handleParsed parsed this = with_rt (console_error e) this.
Proof.
  unfold malformed, handleParsed, handleResponse_try.
  destruct parsed as [v|]; [|now intros [= <-]].
  destruct (validateResponse v); [discriminate|]. now intros [= <-].
Qed.

Lemma handleParsed_unmatched parsed this :
  malformed parsed = None ->
  correlates parsed this = None ->
  handleParsed parsed this = this.
Proof.
  unfold malformed, correlates, handleParsed, handleResponse_try.
  destruct parsed as [v|]; [|discriminate].
  destruct (validateResponse v) as [response|]; [|discriminate].
  intros _. destruct (prop response "id") as [rid|]; simpl; auto.
  destruct (truthy rid); simpl; auto.
  now intros ->.
Qed.

Lemma validateResponse_Ok v response : validateResponse v = Ok response -> response = v.
Proof.
  unfold validateResponse.
  destruct (negb (truthy v) || negb (is_object v)); [discriminate|].
  destruct (prop v "jsonrpc") as [[| | |s| |]|]; try discriminate.
  destruct (s =? "2.0")%string eqn:E.
  - apply String.eqb_eq in E. subst s.
    destruct (prop v "id"); [|discriminate]. now intros [= <-].
  - assert (Hs : s <> "2.0") by now apply String.eqb_neq.
    repeat (destruct s as [|[[] [] [] [] [] [] [] []] s]; try discriminate; try congruence).
Qed.

Lemma correlates_inv parsed this k p :
  correlates parsed this = Some (k, p) ->
  exists v rid,
    parsed = Some v /\ validateResponse v = Ok v /\ prop v "id" = Some rid /\
    truthy rid = true /\ lookup_key rid = Some k /\
    JsMap.get k (pendingRequests this) = Some p.
Proof.
  unfold correlates. destruct parsed as [v|]; [|discriminate].
  destruct (validateResponse v) as [response|] eqn:Hv; [|discriminate].
  pose proof (validateResponse_Ok _ _ Hv) as ->.
  destruct (prop v "id") as [rid|] eqn:Hid; [|discriminate].
  destruct (truthy rid) eqn:Ht; [|discriminate].
  unfold get_pending. destruct (lookup_key rid) as [k'|] eqn:Hk; [|discriminate].
  destruct (JsMap.get k' (pendingRequests this)) as [p'|] eqn:Hg; [|discriminate].
  intros [= -> ->]. exists v, rid. auto 10.
Qed.

Lemma handleParsed_matched v this k p :
  correlates (Some v) this = Some (k, p) ->
  handleParsed (Some v) this =
  match reply v with
  | Ok s => with_rt (settle ByResponse (waiter p) s) (answered k p this)
  | Throw e => with_rt (console_error e) (answered k p this)
  end.
Proof.
  intros Hc. destruct (correlates_inv _ _ _ _ Hc) as (v' & rid & [= <-] & Hv & Hid & Ht & Hk & Hg).
  unfold handleParsed, handleResponse_try. rewrite Hv, Hid. simpl. rewrite Ht. simpl.
  unfold get_pending. rewrite Hk, Hg. unfold isErrorResponse, answered, reply.
  destruct (prop v "error") as [error|]; [|reflexivity].
  destruct (rejection error); reflexivity.
Qed.

(** The only error the building of the argument of reject raises. *)
Lemma rejection_throws error e : rejection error = Throw e -> e = TypeError.
Proof.
  unfold rejection.
  destruct error; try (destruct (_ && _)); congruence.
Qed.

Lemma reply_throws v e : reply v = Throw e -> e = TypeError.
Proof.
  unfold reply. destruct (prop v "error") as [error|]; [|discriminate].
  destruct (rejection error) eqn:E; [discriminate|].
  intros [= <-]. now apply rejection_throws in E.
Qed.

End Frames.

(** *** Lists of calls *)

Lemma first_only_nil : first_only [].
Proof. intros [|? ?] c after E; discriminate. Qed.

Lemma first_only_app (log new : list Settled) :
  first_only log ->
  (forall before c after,
      new = before ++ c :: after -> is_send_failure c = false ->
      ~ In (who c) (map who log) /\ ~ In (who c) (map who before)) ->
  first_only (log ++ new).
Proof.
  intros Hlog Hnew before c after E Hc.
  apply app_eq_app in E. destruct E as [l [[E1 E2]|[E1 E2]]].
  - destruct l as [|c' l].
    + rewrite app_nil_r in E1. subst before. simpl in E2.
      destruct (Hnew [] c after (eq_sym E2) Hc) as [H1 _]. exact H1.
    + simpl in E2. injection E2 as -> E2. subst log. eapply Hlog; eauto.
  - (* the call lies in [new] *)
    subst before. destruct (Hnew _ _ _ E2 Hc) as [H1 H2].
    rewrite map_app, in_app_iff. tauto.
Qed.

Lemma first_only_failure (log : list Settled) c :
  first_only log -> is_send_failure c = true -> first_only (log ++ [c]).
Proof.
  intros Hlog Hc. apply first_only_app; auto.
  intros before c' after E Hc'.
  destruct before as [|? [|? ?]]; simpl in E; try discriminate.
  injection E as <- _. congruence.
Qed.

Lemma first_only_distinct (log new : list Settled) :
  first_only log ->
  NoDup (map who new) ->
  (forall c, In c new -> ~ In (who c) (map who log)) ->
  first_only (log ++ new).
Proof.
  intros Hlog Hnd Hfresh. apply first_only_app; auto.
  intros before c after -> _. split.
  - apply Hfresh. apply in_elt.
  - rewrite map_app in Hnd. simpl in Hnd. apply NoDup_remove_2 in Hnd.
    rewrite in_app_iff in Hnd. tauto.
Qed.

Lemma NoDup_map_inj {A B C : Type} (f : A -> B) (g : A -> C) (l : list A) :
  NoDup (map g l) ->
  (forall a b, In a l -> In b l -> f a = f b -> g a = g b) ->
  NoDup (map f l).
Proof.
  induction l as [|x l IH]; simpl; intros Hnd Hinj; [constructor|].
  inversion Hnd as [|? ? Hx Hnd']; subst. constructor.
  - intros Hin. apply in_map_iff in Hin. destruct Hin as (y & Hy & Hyl).
    apply Hx. apply in_map_iff. exists y. split; [apply Hinj|]; auto.
  - apply IH; auto.
Qed.

Lemma NoDup_map_filter {A B : Type} (f : A -> B) (keep : A -> bool) (l : list A) :
  NoDup (map f l) -> NoDup (map f (filter keep l)).
Proof.
  induction l as [|x l IH]; simpl; intros Hnd; [constructor|].
  inversion Hnd as [|? ? Hx Hnd']; subst.
  destruct (keep x); simpl; auto. constructor; auto.
  intros Hin. apply Hx. apply in_map_iff in Hin. destruct Hin as (y & Hy & Hyl).
  apply filter_In in Hyl. apply in_map_iff. exists y. tauto.
Qed.

Lemma NoDup_map_same {A B : Type} (f : A -> B) (l : list A) a b :
  NoDup (map f l) -> In a l -> In b l -> f a = f b -> a = b.
Proof.
  induction l as [|x l IH]; simpl; [tauto|].
  intros Hnd Ha Hb E. inversion Hnd as [|? ? Hx Hnd']; subst.
  destruct Ha as [<-|Ha], Hb as [<-|Hb]; auto.
  - exfalso. apply Hx. rewrite E. now apply in_map.
  - exfalso. apply Hx. rewrite <- E. now apply in_map.
Qed.

Lemma In_clearTimeout tm h r :
  In tm (timers (clearTimeout h r)) <-> In tm (timers r) /\ handle tm <> h.
Proof.
  unfold clearTimeout. simpl. rewrite filter_In.
  destruct (Nat.eqb_spec (handle tm) h); simpl; intuition congruence.
Qed.

(** *** The invariant *)

Lemma Inv_settling this this' new :
  Inv this ->
  NoDup (keys (pendingRequests this')) ->
  (forall k p, get k (pendingRequests this') = Some p ->
     get k (pendingRequests this) = Some p /\
     exists tm, In tm (timers (rt this')) /\ handle tm = timeout p) ->
  (forall tm, In tm (timers (rt this')) ->
     In tm (timers (rt this)) /\ ~ In (timer_waiter tm) (map who new)) ->
  NoDup (map handle (timers (rt this'))) ->
  (forall s, In s (sending (rt this')) -> In s (sending (rt this))) ->
  nextCall (rt this') = nextCall (rt this) ->
  settlements (rt this') = settlements (rt this) ++ new ->
  (forall c, In c new -> who c < nextCall (rt this)) ->
  first_only (settlements (rt this) ++ new) ->
  Inv this'.
Proof.
  intros [Hk He Hh Ht Hs Hsd Hl] Hk' He' Ht' Hh' Hsd' Hn Hset Hnew Hlog.
  constructor.
  - exact Hk'.
  - intros k p Hg. destruct (He' _ _ Hg) as [Hg0 (tm & Htm & Hhd)].
    destruct (He _ _ Hg0) as (tm0 & Htm0 & Hhd0 & Hid0 & Hw0).
    assert (tm = tm0).
    { apply (NoDup_map_same handle (timers (rt this))); auto.
      - now apply Ht'.
      - congruence. }
    subst. exists tm0. auto.
  - exact Hh'.
  - intros tm Htm. destruct (Ht' _ Htm) as [Hin Hfresh].
    destruct (Ht _ Hin) as (Hw & Hlt & Hns).
    rewrite Hn, Hset, map_app, in_app_iff. tauto.
  - intros c. rewrite Hset, in_app_iff, Hn. intros [H|H]; auto.
  - intros s Hs'. destruct (Hsd _ (Hsd' _ Hs')) as (A & B & C & D).
    rewrite Hn. repeat split; auto.
    intros tm Htm. apply D. now apply Ht'.
  - rewrite Hset. exact Hlog.
Qed.

Lemma Inv_create : Inv create.
Proof.
  constructor; simpl; try tauto; try discriminate.
  - constructor.
  - constructor.
  - apply first_only_nil.
Qed.

Lemma Inv_set_connected b this : Inv this -> Inv (set_connected b this).
Proof. intros []; constructor; auto. Qed.

Lemma Inv_console e this : Inv this -> Inv (with_rt (console_error e) this).
Proof. intros []; constructor; auto. Qed.

Lemma Inv_waiter_timeout this k p :
  Inv this -> get k (pendingRequests this) = Some p -> waiter p = timeout p.
Proof.
  intros HI Hg. destruct (inv_entry _ HI _ _ Hg) as (tm & Htm & Hh & _ & Hw).
  destruct (inv_timer _ HI _ Htm) as (E & _). congruence.
Qed.

Lemma Inv_entry_fresh this k p :
  Inv this -> get k (pendingRequests this) = Some p ->
  ~ In (waiter p) (map who (settlements (rt this))) /\ waiter p < nextCall (rt this).
Proof.
  intros HI Hg. destruct (inv_entry _ HI _ _ Hg) as (tm & Htm & Hh & _ & Hw).
  destruct (inv_timer _ HI _ Htm) as (E & Hlt & Hn). rewrite <- Hw. split; auto. lia.
Qed.

Lemma Inv_sendRequest request this : Inv this -> Inv (fst (sendRequest request this)).
Proof.
  intros HI. unfold sendRequest. destruct (connected this); simpl; auto.
  destruct HI as [Hk He Hh Ht Hs Hsd Hl].
  constructor; simpl.
  - now apply NoDup_keys_set.
  - intros k p. destruct (key_eqb_spec k (id request)) as [->|Hne].
    + rewrite get_set_same. intros [= <-]. simpl.
      eexists. split; [apply in_or_app; right; left; reflexivity|]. simpl. auto.
    + rewrite get_set_other by assumption. intros Hg.
      destruct (He _ _ Hg) as (tm & Htm & Rest). exists tm. split; auto.
      apply in_or_app. now left.
  - rewrite map_app. simpl. apply NoDup_app; [assumption|repeat constructor; simpl; tauto|].
    intros x Hx [<-|[]]. apply in_map_iff in Hx. destruct Hx as (tm & E & Htm).
    destruct (Ht _ Htm) as (_ & Hlt & _). lia.
  - intros tm Htm. apply in_app_or in Htm. destruct Htm as [Htm|[<-|[]]]; simpl.
    + destruct (Ht _ Htm) as (A & B & C). repeat split; auto.
    + repeat split; auto. intros Hin. apply in_map_iff in Hin.
      destruct Hin as (c & E & Hc). apply Hs in Hc. lia.
  - intros c Hc. apply Hs in Hc. lia.
  - intros s Hs'. apply in_app_or in Hs'. destruct Hs' as [Hs'|[<-|[]]]; simpl.
    + destruct (Hsd _ Hs') as (A & B & C & D). repeat split; auto.
      intros tm Htm. apply in_app_or in Htm. destruct Htm as [Htm|[<-|[]]]; simpl; auto.
      intros E. exfalso. lia.
    + repeat split; auto.
      intros tm Htm. apply in_app_or in Htm. destruct Htm as [Htm|[<-|[]]]; simpl; auto.
      intros E. exfalso. destruct (Ht _ Htm) as (_ & Hlt & _). lia.
  - exact Hl.
Qed.

Lemma Inv_answered this k p new :
  Inv this ->
  get k (pendingRequests this) = Some p ->
  (forall c, In c new -> who c = waiter p /\ is_send_failure c = false) ->
  (List.length new <= 1)%nat ->
  forall this',
    pendingRequests this' = delete k (pendingRequests this) ->
    timers (rt this') = timers (clearTimeout (timeout p) (rt this)) ->
    sending (rt this') = sending (rt this) ->
    nextCall (rt this') = nextCall (rt this) ->
    settlements (rt this') = settlements (rt this) ++ new ->
    Inv this'.
Proof.
  intros HI Hg Hnew Hlen this' Hp Ht Hsd Hn Hset.
  pose proof (Inv_waiter_timeout _ _ _ HI Hg) as Hwt.
  destruct (Inv_entry_fresh _ _ _ HI Hg) as [Hfresh Hlt].
  destruct (inv_entry _ HI _ _ Hg) as (tm0 & Htm0 & Hh0 & Hid0 & Hw0).
  apply (Inv_settling this this' new); auto.
  - rewrite Hp. apply NoDup_keys_delete. apply HI.
  - intros k' p'. rewrite Hp. intros Hg'. apply get_delete_Some in Hg'.
    destruct Hg' as [Hg' Hne]. split; auto.
    destruct (inv_entry _ HI _ _ Hg') as (tm & Htm & Hh & Hid & Hw).
    exists tm. split; auto. rewrite Ht. apply In_clearTimeout. split; auto.
    intros E. apply Hne. rewrite <- Hid, <- Hid0.
    f_equal. apply (NoDup_map_same handle (timers (rt this))); auto; [apply HI|congruence].
  - intros tm. rewrite Ht. intros Htm. apply In_clearTimeout in Htm.
    destruct Htm as [Htm Hne]. split; auto.
    intros Hin. apply in_map_iff in Hin. destruct Hin as (c & E & Hc).
    destruct (Hnew _ Hc) as [Hwho _].
    destruct (inv_timer _ HI _ Htm) as (Hw & _). congruence.
  - rewrite Ht. unfold clearTimeout. simpl. apply NoDup_map_filter. apply HI.
  - intros s. now rewrite Hsd.
  - intros c Hc. destruct (Hnew _ Hc) as [-> _]. exact Hlt.
  - destruct new as [|c [|? ?]]; simpl in Hlen; try lia.
    + rewrite app_nil_r. apply HI.
    + apply first_only_distinct; [apply HI|repeat constructor; simpl; tauto|].
      intros c' [<-|[]]. destruct (Hnew c (or_introl eq_refl)) as [-> _]. exact Hfresh.
Qed.

Lemma Inv_handleParsed parsed this : Inv this -> Inv (handleParsed parsed this).
Proof.
  intros HI. destruct (malformed parsed) as [e|] eqn:Hm.
  - rewrite (handleParsed_malformed _ _ _ Hm). now apply Inv_console.
  - destruct (correlates parsed this) as [[k p]|] eqn:Hc.
    + destruct (correlates_inv _ _ _ _ Hc) as (v & rid & -> & _ & _ & _ & _ & Hg).
      rewrite (handleParsed_matched _ _ _ _ Hc).
      destruct (reply v) as [s|e].
      * eapply (Inv_answered this k p [_] HI Hg); simpl; auto.
        intros c [<-|[]]; auto.
      * apply Inv_console.
        eapply (Inv_answered this k p [] HI Hg); simpl; auto; [tauto|now rewrite app_nil_r].
    + now rewrite (handleParsed_unmatched _ _ Hm Hc).
Qed.

Lemma find_send_Some call this s :
  find_send call this = Some s -> In s (sending (rt this)) /\ send_call s = call.
Proof.
  unfold find_send. intros Hf. apply find_some in Hf. destruct Hf as [Hin E].
  apply Nat.eqb_eq in E. auto.
Qed.

Lemma Inv_onSendSettled call failure this : Inv this -> Inv (onSendSettled call failure this).
Proof.
  intros HI. unfold onSendSettled. destruct (find_send call this) as [s|] eqn:Hf; auto.
  destruct (find_send_Some _ _ _ Hf) as [Hs Hcall].
  assert (HI1 : Inv (with_rt (finish_send call) this)).
  { destruct HI as [Hk He Hh Ht Hst Hsd Hl]. constructor; simpl; auto.
    intros s' Hs'. apply filter_In in Hs'. now apply Hsd. }
  destruct failure as [error|]; auto.
  destruct (inv_send _ HI _ Hs) as (Ht & Hw & Hlt & Hid).
  eapply (Inv_settling this _ [_] HI); simpl; try reflexivity.
  - apply NoDup_keys_delete. apply HI.
  - intros k' p' Hg'. apply get_delete_Some in Hg'. destruct Hg' as [Hg' Hne].
    split; auto. destruct (inv_entry _ HI _ _ Hg') as (tm & Htm & Hh & Hi & _).
    exists tm. split; auto. apply filter_In. split; auto.
    apply negb_true_iff, Nat.eqb_neq. intros E. apply Hne. rewrite <- Hi.
    apply Hid; auto. congruence.
  - intros tm Htm. apply filter_In in Htm. destruct Htm as [Htm Hne].
    apply negb_true_iff, Nat.eqb_neq in Hne. split; auto.
    destruct (inv_timer _ HI _ Htm) as (E & _). intros [E'|[]]. simpl in E'. congruence.
  - apply NoDup_map_filter. apply HI.
  - intros s' Hs'. apply filter_In in Hs'. tauto.
  - intros c [<-|[]]. simpl. lia.
  - apply first_only_failure; [apply HI|reflexivity].
Qed.

(** cleanup, field by field *)
Lemma fold_cleanup entries r :
  settlements (fold_left cleanup_entry entries r) = settlements r ++ map cleanup_call entries /\
  (forall tm, In tm (timers (fold_left cleanup_entry entries r)) <->
              In tm (timers r) /\ forall e, In e entries -> handle tm <> timeout (snd e)) /\
  sending (fold_left cleanup_entry entries r) = sending r /\
  nextCall (fold_left cleanup_entry entries r) = nextCall r /\
  clock (fold_left cleanup_entry entries r) = clock r /\
  console (fold_left cleanup_entry entries r) = console r /\
  (NoDup (map handle (timers r)) ->
   NoDup (map handle (timers (fold_left cleanup_entry entries r)))).
Proof.
  revert r. induction entries as [|e entries IH]; intros r; simpl.
  - rewrite app_nil_r. repeat split; auto; tauto.
  - destruct (IH (cleanup_entry r e)) as (A & B & C & D & E & F & G).
    rewrite A, C, D, E, F. simpl. rewrite <- app_assoc. simpl.
    split; [reflexivity|].
    split; [|split; [reflexivity|split; [reflexivity|split; [reflexivity|split; [reflexivity|]]]]].
    + intros tm. rewrite B. unfold cleanup_entry. simpl. rewrite filter_In. split.
      * intros [[Htm Hne] Hrest]. apply negb_true_iff, Nat.eqb_neq in Hne.
        split; auto. intros e' [<-|He']; auto.
      * intros [Htm Hall]. split; [split; auto|auto].
        apply negb_true_iff, Nat.eqb_neq. auto.
    + intros Hnd. apply G. simpl. now apply NoDup_map_filter.
Qed.

Lemma Inv_waiter_key this k1 p1 k2 p2 :
  Inv this ->
  get k1 (pendingRequests this) = Some p1 ->
  get k2 (pendingRequests this) = Some p2 ->
  waiter p1 = waiter p2 -> k1 = k2.
Proof.
  intros HI H1 H2 E.
  destruct (inv_entry _ HI _ _ H1) as (tm1 & Htm1 & Hh1 & Hi1 & Hw1).
  destruct (inv_entry _ HI _ _ H2) as (tm2 & Htm2 & Hh2 & Hi2 & Hw2).
  destruct (inv_timer _ HI _ Htm1) as (E1 & _).
  destruct (inv_timer _ HI _ Htm2) as (E2 & _).
  assert (tm1 = tm2).
  { apply (NoDup_map_same handle (timers (rt this))); auto; [apply HI|congruence]. }
  congruence.
Qed.

Lemma map_who_cleanup entries : map who (map cleanup_call entries) = map (fun e => waiter (snd e)) entries.
Proof. now rewrite map_map. Qed.

Lemma Inv_cleanup this : Inv this -> Inv (cleanup this).
Proof.
  intros HI.
  destruct (fold_cleanup (pendingRequests this) (rt this)) as (A & B & C & D & E & F & G).
  assert (Hentry : forall e, In e (pendingRequests this) ->
                             get (fst e) (pendingRequests this) = Some (snd e)).
  { intros [k p] He. apply In_get; auto. apply HI. }
  apply (Inv_settling this _ (map cleanup_call (pendingRequests this)) HI); simpl.
  - constructor.
  - discriminate.
  - intros tm Htm. apply B in Htm. destruct Htm as [Htm Hne]. split; auto.
    rewrite map_who_cleanup. intros Hin. apply in_map_iff in Hin.
    destruct Hin as (e & Hw & He). apply (Hne _ He).
    rewrite <- (Inv_waiter_timeout _ _ _ HI (Hentry _ He)).
    destruct (inv_timer _ HI _ Htm) as (Ew & _). congruence.
  - apply G. apply HI.
  - intros s. unfold entries. now rewrite C.
  - exact D.
  - exact A.
  - intros c Hc. apply in_map_iff in Hc. destruct Hc as (e & <- & He). simpl.
    apply (Inv_entry_fresh _ _ _ HI (Hentry _ He)).
  - apply first_only_distinct; [apply HI| |].
    + rewrite map_who_cleanup.
      apply (NoDup_map_inj (fun e => waiter (snd e)) fst); [apply HI|].
      intros a b Ha Hb Hw.
      apply (Inv_waiter_key this _ _ _ _ HI (Hentry _ Ha) (Hentry _ Hb) Hw).
    + intros c Hc. apply in_map_iff in Hc. destruct Hc as (e & <- & He). simpl.
      apply (Inv_entry_fresh _ _ _ HI (Hentry _ He)).
Qed.

(** The callbacks of the timers of one tick, field by field *)
Lemma fold_onTimeout fired this :
  let this' := fold_left (fun acc tm => onTimeout tm acc) fired this in
  settlements (rt this') =
    settlements (rt this) ++ map (timer_call (requestTimeout this)) fired /\
  timers (rt this') = timers (rt this) /\
  sending (rt this') = sending (rt this) /\
  nextCall (rt this') = nextCall (rt this) /\
  clock (rt this') = clock (rt this) /\
  console (rt this') = console (rt this) /\
  connected this' = connected this /\
  requestTimeout this' = requestTimeout this /\
  (forall k p, get k (pendingRequests this') = Some p <->
               get k (pendingRequests this) = Some p /\ ~ In k (map timer_id fired)) /\
  (NoDup (keys (pendingRequests this)) -> NoDup (keys (pendingRequests this'))).
Proof.
  revert this. induction fired as [|tm fired IH]; intros this; simpl.
  - rewrite app_nil_r. repeat split; auto; tauto.
  - destruct (IH (onTimeout tm this)) as (A & B & C & D & E & F & G & H & I & J).
    simpl in *. rewrite A, B, C, D, E, F, G, H. simpl. rewrite <- app_assoc. simpl.
    do 8 (split; [reflexivity|]). split.
    + intros k p. rewrite I. split.
      * intros [Hg Hn]. apply get_delete_Some in Hg. destruct Hg as [Hg Hne].
        split; auto. intros [E'|Hin]; [congruence|contradiction].
      * intros [Hg Hn]. split; [|tauto].
        rewrite get_delete_other; [exact Hg|]. intros ->. apply Hn. now left.
    + intros Hnd. apply J. now apply NoDup_keys_delete.
Qed.

Lemma Inv_tick this : Inv this -> Inv (tick this).
Proof.
  intros HI. unfold tick.
  set (now := (clock (rt this) + 1)%Z).
  set (fired := filter (is_due now) (timers (rt this))).
  destruct (fold_onTimeout fired (with_rt advance this)) as (A & B & C & D & E & F & G & H & I & J).
  simpl in *. fold now in B.
  assert (Hfired : forall tm, In tm fired -> In tm (timers (rt this)) /\ is_due now tm = true).
  { intros tm. apply filter_In. }
  apply (Inv_settling this _ (map (timer_call (requestTimeout this)) fired) HI); auto.
  - apply J. apply HI.
  - intros k p Hg. apply I in Hg. destruct Hg as [Hg Hn]. split; auto.
    destruct (inv_entry _ HI _ _ Hg) as (tm & Htm & Hh & Hi & _).
    exists tm. split; auto. rewrite B. apply filter_In. split; auto.
    destruct (is_due now tm) eqn:Hd; auto.
    exfalso. apply Hn. rewrite <- Hi. apply in_map. apply filter_In. auto.
  - intros tm. rewrite B. intros Htm. apply filter_In in Htm. destruct Htm as [Htm Hd].
    split; auto. rewrite map_map. simpl. intros Hin. apply in_map_iff in Hin.
    destruct Hin as (tf & Hw & Htf). destruct (Hfired _ Htf) as [Htf' Hdue].
    destruct (inv_timer _ HI _ Htm) as (Ew & _).
    destruct (inv_timer _ HI _ Htf') as (Ef & _).
    assert (tf = tm).
    { apply (NoDup_map_same handle (timers (rt this))); auto; [apply HI|congruence]. }
    subst tf. rewrite Hdue in Hd. discriminate.
  - rewrite B. apply NoDup_map_filter. apply HI.
  - intros s. now rewrite C.
  - intros c Hc. apply in_map_iff in Hc. destruct Hc as (tf & <- & Htf). simpl.
    destruct (Hfired _ Htf) as [Htf' _].
    destruct (inv_timer _ HI _ Htf') as (Ef & Hlt & _). lia.
  - apply first_only_distinct; [apply HI| |].
    + rewrite map_map. simpl.
      apply (NoDup_map_inj timer_waiter handle).
      * apply NoDup_map_filter. apply HI.
      * intros a b Ha Hb Hw. destruct (Hfired _ Ha) as [Ha' _]. destruct (Hfired _ Hb) as [Hb' _].
        destruct (inv_timer _ HI _ Ha') as (Ea & _).
        destruct (inv_timer _ HI _ Hb') as (Eb & _). congruence.
    + intros c Hc. apply in_map_iff in Hc. destruct Hc as (tf & <- & Htf). simpl.
      destruct (Hfired _ Htf) as [Htf' _]. apply (inv_timer _ HI _ Htf').
Qed.

Section Reachable.
Variable JSON_parse : string -> option JsonValue.

Lemma Inv_step this e : Inv this -> Inv (step JSON_parse this e).
Proof.
  intros HI. destruct e; simpl.
  - now apply Inv_set_connected.
  - now apply Inv_sendRequest.
  - now apply Inv_handleParsed.
  - now apply Inv_onSendSettled.
  - now apply Inv_cleanup.
  - now apply Inv_tick.
Qed.

Lemma Inv_run events this : Inv this -> Inv (run JSON_parse events this).
Proof.
  revert this. induction events as [|e events IH]; intros this HI; simpl; auto.
  apply IH. now apply Inv_step.
Qed.

Lemma Inv_reachable events : Inv (run JSON_parse events create).
Proof. apply Inv_run, Inv_create. Qed.

End Reachable.

(** *** The claims about the table *)

Lemma handleParsed_matched_pending v this k p :
  correlates (Some v) this = Some (k, p) ->
  pendingRequests (handleParsed (Some v) this) = delete k (pendingRequests this).
Proof.
  intros Hc. rewrite (handleParsed_matched _ _ _ _ Hc).
  destruct (reply v); reflexivity.
Qed.

Lemma correlates_gone v this k p :
  correlates (Some v) this = Some (k, p) ->
  correlates (Some v) (handleParsed (Some v) this) = None.
Proof.
  intros Hc. pose proof (handleParsed_matched_pending _ _ _ _ Hc) as Hp.
  destruct (correlates_inv _ _ _ _ Hc) as (v' & rid & [= <-] & Hv & Hid & Ht & Hk & Hg).
  unfold correlates. rewrite Hv, Hid, Ht. unfold get_pending. rewrite Hk, Hp.
  now rewrite get_delete_same.
Qed.

Lemma settled_not_live this c :
  Inv this -> In c (settlements (rt this)) ->
  ~ in_table this (who c) /\ ~ has_timer this (who c).
Proof.
  intros HI Hc. assert (Hin : In (who c) (map who (settlements (rt this)))) by now apply in_map.
  split.
  - intros (k & p & Hg & Hw). destruct (Inv_entry_fresh _ _ _ HI Hg) as [Hn _]. congruence.
  - intros (tm & Htm & Hw). destruct (inv_timer _ HI _ Htm) as (_ & _ & Hn). congruence.
Qed.

Lemma NoDup_snd_fst {A B : Type} (l : list (A * B)) a1 a2 b :
  NoDup (map snd l) -> In (a1, b) l -> In (a2, b) l -> a1 = a2.
Proof.
  induction l as [|[a b'] l IH]; simpl; [tauto|].
  intros Hnd H1 H2. inversion Hnd as [|? ? Hnotin Hnd']; subst.
  destruct H1 as [E1|H1], H2 as [E2|H2].
  - congruence.
  - injection E1 as -> ->. exfalso. apply Hnotin. now apply (in_map snd) in H2.
  - injection E2 as -> ->. exfalso. apply Hnotin. now apply (in_map snd) in H1.
  - auto.
Qed.

Section Issued.
Variable JSON_parse : string -> option JsonValue.

Lemma sendRequest_call request this n :
  snd (sendRequest request this) = Ok n -> n = nextCall (rt this).
Proof. unfold sendRequest. destruct (connected this); simpl; congruence. Qed.

Lemma nextCall_step this e :
  nextCall (rt (step JSON_parse this e)) =
  match e with
  | Sends request =>
      match snd (sendRequest request this) with
      | Ok _ => S (nextCall (rt this))
      | Throw _ => nextCall (rt this)
      end
  | _ => nextCall (rt this)
  end.
Proof.
  destruct e; simpl; auto.
  - unfold sendRequest. destruct (connected this); reflexivity.
  - unfold handleResponse, handleParsed, handleResponse_try.
    destruct (JSON_parse data) as [v|]; auto.
    destruct (validateResponse v) as [response|]; auto.
    destruct (prop response "id") as [rid|]; simpl; auto.
    destruct (truthy rid); simpl; auto.
    destruct (get_pending rid this) as [[k p]|]; auto.
    destruct (isErrorResponse response); auto.
    destruct (prop response "error") as [error|]; auto.
    destruct (rejection error); auto.
  - unfold onSendSettled. destruct (find_send call this); auto.
    destruct failure; auto.
  - now destruct (fold_cleanup (pendingRequests this) (rt this)) as (_ & _ & _ & E & _).
  - unfold tick.
    now destruct (fold_onTimeout (filter (is_due (clock (rt this) + 1)) (timers (rt this)))
                    (with_rt advance this)) as (_ & _ & _ & E & _).
Qed.

(** Promises are numbered in the order of the calls of sendRequest that
    return one. *)
Lemma issued_covers events this n :
  nextCall (rt this) <= n < nextCall (rt (run JSON_parse events this)) ->
  exists k, In (n, k) (issued JSON_parse events this).
Proof.
  revert this. induction events as [|e events IH]; intros this Hn.
  - simpl in Hn. lia.
  - change (run JSON_parse (e :: events) this)
      with (run JSON_parse events (step JSON_parse this e)) in Hn.
    cbn [issued].
    destruct (Nat.lt_ge_cases n (nextCall (rt (step JSON_parse this e)))) as [Hlt|Hge].
    + rewrite nextCall_step in Hlt. destruct e; try lia.
      cbn [issues].
      destruct (snd (sendRequest request this)) as [m|] eqn:E; [|lia].
      apply sendRequest_call in E. exists (id request). left. f_equal. lia.
    + destruct (IH (step JSON_parse this e)) as [k Hk]; [lia|].
      exists k. apply in_or_app. now right.
Qed.

(** *** Promises without an entry *)

Lemma Tracked_entry made this k p :
  Inv this -> Tracked made this ->
  get k (pendingRequests this) = Some p -> In (waiter p, k) made.
Proof.
  intros HI HT Hg. destruct (inv_entry _ HI _ _ Hg) as (tm & Htm & _ & Hi & Hw).
  rewrite <- Hi, <- Hw. now apply (tracked_timer _ _ HT).
Qed.

Lemma Tracked_create : Tracked [] create.
Proof.
  constructor; simpl; try tauto. intros n Hn. lia.
Qed.

Lemma Tracked_sendRequest made request this :
  Inv this -> Tracked made this ->
  NoDup (map snd (made ++ issues this (Sends request))) ->
  Tracked (made ++ issues this (Sends request)) (fst (sendRequest request this)).
Proof.
  intros HI HT Hnd. unfold issues, sendRequest in *. destruct (connected this); simpl in *;
    [|rewrite app_nil_r; exact HT].
  assert (Hfresh : ~ In (id request) (map snd made)).
    { rewrite map_app in Hnd. apply NoDup_remove_2 in Hnd.
      simpl in Hnd. now rewrite app_nil_r in Hnd. }
  constructor; simpl.
  - intros tm Htm. apply in_app_or in Htm. apply in_or_app.
    destruct Htm as [Htm|[<-|[]]]; [left; now apply (tracked_timer _ _ HT)|right; now left].
  - intros s Hs. apply in_app_or in Hs. apply in_or_app.
    destruct Hs as [Hs|[<-|[]]]; [left; now apply (tracked_send _ _ HT)|right; now left].
  - intros n Hn Hlog. destruct (Nat.eq_dec n (nextCall (rt this))) as [->|Hne].
    + exists (id request), {| waiter := nextCall (rt this); timeout := nextCall (rt this) |}.
      split; [apply get_set_same|reflexivity].
    + destruct (tracked_table _ _ HT n) as (k & p & Hg & Hw); [lia|exact Hlog|].
      exists k, p. split; [|exact Hw]. simpl.
      rewrite get_set_other; [exact Hg|].
      intros ->. apply Hfresh.
      pose proof (Tracked_entry _ _ _ _ HI HT Hg) as Hin.
      now apply (in_map snd) in Hin.
Qed.

Lemma Tracked_answered made this k p s :
  Inv this -> Tracked made this ->
  get k (pendingRequests this) = Some p ->
  Tracked made (with_rt (settle ByResponse (waiter p) s) (answered k p this)).
Proof.
  intros HI HT Hg. constructor; simpl.
  - intros tm Htm. apply filter_In in Htm. now apply (tracked_timer _ _ HT).
  - apply (tracked_send _ _ HT).
  - intros n Hn Hlog. rewrite map_app, in_app_iff in Hlog. simpl in Hlog.
    destruct (tracked_table _ _ HT n Hn) as (k' & p' & Hg' & Hw); [tauto|].
    exists k', p'. split; [|exact Hw]. simpl.
    rewrite get_delete_other; [exact Hg'|].
    intros ->. apply Hlog. right. left. congruence.
Qed.

Lemma Tracked_handleParsed made parsed this :
  Inv this -> Tracked made this -> orphans parsed this = false ->
  Tracked made (handleParsed parsed this).
Proof.
  intros HI HT Ho. destruct (malformed parsed) as [e|] eqn:Hm.
  - rewrite (handleParsed_malformed _ _ _ Hm). destruct HT. constructor; auto.
  - destruct (correlates parsed this) as [[k p]|] eqn:Hc.
    + destruct (correlates_inv _ _ _ _ Hc) as (v & rid & -> & _ & _ & _ & _ & Hg).
      rewrite (handleParsed_matched _ _ _ _ Hc). unfold orphans in Ho. rewrite Hc in Ho.
      destruct (reply v); try discriminate; now apply Tracked_answered.
    + now rewrite (handleParsed_unmatched _ _ Hm Hc).
Qed.

Lemma Tracked_onSendSettled made call failure this :
  Inv this -> Tracked made this -> NoDup (map snd made) ->
  Tracked made (onSendSettled call failure this).
Proof.
  intros HI HT Hnd. unfold onSendSettled.
  destruct (find_send call this) as [s|] eqn:Hf; auto.
  destruct (find_send_Some _ _ _ Hf) as [Hs _].
  destruct failure as [error|].
  - constructor; simpl.
    + intros tm Htm. apply filter_In in Htm. now apply (tracked_timer _ _ HT).
    + intros s' Hs'. apply filter_In in Hs'. now apply (tracked_send _ _ HT).
    + intros n Hn Hlog. rewrite map_app, in_app_iff in Hlog. simpl in Hlog.
      destruct (tracked_table _ _ HT n Hn) as (k & p & Hg & Hw); [tauto|].
      exists k, p. split; [|exact Hw]. simpl.
      rewrite get_delete_other; [exact Hg|].
      intros ->. apply Hlog. right. left. rewrite <- Hw.
      apply (NoDup_snd_fst made _ _ (id (send_request s)) Hnd).
      * now apply (tracked_send _ _ HT).
      * now apply (Tracked_entry _ _ _ _ HI HT).
  - constructor; simpl.
    + apply (tracked_timer _ _ HT).
    + intros s' Hs'. apply filter_In in Hs'. now apply (tracked_send _ _ HT).
    + apply (tracked_table _ _ HT).
Qed.

Lemma Tracked_cleanup made this : Inv this -> Tracked made this -> Tracked made (cleanup this).
Proof.
  intros HI HT.
  destruct (fold_cleanup (pendingRequests this) (rt this)) as (A & B & C & D & _).
  constructor; simpl.
  - intros tm Htm. apply B in Htm. now apply (tracked_timer _ _ HT).
  - intros s. unfold entries. rewrite C. apply (tracked_send _ _ HT).
  - intros n. unfold entries. rewrite A, D, map_app, in_app_iff. intros Hn Hlog.
    destruct (tracked_table _ _ HT n Hn) as (k & p & Hg & Hw); [tauto|].
    exfalso. apply Hlog. right. rewrite map_who_cleanup.
    apply in_map_iff. exists (k, p). split; [exact Hw|now apply get_In].
Qed.

Lemma Tracked_tick made this :
  Inv this -> Tracked made this -> NoDup (map snd made) -> Tracked made (tick this).
Proof.
  intros HI HT Hnd. unfold tick.
  set (now := (clock (rt this) + 1)%Z).
  set (fired := filter (is_due now) (timers (rt this))).
  destruct (fold_onTimeout fired (with_rt advance this)) as (A & B & C & D & _ & _ & _ & _ & I & _).
  simpl in *. fold now in B. constructor.
  - intros tm. rewrite B. intros Htm. apply filter_In in Htm. now apply (tracked_timer _ _ HT).
  - intros s. rewrite C. apply (tracked_send _ _ HT).
  - intros n. rewrite A, D, map_app, in_app_iff. intros Hn Hlog.
    destruct (tracked_table _ _ HT n Hn) as (k & p & Hg & Hw); [tauto|].
    exists k, p. split; [|exact Hw]. apply I. split; [exact Hg|].
    intros Hin. apply in_map_iff in Hin. destruct Hin as (tf & Hid & Htf).
    apply Hlog. right. rewrite map_map. apply in_map_iff. exists tf. split; [|exact Htf].
    simpl. rewrite <- Hw. apply filter_In in Htf. destruct Htf as [Htf _].
    apply (NoDup_snd_fst made _ _ k Hnd).
    + rewrite <- Hid. now apply (tracked_timer _ _ HT).
    + now apply (Tracked_entry _ _ _ _ HI HT).
Qed.

Lemma Tracked_step made this e :
  Inv this -> Tracked made this ->
  NoDup (map snd (made ++ issues this e)) ->
  match e with
  | Receives data => orphans (JSON_parse data) this = false
  | _ => True
  end ->
  Tracked (made ++ issues this e) (step JSON_parse this e).
Proof.
  intros HI HT Hnd Ho. destruct e; try (simpl in Hnd; rewrite app_nil_r in *); simpl.
  - destruct HT. constructor; auto.
  - now apply Tracked_sendRequest.
  - now apply Tracked_handleParsed.
  - now apply Tracked_onSendSettled.
  - now apply Tracked_cleanup.
  - now apply Tracked_tick.
Qed.

Lemma Tracked_run events made this :
  Inv this -> Tracked made this ->
  NoDup (map snd (made ++ issued JSON_parse events this)) ->
  answers_settle JSON_parse events this = true ->
  Tracked (made ++ issued JSON_parse events this) (run JSON_parse events this).
Proof.
  revert made this. induction events as [|e events IH]; intros made this HI HT Hnd Ho.
  - simpl. now rewrite app_nil_r.
  - change (run JSON_parse (e :: events) this)
      with (run JSON_parse events (step JSON_parse this e)).
    cbn [issued answers_settle] in *. apply andb_true_iff in Ho. destruct Ho as [Ho1 Ho2].
    rewrite app_assoc in *. apply IH; auto.
    + now apply Inv_step.
    + apply Tracked_step; auto.
      * rewrite map_app in Hnd. now apply NoDup_app_remove_r in Hnd.
      * destruct e; auto. now apply negb_true_iff in Ho1.
Qed.

(** Along a run in which no two requests carry the same id and no answer
    has a null error, a promise nothing has called has its entry in the
    table. *)
Lemma unsettled_in_table events n :
  NoDup (map snd (issued JSON_parse events create)) ->
  answers_settle JSON_parse events create = true ->
  n < nextCall (rt (run JSON_parse events create)) ->
  outcome (run JSON_parse events create) n = None ->
  in_table (run JSON_parse events create) n.
Proof.
  intros Hnd Ho Hn Hout.
  apply (tracked_table _ _ (Tracked_run events [] create Inv_create Tracked_create Hnd Ho)); auto.
  now apply first_settlement_None.
Qed.

End Issued.

(** C1. Along every run of a transport: the table never holds two entries
    for one id; a call of resolve or reject made by handleResponse, by a
    timer or by cleanup is always the first call on its promise, so none of
    the three settles a request a second time; once a promise has been
    called (by a response, a timer, a failed send or cleanup) no entry of the
    table and no live timer leads to it any more; and a frame that was
    answered to an entry finds no entry when it arrives again and changes
    nothing.  Every call is made on the promise of a request of the run, and
    when no two requests of the run carry the same id, a call by
    handleResponse, a timer or cleanup on the request of an id is preceded
    by no call on a request of that id. *)
Theorem settled_at_most_once (JSON_parse : string -> option JsonValue) (events : list Event) :
  let this := run JSON_parse events create in
  NoDup (keys (pendingRequests this)) /\
  first_only (settlements (rt this)) /\
  (forall c, In c (settlements (rt this)) ->
             ~ in_table this (who c) /\ ~ has_timer this (who c)) /\
  (forall data k p,
      correlates (JSON_parse data) this = Some (k, p) ->
      let this' := handleResponse JSON_parse data this in
      get k (pendingRequests this') = None /\
      correlates (JSON_parse data) this' = None /\
      handleResponse JSON_parse data this' = this') /\
  (forall c, In c (settlements (rt this)) ->
             exists k, In (who c, k) (issued JSON_parse events create)) /\
  (NoDup (map snd (issued JSON_parse events create)) ->
   forall before c after k,
     settlements (rt this) = before ++ c :: after ->
     is_send_failure c = false ->
     In (who c, k) (issued JSON_parse events create) ->
     forall c', In c' before -> ~ In (who c', k) (issued JSON_parse events create)).
Proof.
  intros this. pose proof (Inv_reachable JSON_parse events) as HI. fold this in HI.
  split; [apply HI|]. split; [apply HI|]. split; [|split; [|split]].
  - intros c Hc. now apply settled_not_live.
  - intros data k p Hc this'. unfold this', handleResponse.
    destruct (correlates_inv _ _ _ _ Hc) as (v & rid & Hp & Hv & _).
    rewrite Hp in *. split; [|split].
    + rewrite (handleParsed_matched_pending _ _ _ _ Hc). apply get_delete_same.
    + apply (correlates_gone _ _ _ _ Hc).
    + apply handleParsed_unmatched.
      * unfold malformed. now rewrite Hv.
      * apply (correlates_gone _ _ _ _ Hc).
  - intros c Hc. apply issued_covers. fold this.
    pose proof (inv_settled _ HI c Hc). simpl. lia.
  - intros Hnd before c after k Hlog Hsf Hk c' Hc' Hk'.
    apply (inv_log _ HI before c after Hlog Hsf).
    rewrite (NoDup_snd_fst _ _ _ _ Hnd Hk Hk'). now apply in_map.
Qed.

(** An instance of C1: the response to the first request arrives twice. *)
Lemma settled_at_most_once_witness :
  let events := [Connects; Sends Sample.first_request] in
  let this := run Sample.one_frame events create in
  let this' := handleResponse Sample.one_frame "tools" this in
  correlates (Sample.one_frame "tools") this = Some (IdNum 1, {| waiter := 0; timeout := 0 |}) /\
  outcome this' 0 = Some (Resolved Sample.tools_frame) /\
  get (IdNum 1) (pendingRequests this') = None /\
  handleResponse Sample.one_frame "tools" this' = this'.
Proof.
  intros events this this'.
  assert (Hc : correlates (Sample.one_frame "tools") this =
               Some (IdNum 1, {| waiter := 0; timeout := 0 |})) by reflexivity.
  destruct (settled_at_most_once Sample.one_frame events) as (_ & _ & _ & H & _).
  destruct (H "tools" _ _ Hc) as (A & _ & C).
  split; [exact Hc|]. split; [reflexivity|]. split; [exact A|exact C].
Defined.


(** A response whose error field is null: the entry is removed, the timer is
    cleared, and resolve and reject are never called, not by the 30000
    milliseconds that follow and not by cleanup. *)
Example null_error_orphans_the_promise :
  let this := fst (sendRequest Sample.first_request (set_connected true create)) in
  let this' := handleParsed (Some Sample.null_error_frame) this in
  get (IdNum 1) (pendingRequests this) = Some {| waiter := 0; timeout := 0 |} /\
  pendingRequests this' = [] /\ timers (rt this') = [] /\
  settlements (rt this') = [] /\ console (rt this') = [TypeError] /\
  outcome (run Sample.no_frames (ticks 30000) this') 0 = None /\
  outcome (cleanup this') 0 = None.
Proof. vm_compute. repeat split; reflexivity. Qed.

(** The same happens to a response whose error code is an object with a
    property named toString: the template literal of the message cannot
    convert it. *)
Example unprintable_error_orphans_the_promise :
  let this := fst (sendRequest Sample.first_request (set_connected true create)) in
  let this' := handleParsed (Some Sample.unprintable_error_frame) this in
  validateResponse Sample.unprintable_error_frame = Ok Sample.unprintable_error_frame /\
  pendingRequests this' = [] /\ timers (rt this') = [] /\
  settlements (rt this') = [] /\ console (rt this') = [TypeError] /\
  outcome (run Sample.no_frames (ticks 30000) this') 0 = None /\
  outcome (cleanup this') 0 = None.
Proof. vm_compute. repeat split; reflexivity. Qed.



Lemma outcome_cleanup_call n (old : list Settled) (entries : list (RequestId * PendingRequest)) :
  ~ In n (map who old) ->
  In n (map (fun e => waiter (snd e)) entries) ->
  first_settlement n (old ++ map cleanup_call entries) = Some (Rejected TransportDisconnected).
Proof.
  intros Hold Hin. rewrite first_settlement_app.
  apply first_settlement_None in Hold. rewrite Hold. clear Hold.
  induction entries as [|e entries IH]; simpl in *; [tauto|].
  destruct (Nat.eqb_spec (waiter (snd e)) n); auto.
  apply IH. tauto.
Qed.

Lemma cleanup_twice this : cleanup (cleanup this) = cleanup this.
Proof. reflexivity. Qed.

(** *** The timer of a request *)

Lemma correlates_frame_key parsed this k p :
  correlates parsed this = Some (k, p) -> frame_key parsed = Some k.
Proof.
  intros Hc. destruct (correlates_inv _ _ _ _ Hc) as (v & rid & -> & Hv & Hid & Ht & Hk & _).
  unfold frame_key. now rewrite Hv, Hid, Ht.
Qed.

Lemma same_id_refl rid : same_id (Some rid) rid = true.
Proof. simpl. now apply RequestId_eqb_eq. Qed.

Lemma count_ticks_cons e events :
  count_ticks (e :: events) =
  ((match e with Ticks => 1 | _ => 0 end) + count_ticks events)%Z.
Proof.
  unfold count_ticks. destruct e; cbn [filter List.length]; try rewrite Nat2Z.inj_succ; lia.
Qed.

Lemma count_ticks_nonneg events : (0 <= count_ticks events)%Z.
Proof. unfold count_ticks. lia. Qed.

Lemma awaiting_handle_unique this n rid d tm :
  Inv this -> awaiting_timer n rid d this ->
  In tm (timers (rt this)) -> handle tm = n ->
  tm = {| handle := n; due := d; timer_id := rid; timer_waiter := n |}.
Proof.
  intros HI (Hin & _) Htm Hh.
  apply (NoDup_map_same handle (timers (rt this))); auto. apply HI.
Qed.

Lemma awaiting_handleParsed parsed this n rid d :
  Inv this -> awaiting_timer n rid d this ->
  same_id (frame_key parsed) rid = false ->
  awaiting_timer n rid d (handleParsed parsed this).
Proof.
  intros HI Haw Hkey. destruct (malformed parsed) as [e|] eqn:Hm.
  - now rewrite (handleParsed_malformed _ _ _ Hm).
  - destruct (correlates parsed this) as [[k p]|] eqn:Hc.
    + rewrite (correlates_frame_key _ _ _ _ Hc) in Hkey.
      destruct (correlates_inv _ _ _ _ Hc) as (v & rid' & -> & _ & _ & _ & _ & Hg).
      destruct (inv_entry _ HI _ _ Hg) as (tm & Htm & Hh & Hi & Hw).
      assert (Hne : timeout p <> n).
      { intros E. rewrite E in Hh.
        rewrite (awaiting_handle_unique _ _ _ _ _ HI Haw Htm Hh) in Hi. simpl in Hi.
        subst k. now rewrite same_id_refl in Hkey. }
      pose proof (Inv_waiter_timeout _ _ _ HI Hg) as Hwt.
      destruct Haw as (Hin & Hn & Hclk).
      assert (Hkeep : In {| handle := n; due := d; timer_id := rid; timer_waiter := n |}
                         (timers (clearTimeout (timeout p) (rt this)))).
      { apply In_clearTimeout. split; auto. }
      rewrite (handleParsed_matched _ _ _ _ Hc).
      destruct (reply v); (split; [exact Hkeep|split; [|exact Hclk]]); simpl;
        try exact Hn; rewrite map_app, in_app_iff; simpl; intros [?|[?|[]]]; auto; congruence.
    + now rewrite (handleParsed_unmatched _ _ Hm Hc).
Qed.

Lemma awaiting_onSendSettled call failure this n rid d :
  Inv this -> awaiting_timer n rid d this ->
  match failure with Some _ => negb (Nat.eqb call n) | None => true end = true ->
  awaiting_timer n rid d (onSendSettled call failure this).
Proof.
  intros HI Haw Hq. unfold onSendSettled.
  destruct (find_send call this) as [s|] eqn:Hf; auto.
  destruct (find_send_Some _ _ _ Hf) as [Hs Hcall].
  destruct failure as [error|]; [|exact Haw].
  apply negb_true_iff, Nat.eqb_neq in Hq.
  destruct (inv_send _ HI _ Hs) as (Ht & Hw & _).
  destruct Haw as (Hin & Hn & Hclk). split; [|split; [|exact Hclk]]; simpl.
  - apply filter_In. split; auto. simpl. apply negb_true_iff, Nat.eqb_neq. congruence.
  - rewrite map_app, in_app_iff. simpl. intros [?|[?|[]]]; auto. congruence.
Qed.

Lemma awaiting_sendRequest request this n rid d :
  awaiting_timer n rid d this -> awaiting_timer n rid d (fst (sendRequest request this)).
Proof.
  intros (Hin & Hn & Hclk). unfold sendRequest. destruct (connected this); simpl.
  - split; auto. apply in_or_app. now left.
  - split; auto.
Qed.

Lemma tick_fields this :
  let now := (clock (rt this) + 1)%Z in
  let fired := filter (is_due now) (timers (rt this)) in
  settlements (rt (tick this)) =
    settlements (rt this) ++ map (timer_call (requestTimeout this)) fired /\
  timers (rt (tick this)) = filter (fun tm => negb (is_due now tm)) (timers (rt this)) /\
  clock (rt (tick this)) = now /\
  connected (tick this) = connected this /\
  requestTimeout (tick this) = requestTimeout this /\
  (forall k p, get k (pendingRequests (tick this)) = Some p <->
               get k (pendingRequests this) = Some p /\ ~ In k (map timer_id fired)).
Proof.
  intros now fired. unfold tick. fold now. fold fired.
  destruct (fold_onTimeout fired (with_rt advance this)) as (A & B & C & D & E & F & G & H & I & J).
  simpl in *. auto 10.
Qed.

Lemma awaiting_tick this n rid d :
  Inv this -> awaiting_timer n rid d this -> (clock (rt this) + 1 < d)%Z ->
  awaiting_timer n rid d (tick this).
Proof.
  intros HI (Hin & Hn & Hclk) Hlt.
  destruct (tick_fields this) as (A & B & C & _).
  split; [|split].
  - rewrite B. apply filter_In. split; auto. unfold is_due. simpl.
    apply negb_true_iff, Z.leb_gt. lia.
  - rewrite A, map_app, in_app_iff, map_map. simpl. intros [?|Hf]; auto.
    apply in_map_iff in Hf. destruct Hf as (tf & Hw & Htf). apply filter_In in Htf.
    destruct Htf as [Htf Hdue]. destruct (inv_timer _ HI _ Htf) as (Ew & _).
    assert (Hh : handle tf = n) by congruence.
    rewrite (awaiting_handle_unique this n rid d tf HI (conj Hin (conj Hn Hclk)) Htf Hh) in Hdue.
    unfold is_due in Hdue. simpl in Hdue. apply Z.leb_le in Hdue. lia.
  - rewrite C. exact Hlt.
Qed.

Lemma first_settlement_timer_call ms n tm fired :
  In tm fired -> timer_waiter tm = n ->
  (forall tf, In tf fired -> timer_waiter tf = n -> tf = tm) ->
  first_settlement n (map (timer_call ms) fired) =
  Some (Rejected (RequestTimedOut (timer_id tm) ms)).
Proof.
  intros Hin Hw Huniq. induction fired as [|tf fired IH]; simpl in *; [tauto|].
  destruct (Nat.eqb_spec (timer_waiter tf) n) as [E|E].
  - rewrite (Huniq tf (or_introl eq_refl) E). reflexivity.
  - apply IH; auto. destruct Hin as [->|Hin]; [congruence|exact Hin].
Qed.

Lemma fires_at_deadline this n rid d :
  Inv this -> awaiting_timer n rid d this -> (clock (rt this) + 1 = d)%Z ->
  outcome (tick this) n = Some (Rejected (RequestTimedOut rid (requestTimeout this))) /\
  get rid (pendingRequests (tick this)) = None /\
  clock (rt (tick this)) = d.
Proof.
  intros HI Haw Hd. pose proof Haw as (Hin & Hn & Hclk).
  destruct (tick_fields this) as (A & B & C & _ & _ & I).
  set (tm := {| handle := n; due := d; timer_id := rid; timer_waiter := n |}) in *.
  assert (Hfired : In tm (filter (is_due (clock (rt this) + 1)) (timers (rt this)))).
  { apply filter_In. split; auto. unfold is_due. simpl. apply Z.leb_le. lia. }
  split; [|split].
  - unfold outcome, promise. rewrite A, first_settlement_app.
    apply first_settlement_None in Hn. rewrite Hn.
    apply (first_settlement_timer_call (requestTimeout this) n tm); auto.
    intros tf Htf Hw. apply filter_In in Htf. destruct Htf as [Htf _].
    destruct (inv_timer _ HI _ Htf) as (Ew & _).
    apply (awaiting_handle_unique this n rid d tf HI Haw Htf). congruence.
  - destruct (get rid (pendingRequests (tick this))) as [p|] eqn:Hg; auto.
    apply I in Hg. destruct Hg as [_ Hnot]. exfalso. apply Hnot.
    apply in_map_iff. exists tm. auto.
  - rewrite C. exact Hd.
Qed.

Section Timers.
Variable JSON_parse : string -> option JsonValue.

Lemma requestTimeout_step this e : requestTimeout (step JSON_parse this e) = requestTimeout this.
Proof.
  destruct e; simpl; auto.
  - unfold sendRequest. destruct (connected this); reflexivity.
  - unfold handleResponse, handleParsed, handleResponse_try.
    destruct (JSON_parse data) as [v|]; auto.
    destruct (validateResponse v) as [response|]; auto.
    destruct (prop response "id") as [rid|]; simpl; auto.
    destruct (truthy rid); simpl; auto.
    destruct (get_pending rid this) as [[k p]|]; auto.
    destruct (isErrorResponse response); auto.
    destruct (prop response "error") as [error|]; auto.
    destruct (rejection error); auto.
  - unfold onSendSettled. destruct (find_send call this); auto.
    destruct failure; auto.
  - apply tick_fields.
Qed.

Lemma requestTimeout_run events this :
  requestTimeout (run JSON_parse events this) = requestTimeout this.
Proof.
  revert this. induction events as [|e events IH]; intros this; simpl; auto.
  now rewrite IH, requestTimeout_step.
Qed.

Lemma clock_step this e :
  clock (rt (step JSON_parse this e)) =
  (clock (rt this) + match e with Ticks => 1 | _ => 0 end)%Z.
Proof.
  destruct e; simpl; try lia.
  - unfold sendRequest. destruct (connected this); simpl; lia.
  - unfold handleResponse, handleParsed, handleResponse_try.
    destruct (JSON_parse data) as [v|]; simpl; try lia.
    destruct (validateResponse v) as [response|]; simpl; try lia.
    destruct (prop response "id") as [rid|]; simpl; try lia.
    destruct (truthy rid); simpl; try lia.
    destruct (get_pending rid this) as [[k p]|]; simpl; try lia.
    destruct (isErrorResponse response); simpl; try lia.
    destruct (prop response "error") as [error|]; simpl; try lia.
    destruct (rejection error); simpl; lia.
  - unfold onSendSettled. destruct (find_send call this); simpl; try lia.
    destruct failure; simpl; lia.
  - destruct (fold_cleanup (pendingRequests this) (rt this)) as (_ & _ & _ & _ & E & _).
    unfold entries. rewrite E. lia.
  - apply tick_fields.
Qed.

Lemma undisturbed_run events this n rid d :
  Inv this -> awaiting_timer n rid d this ->
  undisturbed JSON_parse n rid events = true ->
  (clock (rt this) + count_ticks events < d)%Z ->
  awaiting_timer n rid d (run JSON_parse events this) /\
  clock (rt (run JSON_parse events this)) = (clock (rt this) + count_ticks events)%Z.
Proof.
  revert this. induction events as [|e events IH]; intros this HI Haw Hq Hlt.
  - simpl. split; auto. unfold count_ticks. simpl. lia.
  - simpl in Hq. apply andb_true_iff in Hq. destruct Hq as [He Hq].
    rewrite count_ticks_cons in Hlt. pose proof (count_ticks_nonneg events) as Hnn.
    assert (Haw' : awaiting_timer n rid d (step JSON_parse this e)).
    { destruct e; simpl.
      - exact Haw.
      - now apply awaiting_sendRequest.
      - apply awaiting_handleParsed; auto. now apply negb_true_iff in He.
      - now apply awaiting_onSendSettled.
      - discriminate.
      - apply awaiting_tick; auto. lia. }
    simpl. destruct (IH (step JSON_parse this e)) as [A B]; auto.
    + now apply Inv_step.
    + rewrite clock_step. lia.
    + split; auto. rewrite B, clock_step, count_ticks_cons. lia.
Qed.

Lemma awaiting_after_send request this :
  Inv this -> connected this = true ->
  awaiting_timer (nextCall (rt this)) (id request)
    (clock (rt this) + timer_delay (requestTimeout this))
    (fst (sendRequest request this)) /\
  snd (sendRequest request this) = Ok (nextCall (rt this)) /\
  clock (rt (fst (sendRequest request this))) = clock (rt this).
Proof.
  intros HI Hc. unfold sendRequest. rewrite Hc. simpl. split; [|auto]. split; [|split]; simpl.
  - apply in_or_app. right. now left.
  - intros Hin. apply in_map_iff in Hin. destruct Hin as (c & E & Hin).
    apply (inv_settled _ HI) in Hin. lia.
  - unfold timer_delay.
    destruct ((requestTimeout this <? 1) || (2147483647 <? requestTimeout this))%Z eqn:E; lia.
Qed.

(** C3, amended. A request sent on a connected transport, for which no
    response with its id arrives, whose sendMessage does not fail and during
    whose wait cleanup does not run: its promise stays unsettled for 29999
    milliseconds and the 30000th (requestTimeout, fixed at 30000) rejects it
    with 'Request <id> timed out after 30000ms'; after that tick the table
    holds no entry under its id. *)
Theorem timeout_fires_at_deadline (events0 : list Event) (request : JsonRpcRequest)
    (events : list Event) :
  let this0 := run JSON_parse events0 create in
  let n := nextCall (rt this0) in
  let this2 := run JSON_parse events (fst (sendRequest request this0)) in
  connected this0 = true ->
  undisturbed JSON_parse n (id request) events = true ->
  snd (sendRequest request this0) = Ok n /\
  requestTimeout this0 = 30000%Z /\
  ((count_ticks events < 30000)%Z -> outcome this2 n = None) /\
  (count_ticks events = 29999%Z ->
   outcome (tick this2) n = Some (Rejected (RequestTimedOut (id request) 30000)) /\
   get (id request) (pendingRequests (tick this2)) = None /\
   clock (rt (tick this2)) = (clock (rt this0) + 30000)%Z).
Proof.
  intros this0 n this2 Hc Hq.
  pose proof (Inv_reachable JSON_parse events0) as HI. fold this0 in HI.
  assert (Hms : requestTimeout this0 = 30000%Z).
  { unfold this0. now rewrite requestTimeout_run. }
  destruct (awaiting_after_send request this0 HI Hc) as (Haw & Hn & Hclk). fold n in Haw, Hn.
  rewrite Hms in Haw. change (timer_delay 30000) with 30000%Z in Haw.
  pose proof (Inv_sendRequest request this0 HI) as HI1.
  split; [exact Hn|]. split; [exact Hms|].
  assert (Hrun : (count_ticks events < 30000)%Z ->
                 awaiting_timer n (id request) (clock (rt this0) + 30000) this2 /\
                 clock (rt this2) = (clock (rt this0) + count_ticks events)%Z).
  { intros Hlt. rewrite <- Hclk at 2. apply undisturbed_run; auto. lia. }
  split.
  - intros Hlt. destruct (Hrun Hlt) as [(_ & Hfresh & _) _].
    now apply first_settlement_None.
  - intros Hcount. destruct Hrun as [Haw2 Hclk2]; [lia|].
    assert (HI2 : Inv this2) by now apply Inv_run.
    destruct (fires_at_deadline this2 n (id request) _ HI2 Haw2) as (A & B & C); [lia|].
    assert (Hms2 : requestTimeout this2 = 30000%Z).
    { unfold this2. rewrite requestTimeout_run. unfold sendRequest. rewrite Hc. exact Hms. }
    rewrite Hms2 in A. auto.
Qed.

End Timers.

(** An instance of C3: the first request on a transport that only time
    touches. *)
Lemma timeout_fires_at_deadline_witness :
  let this0 := run Sample.no_frames [Connects] create in
  let this2 := run Sample.no_frames (ticks 29999) (fst (sendRequest Sample.first_request this0)) in
  connected this0 = true /\
  undisturbed Sample.no_frames 0 (IdNum 1) (ticks 29999) = true /\
  outcome this2 0 = None /\
  outcome (tick this2) 0 = Some (Rejected (RequestTimedOut (IdNum 1) 30000)) /\
  get (IdNum 1) (pendingRequests (tick this2)) = None /\
  clock (rt (tick this2)) = 30000%Z.
Proof.
  intros this0 this2.
  assert (Hc : connected this0 = true) by reflexivity.
  assert (Hq : undisturbed Sample.no_frames 0 (IdNum 1) (ticks 29999) = true)
    by (vm_compute; reflexivity).
  destruct (timeout_fires_at_deadline Sample.no_frames [Connects] Sample.first_request
              (ticks 29999) Hc Hq) as (_ & _ & Hwait & Hfire).
  destruct Hfire as (A & B & C); [vm_compute; reflexivity|].
  split; [exact Hc|]. split; [exact Hq|]. split; [apply Hwait; vm_compute; reflexivity|].
  split; [exact A|]. split; [exact B|exact C].
Defined.

(** C3, as stated, fails: no response ever arrives, yet the request is not
    rejected with a timeout; cleanup, run 5 ms after the request was sent,
    rejects it with 'Transport disconnected' and cancels the timer, and the
    30000th millisecond changes nothing. *)
Lemma cleanup_preempts_timeout :
  let events := ticks 5 ++ CleansUp :: ticks 29995 in
  let this1 := fst (sendRequest Sample.first_request (set_connected true create)) in
  let this := run Sample.no_frames events this1 in
  connected (set_connected true create) = true /\
  forallb (fun e => negb (is_receive e)) events = true /\
  count_ticks events = 30000%Z /\
  outcome (run Sample.no_frames (ticks 5) this1) 0 = None /\
  outcome (run Sample.no_frames (ticks 5 ++ [CleansUp]) this1) 0 =
    Some (Rejected TransportDisconnected) /\
  outcome this 0 = Some (Rejected TransportDisconnected) /\
  connected this = false.
Proof. vm_compute. repeat split; reflexivity. Qed.

End BaseTransportFacts.

(* ------------------------------------------------------------------ *)
(** ** disconnect *)

Module DisconnectFacts.
Import JsMap JsMapFacts Runtime Correlation BaseTransportFacts.

Lemma disconnect_twice (tr : Transport) : disconnect (disconnect tr) = disconnect tr.
Proof. destruct tr as [s|h|p]; reflexivity. Qed.

Lemma base_disconnect (tr : Transport) : base (disconnect tr) = BaseTransport.cleanup (base tr).
Proof. destruct tr as [s|h|p]; reflexivity. Qed.




End DisconnectFacts.

(* ------------------------------------------------------------------ *)
(** ** Framing by newlines *)

Module FramingFacts.
Import Text Framing.

Lemma split_newline_nonempty s : split_newline s <> [].
Proof.
  destruct s as [|c s]; simpl; [discriminate|].
  destruct (Ascii.eqb c newline); [discriminate|].
  destruct (split_newline s); discriminate.
Qed.

Lemma removelast_cons {A : Type} (x : A) (l : list A) :
  l <> [] -> removelast (x :: l) = x :: removelast l.
Proof. destruct l; [congruence|reflexivity]. Qed.

Lemma last_cons {A : Type} (x d : A) (l : list A) :
  l <> [] -> last (x :: l) d = last l d.
Proof. destruct l; [congruence|reflexivity]. Qed.

(** Splitting a text in two pieces: the lines of the first piece but the
    last, then the lines of that last one followed by the second piece. *)
Lemma split_newline_app a b :
  split_newline (a ++ b)%string =
  removelast (split_newline a) ++ split_newline (last (split_newline a) EmptyString ++ b)%string.
Proof.
  induction a as [|c a IH]; [reflexivity|].
  cbn [String.append split_newline].
  destruct (Ascii.eqb c newline) eqn:E.
  - rewrite IH, removelast_cons, last_cons by apply split_newline_nonempty. reflexivity.
  - rewrite IH. pose proof (split_newline_nonempty a) as Hne.
    destruct (split_newline a) as [|segment rest]; [congruence|].
    destruct rest as [|segment' rest].
    + cbn [removelast last app String.append split_newline]. now rewrite E.
    + rewrite (removelast_cons segment), (last_cons segment) by discriminate.
      rewrite (removelast_cons (String c segment)), (last_cons (String c segment))
        by discriminate.
      reflexivity.
Qed.

Lemma split_newline_last_clean s :
  no_newline (last (split_newline s) EmptyString) = true.
Proof.
  unfold no_newline. induction s as [|c s IH]; [reflexivity|].
  cbn [split_newline]. pose proof (split_newline_nonempty s) as Hne.
  destruct (Ascii.eqb c newline) eqn:E.
  - now rewrite last_cons.
  - destruct (split_newline s) as [|segment rest]; [congruence|].
    destruct rest as [|segment' rest].
    + cbn [last] in *. cbn [split_newline]. rewrite E.
      destruct (split_newline segment) as [|x [|y l]]; try discriminate. reflexivity.
    + rewrite last_cons by discriminate. now rewrite last_cons in IH by discriminate.
Qed.

Lemma no_newline_split s : no_newline s = true -> split_newline s = [s].
Proof.
  unfold no_newline. induction s as [|c s IH]; [reflexivity|].
  cbn [split_newline]. destruct (Ascii.eqb c newline).
  - pose proof (split_newline_nonempty s). destruct (split_newline s); [congruence|discriminate].
  - destruct (split_newline s) as [|x [|y l]] eqn:E; try discriminate.
    + now destruct (split_newline_nonempty s).
    + intros _. assert (H : [x] = [s]) by (apply IH; reflexivity). congruence.
Qed.

Lemma append_empty_r s : (s ++ EmptyString)%string = s.
Proof. induction s as [|c s IH]; simpl; congruence. Qed.

Lemma append_assoc a b c : ((a ++ b) ++ c)%string = (a ++ (b ++ c))%string.
Proof. induction a as [|x a IH]; simpl; congruence. Qed.

Lemma removelast_app_nonempty {A : Type} (l1 l2 : list A) :
  l2 <> [] -> removelast (l1 ++ l2) = l1 ++ removelast l2.
Proof. intros. now apply removelast_app. Qed.

Lemma last_app_nonempty {A : Type} (l1 l2 : list A) (d : A) :
  l2 <> [] -> last (l1 ++ l2) d = last l2 d.
Proof.
  intros Hne. induction l1 as [|x l1 IH]; [reflexivity|].
  simpl app. rewrite last_cons; auto. destruct l1; simpl; auto. discriminate.
Qed.

Section Feed.
Context {S : Type}.
Variable handle : string -> S -> S.

(** Whatever the chunks, the state after them is the state after their
    text. *)
Lemma feed_whole chunks buffer s :
  no_newline buffer = true ->
  feed handle chunks (buffer, s) =
  (last (split_newline (buffer ++ whole chunks)%string) EmptyString,
   fold_left (process_line handle) (removelast (split_newline (buffer ++ whole chunks)%string)) s).
Proof.
  revert buffer s. induction chunks as [|chunk chunks IH]; intros buffer s Hclean.
  - simpl. rewrite append_empty_r, (no_newline_split _ Hclean). reflexivity.
  - change (feed handle (chunk :: chunks) (buffer, s))
      with (feed handle chunks (handleStreamData handle chunk (buffer, s))).
    change (whole (chunk :: chunks)) with (chunk ++ whole chunks)%string.
    unfold handleStreamData. cbn [fst snd].
    rewrite IH by apply split_newline_last_clean.
    rewrite <- append_assoc.
    rewrite (split_newline_app (buffer ++ chunk) (whole chunks)).
    rewrite removelast_app_nonempty, last_app_nonempty by apply split_newline_nonempty.
    now rewrite fold_left_app.
Qed.

Lemma fold_process_line lines s :
  fold_left (process_line handle) lines s =
  fold_left (fun st line => handle line st) (filter nonempty (map trim lines)) s.
Proof.
  revert s. induction lines as [|line lines IH]; intros s; [reflexivity|].
  cbn [fold_left map filter]. unfold process_line at 2.
  destruct (nonempty (trim line)); simpl; apply IH.
Qed.

End Feed.

Lemma fold_record lines calls :
  fold_left (fun st line => record line st) lines calls = calls ++ lines.
Proof.
  revert calls. induction lines as [|line lines IH]; intros calls; simpl.
  - now rewrite app_nil_r.
  - rewrite IH. unfold record. now rewrite <- app_assoc.
Qed.

Lemma split_one_line message :
  no_newline message = true ->
  split_newline (message ++ String newline EmptyString)%string = [message; EmptyString].
Proof.
  intros Hclean. apply no_newline_split in Hclean.
  induction message as [|c message IH]; [reflexivity|].
  cbn [split_newline String.append] in *.
  destruct (Ascii.eqb c newline); [discriminate|].
  destruct (split_newline message) as [|x [|y l]] eqn:E; try discriminate.
  - now destruct (split_newline_nonempty message).
  - injection Hclean as ->. now rewrite IH.
Qed.

Section Transports.
Variable JSON_parse : string -> option JsonValue.

Lemma http_feed chunks (h : HttpStreamTransport.t) :
  HttpStreamTransport.feed JSON_parse chunks h =
  let r := feed (BaseTransport.handleResponse JSON_parse) chunks
             (HttpStreamTransport.buffer h, HttpStreamTransport.base h) in
  {| HttpStreamTransport.base := snd r;
     HttpStreamTransport.url := HttpStreamTransport.url h;
     HttpStreamTransport.headers := HttpStreamTransport.headers h;
     HttpStreamTransport.responseStream := HttpStreamTransport.responseStream h;
     HttpStreamTransport.buffer := fst r;
     HttpStreamTransport.connectCall := HttpStreamTransport.connectCall h |}.
Proof.
  revert h. induction chunks as [|chunk chunks IH]; intros h.
  - destruct h; reflexivity.
  - change (HttpStreamTransport.feed JSON_parse (chunk :: chunks) h)
      with (HttpStreamTransport.feed JSON_parse chunks
              (HttpStreamTransport.handleStreamData JSON_parse chunk h)).
    rewrite IH. unfold HttpStreamTransport.handleStreamData.
    destruct (handleStreamData (BaseTransport.handleResponse JSON_parse) chunk
                (HttpStreamTransport.buffer h, HttpStreamTransport.base h)) as [b' base'] eqn:E.
    cbn [feed fold_left]. rewrite E. reflexivity.
Qed.

Lemma stdio_feed chunks (p : StdioTransport.t) :
  StdioTransport.feed JSON_parse chunks p =
  let r := feed (BaseTransport.handleResponse JSON_parse) chunks
             (StdioTransport.buffer p, StdioTransport.base p) in
  {| StdioTransport.base := snd r;
     StdioTransport.process := StdioTransport.process p;
     StdioTransport.command := StdioTransport.command p;
     StdioTransport.args := StdioTransport.args p;
     StdioTransport.env := StdioTransport.env p;
     StdioTransport.buffer := fst r;
     StdioTransport.connectCall := StdioTransport.connectCall p |}.
Proof.
  revert p. induction chunks as [|chunk chunks IH]; intros p.
  - destruct p; reflexivity.
  - change (StdioTransport.feed JSON_parse (chunk :: chunks) p)
      with (StdioTransport.feed JSON_parse chunks
              (StdioTransport.handleStreamData JSON_parse chunk p)).
    rewrite IH. unfold StdioTransport.handleStreamData.
    destruct (handleStreamData (BaseTransport.handleResponse JSON_parse) chunk
                (StdioTransport.buffer p, StdioTransport.base p)) as [b' base'] eqn:E.
    cbn [feed fold_left]. rewrite E. reflexivity.
Qed.

Lemma http_buffer_clean chunk (h : HttpStreamTransport.t) :
  no_newline (HttpStreamTransport.buffer
                (HttpStreamTransport.handleStreamData JSON_parse chunk h)) = true.
Proof.
  unfold HttpStreamTransport.handleStreamData, handleStreamData. cbn [fst snd].
  apply split_newline_last_clean.
Qed.

Lemma stdio_buffer_clean chunk (p : StdioTransport.t) :
  no_newline (StdioTransport.buffer
                (StdioTransport.handleStreamData JSON_parse chunk p)) = true.
Proof.
  unfold StdioTransport.handleStreamData, handleStreamData. cbn [fst snd].
  apply split_newline_last_clean.
Qed.

(** C7. Two sequences of data events that carry the same text leave a
    streaming-HTTP transport, and a process-pipe transport, in the same
    state, whatever the state was (its buffer holding no newline): the calls
    of handleResponse are, in order, the trimmed non-empty lines that end in
    a newline in the buffer followed by the text, each once, and what
    follows the last newline stays in the buffer.  In particular the chunks
    of one line, however it is cut, give one call with that line.  The
    buffer starts empty and holds no newline after any data event. *)
Theorem chunking_is_invisible (chunks1 chunks2 : list string)
    (http : HttpStreamTransport.t) (stdio : StdioTransport.t) :
  whole chunks1 = whole chunks2 ->
  no_newline (HttpStreamTransport.buffer http) = true ->
  no_newline (StdioTransport.buffer stdio) = true ->
  HttpStreamTransport.feed JSON_parse chunks1 http =
    HttpStreamTransport.feed JSON_parse chunks2 http /\
  StdioTransport.feed JSON_parse chunks1 stdio = StdioTransport.feed JSON_parse chunks2 stdio /\
  HttpStreamTransport.base (HttpStreamTransport.feed JSON_parse chunks1 http) =
    fold_left (fun b line => BaseTransport.handleResponse JSON_parse line b)
      (delivered (HttpStreamTransport.buffer http ++ whole chunks1)%string)
      (HttpStreamTransport.base http) /\
  StdioTransport.base (StdioTransport.feed JSON_parse chunks1 stdio) =
    fold_left (fun b line => BaseTransport.handleResponse JSON_parse line b)
      (delivered (StdioTransport.buffer stdio ++ whole chunks1)%string)
      (StdioTransport.base stdio) /\
  (forall buffer,
      no_newline buffer = true ->
      feed record chunks1 (buffer, []) =
      (last (split_newline (buffer ++ whole chunks1)%string) EmptyString,
       delivered (buffer ++ whole chunks1)%string)) /\
  (forall message chunks,
      no_newline message = true -> nonempty (trim message) = true ->
      whole chunks = (message ++ String newline EmptyString)%string ->
      feed record chunks (EmptyString, []) = (EmptyString, [trim message])) /\
  (forall chunk h,
      no_newline (HttpStreamTransport.buffer
                    (HttpStreamTransport.handleStreamData JSON_parse chunk h)) = true) /\
  (forall chunk p,
      no_newline (StdioTransport.buffer
                    (StdioTransport.handleStreamData JSON_parse chunk p)) = true).
Proof.
  intros Hsame Hh Hp.
  rewrite !http_feed, !stdio_feed. cbn zeta.
  rewrite !(feed_whole _ _ _ _ Hh), !(feed_whole _ _ _ _ Hp). cbn [fst snd].
  split; [now rewrite Hsame|]. split; [now rewrite Hsame|].
  split; [now rewrite fold_process_line|].
  split; [now rewrite fold_process_line|]. split; [|split; [|split]].
  - intros buffer Hclean. rewrite (feed_whole _ _ _ _ Hclean), fold_process_line, fold_record.
    reflexivity.
  - intros message chunks Hclean Hne Hwhole.
    rewrite (feed_whole record chunks EmptyString [] eq_refl), fold_process_line, fold_record.
    cbn [String.append]. rewrite Hwhole, (split_one_line _ Hclean).
    cbn [last removelast map filter app]. now rewrite Hne.
  - intros chunk h. apply http_buffer_clean.
  - intros chunk p. apply stdio_buffer_clean.
Qed.

End Transports.

(** An instance of C7: one text, cut once and cut twice. *)
Lemma chunking_is_invisible_witness :
  whole Sample.cut_once = whole Sample.cut_twice /\
  HttpStreamTransport.feed Sample.no_frames Sample.cut_once Sample.http_transport =
    HttpStreamTransport.feed Sample.no_frames Sample.cut_twice Sample.http_transport /\
  StdioTransport.feed Sample.no_frames Sample.cut_once Sample.stdio_transport =
    StdioTransport.feed Sample.no_frames Sample.cut_twice Sample.stdio_transport /\
  feed record Sample.cut_once (EmptyString, []) = ("{d", ["{abc}"]) /\
  feed record Sample.cut_twice (EmptyString, []) = ("{d", ["{abc}"]).
Proof.
  assert (Hsame : whole Sample.cut_once = whole Sample.cut_twice) by reflexivity.
  destruct (chunking_is_invisible Sample.no_frames Sample.cut_once Sample.cut_twice
              Sample.http_transport Sample.stdio_transport Hsame eq_refl eq_refl)
    as (A & B & _).
  split; [exact Hsame|]. split; [exact A|]. split; [exact B|]. split; reflexivity.
Defined.

End FramingFacts.

(* ------------------------------------------------------------------ *)
(** ** connect() of the event-stream transport *)

Module SseFacts.
Import SseTransport SseConnect.

Section Connect.
Variable JSON_parse : string -> option JsonValue.

Lemma connected_handleParsed parsed b :
  BaseTransport.connected (BaseTransport.handleParsed parsed b) = BaseTransport.connected b.
Proof.
  unfold BaseTransport.handleParsed, BaseTransport.handleResponse_try.
  destruct parsed as [v|]; auto.
  destruct (validateResponse v) as [response|]; auto.
  destruct (prop response "id") as [rid|]; simpl; auto.
  destruct (truthy rid); simpl; auto.
  destruct (BaseTransport.get_pending rid b) as [[k p]|]; auto.
  destruct (isErrorResponse response); auto.
  destruct (prop response "error") as [error|]; auto.
  destruct (BaseTransport.rejection error); auto.
Qed.

(** A settled promise stays as it is. *)
Lemma dispatch_settled this e p :
  connectCall this = Some p -> p <> Pending ->
  connectCall (dispatch JSON_parse this e) = Some p.
Proof.
  intros Hc Hp. unfold dispatch. destruct (eventSource this); simpl; auto.
  destruct e as [data| |data|error]; simpl; auto.
  - rewrite Hc. simpl. destruct p; simpl; congruence.
  - unfold onError. destruct (negb _ && negb _); simpl; auto.
    rewrite Hc. simpl. destruct p; simpl; congruence.
Qed.

Lemma run_settled events this p :
  connectCall this = Some p -> p <> Pending ->
  connectCall (run JSON_parse events this) = Some p.
Proof.
  revert this. induction events as [|e events IH]; intros this Hc Hp; simpl; auto.
  apply IH; auto. now apply dispatch_settled.
Qed.

(** Once an event has been received only the endpoint event settles. *)
Lemma run_after_event events this :
  eventSource this = true -> receivedEvent this = true -> connectCall this = Some Pending ->
  connectCall (run JSON_parse events this) =
  Some (if existsb is_endpoint events then Fulfilled else Pending).
Proof.
  revert this. induction events as [|e events IH]; intros this Hes Hre Hc; [exact Hc|].
  change (run JSON_parse (e :: events) this)
    with (run JSON_parse events (dispatch JSON_parse this e)).
  unfold dispatch. rewrite Hes. cbn [negb].
  destruct e as [data| |data|error]; cbn [existsb is_endpoint orb].
  - apply run_settled; [|discriminate]. simpl. now rewrite Hc.
  - now apply IH.
  - now apply IH.
  - unfold onError. rewrite Hre, andb_false_r. now apply IH.
Qed.

Lemma run_expected events this :
  eventSource this = true -> receivedEvent this = false ->
  BaseTransport.connected (base this) = false -> connectCall this = Some Pending ->
  connectCall (run JSON_parse events this) = Some (expected this events).
Proof.
  revert this. induction events as [|e events IH]; intros this Hes Hre Hcn Hc; [exact Hc|].
  change (run JSON_parse (e :: events) this)
    with (run JSON_parse events (dispatch JSON_parse this e)).
  unfold dispatch. rewrite Hes. cbn [negb].
  destruct e as [data| |data|error]; cbn [expected].
  - apply run_settled; [|discriminate]. simpl. now rewrite Hc.
  - now apply IH.
  - apply run_after_event; auto.
  - unfold onError. rewrite Hre, Hcn. cbn [negb andb].
    apply run_settled; [|discriminate]. simpl. now rewrite Hc.
Qed.

Lemma expected_Fulfilled this events :
  expected this events = Fulfilled -> exists data, In (EndpointEvent data) events.
Proof.
  induction events as [|e events IH]; simpl; [discriminate|].
  destruct e as [data| |data|error].
  - intros _. exists data. now left.
  - intros H. destruct (IH H) as [d Hd]. exists d. now right.
  - destruct (existsb is_endpoint events) eqn:E; [|discriminate]. intros _.
    apply existsb_exists in E. destruct E as ([d| |d|err] & Hin & Hd); try discriminate.
    exists d. now right.
  - discriminate.
Qed.

Lemma expected_Rejected this events reason :
  expected this events = RejectedWith reason ->
  exists opens error rest,
    events = opens ++ ErrorEvent error :: rest /\ forallb is_open opens = true /\
    reason = connect_error this error.
Proof.
  induction events as [|e events IH]; simpl; [discriminate|].
  destruct e as [data| |data|error].
  - discriminate.
  - intros H. destruct (IH H) as (opens & error & rest & -> & Ho & Hr).
    exists (OpenEvent :: opens), error, rest. auto.
  - destruct (existsb is_endpoint events); discriminate.
  - intros [= <-]. exists [], error, events. auto.
Qed.

(** C9, amended. connect() on an event-stream transport that is not
    connected returns a pending promise, and after whatever the EventSource
    dispatches the promise is fulfilled only if an endpoint event was among
    it, and rejected only if the first event other than 'open' was an error;
    an error that comes after a message event and before the endpoint event
    runs cleanup and settles nothing, and the promise then waits for an
    endpoint event for as long as it takes.  The endpoint event records the
    message endpoint and marks the transport connected.  connect() rejects
    at once when creating the EventSource throws, and returns at once on a
    transport that is connected. *)
Theorem sse_connect_settles (this : t) (events : list Event) :
  BaseTransport.connected (base this) = false ->
  let started := connect (Ok tt) this in
  let final := run JSON_parse events started in
  connectCall started = Some Pending /\
  connectCall final = Some (expected this events) /\
  (connectCall final = Some Fulfilled -> exists data, In (EndpointEvent data) events) /\
  (forall reason,
      connectCall final = Some (RejectedWith reason) ->
      exists opens error rest,
        events = opens ++ ErrorEvent error :: rest /\ forallb is_open opens = true /\
        reason = connect_error this error) /\
  (forall data rest,
      existsb is_endpoint rest = false ->
      connectCall (run JSON_parse (MessageEvent data :: rest) started) = Some Pending) /\
  (forall data that,
      eventSource that = true ->
      messageEndpoint (dispatch JSON_parse that (EndpointEvent data)) = Some data /\
      BaseTransport.connected (base (dispatch JSON_parse that (EndpointEvent data))) = true /\
      connectCall (dispatch JSON_parse that (EndpointEvent data)) =
        settle_connect Fulfilled (connectCall that)) /\
  (forall e, connectCall (connect (Throw e) this) = Some (RejectedWith e)) /\
  (forall opened that,
      BaseTransport.connected (base that) = true ->
      connectCall (connect opened that) = Some Fulfilled).
Proof.
  intros Hcn started final.
  assert (Hstart : connectCall started = Some Pending).
  { unfold started, connect. now rewrite Hcn. }
  assert (Hrun : forall evs, connectCall (run JSON_parse evs started) = Some (expected this evs)).
  { intros evs.
    replace (expected this evs) with (expected started evs).
    - apply run_expected; auto; unfold started, connect; now rewrite Hcn.
    - clear. induction evs as [|[d| |d|err] evs IH]; simpl; auto.
      unfold started, connect, connect_error.
      destruct (BaseTransport.connected (base this)); reflexivity. }
  split; [exact Hstart|]. split; [apply Hrun|]. split; [|split; [|split; [|split; [|split]]]].
  - unfold final. rewrite Hrun. intros [= H]. now apply (expected_Fulfilled this).
  - unfold final. rewrite Hrun. intros reason [= H]. now apply expected_Rejected.
  - intros data rest Hno. rewrite Hrun. simpl. now rewrite Hno.
  - intros data that Hes. unfold dispatch. rewrite Hes. simpl. auto.
  - intros e. unfold connect. now rewrite Hcn.
  - intros opened that Hc. unfold connect. now rewrite Hc.
Qed.

End Connect.

(** An instance of C9 on a transport fresh from its constructor: a message,
    then an error. *)
Lemma sse_connect_settles_witness :
  BaseTransport.connected (base Sample.sse_transport) = false /\
  connectCall (run Sample.no_frames [MessageEvent "hello"; ErrorEvent Sample.bare_error]
                 (connect (Ok tt) Sample.sse_transport)) =
  Some (expected Sample.sse_transport [MessageEvent "hello"; ErrorEvent Sample.bare_error]).
Proof.
  split; [reflexivity|].
  destruct (sse_connect_settles Sample.no_frames Sample.sse_transport
              [MessageEvent "hello"; ErrorEvent Sample.bare_error] eq_refl) as (_ & H & _).
  exact H.
Defined.

(** C9, as stated, fails: a message event, then a connection error, before
    any endpoint event.  The error occurred before the session was
    established, yet connect() is neither resolved nor rejected; cleanup has
    run, the EventSource stays open, and further errors change nothing. *)
Lemma error_after_message_settles_nothing :
  let started := connect (Ok tt) Sample.sse_transport in
  let after := run Sample.no_frames [MessageEvent "hello"; ErrorEvent Sample.bare_error] started in
  connectCall started = Some Pending /\
  connectCall after = Some Pending /\
  messageEndpoint after = None /\
  BaseTransport.connected (base after) = false /\
  eventSource after = true /\
  connectCall (run Sample.no_frames
                 [ErrorEvent Sample.bare_error; OpenEvent; ErrorEvent Sample.bare_error] after) =
    Some Pending.
Proof. vm_compute. repeat split; reflexivity. Qed.

End SseFacts.

(* ------------------------------------------------------------------ *)
(** ** The client *)

Module McpClientFacts.
(* connect of ITransport; the client has a connect of its own *)
Local Abbreviation transport_connect := connect.
Import JsMapFacts McpClient Aggregation.

Lemma update_same {A : Type} (i : nat) (x : A) (l : list A) :
  nth_error l i = Some x -> update i x l = l.
Proof.
  revert i. induction l as [|y l IH]; intros [|i]; simpl; try discriminate.
  - now intros [= ->].
  - intros H. now rewrite IH.
Qed.

Lemma nth_error_update_same {A : Type} (i : nat) (x y : A) (l : list A) :
  nth_error l i = Some y -> nth_error (update i x l) i = Some x.
Proof.
  revert i. induction l as [|z l IH]; intros [|i]; simpl; try discriminate; auto.
Qed.

Lemma nth_error_update_other {A : Type} (i j : nat) (x : A) (l : list A) :
  i <> j -> nth_error (update i x l) j = nth_error l j.
Proof.
  revert i j. induction l as [|z l IH]; intros [|i] [|j] Hne; simpl; auto; try congruence.
Qed.

Lemma length_update {A : Type} (i : nat) (x : A) (l : list A) :
  List.length (update i x l) = List.length l.
Proof. revert i. induction l as [|z l IH]; intros [|i]; simpl; auto. Qed.

Lemma with_base_same (tr : Transport) : with_base (fun _ => base tr) tr = tr.
Proof. destruct tr as [[]|[]|[]]; reflexivity. Qed.

Lemma sendRequest_disconnected request (tr : Transport) :
  isConnected tr = false -> sendRequest request tr = (tr, Throw TransportNotConnected).
Proof.
  unfold isConnected, BaseTransport.isConnected, sendRequest, BaseTransport.sendRequest.
  intros ->. cbn [negb fst snd]. now rewrite with_base_same.
Qed.

Lemma call_start_unknown serverName method params c :
  JsMap.get serverName (servers c) = None ->
  call_start serverName method params c = (c, Threw (ServerNotFound serverName)).
Proof. unfold call_start. now intros ->. Qed.

Lemma call_start_disconnected serverName method params c ref tr :
  JsMap.get serverName (servers c) = Some ref ->
  nth_error (heap c) ref = Some tr ->
  isConnected tr = false ->
  call_start serverName method params c =
  (with_counter (requestIdCounter c + 1) c, Threw TransportNotConnected).
Proof.
  intros Hg Hn Hc. unfold call_start. rewrite Hg. cbn -[sendRequest update]. rewrite Hn.
  rewrite (sendRequest_disconnected _ _ Hc). rewrite (update_same _ _ _ Hn).
  destruct c; reflexivity.
Qed.

(** C8. callTool, readResource and getPrompt with a server name that is not
    in the registry throw 'Server not found' at once and leave the client,
    the request counter and every transport untouched: no request is made.
    With a registered server whose transport is not connected they throw
    'Transport not connected', which sendRequest raises before it touches
    the table, the timers or the channel: nothing changes but the request
    counter.  In both cases the call has failed when it returns; it awaits
    nothing. *)
Theorem calls_fail_fast (c : t) (serverName toolName uri promptName : string)
    (params args : option JsonValue) :
  (JsMap.get serverName (servers c) = None ->
   callTool serverName toolName params c = (c, Threw (ServerNotFound serverName)) /\
   readResource serverName uri c = (c, Threw (ServerNotFound serverName)) /\
   getPrompt serverName promptName args c = (c, Threw (ServerNotFound serverName))) /\
  (forall ref tr,
      JsMap.get serverName (servers c) = Some ref ->
      nth_error (heap c) ref = Some tr ->
      isConnected tr = false ->
      let c' := with_counter (requestIdCounter c + 1) c in
      callTool serverName toolName params c = (c', Threw TransportNotConnected) /\
      readResource serverName uri c = (c', Threw TransportNotConnected) /\
      getPrompt serverName promptName args c = (c', Threw TransportNotConnected) /\
      heap c' = heap c /\ servers c' = servers c).
Proof.
  split.
  - intros Hg. unfold callTool, readResource, getPrompt.
    now rewrite !(call_start_unknown _ _ _ _ Hg).
  - intros ref tr Hg Hn Hc c'. unfold callTool, readResource, getPrompt.
    now rewrite !(call_start_disconnected _ _ _ _ _ _ Hg Hn Hc).
Qed.

(** An instance of C8: a name that is not registered, and a server whose
    response stream has ended. *)
Lemma calls_fail_fast_witness :
  callTool "nowhere" "echo" None Sample.stream_down =
    (Sample.stream_down, Threw (ServerNotFound "nowhere")) /\
  isServerConnected "stream" Sample.stream_down = false /\
  snd (callTool "stream" "echo" None Sample.stream_down) = Threw TransportNotConnected /\
  heap (fst (callTool "stream" "echo" None Sample.stream_down)) = heap Sample.stream_down.
Proof.
  destruct (calls_fail_fast Sample.stream_down "nowhere" "echo" "" "" None None)
    as (Hunknown & _).
  destruct (Hunknown eq_refl) as (A & _).
  destruct (calls_fail_fast Sample.stream_down "stream" "echo" "" "" None None) as (_ & Hdown).
  destruct (Hdown 1 Sample.dead_transport eq_refl eq_refl eq_refl) as (B & _ & _ & C & _).
  split; [exact A|]. split; [reflexivity|]. split; [now rewrite B|now rewrite B].
Defined.

(** *** The list calls *)

Lemma base_with_base f (tr : Transport) : base (with_base f tr) = f (base tr).
Proof. destruct tr as [s|h|p]; reflexivity. Qed.

Lemma connectCall_with_base f (tr : Transport) : connectCall (with_base f tr) = connectCall tr.
Proof. destruct tr as [s|h|p]; reflexivity. Qed.

Lemma connected_sendRequest request b :
  BaseTransport.connected (fst (BaseTransport.sendRequest request b)) = BaseTransport.connected b.
Proof.
  unfold BaseTransport.sendRequest. destruct (BaseTransport.connected b) eqn:E; simpl; auto.
Qed.

Lemma isConnected_sendRequest request (tr : Transport) :
  isConnected (fst (sendRequest request tr)) = isConnected tr.
Proof.
  unfold sendRequest, isConnected, BaseTransport.isConnected. cbn [fst].
  rewrite base_with_base. apply connected_sendRequest.
Qed.

Lemma list_start_fold method entries c jobs :
  let r := fold_left (list_start_one method) entries (c, jobs) in
  map list_server (snd r) = map list_server jobs ++ map fst entries /\
  map list_transport (snd r) = map list_transport jobs ++ map snd entries /\
  servers (fst r) = servers c /\
  requestIdCounter (fst r) = (requestIdCounter c + Z.of_nat (List.length entries))%Z /\
  (forall i, option_map isConnected (nth_error (heap (fst r)) i) =
             option_map isConnected (nth_error (heap c) i)) /\
  (forall job, In job (snd r) ->
               In job jobs \/
               forall tr, nth_error (heap c) (list_transport job) = Some tr ->
                          isConnected tr = false ->
                          list_call job = Throw TransportNotConnected).
Proof.
  revert c jobs. induction entries as [|[name ref] entries IH]; intros c jobs.
  - simpl. rewrite !app_nil_r. repeat split; auto. lia.
  - cbn [fold_left]. unfold list_start_one at 2 4 6 8 10 12. cbn -[sendRequest update fold_left].
    destruct (nth_error (heap c) ref) as [tr|] eqn:Hn.
    + destruct (sendRequest _ tr) as [tr' result] eqn:Hs.
      match goal with |- context [fold_left _ entries (?c1, ?j1)] =>
        destruct (IH c1 j1) as (A & B & C & D & E & F) end.
      cbv zeta in *. rewrite A, B, C, D, !map_app. cbn [map list_server list_transport fst snd].
      rewrite <- !app_assoc. cbn [app servers requestIdCounter with_heap with_counter List.length].
      assert (Hconn : forall i, option_map isConnected (nth_error (update ref tr' (heap c)) i) =
                                option_map isConnected (nth_error (heap c) i)).
      { intros i. destruct (Nat.eq_dec ref i) as [<-|Hne].
        - rewrite (nth_error_update_same _ _ _ _ Hn), Hn. simpl.
          replace tr' with (fst (sendRequest
            (fst (createRequest method (Some (JObj [])) (requestIdCounter c))) tr)).
          + now rewrite isConnected_sendRequest.
          + cbn -[sendRequest]. now rewrite Hs.
        - now rewrite nth_error_update_other. }
      split; [reflexivity|]. split; [reflexivity|]. split; [reflexivity|]. split; [lia|].
      split.
      * intros i. rewrite E. cbn [heap with_heap with_counter]. apply Hconn.
      * intros job Hj. destruct (F job Hj) as [Hin|Hdis].
        -- apply in_app_or in Hin. destruct Hin as [Hin|[<-|[]]]; [now left|].
           right. cbn [list_transport list_call]. intros tr0 Hn0 Hc0.
           rewrite Hn in Hn0. injection Hn0 as <-.
           rewrite (sendRequest_disconnected _ _ Hc0) in Hs. now injection Hs as _ <-.
        -- right. intros tr0 Hn0 Hc0. cbn [heap with_heap with_counter] in Hdis.
           pose proof (Hconn (list_transport job)) as Hc1. rewrite Hn0 in Hc1.
           destruct (nth_error (update ref tr' (heap c)) (list_transport job)) as [tr1|] eqn:H1;
             [|discriminate].
           simpl in Hc1. apply (Hdis tr1 eq_refl). congruence.
    + match goal with |- context [fold_left _ entries (?c1, ?j1)] =>
        destruct (IH c1 j1) as (A & B & C & D & E & F) end.
      cbv zeta in *. rewrite A, B, C, D, !map_app. cbn [map list_server list_transport fst snd].
      rewrite <- !app_assoc. cbn [app servers requestIdCounter with_heap with_counter List.length].
      split; [reflexivity|]. split; [reflexivity|]. split; [reflexivity|]. split; [lia|].
      split; [exact E|].
      intros job Hj. destruct (F job Hj) as [Hin|Hdis]; [|now right].
      apply in_app_or in Hin. destruct Hin as [Hin|[<-|[]]]; [now left|].
      right. cbn [list_transport]. intros tr0 Hn0. congruence.
Qed.

(** Each closure makes its request on the transport of its entry. *)
Lemma list_start_requests method entries c jobs :
  NoDup (map snd entries) ->
  let r := fold_left (list_start_one method) entries (c, jobs) in
  (forall j, j < List.length jobs -> nth_error (snd r) j = nth_error jobs j) /\
  (forall ref, ~ In ref (map snd entries) ->
               nth_error (heap (fst r)) ref = nth_error (heap c) ref) /\
  (forall i name ref tr,
      nth_error entries i = Some (name, ref) -> nth_error (heap c) ref = Some tr ->
      nth_error (snd r) (List.length jobs + i) =
        Some {| list_server := name; list_transport := ref;
                list_call := snd (sendRequest (list_request method c i) tr) |} /\
      nth_error (heap (fst r)) ref = Some (fst (sendRequest (list_request method c i) tr))).
Proof.
  revert c jobs. induction entries as [|[name0 ref0] entries IH]; intros c jobs Hnd.
  - cbn. split; [auto|]. split; [auto|]. intros [|i]; discriminate.
  - cbn [map] in Hnd. inversion Hnd as [|? ? Hfresh Hnd']; subst.
    cbn [fold_left].
    set (acc := list_start_one method (c, jobs) (name0, ref0)).
    assert (Hacc : exists call,
               snd acc = jobs ++ [{| list_server := name0; list_transport := ref0;
                                     list_call := call |}] /\
               requestIdCounter (fst acc) = (requestIdCounter c + 1)%Z /\
               (forall ref, ref <> ref0 -> nth_error (heap (fst acc)) ref = nth_error (heap c) ref) /\
               (forall tr, nth_error (heap c) ref0 = Some tr ->
                           call = snd (sendRequest (list_request method c 0) tr) /\
                           nth_error (heap (fst acc)) ref0 =
                             Some (fst (sendRequest (list_request method c 0) tr)))).
    { unfold acc, list_start_one, list_request. rewrite Z.add_0_r.
      cbn -[sendRequest update]. destruct (nth_error (heap c) ref0) as [tr0|] eqn:Hn.
      - destruct (sendRequest _ tr0) as [tr' result] eqn:Hs. eexists. split; [reflexivity|].
        split; [reflexivity|]. split.
        + intros ref Hne. cbn [fst heap with_heap with_counter].
          now rewrite nth_error_update_other by congruence.
        + intros tr [= <-]. rewrite Hs. split; [reflexivity|].
          cbn [fst snd heap with_heap with_counter]. apply (nth_error_update_same _ _ _ _ Hn).
      - eexists. split; [reflexivity|]. split; [reflexivity|]. split; [reflexivity|].
        intros tr [=]. }
    destruct Hacc as (call & Hjobs & Hcounter & Hother & Hthis).
    destruct acc as [c1 jobs1]. cbn [fst snd] in *.
    destruct (IH c1 jobs1 Hnd') as (A & B & D). cbv zeta in *.
    assert (Hlen : List.length jobs1 = S (List.length jobs)).
    { rewrite Hjobs, length_app. simpl. lia. }
    split; [|split].
    + intros j Hj. rewrite A by lia. rewrite Hjobs. now apply nth_error_app1.
    + intros ref Hno. simpl in Hno. rewrite B by tauto. apply Hother.
      intros E. apply Hno. left. now symmetry.
    + intros [|i] name ref tr He Hn.
      * cbn in He. injection He as <- <-. destruct (Hthis tr Hn) as [-> Hh].
        split.
        -- rewrite Nat.add_0_r, A by lia. rewrite Hjobs, nth_error_app2 by lia.
           now rewrite Nat.sub_diag.
        -- rewrite B by exact Hfresh. exact Hh.
      * cbn in He.
        assert (Hne : ref <> ref0).
        { intros ->. apply Hfresh. apply nth_error_In in He. now apply (in_map snd) in He. }
        destruct (D i name ref tr He) as [D1 D2]; [now rewrite Hother|].
        assert (Hreq : list_request method c1 i = list_request method c (S i)).
        { unfold list_request, createRequest, generateRequestId. cbn [fst]. rewrite Hcounter.
          f_equal. f_equal. lia. }
        rewrite Hreq in D1, D2. split; [|exact D2].
        replace (List.length jobs + S i) with (List.length jobs1 + i) by lia. exact D1.
Qed.

(** What sendRequest of a transport does, by the state of the transport. *)
Lemma sendRequest_connected request (tr : Transport) :
  isConnected tr = true ->
  let n := Runtime.nextCall (BaseTransport.rt (base tr)) in
  let after := base (fst (sendRequest request tr)) in
  snd (sendRequest request tr) = Ok n /\
  JsMap.get (id request) (BaseTransport.pendingRequests after) =
    Some {| BaseTransport.waiter := n; BaseTransport.timeout := n |} /\
  Runtime.sending (BaseTransport.rt after) =
    Runtime.sending (BaseTransport.rt (base tr)) ++ [sent request n] /\
  BaseTransport.outcome after n = BaseTransport.outcome (base tr) n.
Proof.
  unfold isConnected, BaseTransport.isConnected, sendRequest. intros Hc. cbn [fst snd].
  rewrite base_with_base. unfold BaseTransport.sendRequest. rewrite Hc. cbn.
  split; [reflexivity|]. split; [apply get_set_same|]. split; reflexivity.
Qed.

Lemma prop_falsy v name : truthy v = false -> prop v name = None.
Proof. destruct v; simpl; auto; discriminate. Qed.

Lemma list_result_served key c job items :
  list_result key c job = Some items ->
  items = map (tag (list_server job)) (served key c job).
Proof.
  unfold list_result, list_try, served. destruct (list_call job) as [n|e]; [|now intros [= <-]].
  destruct (nth_error (heap c) (list_transport job)) as [tr|]; [|discriminate].
  destruct (BaseTransport.outcome (base tr) n) as [[response|e]|]; [| |discriminate].
  - unfold list_items. destruct (prop response "result") as [result|]; [|now intros [= <-]].
    destruct (truthy result) eqn:Hr; simpl.
    + destruct (prop result key) as [found|]; [|now intros [= <-]].
      destruct (truthy found) eqn:Hf; simpl.
      * destruct found; now intros [= <-].
      * destruct found; try discriminate; now intros [= <-].
    + rewrite (prop_falsy _ key Hr). now intros [= <-].
  - now intros [= <-].
Qed.

Lemma list_finish_flat key c jobs items :
  list_finish key c jobs = Some items ->
  items = flat_map (fun job => map (tag (list_server job)) (served key c job)) jobs.
Proof.
  revert items. induction jobs as [|job jobs IH]; intros items; simpl.
  - now intros [= <-].
  - destruct (list_result key c job) as [first|] eqn:E; [|discriminate].
    destruct (list_finish key c jobs) as [more|]; [|discriminate].
    intros [= <-]. cbn [flat_map]. now rewrite (list_result_served _ _ _ _ E), (IH more eq_refl).
Qed.

Lemma list_result_try key c job : list_result key c job = None <-> list_try key c job = None.
Proof.
  unfold list_result. destruct (list_try key c job) as [[items|e]|]; split; congruence.
Qed.

(** The call returns once every closure has left its try block, and not
    before. *)
Lemma list_finish_returns key c jobs :
  list_finish key c jobs <> None <-> (forall job, In job jobs -> list_try key c job <> None).
Proof.
  induction jobs as [|job jobs IH]; simpl.
  - split; [intros _ job []|discriminate].
  - destruct (list_result key c job) as [first|] eqn:E.
    + assert (Hjob : list_try key c job <> None).
      { intros H. apply list_result_try in H. congruence. }
      destruct (list_finish key c jobs) as [more|].
      * split; [|discriminate]. intros _ j [<-|Hj]; [exact Hjob|].
        apply IH; [discriminate|exact Hj].
      * split; [congruence|]. intros Hall. exfalso.
        assert (H : @None (list JsonValue) <> None) by (apply IH; auto). congruence.
    + apply list_result_try in E. split; [congruence|].
      intros Hall. exfalso. apply (Hall job); auto.
Qed.

(** A closure whose try block throws returns []. *)
Lemma list_try_throws key c job e :
  list_try key c job = Some (Throw e) ->
  list_result key c job = Some [] /\ served key c job = [].
Proof.
  intros Ht. split; [unfold list_result; now rewrite Ht|].
  unfold list_try, served in *. destruct (list_call job) as [n|e0]; [|reflexivity].
  destruct (nth_error (heap c) (list_transport job)) as [tr|]; [|reflexivity].
  destruct (BaseTransport.outcome (base tr) n) as [[response|e0]|]; try reflexivity.
  injection Ht as Ht. unfold list_items in Ht.
  destruct (prop response "result") as [result|]; [|discriminate].
  destruct (truthy result); [|discriminate]. cbn [negb] in Ht.
  destruct (prop result key) as [[]|]; try reflexivity. simpl in Ht. discriminate.
Qed.

Lemma failed_throws key c job : failed c job -> exists e, list_try key c job = Some (Throw e).
Proof.
  unfold failed, list_try. destruct (list_call job) as [n|e]; [|eauto].
  intros (tr & e & -> & ->). eauto.
Qed.

Lemma tag_object serverName fields :
  tag serverName (JObj fields) = JObj (JsMap.set "serverName" (JStr serverName) fields).
Proof. reflexivity. Qed.

Lemma tag_serverName serverName item :
  prop (tag serverName item) "serverName" = Some (JStr serverName).
Proof. unfold tag. cbn [prop]. apply get_set_same. Qed.

Lemma tag_other serverName fields name :
  name <> "serverName" ->
  prop (tag serverName (JObj fields)) name = prop (JObj fields) name.
Proof. intros Hne. unfold tag. cbn [prop spread]. now apply get_set_other. Qed.

(** *** The closures of connect() and the heap *)

Lemma heap_resume_job c job : heap (fst (resume_job c job)) = heap c.
Proof.
  unfold resume_job. destruct (job_state job), (job_transport job) as [ref|]; try reflexivity.
  destruct (option_map connectCall (nth_error (heap c) ref)) as [[[]|]|]; reflexivity.
Qed.

Lemma heap_resume_jobs c jobs : heap (fst (resume_jobs c jobs)) = heap c.
Proof.
  revert c. induction jobs as [|job jobs IH]; intros c; [reflexivity|].
  cbn [resume_jobs]. pose proof (heap_resume_job c job) as Hj.
  destruct (resume_job c job) as [c1 job']. pose proof (IH c1) as Hjs.
  destruct (resume_jobs c1 jobs) as [c2 rest']. simpl in *. congruence.
Qed.

Lemma heap_resume_last c : heap (resume_last c) = heap c.
Proof.
  unfold resume_last. pose proof (heap_resume_jobs c (connectJobs c)) as H.
  destruct (resume_jobs c (connectJobs c)) as [c1 jobs]. cbn [fst] in H.
  destruct (forallb is_fulfilled jobs); exact H.
Qed.

Lemma earlier_resume_job c job : earlierCalls (fst (resume_job c job)) = earlierCalls c.
Proof.
  unfold resume_job. destruct (job_state job), (job_transport job) as [ref|]; try reflexivity.
  destruct (option_map connectCall (nth_error (heap c) ref)) as [[[]|]|]; reflexivity.
Qed.

Lemma earlier_resume_jobs c jobs : earlierCalls (fst (resume_jobs c jobs)) = earlierCalls c.
Proof.
  revert c. induction jobs as [|job jobs IH]; intros c; [reflexivity|].
  cbn [resume_jobs]. pose proof (earlier_resume_job c job) as Hj.
  destruct (resume_job c job) as [c1 job']. pose proof (IH c1) as Hjs.
  destruct (resume_jobs c1 jobs) as [c2 rest']. simpl in *. congruence.
Qed.

Lemma earlier_resume_last c : earlierCalls (resume_last c) = earlierCalls c.
Proof.
  unfold resume_last. pose proof (earlier_resume_jobs c (connectJobs c)) as H.
  destruct (resume_jobs c (connectJobs c)) as [c1 jobs]. cbn [fst] in H.
  destruct (forallb is_fulfilled jobs); exact H.
Qed.

Lemma servers_resume_last c :
  servers (resume_last c) = servers (fst (resume_jobs c (connectJobs c))).
Proof.
  unfold resume_last. destruct (resume_jobs c (connectJobs c)) as [c1 jobs].
  now destruct (forallb is_fulfilled jobs).
Qed.

Lemma jobs_resume_last c :
  connectJobs (resume_last c) = snd (resume_jobs c (connectJobs c)).
Proof.
  unfold resume_last. destruct (resume_jobs c (connectJobs c)) as [c1 jobs].
  now destruct (forallb is_fulfilled jobs).
Qed.

(** A closure of an earlier call leaves the heap and the last call alone. *)
Lemma resume_earlier_fields c call :
  let c' := fst (resume_earlier c call) in
  heap c' = heap c /\ connectJobs c' = connectJobs c /\ connectResult c' = connectResult c /\
  earlierCalls c' = earlierCalls c /\
  servers c' =
    servers (fst (resume_jobs (with_result (Some (call_result call))
                                 (with_jobs (call_jobs call) c)) (call_jobs call))) /\
  call_jobs (snd (resume_earlier c call)) =
    snd (resume_jobs (with_result (Some (call_result call))
                        (with_jobs (call_jobs call) c)) (call_jobs call)).
Proof.
  unfold resume_earlier.
  set (c0 := with_result (Some (call_result call)) (with_jobs (call_jobs call) c)).
  cbn [fst snd heap connectJobs connectResult earlierCalls servers with_result with_jobs
       call_jobs].
  rewrite heap_resume_last, earlier_resume_last, servers_resume_last, jobs_resume_last.
  repeat split; reflexivity.
Qed.

Lemma resume_earlier_calls_fields c calls :
  let c' := fst (resume_earlier_calls c calls) in
  heap c' = heap c /\ connectJobs c' = connectJobs c /\ connectResult c' = connectResult c /\
  earlierCalls c' = earlierCalls c.
Proof.
  revert c. induction calls as [|call calls IH]; intros c; [cbn; auto|].
  cbn [resume_earlier_calls].
  destruct (resume_earlier_fields c call) as (A & B & C & D & _).
  destruct (resume_earlier c call) as [c1 call']. cbn [fst] in *.
  destruct (IH c1) as (A1 & B1 & C1 & D1).
  destruct (resume_earlier_calls c1 calls) as [c2 calls']. cbn [fst] in *.
  repeat split; congruence.
Qed.

Lemma heap_resume c : heap (resume c) = heap c.
Proof.
  unfold resume. destruct (resume_earlier_calls_fields c (earlierCalls c)) as (A & _).
  destruct (resume_earlier_calls c (earlierCalls c)) as [c1 calls]. cbn [fst] in A.
  now rewrite heap_resume_last.
Qed.

(** On a client that has called connect() at most once there are only the
    closures of that call. *)
Lemma resume_first c : earlierCalls c = [] -> resume c = resume_last c.
Proof.
  intros E. unfold resume. rewrite E. cbn [resume_earlier_calls].
  f_equal. destruct c. cbn in *. now subst.
Qed.

Lemma resume_job_with_heap c h job :
  (forall i, option_map connectCall (nth_error h i) =
             option_map connectCall (nth_error (heap c) i)) ->
  resume_job (with_heap h c) job = (with_heap h (fst (resume_job c job)), snd (resume_job c job)).
Proof.
  intros Hsame. unfold resume_job.
  destruct (job_state job), (job_transport job) as [ref|]; try reflexivity.
  cbn [heap with_heap]. rewrite Hsame.
  destruct (option_map connectCall (nth_error (heap c) ref)) as [[[]|]|]; reflexivity.
Qed.

Lemma resume_jobs_with_heap c h jobs :
  (forall i, option_map connectCall (nth_error h i) =
             option_map connectCall (nth_error (heap c) i)) ->
  resume_jobs (with_heap h c) jobs =
  (with_heap h (fst (resume_jobs c jobs)), snd (resume_jobs c jobs)).
Proof.
  revert c. induction jobs as [|job jobs IH]; intros c Hsame; [reflexivity|].
  cbn [resume_jobs]. rewrite (resume_job_with_heap _ _ _ Hsame).
  pose proof (heap_resume_job c job) as Hj.
  destruct (resume_job c job) as [c1 job']. cbn [fst snd] in *.
  rewrite IH by (intros i; now rewrite Hj).
  destruct (resume_jobs c1 jobs) as [c2 rest']. reflexivity.
Qed.

Lemma resume_last_with_heap c h :
  (forall i, option_map connectCall (nth_error h i) =
             option_map connectCall (nth_error (heap c) i)) ->
  resume_last (with_heap h c) = with_heap h (resume_last c).
Proof.
  intros Hsame. unfold resume_last. cbn [connectJobs with_heap].
  rewrite (resume_jobs_with_heap _ _ _ Hsame).
  destruct (resume_jobs c (connectJobs c)) as [c1 jobs]. cbn [fst snd].
  destruct (forallb is_fulfilled jobs); reflexivity.
Qed.

Lemma resume_earlier_with_heap c h call :
  (forall i, option_map connectCall (nth_error h i) =
             option_map connectCall (nth_error (heap c) i)) ->
  resume_earlier (with_heap h c) call =
  (with_heap h (fst (resume_earlier c call)), snd (resume_earlier c call)).
Proof.
  intros Hsame. unfold resume_earlier.
  change (with_result (Some (call_result call)) (with_jobs (call_jobs call) (with_heap h c)))
    with (with_heap h (with_result (Some (call_result call)) (with_jobs (call_jobs call) c))).
  rewrite resume_last_with_heap by exact Hsame. reflexivity.
Qed.

Lemma resume_earlier_calls_with_heap c h calls :
  (forall i, option_map connectCall (nth_error h i) =
             option_map connectCall (nth_error (heap c) i)) ->
  resume_earlier_calls (with_heap h c) calls =
  (with_heap h (fst (resume_earlier_calls c calls)), snd (resume_earlier_calls c calls)).
Proof.
  revert c. induction calls as [|call calls IH]; intros c Hsame; [reflexivity|].
  cbn [resume_earlier_calls]. rewrite (resume_earlier_with_heap _ _ _ Hsame).
  destruct (resume_earlier_fields c call) as (Hh & _).
  destruct (resume_earlier c call) as [c1 call']. cbn [fst snd] in *.
  rewrite IH by (intros i; now rewrite Hh).
  destruct (resume_earlier_calls c1 calls) as [c2 rest']. reflexivity.
Qed.

Lemma resume_with_heap c h :
  (forall i, option_map connectCall (nth_error h i) =
             option_map connectCall (nth_error (heap c) i)) ->
  resume (with_heap h c) = with_heap h (resume c).
Proof.
  intros Hsame. unfold resume. cbn [earlierCalls with_heap].
  rewrite (resume_earlier_calls_with_heap _ _ _ Hsame).
  destruct (resume_earlier_calls_fields c (earlierCalls c)) as (Hh & _).
  destruct (resume_earlier_calls c (earlierCalls c)) as [c1 calls]. cbn [fst snd] in *.
  change (with_earlier calls (with_heap h c1)) with (with_heap h (with_earlier calls c1)).
  apply resume_last_with_heap. intros i. cbn [heap with_earlier]. now rewrite Hh.
Qed.

Lemma dies_cleanup JSON_parse tr e :
  dies tr e = true -> dispatch JSON_parse tr e = with_base BaseTransport.cleanup tr.
Proof.
  destruct tr as [s|h|p], e as [|call failure|[d| |d|err]|[code|err|chunk| |err]|[d|d|err|code sig|]];
    simpl; try discriminate.
  - intros H. apply andb_true_iff in H. destruct H as [Hes Hre].
    unfold SseTransport.dispatch, SseTransport.onError. rewrite Hes. simpl.
    destruct (BaseTransport.connected (SseTransport.base s)); simpl in *; auto.
    now rewrite Hre.
  - intros ->. reflexivity.
  - intros ->. reflexivity.
  - unfold StdioTransport.dispatch.
    destruct (StdioTransport.connectCall p); [|discriminate].
    unfold StdioTransport.onProcessError. now intros ->.
  - unfold StdioTransport.dispatch.
    destruct (StdioTransport.connectCall p); [|discriminate]. reflexivity.
Qed.

Lemma In_keys_set {V : Type} (name k : string) (v : V) (m : JsMap.t string V) :
  In name (JsMap.keys m) -> In name (JsMap.keys (JsMap.set k v m)).
Proof.
  intros Hin. destruct (in_dec string_dec k (JsMap.keys m)) as [Hk|Hk].
  - now rewrite keys_set_In.
  - rewrite keys_set_fresh by assumption. apply in_or_app. now left.
Qed.

Lemma keys_resume_job c job name :
  In name (JsMap.keys (servers c)) -> In name (JsMap.keys (servers (fst (resume_job c job)))).
Proof.
  unfold resume_job. destruct (job_state job), (job_transport job) as [ref|]; auto.
  destruct (option_map connectCall (nth_error (heap c) ref)) as [[[]|]|]; auto.
  cbn [fst servers with_servers]. apply In_keys_set.
Qed.

Lemma keys_resume_jobs c jobs name :
  In name (JsMap.keys (servers c)) ->
  In name (JsMap.keys (servers (fst (resume_jobs c jobs)))).
Proof.
  revert c. induction jobs as [|job jobs IH]; intros c Hin; [exact Hin|].
  cbn [resume_jobs]. pose proof (keys_resume_job c job name Hin) as Hj.
  destruct (resume_job c job) as [c1 job']. pose proof (IH c1 Hj) as Hjs.
  destruct (resume_jobs c1 jobs) as [c2 rest']. exact Hjs.
Qed.

Lemma keys_resume_last c name :
  In name (JsMap.keys (servers c)) -> In name (JsMap.keys (servers (resume_last c))).
Proof. intros Hin. rewrite servers_resume_last. now apply keys_resume_jobs. Qed.

Lemma keys_resume_earlier_calls c calls name :
  In name (JsMap.keys (servers c)) ->
  In name (JsMap.keys (servers (fst (resume_earlier_calls c calls)))).
Proof.
  revert c. induction calls as [|call calls IH]; intros c Hin; [exact Hin|].
  cbn [resume_earlier_calls].
  destruct (resume_earlier_fields c call) as (_ & _ & _ & _ & Hs & _).
  destruct (resume_earlier c call) as [c1 call']. cbn [fst] in *.
  specialize (IH c1). destruct (resume_earlier_calls c1 calls) as [c2 calls']. cbn [fst] in *.
  apply IH. rewrite Hs. now apply keys_resume_jobs.
Qed.

Lemma keys_resume c name :
  In name (JsMap.keys (servers c)) -> In name (JsMap.keys (servers (resume c))).
Proof.
  intros Hin. unfold resume.
  pose proof (keys_resume_earlier_calls c (earlierCalls c) name Hin) as H.
  destruct (resume_earlier_calls c (earlierCalls c)) as [c1 calls]. cbn [fst] in H.
  now apply keys_resume_last.
Qed.

Lemma servers_on_transport ref f c : servers (on_transport ref f c) = servers c.
Proof. unfold on_transport. destruct (nth_error (heap c) ref); reflexivity. Qed.

Lemma keys_run JSON_parse events c name :
  In name (getConnectedServers c) -> In name (getConnectedServers (run JSON_parse events c)).
Proof.
  revert c. induction events as [|e events IH]; intros c Hin; [exact Hin|].
  cbn [run fold_left]. apply IH. unfold deliver, getConnectedServers.
  apply keys_resume. now rewrite servers_on_transport.
Qed.

(** What a failure after connection does to the client: the transport at
    [ref] has run cleanup, and nothing else has changed. *)
Lemma deliver_death JSON_parse c ref tr e :
  resume c = c ->
  nth_error (heap c) ref = Some tr ->
  dies tr e = true ->
  deliver JSON_parse c (ref, e) =
  with_heap (update ref (with_base BaseTransport.cleanup tr) (heap c)) c.
Proof.
  intros Hrest Hn Hd. unfold deliver, on_transport. cbn [fst snd]. rewrite Hn.
  rewrite (dies_cleanup JSON_parse _ _ Hd), resume_with_heap, Hrest; [reflexivity|].
  intros i. destruct (Nat.eq_dec ref i) as [<-|Hne].
  - rewrite (nth_error_update_same _ _ _ _ Hn), Hn. cbn [option_map].
    now rewrite connectCall_with_base.
  - now rewrite nth_error_update_other.
Qed.

(** C10. A failure after connection (the end or an error of the response
    stream, the exit of the process, an error of the event stream in
    mid-session) makes the transport run cleanup and leaves the registry as
    it was: getConnectedServers still lists the server, isServerConnected
    answers false for it, callTool, readResource and getPrompt reach its
    transport and fail with 'Transport not connected', a list call still
    makes a request for it, which fails the same way.  No event on any
    transport ever removes a name from the registry; disconnect() of the
    client empties it. *)
Theorem registry_outlives_transport (JSON_parse : string -> option JsonValue) (c : t)
    (serverName : string) (ref : nat) (tr : Transport) (e : TransportEvent) :
  resume c = c ->
  JsMap.get serverName (servers c) = Some ref ->
  nth_error (heap c) ref = Some tr ->
  dies tr e = true ->
  let c' := deliver JSON_parse c (ref, e) in
  servers c' = servers c /\
  getConnectedServers c' = getConnectedServers c /\
  In serverName (getConnectedServers c') /\
  nth_error (heap c') ref = Some (with_base BaseTransport.cleanup tr) /\
  isServerConnected serverName c' = false /\
  (forall toolName params uri promptName args,
      snd (callTool serverName toolName params c') = Threw TransportNotConnected /\
      snd (readResource serverName uri c') = Threw TransportNotConnected /\
      snd (getPrompt serverName promptName args c') = Threw TransportNotConnected) /\
  (forall method job,
      In job (snd (list_start method c')) -> list_transport job = ref ->
      list_call job = Throw TransportNotConnected) /\
  In ref (map list_transport (snd (list_start "tools/list" c'))) /\
  (forall events, In serverName (getConnectedServers (run JSON_parse events c'))) /\
  getConnectedServers (disconnect c') = [].
Proof.
  intros Hrest Hg Hn Hd c'. unfold c'. rewrite (deliver_death JSON_parse _ _ _ _ Hrest Hn Hd).
  set (dead := with_base BaseTransport.cleanup tr).
  set (c1 := with_heap (update ref dead (heap c)) c).
  assert (Hn1 : nth_error (heap c1) ref = Some dead).
  { apply (nth_error_update_same _ _ _ _ Hn). }
  assert (Hdead : isConnected dead = false).
  { unfold dead, isConnected. now rewrite base_with_base. }
  assert (Hin : In serverName (getConnectedServers c1)).
  { apply (get_Some_key _ _ _ Hg). }
  split; [reflexivity|]. split; [reflexivity|]. split; [exact Hin|]. split; [exact Hn1|].
  split; [|split; [|split; [|split; [|split]]]].
  - unfold isServerConnected. cbn [servers c1 with_heap]. rewrite Hg. now rewrite Hn1.
  - intros toolName params uri promptName args.
    unfold callTool, readResource, getPrompt.
    rewrite !(call_start_disconnected serverName _ _ c1 ref dead Hg Hn1 Hdead). auto.
  - intros method job Hjob Href.
    destruct (list_start_fold method (JsMap.entries (servers c1)) c1 [])
      as (_ & _ & _ & _ & _ & F).
    destruct (F job Hjob) as [[]|Hdis]. apply (Hdis dead); [now rewrite Href|exact Hdead].
  - destruct (list_start_fold "tools/list" (JsMap.entries (servers c1)) c1 [])
      as (_ & B & _).
    unfold list_start. rewrite B. cbn [app map]. apply get_In in Hg.
    apply (in_map snd) in Hg. exact Hg.
  - intros events. now apply keys_run.
  - reflexivity.
Qed.

(** *** The registry and the closures of connect() *)

Lemma NoDup_map_middle {A B : Type} (f : A -> B) (pre post : list A) (x y : A) :
  NoDup (map f (pre ++ x :: post)) -> In y pre \/ In y post -> f y <> f x.
Proof.
  rewrite map_app. simpl. intros Hnd Hin E. apply NoDup_remove_2 in Hnd. apply Hnd.
  rewrite <- E, <- map_app. apply in_map. apply in_or_app. exact Hin.
Qed.

Lemma In_middle {A : Type} (pre post : list A) (x y : A) :
  In y (pre ++ x :: post) <-> y = x \/ In y pre \/ In y post.
Proof. rewrite in_app_iff. simpl. intuition congruence. Qed.

Section Old.
Variable old : string -> Prop.

Lemma Registry_resume_job c job pre post :
  Registry old (servers c) (connectResult c) (pre ++ job :: post) ->
  Registry old (servers (fst (resume_job c job))) (connectResult (fst (resume_job c job)))
           (pre ++ snd (resume_job c job) :: post).
Proof.
  intros [Hnames Hful Honly (p & Hr & Hrej & Hall)].
  unfold resume_job.
  destruct (job_state job) eqn:Hst; try (constructor; eauto; fail).
  destruct (job_transport job) as [ref|] eqn:Htr; try (constructor; eauto; fail).
  assert (Hnotful : forallb is_fulfilled (pre ++ job :: post) = false).
  { rewrite forallb_app. simpl. unfold is_fulfilled at 2. rewrite Hst. simpl.
    apply andb_false_r. }
  assert (Hsame : forall st,
             map job_name (pre ++ {| job_name := job_name job; job_transport := Some ref;
                                     job_state := st |} :: post) =
             map job_name (pre ++ job :: post)).
  { intros st. now rewrite !map_app. }
  destruct (option_map connectCall (nth_error (heap c) ref)) as [[[]|]|];
    try (constructor; eauto; fail); cbn [fst snd servers connectResult with_servers with_result].
  - (* the closure registers the transport *)
    constructor.
    + now rewrite Hsame.
    + intros job2 Hin Hf2 Hno. apply In_middle in Hin. destruct Hin as [->|Hin].
      * exists ref. split; [reflexivity|]. apply get_set_same.
      * destruct (Hful job2) as (ref2 & Ht2 & Hg2); auto.
        { apply In_middle. now right. }
        exists ref2. split; auto. cbn [job_name].
        rewrite get_set_other; auto. apply (NoDup_map_middle job_name pre post job job2 Hnames Hin).
    + intros name ref' Hno Hg. destruct (String.eqb_spec name (job_name job)) as [->|Hne].
      * rewrite get_set_same in Hg. injection Hg as <-.
        eexists. split; [apply In_middle; left; reflexivity|]. auto.
      * rewrite get_set_other in Hg by assumption.
        destruct (Honly _ _ Hno Hg) as (job2 & Hin & Hn2 & Ht2 & Hs2).
        exists job2. split; auto. apply In_middle. apply In_middle in Hin.
        destruct Hin as [->|Hin]; [congruence|now right].
    + exists p. split; auto. split.
      * intros Hex. apply Hrej. rewrite existsb_app in *. simpl in *.
        unfold is_rejected at 2. now rewrite Hst.
      * intros Hp. rewrite (Hall Hp) in Hnotful. discriminate.
  - (* the closure rethrows *)
    constructor.
    + now rewrite Hsame.
    + intros job2 Hin Hf2 Hno. apply In_middle in Hin. destruct Hin as [->|Hin]; [discriminate|].
      apply Hful; auto. apply In_middle. now right.
    + intros name ref' Hno Hg. destruct (Honly _ _ Hno Hg) as (job2 & Hin & Hn2 & Ht2 & Hs2).
      exists job2. split; auto. apply In_middle. apply In_middle in Hin.
      destruct Hin as [->|Hin]; [congruence|now right].
    + rewrite Hr. simpl. eexists. split; [reflexivity|].
      destruct p; simpl.
      * split; [eauto|discriminate].
      * rewrite (Hall eq_refl) in Hnotful. discriminate.
      * split; [eauto|discriminate].
Qed.

Lemma Registry_resume_jobs c pre post :
  Registry old (servers c) (connectResult c) (pre ++ post) ->
  Registry old (servers (fst (resume_jobs c post))) (connectResult (fst (resume_jobs c post)))
           (pre ++ snd (resume_jobs c post)).
Proof.
  revert c pre. induction post as [|job post IH]; intros c pre H; [exact H|].
  cbn [resume_jobs]. pose proof (Registry_resume_job c job pre post H) as H1.
  destruct (resume_job c job) as [c1 job']. cbn [fst snd] in H1.
  change (pre ++ job' :: post) with (pre ++ [job'] ++ post) in H1. rewrite app_assoc in H1.
  pose proof (IH c1 (pre ++ [job']) H1) as H2.
  destruct (resume_jobs c1 post) as [c2 post']. cbn [fst snd] in *.
  now rewrite <- app_assoc in H2.
Qed.

Lemma Registry_resume_last c :
  Registry old (servers c) (connectResult c) (connectJobs c) ->
  Registry old (servers (resume_last c)) (connectResult (resume_last c))
           (connectJobs (resume_last c)).
Proof.
  intros H. unfold resume_last. pose proof (Registry_resume_jobs c [] (connectJobs c) H) as H1.
  destruct (resume_jobs c (connectJobs c)) as [c1 jobs]. cbn [fst snd app] in H1.
  destruct (forallb is_fulfilled jobs) eqn:Hall; [|exact H1].
  cbn [servers connectResult connectJobs with_result with_jobs].
  destruct H1 as [Hnames Hful Honly (p & Hr & Hrej & Hp)].
  constructor; auto. rewrite Hr. simpl. eexists. split; [reflexivity|]. split.
  - intros Hex. destruct (Hrej Hex) as [e ->]. simpl. eauto.
  - intros _. exact Hall.
Qed.

End Old.

(** The closures as connect() starts them. *)
Lemma start_job_step opened c entry :
  let c' := start_job opened c entry in
  servers c' = servers c /\
  map job_name (connectJobs c') = map job_name (connectJobs c) ++ [fst entry] /\
  (forallb (fun job => negb (is_fulfilled job)) (connectJobs c) = true ->
   forallb (fun job => negb (is_fulfilled job)) (connectJobs c') = true) /\
  (forall p, connectResult c = Some p -> p <> Fulfilled ->
             (existsb is_rejected (connectJobs c) = true -> exists e, p = RejectedWith e) ->
             exists p', connectResult c' = Some p' /\ p' <> Fulfilled /\
                        (existsb is_rejected (connectJobs c') = true ->
                         exists e, p' = RejectedWith e)).
Proof.
  destruct entry as [name config]. unfold start_job.
  destruct (createTransport config) as [transport|e];
    cbn [servers connectJobs connectResult with_result with_jobs with_heap fst];
    rewrite map_app; cbn [map job_name].
  - split; [reflexivity|]. split; [reflexivity|]. split.
    + intros Hnf. rewrite forallb_app, Hnf. reflexivity.
    + intros p Hp Hnf Hrej. exists p. split; auto. split; auto.
      rewrite existsb_app. simpl. rewrite orb_false_r. exact Hrej.
  - split; [reflexivity|]. split; [reflexivity|]. split.
    + intros Hnf. rewrite forallb_app, Hnf. reflexivity.
    + intros p Hp Hnf Hrej. rewrite Hp. simpl. eexists. split; [reflexivity|].
      destruct p; simpl; try congruence; split; try discriminate; eauto.
Qed.

Lemma start_jobs_fold opened entries c :
  let c' := fold_left (start_job opened) entries c in
  servers c' = servers c /\
  map job_name (connectJobs c') = map job_name (connectJobs c) ++ map fst entries /\
  (forallb (fun job => negb (is_fulfilled job)) (connectJobs c) = true ->
   forallb (fun job => negb (is_fulfilled job)) (connectJobs c') = true) /\
  (forall p, connectResult c = Some p -> p <> Fulfilled ->
             (existsb is_rejected (connectJobs c) = true -> exists e, p = RejectedWith e) ->
             exists p', connectResult c' = Some p' /\ p' <> Fulfilled /\
                        (existsb is_rejected (connectJobs c') = true ->
                         exists e, p' = RejectedWith e)).
Proof.
  revert c. induction entries as [|entry entries IH]; intros c.
  - simpl. rewrite app_nil_r. repeat split; auto. intros p Hp Hnf Hrej. eauto.
  - cbn [fold_left]. destruct (IH (start_job opened c entry)) as (A & B & C & D).
    destruct (start_job_step opened c entry) as (A1 & B1 & C1 & D1).
    cbv zeta in *. rewrite A, B, A1, B1, <- app_assoc. cbn [map app].
    split; [reflexivity|]. split; [reflexivity|]. split; [auto|].
    intros p Hp Hnf Hrej. destruct (D1 p Hp Hnf Hrej) as (p1 & Hp1 & Hnf1 & Hrej1).
    apply (D p1 Hp1 Hnf1 Hrej1).
Qed.

Lemma earlier_start_jobs opened entries c :
  earlierCalls (fold_left (start_job opened) entries c) = earlierCalls c.
Proof.
  revert c. induction entries as [|[name config] entries IH]; intros c; [reflexivity|].
  cbn [fold_left]. rewrite IH. unfold start_job. now destruct (createTransport config).
Qed.

(** What the closures of a call are made of: every closure belongs to a
    configured server; it has failed when createTransport threw, and
    otherwise waits for the connect() of the transport it made, which is a
    new transport of the heap. *)
Lemma start_jobs_made opened entries c :
  let c' := fold_left (start_job opened) entries c in
  (forall i, i < List.length (heap c) -> nth_error (heap c') i = nth_error (heap c) i) /\
  List.length (heap c) <= List.length (heap c') /\
  exists added,
    connectJobs c' = connectJobs c ++ added /\
    forall job,
      In job added ->
      exists config,
        In (job_name job, config) entries /\
        match job_transport job with
        | None => (exists e, createTransport config = Throw e) /\ is_rejected job = true
        | Some ref =>
            exists made,
              createTransport config = Ok made /\
              List.length (heap c) <= ref /\
              nth_error (heap c') ref = Some (transport_connect (opened (job_name job)) made) /\
              job_state job = Pending
        end.
Proof.
  revert c. induction entries as [|[name config] entries IH]; intros c.
  - cbn. split; [auto|]. split; [auto|]. exists []. rewrite app_nil_r. split; [reflexivity|].
    intros job [].
  - cbn [fold_left]. set (c1 := start_job opened c (name, config)).
    destruct (IH c1) as (Hpre & Hlen & added & Hjobs & Hall). cbv zeta in *.
    unfold start_job in c1.
    destruct (createTransport config) as [made|e] eqn:Hc.
    + assert (Hheap1 : heap c1 = heap c ++ [transport_connect (opened name) made]) by reflexivity.
      assert (Hlen1 : List.length (heap c1) = S (List.length (heap c))).
      { rewrite Hheap1, length_app. simpl. lia. }
      split; [|split; [lia|]].
      * intros i Hi. rewrite Hpre by lia. rewrite Hheap1. apply nth_error_app1. exact Hi.
      * eexists (_ :: added). split.
        { rewrite Hjobs. unfold c1. cbn [connectJobs with_jobs with_heap].
          rewrite <- app_assoc. reflexivity. }
        intros job [<-|Hin].
        -- exists config. split; [now left|]. cbn [job_transport job_name job_state].
           exists made. split; [exact Hc|]. split; [lia|]. split; [|reflexivity].
           rewrite Hpre by lia. rewrite Hheap1, nth_error_app2 by lia.
           now rewrite Nat.sub_diag.
        -- destruct (Hall job Hin) as (config' & Hcfg & Hjob). exists config'.
           split; [now right|]. destruct (job_transport job) as [ref|]; [|exact Hjob].
           destruct Hjob as (made' & A & B & C & D). exists made'. repeat split; auto. lia.
    + assert (Hheap1 : heap c1 = heap c) by reflexivity.
      split; [|split; [rewrite <- Hheap1; exact Hlen|]].
      * intros i Hi. rewrite Hpre by (rewrite Hheap1; exact Hi). now rewrite Hheap1.
      * eexists (_ :: added). split.
        { rewrite Hjobs. unfold c1. cbn [connectJobs with_jobs with_result].
          rewrite <- app_assoc. reflexivity. }
        intros job [<-|Hin].
        -- exists config. split; [now left|]. cbn [job_transport]. split; [eauto|reflexivity].
        -- destruct (Hall job Hin) as (config' & Hcfg & Hjob). exists config'.
           split; [now right|]. destruct (job_transport job) as [ref|]; [|exact Hjob].
           destruct Hjob as (made' & A & B & C & D). exists made'.
           rewrite <- Hheap1. auto.
Qed.

Lemma keys_resume_jobs_kept c jobs :
  map job_key (snd (resume_jobs c jobs)) = map job_key jobs.
Proof.
  revert c. induction jobs as [|job jobs IH]; intros c; [reflexivity|].
  cbn [resume_jobs]. destruct (resume_job c job) as [c1 job'] eqn:Ej.
  pose proof (IH c1) as H. destruct (resume_jobs c1 jobs) as [c2 jobs'].
  cbn [snd map] in *. rewrite H. f_equal.
  unfold resume_job in Ej.
  destruct (job_state job) eqn:Hs, (job_transport job) as [ref|] eqn:Ht;
    try (now injection Ej as <- <-).
  destruct (option_map connectCall (nth_error (heap c) ref)) as [[[]|]|];
    injection Ej as <- <-; unfold job_key; cbn [job_name job_transport]; now rewrite ?Ht.
Qed.

Lemma names_of_keys (jobs : list ConnectJob) : map job_name jobs = map fst (map job_key jobs).
Proof. rewrite map_map. reflexivity. Qed.

Lemma names_resume_jobs c jobs :
  map job_name (snd (resume_jobs c jobs)) = map job_name jobs.
Proof. now rewrite !names_of_keys, keys_resume_jobs_kept. Qed.

Lemma keys_resume_kept c : map job_key (connectJobs (resume c)) = map job_key (connectJobs c).
Proof.
  unfold resume. destruct (resume_earlier_calls_fields c (earlierCalls c)) as (_ & Hj & _).
  destruct (resume_earlier_calls c (earlierCalls c)) as [c1 calls]. cbn [fst] in Hj.
  rewrite jobs_resume_last, keys_resume_jobs_kept. cbn [connectJobs with_earlier].
  now rewrite Hj.
Qed.

Lemma keys_deliver_kept JSON_parse c event :
  map job_key (connectJobs (deliver JSON_parse c event)) = map job_key (connectJobs c).
Proof.
  unfold deliver. rewrite keys_resume_kept. unfold on_transport.
  now destruct (nth_error (heap c) (fst event)).
Qed.

Lemma keys_run_kept JSON_parse events c :
  map job_key (connectJobs (run JSON_parse events c)) = map job_key (connectJobs c).
Proof.
  revert c. induction events as [|e events IH]; intros c; [reflexivity|].
  cbn [run fold_left]. fold (run JSON_parse events (deliver JSON_parse c e)).
  now rewrite IH, keys_deliver_kept.
Qed.

(** *** Closures of earlier calls touch their own names only *)

Lemma get_resume_job_other c job name :
  name <> job_name job ->
  JsMap.get name (servers (fst (resume_job c job))) = JsMap.get name (servers c).
Proof.
  intros Hne. unfold resume_job.
  destruct (job_state job), (job_transport job) as [ref|]; try reflexivity.
  destruct (option_map connectCall (nth_error (heap c) ref)) as [[[]|]|]; try reflexivity.
  cbn [fst servers with_servers]. now apply get_set_other.
Qed.

Lemma get_resume_jobs_other c jobs name :
  ~ In name (map job_name jobs) ->
  JsMap.get name (servers (fst (resume_jobs c jobs))) = JsMap.get name (servers c).
Proof.
  revert c. induction jobs as [|job jobs IH]; intros c Hn; [reflexivity|].
  cbn [resume_jobs]. cbn [map] in Hn.
  pose proof (get_resume_job_other c job name) as Hj.
  destruct (resume_job c job) as [c1 job']. cbn [fst] in Hj.
  specialize (IH c1). destruct (resume_jobs c1 jobs) as [c2 rest']. cbn [fst] in *.
  rewrite IH, Hj; auto; intros E; apply Hn; [left; now symmetry|now right].
Qed.

Lemma resume_earlier_calls_other c calls name :
  ~ In name (names_of calls) ->
  JsMap.get name (servers (fst (resume_earlier_calls c calls))) = JsMap.get name (servers c).
Proof.
  revert c. induction calls as [|call calls IH]; intros c Hn; [reflexivity|].
  cbn [resume_earlier_calls]. unfold names_of in Hn. cbn [flat_map] in Hn.
  rewrite in_app_iff in Hn.
  destruct (resume_earlier_fields c call) as (_ & _ & _ & _ & Hs & _).
  destruct (resume_earlier c call) as [c1 call']. cbn [fst] in *.
  specialize (IH c1). destruct (resume_earlier_calls c1 calls) as [c2 calls']. cbn [fst] in *.
  rewrite IH by tauto. rewrite Hs, get_resume_jobs_other by tauto. reflexivity.
Qed.

Lemma resume_earlier_calls_names c calls :
  names_of (snd (resume_earlier_calls c calls)) = names_of calls.
Proof.
  revert c. induction calls as [|call calls IH]; intros c; [reflexivity|].
  cbn [resume_earlier_calls].
  destruct (resume_earlier_fields c call) as (_ & _ & _ & _ & _ & Hj).
  destruct (resume_earlier c call) as [c1 call']. cbn [snd] in *.
  specialize (IH c1). destruct (resume_earlier_calls c1 calls) as [c2 calls']. cbn [snd] in *.
  unfold names_of in *. cbn [flat_map]. rewrite IH, Hj. now rewrite names_resume_jobs.
Qed.

(** *** A closure goes as far as its transport lets it *)

Lemma In_keys_set_same {V : Type} (k : string) (v : V) (m : JsMap.t string V) :
  In k (JsMap.keys (JsMap.set k v m)).
Proof. apply (get_Some_key k v). apply get_set_same. Qed.

Lemma resume_job_follow c job :
  lags (heap c) job ->
  (job_state job = Fulfilled -> In (job_name job) (JsMap.keys (servers c))) ->
  follows (heap c) (snd (resume_job c job)) /\
  (job_state (snd (resume_job c job)) = Fulfilled ->
   In (job_name (snd (resume_job c job))) (JsMap.keys (servers (fst (resume_job c job))))).
Proof.
  unfold lags, follows, resume_job. intros Hl Hm.
  destruct (job_state job) eqn:Hs.
  - destruct (job_transport job) as [ref|] eqn:Ht.
    + destruct Hl as (tr & Hn & _). rewrite Hn. cbn [option_map].
      destruct (connectCall tr) as [[| |e]|] eqn:Hc; cbn [fst snd job_transport job_state job_name].
      * rewrite Ht, Hs. split; [|discriminate]. exists tr. rewrite Hc. auto.
      * split; [exists tr; rewrite Hc; auto|]. intros _. apply In_keys_set_same.
      * split; [exists tr; rewrite Hc; auto|discriminate].
      * rewrite Ht, Hs. split; [|discriminate]. exists tr. rewrite Hc. auto.
    + cbn [fst snd]. rewrite Ht, Hs. split; [exact Hl|discriminate].
  - cbn [fst snd]. rewrite Hs. split; [|intros _; now apply Hm].
    destruct (job_transport job) as [ref|]; [|exact Hl].
    destruct Hl as (tr & Hn & [E|E]); [discriminate|]. exists tr. auto.
  - cbn [fst snd]. rewrite Hs. split; [|discriminate].
    destruct (job_transport job) as [ref|]; [|exact Hl].
    destruct Hl as (tr & Hn & [E|E]); [discriminate|]. exists tr. auto.
Qed.

Lemma resume_jobs_follow c jobs :
  (forall job, In job jobs -> lags (heap c) job) ->
  (forall job, In job jobs -> job_state job = Fulfilled ->
               In (job_name job) (JsMap.keys (servers c))) ->
  forall job,
    In job (snd (resume_jobs c jobs)) ->
    follows (heap c) job /\
    (job_state job = Fulfilled ->
     In (job_name job) (JsMap.keys (servers (fst (resume_jobs c jobs))))).
Proof.
  revert c. induction jobs as [|job0 jobs IH]; intros c Hl Hm job; [intros []|].
  cbn [resume_jobs].
  destruct (resume_job_follow c job0) as [Hf0 Hm0]; [apply Hl; now left|apply Hm; now left|].
  pose proof (heap_resume_job c job0) as Hh.
  pose proof (fun name => keys_resume_job c job0 name) as Hk.
  destruct (resume_job c job0) as [c1 job0']. cbn [fst snd] in *.
  specialize (IH c1).
  pose proof (fun name => keys_resume_jobs c1 jobs name) as Hk1.
  destruct (resume_jobs c1 jobs) as [c2 rest']. cbn [fst snd] in *.
  intros [<-|Hin].
  - split; [exact Hf0|]. intros Hs. apply Hk1. now apply Hm0.
  - rewrite <- Hh. apply IH; auto.
    + intros j Hj. rewrite Hh. apply Hl. now right.
    + intros j Hj Hs. apply Hk. apply Hm; auto. now right.
Qed.

(** *** A settled promise of connect() stays as it is *)

Lemma settle_settled outcome call p :
  p <> Pending -> call = Some p -> settle_connect outcome call = Some p.
Proof. intros Hp ->. destruct p; simpl; congruence. Qed.

Lemma dispatch_keeps_settled JSON_parse (tr : Transport) e p :
  p <> Pending -> connectCall tr = Some p -> connectCall (dispatch JSON_parse tr e) = Some p.
Proof.
  intros Hp Hc.
  destruct e as [|call failure|ev|ev|ev]; cbn [dispatch].
  - now rewrite connectCall_with_base.
  - now rewrite connectCall_with_base.
  - destruct tr as [s|h|q]; auto. cbn [connectCall Transport_ITransport] in *.
    now apply SseFacts.dispatch_settled.
  - destruct tr as [s|h|q]; auto.
    cbn [connectCall Transport_ITransport HttpStreamTransport_ITransport] in *.
    unfold HttpStreamTransport.dispatch.
    destruct ev as [code|err|chunk| |err]; cbn [HttpStreamTransport.connectCall].
    + rewrite Hc. unfold HttpStreamTransport.onResponse.
      destruct (negb (code =? 200)%Z); cbn [HttpStreamTransport.connectCall
        HttpStreamTransport.with_connectCall]; now apply settle_settled.
    + now apply settle_settled.
    + destruct (HttpStreamTransport.responseStream h); [|exact Hc].
      unfold HttpStreamTransport.handleStreamData.
      now destruct (Framing.handleStreamData _ chunk _).
    + destruct (HttpStreamTransport.responseStream h); exact Hc.
    + destruct (HttpStreamTransport.responseStream h); exact Hc.
  - destruct tr as [s|h|q]; auto.
    cbn [connectCall Transport_ITransport StdioTransport_ITransport] in *.
    unfold StdioTransport.dispatch. rewrite Hc.
    destruct ev as [d|d|err|code sig|].
    + unfold StdioTransport.handleStreamData.
      now destruct (Framing.handleStreamData _ d _).
    + exact Hc.
    + unfold StdioTransport.onProcessError.
      destruct (negb _); [now apply settle_settled|exact Hc].
    + exact Hc.
    + unfold StdioTransport.onStartTimer.
      destruct (StdioTransport.process q) as [[[]]|]; now apply settle_settled.
Qed.

Lemma dispatch_keeps_fulfilled JSON_parse (tr : Transport) e :
  connectCall tr = Some Fulfilled -> connectCall (dispatch JSON_parse tr e) = Some Fulfilled.
Proof. apply dispatch_keeps_settled. discriminate. Qed.

Lemma verdict_settled call p : verdict call = p -> p <> Pending -> call = Some p.
Proof. destruct call as [[]|]; simpl; intros <-; congruence. Qed.

Lemma lags_on_transport JSON_parse c event job :
  follows (heap c) job ->
  lags (heap (on_transport (fst event) (fun tr => dispatch JSON_parse tr (snd event)) c)) job.
Proof.
  unfold follows, lags, on_transport. intros Hf.
  destruct (job_transport job) as [ref|]; [|now destruct (nth_error (heap c) (fst event))].
  destruct Hf as (tr & Hn & Hs).
  destruct (nth_error (heap c) (fst event)) as [tr0|] eqn:Hn0; [|exists tr; auto].
  cbn [heap with_heap]. destruct (Nat.eq_dec (fst event) ref) as [E|Hne].
  - rewrite E in *. rewrite Hn in Hn0. injection Hn0 as <-.
    eexists. split; [apply (nth_error_update_same _ _ _ _ Hn)|].
    destruct (job_state job) eqn:Hst; [now left| |]; right.
    + symmetry in Hs. apply verdict_settled in Hs; [|discriminate].
      now rewrite (dispatch_keeps_settled JSON_parse tr (snd event) Fulfilled).
    + symmetry in Hs. apply verdict_settled in Hs; [|discriminate].
      now rewrite (dispatch_keeps_settled JSON_parse tr (snd event) (RejectedWith reason)).
  - exists tr. rewrite nth_error_update_other by assumption. auto.
Qed.

(** *** From a call of connect() on *)

Lemma Connecting_resume c0 c :
  Registry (taken c0) (servers c) (connectResult c) (connectJobs c) ->
  (forall job, In job (connectJobs c) -> lags (heap c) job) ->
  (forall job, In job (connectJobs c) -> job_state job = Fulfilled ->
               In (job_name job) (JsMap.keys (servers c))) ->
  (forall name, In name (earlier_names c) -> taken c0 name) ->
  Connecting c0 (resume c).
Proof.
  intros HR Hl Hm He. unfold resume.
  destruct (resume_earlier_calls_fields c (earlierCalls c)) as (Hh & Hj & Hr & _).
  pose proof (fun name => resume_earlier_calls_other c (earlierCalls c) name) as Hother.
  pose proof (fun name => keys_resume_earlier_calls c (earlierCalls c) name) as Hkeys.
  pose proof (resume_earlier_calls_names c (earlierCalls c)) as Hnames.
  destruct (resume_earlier_calls c (earlierCalls c)) as [c1 calls]. cbn [fst snd] in *.
  set (c2 := with_earlier calls c1).
  assert (Hget : forall name, ~ taken c0 name ->
                              JsMap.get name (servers c2) = JsMap.get name (servers c)).
  { intros name Hno. apply Hother. intros Hin. apply Hno. now apply He. }
  assert (HR2 : Registry (taken c0) (servers c2) (connectResult c2) (connectJobs c2)).
  { destruct HR as [Hnd Hful Honly Hres]. cbn [c2 servers connectResult connectJobs with_earlier].
    rewrite Hj, Hr. constructor; auto.
    - intros job Hin Hs Hno. destruct (Hful job Hin Hs Hno) as (ref & Ht & Hg).
      exists ref. split; [exact Ht|]. change (servers c1) with (servers c2). now rewrite Hget.
    - intros name ref Hno Hg. apply (Honly name ref Hno).
      change (servers c1) with (servers c2) in Hg. now rewrite Hget in Hg. }
  assert (Hfollow : forall job,
             In job (snd (resume_jobs c2 (connectJobs c2))) ->
             follows (heap c2) job /\
             (job_state job = Fulfilled ->
              In (job_name job) (JsMap.keys (servers (fst (resume_jobs c2 (connectJobs c2))))))).
  { apply resume_jobs_follow; cbn [c2 heap connectJobs servers with_earlier]; rewrite Hj.
    - intros job Hin. rewrite Hh. now apply Hl.
    - intros job Hin Hs. apply Hkeys. now apply Hm. }
  constructor.
  - now apply Registry_resume_last.
  - intros job Hin. rewrite jobs_resume_last in Hin. rewrite heap_resume_last.
    now apply Hfollow.
  - intros job Hin Hs. rewrite jobs_resume_last in Hin. rewrite servers_resume_last.
    now apply Hfollow.
  - intros name Hin. apply He. unfold earlier_names in *. rewrite earlier_resume_last in Hin.
    cbn [c2 earlierCalls with_earlier] in Hin. fold (names_of calls) in Hin.
    rewrite Hnames in Hin. exact Hin.
Qed.

Lemma Connecting_deliver JSON_parse c0 c event :
  Connecting c0 c -> Connecting c0 (deliver JSON_parse c event).
Proof.
  intros [HR Hf Hm He]. unfold deliver. apply Connecting_resume.
  - unfold on_transport. now destruct (nth_error (heap c) (fst event)).
  - intros job Hin. apply lags_on_transport. apply Hf.
    unfold on_transport in Hin. now destruct (nth_error (heap c) (fst event)).
  - intros job Hin Hs. rewrite servers_on_transport. apply Hm; auto.
    unfold on_transport in Hin. now destruct (nth_error (heap c) (fst event)).
  - intros name Hin. apply He. unfold earlier_names, on_transport in *.
    now destruct (nth_error (heap c) (fst event)).
Qed.

Lemma Connecting_run JSON_parse c0 events c :
  Connecting c0 c -> Connecting c0 (run JSON_parse events c).
Proof.
  revert c. induction events as [|e events IH]; intros c H; [exact H|].
  cbn [run fold_left]. apply IH. now apply Connecting_deliver.
Qed.

Lemma unfulfilled_not_In jobs job :
  forallb (fun job => negb (is_fulfilled job)) jobs = true ->
  In job jobs -> job_state job <> Fulfilled.
Proof.
  intros Hall Hin Hf. rewrite forallb_forall in Hall. specialize (Hall job Hin).
  unfold is_fulfilled in Hall. now rewrite Hf in Hall.
Qed.

Lemma earlier_names_begin c name :
  In name (earlier_names (begin_connect c)) -> taken c name.
Proof.
  unfold taken, earlier_names, names_of, begin_connect. cbn [earlierCalls].
  destruct (connectResult c) as [p|]; [|tauto].
  rewrite flat_map_app, in_app_iff. cbn [flat_map call_jobs]. rewrite app_nil_r. tauto.
Qed.

(** What connect() leaves: the closures of the call, each as far as its
    transport lets it go, and the registry they have made. *)
Lemma Connecting_connect opened entries c0 :
  entries <> [] -> NoDup (map fst entries) ->
  let started := connect (Ok {| mcpServers := Some entries |}) opened c0 in
  let c1 := fold_left (start_job opened) entries (begin_connect c0) in
  started = resume c1 /\
  Connecting c0 started /\
  map job_name (connectJobs started) = map fst entries /\
  heap started = heap c1 /\
  map job_key (connectJobs started) = map job_key (connectJobs c1).
Proof.
  intros Hne Hnd started c1.
  assert (Hstarted : started = resume c1).
  { unfold started, connect. cbn [mcpServers]. destruct entries; [congruence|reflexivity]. }
  destruct (start_jobs_fold opened entries (begin_connect c0)) as (A & B & C & D).
  destruct (start_jobs_made opened entries (begin_connect c0)) as (_ & _ & added & Hjobs & Hall).
  cbv zeta in *. fold c1 in A, B, C, D, Hjobs, Hall.
  cbn [begin_connect connectJobs app servers connectResult map] in A, B, C, D, Hjobs.
  subst added.
  destruct (D Pending eq_refl) as (p' & Hp' & Hnf & Hrej); [discriminate|discriminate|].
  assert (Hnone : forall job, In job (connectJobs c1) -> job_state job <> Fulfilled).
  { intros job Hin. apply (unfulfilled_not_In _ _ (C eq_refl) Hin). }
  split; [exact Hstarted|]. split; [|split; [|split]].
  - rewrite Hstarted. apply Connecting_resume.
    + constructor.
      * now rewrite B.
      * intros job Hin Hf. exfalso. now apply (Hnone job Hin).
      * intros name ref Hno Hg. exfalso. apply Hno. left. rewrite A in Hg.
        apply (get_Some_key _ _ _ Hg).
      * exists p'. split; [exact Hp'|]. split; [exact Hrej|]. intros ->. congruence.
    + intros job Hin. destruct (Hall job Hin) as (config & _ & Hjob). unfold lags.
      destruct (job_transport job) as [ref|]; [|apply Hjob].
      destruct Hjob as (made & _ & _ & Hn & Hs). eexists. split; [exact Hn|now left].
    + intros job Hin Hf. exfalso. now apply (Hnone job Hin).
    + intros name Hin. unfold earlier_names in Hin. unfold c1 in Hin.
      rewrite earlier_start_jobs in Hin. now apply earlier_names_begin.
  - rewrite Hstarted, names_of_keys, keys_resume_kept, <- names_of_keys. exact B.
  - rewrite Hstarted. apply heap_resume.
  - rewrite Hstarted. apply keys_resume_kept.
Qed.

(** *** Connected once connect() has succeeded *)

Lemma settle_rejected_fulfilled e call :
  settle_connect (RejectedWith e) call = Some Fulfilled -> call = Some Fulfilled.
Proof. destruct call as [[]|]; simpl; congruence. Qed.

Lemma connected_tick b :
  BaseTransport.connected (BaseTransport.tick b) = BaseTransport.connected b.
Proof. apply BaseTransportFacts.tick_fields. Qed.

Lemma connected_onSendSettled call failure b :
  BaseTransport.connected (BaseTransport.onSendSettled call failure b) =
  BaseTransport.connected b.
Proof.
  unfold BaseTransport.onSendSettled. destruct (BaseTransport.find_send call b); auto.
  destruct failure; reflexivity.
Qed.

Lemma connected_handleStreamData JSON_parse chunk buffer b :
  BaseTransport.connected
    (snd (Framing.handleStreamData (BaseTransport.handleResponse JSON_parse) chunk (buffer, b))) =
  BaseTransport.connected b.
Proof.
  unfold Framing.handleStreamData. cbn [fst snd].
  generalize (removelast (Text.split_newline (buffer ++ chunk))) as lines.
  intros lines. revert b. induction lines as [|line lines IH]; intros b; [reflexivity|].
  cbn [fold_left]. rewrite IH. unfold Framing.process_line.
  destruct (Text.nonempty (Text.trim line)); auto.
  apply SseFacts.connected_handleParsed.
Qed.

Lemma dispatch_live JSON_parse (tr : Transport) e :
  (connectCall tr = Some Fulfilled -> isConnected tr = true) ->
  dies tr e = false ->
  connectCall (dispatch JSON_parse tr e) = Some Fulfilled ->
  isConnected (dispatch JSON_parse tr e) = true.
Proof.
  unfold isConnected, BaseTransport.isConnected. intros H Hd Hf.
  destruct e as [|call failure|ev|ev|ev]; cbn [dispatch] in *.
  - rewrite connectCall_with_base in Hf. rewrite base_with_base, connected_tick. auto.
  - rewrite connectCall_with_base in Hf. rewrite base_with_base, connected_onSendSettled. auto.
  - destruct tr as [s|h|p]; auto.
    cbn [connectCall base Transport_ITransport SseTransport_ITransport dies] in *.
    unfold SseTransport.dispatch in *.
    destruct (SseTransport.eventSource s) eqn:Hes; cbn [negb] in *; auto.
    destruct ev as [d| |d|err]; auto.
    + cbn [SseTransport.onMessage SseTransport.base SseTransport.connectCall] in *.
      unfold BaseTransport.handleResponse. rewrite SseFacts.connected_handleParsed. auto.
    + unfold SseTransport.onError in *. cbn [andb] in Hd.
      destruct (BaseTransport.connected (SseTransport.base s)) eqn:Hc; cbn [negb andb orb] in *;
        [discriminate|].
      destruct (SseTransport.receivedEvent s); cbn [negb] in *; [discriminate|].
      cbn [SseTransport.connectCall SseTransport.base] in *.
      apply settle_rejected_fulfilled in Hf. now specialize (H Hf).
  - destruct tr as [s|h|p]; auto.
    cbn [connectCall base Transport_ITransport HttpStreamTransport_ITransport dies] in *.
    unfold HttpStreamTransport.dispatch in *.
    destruct ev as [code|err|chunk| |err].
    + destruct (HttpStreamTransport.connectCall h) as [call|] eqn:Hcall; [|congruence].
      unfold HttpStreamTransport.onResponse in *.
      destruct (negb (code =? 200)%Z); [|reflexivity].
      cbn [HttpStreamTransport.connectCall HttpStreamTransport.base
           HttpStreamTransport.with_connectCall] in *.
      rewrite Hcall in Hf. apply settle_rejected_fulfilled in Hf. auto.
    + cbn [HttpStreamTransport.connectCall HttpStreamTransport.base
           HttpStreamTransport.with_connectCall] in *.
      apply settle_rejected_fulfilled in Hf. auto.
    + destruct (HttpStreamTransport.responseStream h); auto.
      unfold HttpStreamTransport.handleStreamData in *.
      pose proof (connected_handleStreamData JSON_parse chunk (HttpStreamTransport.buffer h)
                    (HttpStreamTransport.base h)) as Hk.
      destruct (Framing.handleStreamData _ chunk _) as [b' base'].
      cbn [HttpStreamTransport.connectCall HttpStreamTransport.base snd] in *.
      rewrite Hk. auto.
    + destruct (HttpStreamTransport.responseStream h); [discriminate|auto].
    + destruct (HttpStreamTransport.responseStream h); [discriminate|auto].
  - destruct tr as [s|h|p]; auto.
    cbn [connectCall base Transport_ITransport StdioTransport_ITransport dies] in *.
    unfold StdioTransport.dispatch in *.
    destruct (StdioTransport.connectCall p) as [call|] eqn:Hcall; [|congruence].
    destruct ev as [d|d|err|code sig|].
    + unfold StdioTransport.handleStreamData in *.
      pose proof (connected_handleStreamData JSON_parse d (StdioTransport.buffer p)
                    (StdioTransport.base p)) as Hk.
      destruct (Framing.handleStreamData _ d _) as [b' base'].
      cbn [StdioTransport.connectCall StdioTransport.base snd] in *.
      rewrite Hk. rewrite Hcall in Hf. auto.
    + rewrite Hcall in Hf. auto.
    + unfold StdioTransport.onProcessError in *.
      destruct (BaseTransport.connected (StdioTransport.base p)) eqn:Hc; [discriminate|].
      cbn [negb StdioTransport.connectCall StdioTransport.base
           StdioTransport.with_connectCall] in *.
      rewrite Hcall in Hf. apply settle_rejected_fulfilled in Hf. now specialize (H Hf).
    + discriminate.
    + unfold StdioTransport.onStartTimer in *.
      destruct (StdioTransport.process p) as [[[]]|];
        cbn [negb StdioTransport.connectCall StdioTransport.base StdioTransport.with_connectCall
             StdioTransport.with_base BaseTransport.set_connected BaseTransport.connected
             StdioTransport.killed] in *;
        try reflexivity;
        try rewrite Hcall in Hf; apply settle_rejected_fulfilled in Hf; auto.
Qed.

Lemma In_update {A : Type} (i : nat) (x y : A) (l : list A) :
  In y (update i x l) -> y = x \/ In y l.
Proof.
  revert i. induction l as [|z l IH]; intros [|i]; simpl; auto.
  - intros [<-|H]; auto.
  - intros [<-|H]; auto. destruct (IH i H); auto.
Qed.

Lemma createTransport_disconnected config tr :
  createTransport config = Ok tr -> isConnected tr = false.
Proof.
  unfold createTransport, bind, SseTransport.create, HttpStreamTransport.create,
    StdioTransport.create.
  repeat match goal with
         | |- context [if ?b then _ else _] => destruct b
         | |- context [match cfg_type config with _ => _ end] => destruct (cfg_type config)
         end; try discriminate; now intros [= <-].
Qed.

Lemma connect_fresh opened (tr : Transport) :
  isConnected tr = false -> connectCall (transport_connect opened tr) <> Some Fulfilled.
Proof.
  unfold isConnected, BaseTransport.isConnected.
  destruct tr as [s|h|p]; cbn [base transport_connect connectCall Transport_ITransport
    SseTransport_ITransport HttpStreamTransport_ITransport StdioTransport_ITransport];
    intros Hc.
  - unfold SseTransport.connect. rewrite Hc. destruct opened; discriminate.
  - unfold HttpStreamTransport.connect. rewrite Hc. destruct opened; discriminate.
  - unfold StdioTransport.connect. rewrite Hc. destruct opened; discriminate.
Qed.

Lemma live_at_deliver JSON_parse c event ref :
  live_at c ref ->
  match nth_error (heap c) (fst event) with
  | Some tr => dies tr (snd event)
  | None => false
  end = false ->
  live_at (deliver JSON_parse c event) ref.
Proof.
  intros H Hd tr'. unfold deliver. rewrite heap_resume. unfold on_transport.
  destruct (nth_error (heap c) (fst event)) as [tr|] eqn:Hn; [|apply H].
  cbn [heap with_heap]. destruct (Nat.eq_dec (fst event) ref) as [E|Hne].
  - rewrite E in *. rewrite (nth_error_update_same _ _ _ _ Hn). intros [= <-].
    apply dispatch_live; auto.
  - rewrite nth_error_update_other by assumption. apply H.
Qed.

Lemma live_at_run JSON_parse events c ref :
  live_at c ref -> survives JSON_parse events c = true ->
  live_at (run JSON_parse events c) ref.
Proof.
  revert c. induction events as [|e events IH]; intros c H Hs; [exact H|].
  cbn [run fold_left]. fold (run JSON_parse events (deliver JSON_parse c e)).
  cbn [survives] in Hs. apply andb_true_iff in Hs. destruct Hs as [Hd Hs'].
  apply negb_true_iff in Hd. apply IH; auto. now apply live_at_deliver.
Qed.

Lemma taken_create name : ~ taken create name.
Proof. unfold taken, earlier_names. cbn. tauto. Qed.

(** *** Every closure has a transport of its own *)

Lemma refs_of_keys (a b : list ConnectJob) :
  map job_key a = map job_key b -> refs_of a = refs_of b.
Proof.
  revert b. induction a as [|x a IH]; intros [|y b]; try discriminate; [reflexivity|].
  cbn [map]. intros [= E1 E2 E]. unfold refs_of. cbn [flat_map]. rewrite E2.
  f_equal. now apply IH.
Qed.

Lemma refs_of_app (a b : list ConnectJob) : refs_of (a ++ b) = refs_of a ++ refs_of b.
Proof. unfold refs_of. apply flat_map_app. Qed.

Lemma key_in_refs jobs name ref :
  In (name, Some ref) (map job_key jobs) -> In ref (refs_of jobs).
Proof.
  intros Hin. apply in_map_iff in Hin. destruct Hin as (job & E & Hin).
  injection E as _ Et. unfold refs_of. apply in_flat_map. exists job. split; [exact Hin|].
  rewrite Et. now left.
Qed.

Lemma refs_unique jobs n1 n2 ref :
  NoDup (refs_of jobs) ->
  In (n1, Some ref) (map job_key jobs) -> In (n2, Some ref) (map job_key jobs) -> n1 = n2.
Proof.
  induction jobs as [|job jobs IH]; [intros _ []|].
  change (refs_of (job :: jobs))
    with (match job_transport job with Some r => [r] | None => [] end ++ refs_of jobs).
  cbn [map]. unfold job_key at 1 3. intros Hnd [E1|H1] [E2|H2].
  - congruence.
  - exfalso. injection E1 as _ Et. apply key_in_refs in H2.
    rewrite Et in Hnd. inversion Hnd; subst. contradiction.
  - exfalso. injection E2 as _ Et. apply key_in_refs in H1.
    rewrite Et in Hnd. inversion Hnd; subst. contradiction.
  - apply IH; auto. now apply NoDup_app_remove_l in Hnd.
Qed.

(** No two entries of the registry hold the same transport. *)
Lemma Owned_values c : Owned c -> NoDup (JsMap.values (servers c)).
Proof.
  intros [Hd _ He Hk _]. unfold JsMap.values.
  apply (BaseTransportFacts.NoDup_map_inj snd fst); [exact Hk|].
  intros [n1 r1] [n2 r2] H1 H2 E. cbn [fst snd] in *. subst r2.
  apply (refs_unique (all_jobs c) n1 n2 r1 Hd); apply He; now apply In_get.
Qed.

Lemma Owned_change c c' :
  Owned c ->
  map job_key (all_jobs c') = map job_key (all_jobs c) ->
  List.length (heap c) <= List.length (heap c') ->
  (forall name ref,
      JsMap.get name (servers c') = Some ref ->
      JsMap.get name (servers c) = Some ref \/ In (name, Some ref) (map job_key (all_jobs c))) ->
  NoDup (JsMap.keys (servers c')) ->
  (connectResult c' = None -> connectJobs c' = []) ->
  Owned c'.
Proof.
  intros [Hd Hh He Hk Hc] Hkeys Hlen Hs Hk' Hc'. constructor; auto.
  - now rewrite (refs_of_keys _ _ Hkeys).
  - intros ref Hin. rewrite (refs_of_keys _ _ Hkeys) in Hin. specialize (Hh ref Hin). lia.
  - intros name ref Hg. rewrite Hkeys. destruct (Hs name ref Hg) as [H|H]; auto.
Qed.

Lemma origin_resume_job c job name ref :
  JsMap.get name (servers (fst (resume_job c job))) = Some ref ->
  JsMap.get name (servers c) = Some ref \/ (name, Some ref) = job_key job.
Proof.
  unfold resume_job.
  destruct (job_state job), (job_transport job) as [r|] eqn:Ht; auto.
  destruct (option_map connectCall (nth_error (heap c) r)) as [[[]|]|]; auto.
  cbn [fst servers with_servers]. destruct (String.eqb_spec name (job_name job)) as [->|Hne].
  - rewrite get_set_same. intros [= <-]. right. unfold job_key. now rewrite Ht.
  - rewrite get_set_other by assumption. auto.
Qed.

Lemma origin_resume_jobs c jobs name ref :
  JsMap.get name (servers (fst (resume_jobs c jobs))) = Some ref ->
  JsMap.get name (servers c) = Some ref \/ In (name, Some ref) (map job_key jobs).
Proof.
  revert c. induction jobs as [|job jobs IH]; intros c; [auto|].
  cbn [resume_jobs]. pose proof (origin_resume_job c job name ref) as Hj.
  destruct (resume_job c job) as [c1 job']. cbn [fst] in Hj.
  specialize (IH c1). destruct (resume_jobs c1 jobs) as [c2 rest']. cbn [fst] in *.
  intros Hg. destruct (IH Hg) as [H|H]; [|right; now right].
  destruct (Hj H) as [H'|H']; [now left|right; now left].
Qed.

Lemma origin_resume_earlier_calls c calls name ref :
  JsMap.get name (servers (fst (resume_earlier_calls c calls))) = Some ref ->
  JsMap.get name (servers c) = Some ref \/
  In (name, Some ref) (map job_key (flat_map call_jobs calls)).
Proof.
  revert c. induction calls as [|call calls IH]; intros c; [auto|].
  cbn [resume_earlier_calls flat_map].
  destruct (resume_earlier_fields c call) as (_ & _ & _ & _ & Hs & _).
  destruct (resume_earlier c call) as [c1 call']. cbn [fst] in *.
  specialize (IH c1). destruct (resume_earlier_calls c1 calls) as [c2 calls']. cbn [fst] in *.
  intros Hg. rewrite map_app, in_app_iff. destruct (IH Hg) as [H|H]; [|tauto].
  rewrite Hs in H. apply origin_resume_jobs in H. cbn [servers with_result with_jobs] in H.
  tauto.
Qed.

Lemma keys_resume_earlier_calls_kept c calls :
  map job_key (flat_map call_jobs (snd (resume_earlier_calls c calls))) =
  map job_key (flat_map call_jobs calls).
Proof.
  revert c. induction calls as [|call calls IH]; intros c; [reflexivity|].
  cbn [resume_earlier_calls].
  destruct (resume_earlier_fields c call) as (_ & _ & _ & _ & _ & Hj).
  destruct (resume_earlier c call) as [c1 call']. cbn [snd] in *.
  specialize (IH c1). destruct (resume_earlier_calls c1 calls) as [c2 calls']. cbn [snd] in *.
  cbn [flat_map]. rewrite !map_app, IH, Hj. now rewrite keys_resume_jobs_kept.
Qed.

Lemma NoDup_keys_resume_job c job :
  NoDup (JsMap.keys (servers c)) -> NoDup (JsMap.keys (servers (fst (resume_job c job)))).
Proof.
  intros Hnd. unfold resume_job.
  destruct (job_state job); try exact Hnd.
  destruct (job_transport job) as [ref|]; [|exact Hnd].
  destruct (option_map connectCall (nth_error (heap c) ref)) as [[[]|]|]; try exact Hnd.
  cbn [fst servers with_servers]. now apply NoDup_keys_set.
Qed.

Lemma NoDup_keys_resume_jobs c jobs :
  NoDup (JsMap.keys (servers c)) -> NoDup (JsMap.keys (servers (fst (resume_jobs c jobs)))).
Proof.
  revert c. induction jobs as [|job jobs IH]; intros c Hnd; [exact Hnd|].
  cbn [resume_jobs]. pose proof (NoDup_keys_resume_job c job Hnd) as H1.
  destruct (resume_job c job) as [c1 job']. cbn [fst] in H1.
  specialize (IH c1 H1). destruct (resume_jobs c1 jobs) as [c2 rest']. exact IH.
Qed.

Lemma NoDup_keys_resume_earlier_calls c calls :
  NoDup (JsMap.keys (servers c)) ->
  NoDup (JsMap.keys (servers (fst (resume_earlier_calls c calls)))).
Proof.
  revert c. induction calls as [|call calls IH]; intros c Hnd; [exact Hnd|].
  cbn [resume_earlier_calls].
  destruct (resume_earlier_fields c call) as (_ & _ & _ & _ & Hs & _).
  destruct (resume_earlier c call) as [c1 call']. cbn [fst] in *.
  specialize (IH c1). destruct (resume_earlier_calls c1 calls) as [c2 calls']. cbn [fst] in *.
  apply IH. rewrite Hs. now apply NoDup_keys_resume_jobs.
Qed.

Lemma NoDup_keys_resume c :
  NoDup (JsMap.keys (servers c)) -> NoDup (JsMap.keys (servers (resume c))).
Proof.
  intros Hnd. unfold resume.
  pose proof (NoDup_keys_resume_earlier_calls c (earlierCalls c) Hnd) as H.
  destruct (resume_earlier_calls c (earlierCalls c)) as [c1 calls]. cbn [fst] in H.
  rewrite servers_resume_last. now apply NoDup_keys_resume_jobs.
Qed.

Lemma result_resume_jobs c jobs :
  connectResult (fst (resume_jobs c jobs)) = None -> connectResult c = None.
Proof.
  revert c. induction jobs as [|job jobs IH]; intros c; [auto|].
  cbn [resume_jobs].
  assert (Hj : connectResult (fst (resume_job c job)) = None -> connectResult c = None).
  { unfold resume_job. destruct (job_state job), (job_transport job) as [r|]; auto.
    destruct (option_map connectCall (nth_error (heap c) r)) as [[[]|]|]; auto.
    cbn [fst connectResult with_result]. now destruct (connectResult c). }
  destruct (resume_job c job) as [c1 job']. cbn [fst] in Hj.
  specialize (IH c1). destruct (resume_jobs c1 jobs) as [c2 rest']. cbn [fst] in *. auto.
Qed.

Lemma Owned_resume c : Owned c -> Owned (resume c).
Proof.
  intros HO. apply (Owned_change c); auto.
  - unfold all_jobs, resume.
    destruct (resume_earlier_calls_fields c (earlierCalls c)) as (_ & Hj & _).
    pose proof (keys_resume_earlier_calls_kept c (earlierCalls c)) as Hk.
    destruct (resume_earlier_calls c (earlierCalls c)) as [c1 calls]. cbn [fst snd] in *.
    rewrite earlier_resume_last, jobs_resume_last. cbn [earlierCalls connectJobs with_earlier].
    now rewrite !map_app, Hk, keys_resume_jobs_kept, Hj.
  - now rewrite heap_resume.
  - intros name ref. unfold resume.
    destruct (resume_earlier_calls_fields c (earlierCalls c)) as (_ & Hj & _).
    pose proof (origin_resume_earlier_calls c (earlierCalls c) name ref) as Ho.
    destruct (resume_earlier_calls c (earlierCalls c)) as [c1 calls]. cbn [fst] in *.
    rewrite servers_resume_last. intros Hg. apply origin_resume_jobs in Hg.
    cbn [servers connectJobs with_earlier] in Hg. rewrite Hj in Hg.
    unfold all_jobs. rewrite map_app, in_app_iff. destruct Hg as [Hg|Hg]; [|tauto].
    destruct (Ho Hg); tauto.
  - apply NoDup_keys_resume. apply HO.
  - intros Hr. unfold resume in *.
    destruct (resume_earlier_calls_fields c (earlierCalls c)) as (_ & Hj & Hres & _).
    destruct (resume_earlier_calls c (earlierCalls c)) as [c1 calls]. cbn [fst] in *.
    assert (Hnone : connectResult c = None).
    { rewrite <- Hres. unfold resume_last in Hr.
      pose proof (result_resume_jobs (with_earlier calls c1) (connectJobs (with_earlier calls c1)))
        as H.
      destruct (resume_jobs (with_earlier calls c1) (connectJobs (with_earlier calls c1)))
        as [c2 jobs]. cbn [fst] in H.
      apply H. destruct (forallb is_fulfilled jobs); cbn [connectResult with_result with_jobs] in Hr;
        [now destruct (connectResult c2)|exact Hr]. }
    rewrite jobs_resume_last. cbn [connectJobs with_earlier]. rewrite Hj.
    now rewrite (own_called _ HO Hnone).
Qed.

Lemma Owned_on_transport ref f c : Owned c -> Owned (on_transport ref f c).
Proof.
  intros HO. unfold on_transport. destruct (nth_error (heap c) ref); [|exact HO].
  apply (Owned_change c); auto; try apply HO.
  cbn [heap with_heap]. now rewrite length_update.
Qed.

Lemma Owned_start_job opened c entry :
  Owned c -> connectResult c <> None -> Owned (start_job opened c entry) /\
  connectResult (start_job opened c entry) <> None.
Proof.
  intros [Hd Hh He Hk Hc] Hr. destruct entry as [name config]. unfold start_job.
  destruct (createTransport config) as [transport|e].
  - split; [|exact Hr]. constructor; cbn [servers heap connectJobs connectResult earlierCalls
      with_jobs with_heap with_result]; unfold all_jobs;
      cbn [earlierCalls connectJobs with_jobs with_heap]; auto.
    + rewrite app_assoc, refs_of_app. unfold refs_of at 2. cbn.
      apply NoDup_app; [exact Hd|repeat constructor; simpl; tauto|].
      intros x Hx [<-|[]]. specialize (Hh _ Hx). lia.
    + intros ref. rewrite app_assoc, refs_of_app, in_app_iff, length_app. unfold refs_of at 2.
      cbn. intros [H|[<-|[]]]; [specialize (Hh _ H)|]; lia.
    + intros n r Hg. rewrite app_assoc, map_app, in_app_iff. left. now apply He.
    + congruence.
  - split;
      [|cbn [connectResult with_result with_jobs]; unfold settle_connect;
        destruct (connectResult c); [discriminate|congruence]].
    constructor; cbn [servers heap connectJobs connectResult earlierCalls
      with_jobs with_heap with_result]; unfold all_jobs;
      cbn [earlierCalls connectJobs with_jobs with_result]; auto.
    + rewrite app_assoc, refs_of_app. unfold refs_of at 2. cbn. now rewrite app_nil_r.
    + intros ref. rewrite app_assoc, refs_of_app, in_app_iff. unfold refs_of at 2. cbn.
      intros [H|[]]. now apply Hh.
    + intros n r Hg. rewrite app_assoc, map_app, in_app_iff. left. now apply He.
    + unfold settle_connect. destruct (connectResult c); [discriminate|congruence].
Qed.

Lemma Owned_start_jobs opened entries c :
  Owned c -> connectResult c <> None -> Owned (fold_left (start_job opened) entries c).
Proof.
  revert c. induction entries as [|entry entries IH]; intros c HO Hr; [exact HO|].
  cbn [fold_left]. destruct (Owned_start_job opened c entry HO Hr). now apply IH.
Qed.

Lemma Owned_begin c : Owned c -> Owned (begin_connect c).
Proof.
  intros HO. apply (Owned_change c); auto; try apply HO.
  unfold all_jobs, begin_connect. cbn [earlierCalls connectJobs].
  destruct (connectResult c) eqn:Hr.
  - rewrite flat_map_app. cbn [flat_map call_jobs]. now rewrite !app_nil_r.
  - now rewrite (own_called _ HO Hr).
Qed.

Lemma Owned_result r c : r <> None -> Owned c -> Owned (with_result r c).
Proof.
  intros Hr HO. apply (Owned_change c); auto; try apply HO.
  cbn [connectResult with_result]. congruence.
Qed.

Lemma Owned_connect loaded opened c : Owned c -> Owned (connect loaded opened c).
Proof.
  intros HO. pose proof (Owned_begin c HO) as HB. unfold connect.
  destruct loaded as [config|e]; [|apply Owned_result; [discriminate|exact HB]].
  destruct (mcpServers config) as [[|entry entries]|];
    try (apply Owned_result; [discriminate|exact HB]).
  apply Owned_resume. apply Owned_start_jobs; [exact HB|discriminate].
Qed.

Lemma Owned_disconnect c : Owned c -> Owned (disconnect c).
Proof.
  intros HO. unfold disconnect.
  assert (H : forall (f : Transport -> Transport) l c0, Owned c0 ->
            Owned (fold_left (fun acc (entry : string * nat) =>
                                on_transport (snd entry) f acc) l c0)).
  { intros f. induction l as [|entry l IH]; intros c0 H0; [exact H0|].
    cbn [fold_left]. apply IH. now apply Owned_on_transport. }
  match goal with
  | |- Owned (with_servers _ (fold_left (fun acc entry => on_transport _ ?f acc) _ _)) =>
      specialize (H f (JsMap.entries (servers c)) c HO)
  end.
  destruct H as [Hd Hh He Hk Hc]. constructor; auto.
  - discriminate.
  - constructor.
Qed.

Lemma Owned_call_start serverName method params c :
  Owned c -> Owned (fst (call_start serverName method params c)).
Proof.
  intros HO. unfold call_start. destruct (JsMap.get serverName (servers c)) as [ref|];
    [|exact HO].
  cbn -[sendRequest update]. destruct (nth_error (heap c) ref) as [tr0|] eqn:Hn.
  - destruct (sendRequest _ tr0) as [tr' result]. cbn [fst].
    apply (Owned_change c); auto; try apply HO.
    cbn [heap with_heap with_counter]. now rewrite length_update.
  - apply (Owned_change c); auto; apply HO.
Qed.

Lemma Owned_list_start method c : Owned c -> Owned (fst (list_start method c)).
Proof.
  intros HO. unfold list_start. generalize (@nil ListJob) as jobs.
  generalize (JsMap.entries (servers c)) as l. intros l. revert c HO.
  induction l as [|[name ref] l IH]; intros c HO jobs; [exact HO|].
  cbn [fold_left]. unfold list_start_one at 2. cbn -[sendRequest update fold_left].
  destruct (nth_error (heap c) ref) as [tr0|] eqn:Hn.
  - destruct (sendRequest _ tr0) as [tr' result]. apply IH.
    apply (Owned_change c); auto; try apply HO.
    cbn [heap with_heap with_counter]. now rewrite length_update.
  - apply IH. apply (Owned_change c); auto; apply HO.
Qed.

Lemma Owned_create : Owned create.
Proof. constructor; cbn; auto; try constructor; try tauto; discriminate. Qed.

Lemma Owned_reach JSON_parse c : Reach JSON_parse c -> Owned c.
Proof.
  induction 1.
  - apply Owned_create.
  - now apply Owned_connect.
  - unfold deliver. apply Owned_resume. now apply Owned_on_transport.
  - now apply Owned_disconnect.
  - now apply Owned_call_start.
  - now apply Owned_list_start.
Qed.

Lemma Reach_run JSON_parse events c :
  Reach JSON_parse c -> Reach JSON_parse (run JSON_parse events c).
Proof.
  revert c. induction events as [|event events IH]; intros c HR; [exact HR|].
  cbn [run fold_left]. apply IH. now constructor.
Qed.

(** Every entry of the registry refers to a transport of the heap. *)
Lemma Owned_heap c name ref :
  Owned c -> JsMap.get name (servers c) = Some ref -> exists tr, nth_error (heap c) ref = Some tr.
Proof.
  intros HO Hg. pose proof (own_entry _ HO name ref Hg) as Hin. apply key_in_refs in Hin.
  apply (own_heap _ HO) in Hin. destruct (nth_error (heap c) ref) as [tr|] eqn:Hn; [eauto|].
  apply nth_error_None in Hn. lia.
Qed.

(** C5. listTools, listResources and listPrompts run one closure per entry
    of the registry, in the order of the registry.  On a client that was
    made by new McpClient and then only used through its methods, while its
    transports received any events, the entries of the registry refer to
    pairwise different transports, all of them on the heap.  The closure of
    an entry then calls createRequest with the method and {} and sendRequest
    on the transport of the entry: on a connected transport that registers
    one pending request and starts one sendMessage, which carries that
    request; on a transport that is not connected sendRequest throws and the
    transport stays as it is; transports that are not in the registry are
    not touched.  Whatever then happens to the transports, the call returns
    as soon as every request it made is settled, and what it returns is, for
    each server in registry order, the items the response to its request
    listed, in the order of the response, each as the object { ...item,
    serverName }.  A closure whose try block throws (sendRequest threw, the
    request was rejected, or the listed value is no array) returns [], so
    its server contributes nothing and the call still returns.  For an item
    that is an object the tagged item has serverName set to the name of the
    server and every other property as it was. *)
Theorem list_aggregates (JSON_parse : string -> option JsonValue) (method key : string)
    (c : t) (events : list (nat * TransportEvent)) :
  let started := list_start method c in
  let jobs := snd started in
  let c' := run JSON_parse events (fst started) in
  (listTools_start = list_start "tools/list" /\ listTools_finish = list_finish "tools" /\
   listResources_start = list_start "resources/list" /\
   listResources_finish = list_finish "resources" /\
   listPrompts_start = list_start "prompts/list" /\ listPrompts_finish = list_finish "prompts") /\
  map list_server jobs = getConnectedServers c /\
  map list_transport jobs = JsMap.values (servers c) /\
  requestIdCounter (fst started) =
    (requestIdCounter c + Z.of_nat (JsMap.size (servers c)))%Z /\
  (Reach JSON_parse c ->
   NoDup (JsMap.values (servers c)) /\
   forall serverName ref,
     JsMap.get serverName (servers c) = Some ref -> exists tr, nth_error (heap c) ref = Some tr) /\
  (NoDup (JsMap.values (servers c)) ->
   (forall ref, ~ In ref (JsMap.values (servers c)) ->
                nth_error (heap (fst started)) ref = nth_error (heap c) ref) /\
   forall i serverName ref tr,
     nth_error (JsMap.entries (servers c)) i = Some (serverName, ref) ->
     nth_error (heap c) ref = Some tr ->
     let request := list_request method c i in
     let n := Runtime.nextCall (BaseTransport.rt (base tr)) in
     let tr' := fst (sendRequest request tr) in
     request = {| JsonRpc.method := method; params := Some (JObj []);
                  id := IdNum (requestIdCounter c + Z.of_nat i + 1) |} /\
     nth_error jobs i = Some {| list_server := serverName; list_transport := ref;
                                list_call := snd (sendRequest request tr) |} /\
     nth_error (heap (fst started)) ref = Some tr' /\
     (isConnected tr = true ->
      snd (sendRequest request tr) = Ok n /\
      JsMap.get (id request) (BaseTransport.pendingRequests (base tr')) =
        Some {| BaseTransport.waiter := n; BaseTransport.timeout := n |} /\
      Runtime.sending (BaseTransport.rt (base tr')) =
        Runtime.sending (BaseTransport.rt (base tr)) ++ [sent request n]) /\
     (isConnected tr = false ->
      snd (sendRequest request tr) = Throw TransportNotConnected /\ tr' = tr)) /\
  (forall items,
      list_finish key c' jobs = Some items ->
      items = flat_map (fun job => map (tag (list_server job)) (served key c' job)) jobs) /\
  (list_finish key c' jobs <> None <->
   forall job, In job jobs -> list_try key c' job <> None) /\
  (forall job n tr,
      list_call job = Ok n -> nth_error (heap c') (list_transport job) = Some tr ->
      (list_try key c' job = None <-> BaseTransport.outcome (base tr) n = None)) /\
  (forall job e,
      list_try key c' job = Some (Throw e) ->
      list_result key c' job = Some [] /\ served key c' job = []) /\
  (forall job, failed c' job -> exists e, list_try key c' job = Some (Throw e)) /\
  (forall serverName fields name,
      tag serverName (JObj fields) = JObj (JsMap.set "serverName" (JStr serverName) fields) /\
      prop (tag serverName (JObj fields)) "serverName" = Some (JStr serverName) /\
      (name <> "serverName" ->
       prop (tag serverName (JObj fields)) name = prop (JObj fields) name)).
Proof.
  intros started jobs c'.
  destruct (list_start_fold method (JsMap.entries (servers c)) c []) as (A & B & _ & D & _).
  split; [repeat split|]. split; [exact A|]. split; [exact B|]. split; [exact D|].
  split.
  { intros HR. apply Owned_reach in HR. split; [now apply Owned_values|].
    intros serverName ref. now apply Owned_heap. }
  split; [|split; [intros items; apply list_finish_flat|
           split; [apply list_finish_returns|split; [|split; [|split]]]]].
  - intros Hnd.
    destruct (list_start_requests method (JsMap.entries (servers c)) c [] Hnd) as (_ & Hout & Hin).
    cbv zeta in Hout, Hin. split; [exact Hout|].
    intros i serverName ref tr He Hn request n tr'.
    destruct (Hin i serverName ref tr He Hn) as [Hjob Hheap].
    split; [reflexivity|]. split; [exact Hjob|]. split; [exact Hheap|]. split.
    + intros Hc. destruct (sendRequest_connected request tr Hc) as (E1 & E2 & E3 & _). auto.
    + intros Hc. unfold tr'. now rewrite (sendRequest_disconnected _ _ Hc).
  - intros job n tr Hcall Hn. unfold list_try. rewrite Hcall, Hn.
    destruct (BaseTransport.outcome (base tr) n) as [[response|e]|]; split; congruence.
  - intros job e. apply list_try_throws.
  - intros job. apply failed_throws.
  - intros serverName fields name. split; [reflexivity|].
    split; [apply tag_serverName|apply tag_other].
Qed.

(** An instance of C5: one registered server, which lists one tool. *)
Lemma list_aggregates_witness :
  let jobs := snd (listTools_start Sample.half_connected) in
  let c' := run Sample.one_frame Sample.tools_arrive (fst (listTools_start Sample.half_connected)) in
  let listed := [JObj [("name", JStr "echo"); ("serverName", JStr "stream")]] in
  Reach Sample.one_frame Sample.half_connected /\
  NoDup (JsMap.values (servers Sample.half_connected)) /\
  map list_server jobs = ["stream"] /\
  nth_error jobs 0 =
    Some {| list_server := "stream"; list_transport := 1;
            list_call := snd (sendRequest (list_request "tools/list" Sample.half_connected 0)
                                Sample.stream_transport) |} /\
  listTools_finish c' jobs = Some listed /\
  listed = flat_map (fun job => map (tag (list_server job)) (served "tools" c' job)) jobs.
Proof.
  intros jobs c' listed.
  assert (HR : Reach Sample.one_frame Sample.half_connected).
  { change Sample.half_connected
      with (run Sample.one_frame Sample.one_up_one_down Sample.connecting).
    apply Reach_run. apply reach_connect. apply reach_create. }
  assert (Hfinish : list_finish "tools" c' jobs = Some listed) by reflexivity.
  destruct (list_aggregates Sample.one_frame "tools/list" "tools" Sample.half_connected
              Sample.tools_arrive) as (_ & Hnames & _ & _ & Hreach & Hsend & Hflat & _).
  destruct (Hreach HR) as (Hnd & _).
  destruct (Hsend Hnd) as (_ & Hentry).
  destruct (Hentry 0 "stream" 1 Sample.stream_transport eq_refl eq_refl) as (_ & Hjob & _).
  split; [exact HR|]. split; [exact Hnd|]. split; [exact Hnames|]. split; [exact Hjob|].
  split; [exact Hfinish|]. exact (Hflat listed Hfinish).
Defined.


(** The closures of an earlier call of connect() go on: connect() is called
    twice before any server answers; the answer to the request of the first
    call registers the transport of the first call, fulfils no promise of the
    second call, and leaves the closures of the second call waiting. *)
Example earlier_closure_still_registers :
  let c := Scenario.first_call_answered in
  getConnectedServers Scenario.connecting_twice = [] /\
  List.length (earlierCalls Scenario.connecting_twice) = 1 /\
  JsMap.get "stream" (servers c) = Some 1 /\
  isServerConnected "stream" c = true /\
  connectResult c = Some Pending /\
  map job_state (connectJobs c) = [Pending; Pending] /\
  map (fun call => map job_state (call_jobs call)) (earlierCalls c) = [[Pending; Fulfilled]].
Proof. vm_compute. repeat split; reflexivity. Qed.



(** An instance of C10: the response stream of the connected server ends. *)
Lemma registry_outlives_transport_witness :
  let c' := deliver Sample.no_frames Sample.half_connected
              (1, FromHttp HttpStreamTransport.StreamEnds) in
  resume Sample.half_connected = Sample.half_connected /\
  JsMap.get "stream" (servers Sample.half_connected) = Some 1 /\
  nth_error (heap Sample.half_connected) 1 = Some Sample.stream_transport /\
  dies Sample.stream_transport (FromHttp HttpStreamTransport.StreamEnds) = true /\
  isServerConnected "stream" Sample.half_connected = true /\
  getConnectedServers c' = ["stream"] /\
  isServerConnected "stream" c' = false.
Proof.
  intros c'.
  assert (H1 : resume Sample.half_connected = Sample.half_connected) by reflexivity.
  assert (H2 : JsMap.get "stream" (servers Sample.half_connected) = Some 1) by reflexivity.
  assert (H3 : nth_error (heap Sample.half_connected) 1 = Some Sample.stream_transport)
    by reflexivity.
  assert (H4 : dies Sample.stream_transport (FromHttp HttpStreamTransport.StreamEnds) = true)
    by reflexivity.
  destruct (registry_outlives_transport Sample.no_frames Sample.half_connected "stream" 1
              Sample.stream_transport (FromHttp HttpStreamTransport.StreamEnds) H1 H2 H3 H4)
    as (_ & Hkeys & _ & _ & Hdown & _).
  split; [exact H1|]. split; [exact H2|]. split; [exact H3|]. split; [exact H4|].
  split; [reflexivity|]. split; [|exact Hdown].
  unfold c'. rewrite Hkeys. reflexivity.
Defined.

End McpClientFacts.
(* ================================================================== *)
(** * Further facts *)

(* ------------------------------------------------------------------ *)
(** ** Request ids and response validation *)

Module JsonRpcFacts.

Lemma createRequests_fields calls c :
  snd (createRequests calls c) = (c + Z.of_nat (List.length calls))%Z /\
  map id (fst (createRequests calls c)) =
    map (fun k => IdNum (c + Z.of_nat k)) (seq 1 (List.length calls)) /\
  map method (fst (createRequests calls c)) = map fst calls /\
  map params (fst (createRequests calls c)) = map snd calls.
Proof.
  revert c. induction calls as [|[m p] calls IH]; intros c.
  - simpl. repeat split; try reflexivity; lia.
  - cbn [createRequests]. unfold createRequest, generateRequestId.
    destruct (createRequests calls (c + 1)) as [requests counter'] eqn:E.
    specialize (IH (c + 1)%Z). rewrite E in IH. cbn [fst snd] in IH.
    destruct IH as (A & B & C & D). cbn [fst snd map List.length seq].
    split; [rewrite A; lia|]. split; [|split; [now rewrite C|now rewrite D]].
    simpl. rewrite B.
    replace (seq 2 (List.length calls)) with (map S (seq 1 (List.length calls)))
      by apply seq_shift.
    rewrite map_map.
    replace (c + 1)%Z with (c + Z.of_nat 1)%Z at 1 by lia. f_equal.
    apply map_ext. intros k. f_equal. lia.
Qed.

(** X1. Successive calls of createRequest, while the counter stays within
    the integers a number holds exactly: the k-th request gets the id
    counter + k, so the ids are pairwise distinct, each is larger than every
    id issued before, none is 0 (a response that carries one is never
    dropped by the test [!response.id]), and method and params are the
    arguments of the call. *)
Theorem createRequest_ids_fresh (calls : list (string * option JsonValue)) (c : Z) :
  (0 <= c)%Z ->
  (c + Z.of_nat (List.length calls) <= MAX_SAFE_INTEGER)%Z ->
  let requests := fst (createRequests calls c) in
  snd (createRequests calls c) = (c + Z.of_nat (List.length calls))%Z /\
  (forall k request,
      nth_error requests k = Some request ->
      id request = IdNum (c + Z.of_nat k + 1) /\
      truthy (JNum (c + Z.of_nat k + 1)) = true /\
      (c + Z.of_nat k + 1 <= MAX_SAFE_INTEGER)%Z) /\
  NoDup (map id requests) /\
  map method requests = map fst calls /\
  map params requests = map snd calls.
Proof.
  intros Hc Hmax requests. unfold requests.
  destruct (createRequests_fields calls c) as (A & B & C & D).
  split; [exact A|]. split; [|split; [|split; [exact C|exact D]]].
  - intros k request Hk.
    pose proof (map_nth_error id _ _ Hk) as Hid.
    rewrite B, nth_error_map, nth_error_seq in Hid.
    destruct (Nat.ltb k (List.length calls)) eqn:Hlt; [|discriminate].
    apply Nat.ltb_lt in Hlt. simpl in Hid. injection Hid as Hid.
    split; [rewrite <- Hid; f_equal; lia|].
    split; [|lia]. simpl. apply negb_true_iff. apply Z.eqb_neq. lia.
  - rewrite B. apply NoDup_map_NoDup_ForallPairs; [|apply seq_NoDup].
    intros x y _ _ [= E]. lia.
Qed.

(** An instance of X1: the first two requests of a process. *)
Lemma createRequest_ids_fresh_witness :
  map id (fst (createRequests Scenario.two_calls 0)) = [IdNum 1; IdNum 2] /\
  snd (createRequests Scenario.two_calls 0) = 2%Z /\
  NoDup (map id (fst (createRequests Scenario.two_calls 0))).
Proof.
  assert (H0 : (0 <= 0)%Z) by lia.
  assert (H1 : (0 + Z.of_nat (List.length Scenario.two_calls) <= MAX_SAFE_INTEGER)%Z)
    by (vm_compute; discriminate).
  destruct (createRequest_ids_fresh Scenario.two_calls 0 H0 H1) as (A & _ & C & _).
  split; [reflexivity|]. split; [exact A|exact C].
Defined.

End JsonRpcFacts.

(* ------------------------------------------------------------------ *)
(** ** Requests in flight *)

Module RequestFacts.
Import JsMap JsMapFacts Runtime BaseTransport Correlation Waiting BaseTransportFacts.

Lemma delete_set_same {K V : Type} `{KeyLaws K} (k : K) (v : V) (m : JsMap.t K V) :
  delete k (set k v m) = delete k m.
Proof.
  induction m as [|[k' v'] m IH]; simpl.
  - now rewrite key_eqb_refl.
  - destruct (key_eqb k k') eqn:E; simpl; rewrite E; [reflexivity|now rewrite IH].
Qed.

Lemma filter_all {A : Type} (keep : A -> bool) (l : list A) :
  (forall x, In x l -> keep x = true) -> filter keep l = l.
Proof.
  induction l as [|x l IH]; simpl; intros Hall; [reflexivity|].
  rewrite (Hall x) by now left. f_equal. apply IH. intros y Hy. apply Hall. now right.
Qed.

Section Runs.
Variable JSON_parse : string -> option JsonValue.

(** X2. A request and its answer on a connected transport, for a request
    whose id is truthy (not 0 and not the empty string): sendRequest returns
    a promise nothing has called; a response that validates, carries the id
    of the request and has no error field resolves that promise with the
    response itself; afterwards the live timers are the ones from before the
    request, and the table is the one from before with the id of the request
    removed, which is the table from before when it held no entry under that
    id. *)
Theorem request_response_round_trip (events : list Event) (request : JsonRpcRequest)
    (data : string) (v rid : JsonValue) :
  let this := run JSON_parse events create in
  let n := nextCall (rt this) in
  let this1 := fst (sendRequest request this) in
  let this2 := handleResponse JSON_parse data this1 in
  connected this = true ->
  JSON_parse data = Some v ->
  validateResponse v = Ok v ->
  prop v "id" = Some rid -> truthy rid = true -> lookup_key rid = Some (id request) ->
  prop v "error" = None ->
  snd (sendRequest request this) = Ok n /\
  outcome this1 n = None /\
  get (id request) (pendingRequests this1) = Some {| waiter := n; timeout := n |} /\
  outcome this2 n = Some (Resolved v) /\
  timers (rt this2) = timers (rt this) /\
  pendingRequests this2 = delete (id request) (pendingRequests this) /\
  (get (id request) (pendingRequests this) = None ->
   pendingRequests this2 = pendingRequests this).
Proof.
  intros this n this1 this2 Hc Hp Hv Hid Ht Hk He.
  pose proof (Inv_reachable JSON_parse events) as HI. fold this in HI.
  assert (Hfresh : ~ In n (map who (settlements (rt this)))).
  { intros Hin. apply in_map_iff in Hin. destruct Hin as (c & E & Hin).
    apply (inv_settled _ HI) in Hin. unfold n in E. lia. }
  assert (Hg : get (id request) (pendingRequests this1) = Some {| waiter := n; timeout := n |}).
  { unfold this1, sendRequest. rewrite Hc. simpl. apply get_set_same. }
  assert (Hcor : correlates (Some v) this1 =
                 Some (id request, {| waiter := n; timeout := n |})).
  { unfold correlates. rewrite Hv, Hid, Ht. unfold get_pending. now rewrite Hk, Hg. }
  assert (H2 : this2 = with_rt (settle ByResponse n (Resolved v))
                         (answered (id request) {| waiter := n; timeout := n |} this1)).
  { unfold this2, handleResponse. rewrite Hp, (handleParsed_matched _ _ _ _ Hcor).
    unfold reply. now rewrite He. }
  assert (Hlog1 : settlements (rt this1) = settlements (rt this)).
  { unfold this1, sendRequest. rewrite Hc. reflexivity. }
  split; [unfold sendRequest; now rewrite Hc|].
  split; [unfold outcome, promise; rewrite Hlog1; now apply first_settlement_None|].
  split; [exact Hg|].
  assert (Htable : pendingRequests this2 = delete (id request) (pendingRequests this)).
  { rewrite H2. unfold this1, sendRequest. rewrite Hc. simpl. apply delete_set_same. }
  split; [|split; [|split; [exact Htable|]]].
  - rewrite H2. unfold outcome, promise. simpl. rewrite Hlog1, first_settlement_app.
    apply first_settlement_None in Hfresh. rewrite Hfresh. simpl. now rewrite Nat.eqb_refl.
  - rewrite H2. unfold this1, sendRequest. rewrite Hc. simpl.
    rewrite filter_app. simpl. rewrite Nat.eqb_refl. simpl. rewrite app_nil_r.
    apply filter_all. intros tm Htm. apply negb_true_iff, Nat.eqb_neq.
    destruct (inv_timer _ HI _ Htm) as (_ & Hlt & _). unfold n. lia.
  - intros Hnone. rewrite Htable. now apply get_None_delete.
Qed.


Lemma falsy_frame_key parsed rid :
  falsy_id rid = true -> same_id (frame_key parsed) rid = false.
Proof.
  intros Hf. unfold frame_key.
  destruct parsed as [v|]; [|reflexivity].
  destruct (validateResponse v) as [response|]; [|reflexivity].
  destruct (prop response "id") as [r|]; [|reflexivity].
  destruct (truthy r) eqn:Ht; [|reflexivity].
  destruct r as [|b|z|s|items|fields]; try reflexivity; simpl in *.
  - destruct rid as [z'|s']; [|reflexivity]. simpl in *.
    apply Z.eqb_eq in Hf. subst z'. apply negb_true_iff in Ht.
    now rewrite Ht.
  - destruct rid as [z'|s']; [reflexivity|]. simpl in *.
    apply String.eqb_eq in Hf. subst s'. apply negb_true_iff in Ht.
    now rewrite Ht.
Qed.

Lemma left_alone_undisturbed n rid events :
  falsy_id rid = true -> left_alone n events = true ->
  undisturbed JSON_parse n rid events = true.
Proof.
  intros Hf Hl. unfold left_alone in Hl. unfold undisturbed.
  rewrite forallb_forall in *. intros e He. specialize (Hl e He).
  destruct e; auto. now rewrite falsy_frame_key.
Qed.

(** X3. A request whose id is 0 or the empty string, sent on a connected
    transport: whatever frames arrive afterwards, well-formed responses that
    carry its id included, nothing resolves it; unless cleanup runs or its
    sendMessage fails, its promise stays unsettled for 29999 milliseconds
    and the 30000th rejects it with 'Request <id> timed out after
    30000ms'. *)
Theorem falsy_id_request_times_out (events0 : list Event) (request : JsonRpcRequest)
    (events : list Event) :
  let this0 := run JSON_parse events0 create in
  let n := nextCall (rt this0) in
  let this2 := run JSON_parse events (fst (sendRequest request this0)) in
  connected this0 = true ->
  falsy_id (id request) = true ->
  left_alone n events = true ->
  snd (sendRequest request this0) = Ok n /\
  ((count_ticks events < 30000)%Z -> outcome this2 n = None) /\
  (count_ticks events = 29999%Z ->
   outcome (tick this2) n = Some (Rejected (RequestTimedOut (id request) 30000)) /\
   get (id request) (pendingRequests (tick this2)) = None).
Proof.
  intros this0 n this2 Hc Hf Hl.
  pose proof (left_alone_undisturbed n (id request) events Hf Hl) as Hq.
  pose proof (Inv_reachable JSON_parse events0) as HI. fold this0 in HI.
  assert (Hms : requestTimeout this0 = 30000%Z).
  { unfold this0. now rewrite requestTimeout_run. }
  destruct (awaiting_after_send request this0 HI Hc) as (Haw & Hn & Hclk). fold n in Haw, Hn.
  rewrite Hms in Haw. change (timer_delay 30000) with 30000%Z in Haw.
  pose proof (Inv_sendRequest request this0 HI) as HI1.
  split; [exact Hn|].
  assert (Hrun : (count_ticks events < 30000)%Z ->
                 awaiting_timer n (id request) (clock (rt this0) + 30000) this2 /\
                 clock (rt this2) = (clock (rt this0) + count_ticks events)%Z).
  { intros Hlt. rewrite <- Hclk at 2. apply undisturbed_run; auto. lia. }
  split.
  - intros Hlt. destruct (Hrun Hlt) as [(_ & Hfresh & _) _].
    now apply first_settlement_None.
  - intros Hcount. destruct Hrun as [Haw2 Hclk2]; [lia|].
    assert (HI2 : Inv this2) by now apply Inv_run.
    destruct (fires_at_deadline this2 n (id request) _ HI2 Haw2) as (A & B & _); [lia|].
    assert (Hms2 : requestTimeout this2 = 30000%Z).
    { unfold this2. rewrite requestTimeout_run. unfold sendRequest. rewrite Hc. exact Hms. }
    rewrite Hms2 in A. auto.
Qed.

(** *** No request waits for ever *)

Lemma Alarmed_create : Alarmed create.
Proof. constructor; simpl; [intros n Hn; lia|tauto]. Qed.

Lemma Alarmed_sendRequest request this :
  Inv this -> Alarmed this -> Alarmed (fst (sendRequest request this)).
Proof.
  intros HI HA. unfold sendRequest. destruct (connected this); [|exact HA].
  constructor; simpl.
  - intros n Hn Hlog. destruct (Nat.eq_dec n (nextCall (rt this))) as [->|Hne].
    + eexists. split; [apply in_or_app; right; now left|reflexivity].
    + destruct (alarm_pending _ HA n) as (tm & Htm & Hw); [lia|exact Hlog|].
      exists tm. split; [apply in_or_app; now left|exact Hw].
  - intros tm Htm. apply in_app_or in Htm. destruct Htm as [Htm|[<-|[]]].
    + now apply (alarm_future _ HA).
    + simpl. unfold timer_delay.
      destruct ((requestTimeout this <? 1) || (2147483647 <? requestTimeout this))%Z eqn:E;
        [lia|].
      apply orb_false_iff in E. destruct E as [E _]. apply Z.ltb_ge in E. lia.
Qed.

Lemma Alarmed_settled this n s by_whom (h : nat) :
  Inv this -> Alarmed this -> n = h ->
  Alarmed (with_rt (settle by_whom n s) (with_rt (clearTimeout h) this)).
Proof.
  intros HI HA ->. constructor; simpl.
  - intros m Hm Hlog. rewrite map_app, in_app_iff in Hlog. simpl in Hlog.
    destruct (alarm_pending _ HA m Hm) as (tm & Htm & Hw); [tauto|].
    exists tm. split; [|exact Hw]. simpl. apply filter_In. split; [exact Htm|].
    apply negb_true_iff, Nat.eqb_neq. destruct (inv_timer _ HI _ Htm) as (E & _).
    intros Hh. apply Hlog. right. left. congruence.
  - intros tm Htm. apply filter_In in Htm. now apply (alarm_future _ HA).
Qed.

Lemma Alarmed_with_pending f this : Alarmed this -> Alarmed (with_pending f this).
Proof.
  intros [Hp Hf]. constructor; simpl; [|exact Hf].
  intros n Hn Hlog. destruct (Hp n Hn Hlog) as (tm & Htm & Hw). now exists tm.
Qed.

Lemma Alarmed_handleParsed parsed this :
  Inv this -> Alarmed this -> orphans parsed this = false ->
  Alarmed (handleParsed parsed this).
Proof.
  intros HI HA Ho. destruct (malformed parsed) as [e|] eqn:Hm.
  - rewrite (handleParsed_malformed _ _ _ Hm). destruct HA as [Hp Hf].
    constructor; simpl; [|exact Hf].
    intros n Hn Hlog. destruct (Hp n Hn Hlog) as (tm & Htm & Hw). now exists tm.
  - destruct (correlates parsed this) as [[k p]|] eqn:Hc.
    + destruct (correlates_inv _ _ _ _ Hc) as (v & rid & -> & _ & _ & _ & _ & Hg).
      rewrite (handleParsed_matched _ _ _ _ Hc). unfold orphans in Ho. rewrite Hc in Ho.
      pose proof (Inv_waiter_timeout _ _ _ HI Hg) as Hwt.
      assert (Hgen : forall s,
                 Alarmed (with_rt (settle ByResponse (waiter p) s) (answered k p this))).
      { intros s0.
        pose proof (Alarmed_settled this (waiter p) s0 ByResponse (timeout p) HI HA Hwt) as H0.
        destruct H0 as [Hp0 Hf0]. constructor; simpl in *; [|exact Hf0].
        intros n Hn Hlog. destruct (Hp0 n Hn Hlog) as (tm & Htm & Hw). now exists tm. }
      destruct (reply v); try discriminate; apply Hgen.
    + now rewrite (handleParsed_unmatched _ _ Hm Hc).
Qed.

Lemma Alarmed_onSendSettled call failure this :
  Inv this -> Alarmed this -> Alarmed (onSendSettled call failure this).
Proof.
  intros HI HA. unfold onSendSettled.
  destruct (find_send call this) as [s|] eqn:Hf; auto.
  destruct (find_send_Some _ _ _ Hf) as [Hs _].
  destruct (inv_send _ HI _ Hs) as (Ht & Hw & _).
  destruct failure as [error|].
  - pose proof (Alarmed_settled this (send_waiter s) (Rejected error) BySendFailure
                  (send_timeout s) HI HA) as H0.
    destruct H0 as [Hp0 Hf0]; [congruence|]. constructor; simpl in *; [|exact Hf0].
    intros n Hn Hlog. destruct (Hp0 n Hn Hlog) as (tm & Htm & Hw'). now exists tm.
  - destruct HA as [Hp Hfu]. constructor; simpl; [|exact Hfu].
    intros n Hn Hlog. destruct (Hp n Hn Hlog) as (tm & Htm & Hw'). now exists tm.
Qed.

Lemma Alarmed_cleanup this : Inv this -> Alarmed this -> Alarmed (cleanup this).
Proof.
  intros HI HA.
  destruct (fold_cleanup (pendingRequests this) (rt this)) as (A & B & _ & D & E & _).
  constructor; simpl; unfold entries.
  - intros n. rewrite A, D, map_app, in_app_iff, map_who_cleanup. intros Hn Hlog.
    destruct (alarm_pending _ HA n Hn) as (tm & Htm & Hw); [tauto|].
    exists tm. split; [|exact Hw]. simpl. unfold entries. apply B. split; [exact Htm|].
    intros [k p] He Hh. apply Hlog. right.
    apply in_map_iff. exists (k, p). split; [|exact He]. simpl in *.
    assert (Hg : get k (pendingRequests this) = Some p) by (apply In_get; auto; apply HI).
    rewrite (Inv_waiter_timeout _ _ _ HI Hg).
    destruct (inv_timer _ HI _ Htm) as (Ew & _). congruence.
  - intros tm Htm. apply B in Htm. rewrite E. now apply (alarm_future _ HA).
Qed.

Lemma Alarmed_tick this : Inv this -> Alarmed this -> Alarmed (tick this).
Proof.
  intros HI HA. unfold tick.
  set (now := (clock (rt this) + 1)%Z).
  set (fired := filter (is_due now) (timers (rt this))).
  destruct (fold_onTimeout fired (with_rt advance this)) as (A & B & _ & D & E & _).
  simpl in *. fold now in B, E. constructor.
  - intros n. rewrite A, D, map_app, in_app_iff. intros Hn Hlog.
    destruct (alarm_pending _ HA n Hn) as (tm & Htm & Hw); [tauto|].
    exists tm. split; [|exact Hw]. rewrite B. apply filter_In. split; [exact Htm|].
    destruct (is_due now tm) eqn:Hd; [|reflexivity].
    exfalso. apply Hlog. right. rewrite map_map. apply in_map_iff.
    exists tm. split; [exact Hw|]. apply filter_In. auto.
  - intros tm. rewrite B, E. intros Htm. apply filter_In in Htm. destruct Htm as [_ Hd].
    apply negb_true_iff in Hd. unfold is_due in Hd. apply Z.leb_gt in Hd. exact Hd.
Qed.

Lemma Alarmed_step this e :
  Inv this -> Alarmed this ->
  match e with
  | Receives data => orphans (JSON_parse data) this = false
  | _ => True
  end ->
  Alarmed (step JSON_parse this e).
Proof.
  intros HI HA Ho. destruct e; simpl.
  - destruct HA as [Hp Hf]. constructor; simpl; [|exact Hf].
    intros n Hn Hlog. destruct (Hp n Hn Hlog) as (tm & Htm & Hw). now exists tm.
  - now apply Alarmed_sendRequest.
  - now apply Alarmed_handleParsed.
  - now apply Alarmed_onSendSettled.
  - now apply Alarmed_cleanup.
  - now apply Alarmed_tick.
Qed.

Lemma Alarmed_run events this :
  Inv this -> Alarmed this -> answers_settle JSON_parse events this = true ->
  Alarmed (run JSON_parse events this).
Proof.
  revert this. induction events as [|e events IH]; intros this HI HA Ho; [exact HA|].
  change (run JSON_parse (e :: events) this)
    with (run JSON_parse events (step JSON_parse this e)).
  cbn [answers_settle] in Ho. apply andb_true_iff in Ho. destruct Ho as [Ho1 Ho2].
  apply IH; auto.
  - now apply Inv_step.
  - apply Alarmed_step; auto. destruct e; auto. now apply negb_true_iff in Ho1.
Qed.

(** The timers after a step are timers from before, or the timer of the
    request the step made. *)
Lemma timers_step this e tm :
  In tm (timers (rt (step JSON_parse this e))) ->
  In tm (timers (rt this)) \/ timer_waiter tm = nextCall (rt this).
Proof.
  destruct e; simpl; auto.
  - unfold sendRequest. destruct (connected this); simpl; auto.
    intros Htm. apply in_app_or in Htm. destruct Htm as [Htm|[<-|[]]]; auto.
  - unfold handleResponse. intros Htm.
    destruct (malformed (JSON_parse data)) as [e|] eqn:Hm.
    + rewrite (handleParsed_malformed _ _ _ Hm) in Htm. now left.
    + destruct (correlates (JSON_parse data) this) as [[k p]|] eqn:Hc.
      * destruct (correlates_inv _ _ _ _ Hc) as (v & rid & Hp & _).
        rewrite Hp in *. rewrite (handleParsed_matched _ _ _ _ Hc) in Htm.
        left. destruct (reply v); simpl in Htm; apply filter_In in Htm; tauto.
      * rewrite (handleParsed_unmatched _ _ Hm Hc) in Htm. now left.
  - unfold onSendSettled. destruct (find_send call this); auto.
    destruct failure; simpl; auto. intros Htm. apply filter_In in Htm. tauto.
  - intros Htm. left.
    destruct (fold_cleanup (pendingRequests this) (rt this)) as (_ & B & _).
    now apply B in Htm.
  - unfold tick. intros Htm. left.
    destruct (fold_onTimeout (filter (is_due (clock (rt this) + 1)) (timers (rt this)))
                (with_rt advance this)) as (_ & B & _).
    rewrite B in Htm. simpl in Htm. apply filter_In in Htm. tauto.
Qed.

Lemma nextCall_grows this e : nextCall (rt this) <= nextCall (rt (step JSON_parse this e)).
Proof.
  rewrite nextCall_step. destruct e; auto.
  destruct (snd (sendRequest request this)); auto.
Qed.

Lemma due_at_run events this n d :
  n < nextCall (rt this) -> due_at n d this -> due_at n d (run JSON_parse events this).
Proof.
  revert this. induction events as [|e events IH]; intros this Hn Hd; [exact Hd|].
  change (run JSON_parse (e :: events) this)
    with (run JSON_parse events (step JSON_parse this e)).
  apply IH.
  - pose proof (nextCall_grows this e). lia.
  - intros tm Htm Hw. destruct (timers_step this e tm Htm) as [Hold|Hnew].
    + now apply Hd.
    + lia.
Qed.

Lemma clock_run events this :
  clock (rt (run JSON_parse events this)) = (clock (rt this) + count_ticks events)%Z.
Proof.
  revert this. induction events as [|e events IH]; intros this.
  - unfold count_ticks. simpl. lia.
  - change (run JSON_parse (e :: events) this)
      with (run JSON_parse events (step JSON_parse this e)).
    rewrite IH, clock_step, count_ticks_cons. lia.
Qed.

(** X4. No request waits longer than the timeout: a request sent on a
    connected transport is settled, one way or another, once 30000
    milliseconds have passed since the call, whatever else happens on the
    transport in that time, provided no response so far was answered to an
    entry of the table while its error field was null or the code or the
    message of its error had no string conversion (handleResponse drops the
    entry and the timer of such a response and calls neither resolve nor
    reject). *)
Theorem settled_within_timeout (events0 : list Event) (request : JsonRpcRequest)
    (events : list Event) :
  let this0 := run JSON_parse events0 create in
  let n := nextCall (rt this0) in
  let this2 := run JSON_parse events (fst (sendRequest request this0)) in
  connected this0 = true ->
  answers_settle JSON_parse events0 create = true ->
  answers_settle JSON_parse events (fst (sendRequest request this0)) = true ->
  (30000 <= count_ticks events)%Z ->
  snd (sendRequest request this0) = Ok n /\
  outcome this2 n <> None /\
  ~ has_timer this2 n.
Proof.
  intros this0 n this2 Hc Ho0 Ho Hticks.
  pose proof (Inv_reachable JSON_parse events0) as HI. fold this0 in HI.
  pose proof (Alarmed_run events0 create Inv_create Alarmed_create Ho0) as HA.
  fold this0 in HA.
  set (this1 := fst (sendRequest request this0)) in *.
  assert (HI1 : Inv this1) by now apply Inv_sendRequest.
  assert (HA1 : Alarmed this1) by now apply Alarmed_sendRequest.
  assert (Hms : requestTimeout this0 = 30000%Z).
  { unfold this0. now rewrite requestTimeout_run. }
  assert (Hnext : nextCall (rt this1) = S n).
  { unfold this1, sendRequest. now rewrite Hc. }
  assert (Hclk : clock (rt this1) = clock (rt this0)).
  { unfold this1, sendRequest. now rewrite Hc. }
  assert (Hdue : due_at n (clock (rt this0) + 30000) this1).
  { intros tm Htm Hw. unfold this1, sendRequest in Htm. rewrite Hc in Htm. simpl in Htm.
    apply in_app_or in Htm. destruct Htm as [Htm|[<-|[]]].
    - destruct (inv_timer _ HI _ Htm) as (E & Hlt & _). unfold n in Hw. lia.
    - simpl. now rewrite Hms. }
  assert (Hnotimer : ~ has_timer this2 n).
  { intros (tm & Htm & Hw).
    pose proof (due_at_run events this1 n _ ltac:(lia) Hdue tm Htm Hw) as Hd.
    pose proof (alarm_future _ (Alarmed_run events this1 HI1 HA1 Ho) tm Htm) as Hfut.
    fold this2 in Hfut. unfold this2 in Hfut at 1. rewrite clock_run in Hfut. lia. }
  split; [unfold sendRequest; now rewrite Hc|]. split; [|exact Hnotimer].
  intros Hnone. apply Hnotimer.
  apply (alarm_pending _ (Alarmed_run events this1 HI1 HA1 Ho)).
  - pose proof (Inv_run JSON_parse events this1 HI1) as HI2.
    assert (Hmono : forall evs t0, nextCall (rt t0) <= nextCall (rt (run JSON_parse evs t0))).
    { induction evs as [|e evs IH]; intros t0; [apply Nat.le_refl|].
      change (run JSON_parse (e :: evs) t0) with (run JSON_parse evs (step JSON_parse t0 e)).
      pose proof (nextCall_grows t0 e). specialize (IH (step JSON_parse t0 e)). lia. }
    specialize (Hmono events this1). lia.
  - now apply first_settlement_None.
Qed.

(** *** Every live timer has its entry *)

Lemma Timed_create : Timed [] create.
Proof. constructor; simpl; tauto. Qed.

Lemma Timed_sendRequest made request this :
  Inv this -> Timed made this ->
  NoDup (map snd (made ++ issues this (Sends request))) ->
  Timed (made ++ issues this (Sends request)) (fst (sendRequest request this)).
Proof.
  intros HI HT Hnd. unfold issues, sendRequest in *. destruct (connected this); simpl in *;
    [|rewrite app_nil_r; exact HT].
  assert (Hfresh : ~ In (id request) (map snd made)).
  { rewrite map_app in Hnd. apply NoDup_remove_2 in Hnd.
    simpl in Hnd. now rewrite app_nil_r in Hnd. }
  constructor; simpl.
  - intros tm Htm. apply in_app_or in Htm. apply in_or_app.
    destruct Htm as [Htm|[<-|[]]]; [left; now apply (timed_timer _ _ HT)|right; now left].
  - intros s Hs. apply in_app_or in Hs. apply in_or_app.
    destruct Hs as [Hs|[<-|[]]]; [left; now apply (timed_send _ _ HT)|right; now left].
  - intros tm Htm. apply in_app_or in Htm. destruct Htm as [Htm|[<-|[]]].
    + destruct (timed_entry _ _ HT tm Htm) as (p & Hg & Hh).
      exists p. split; [|exact Hh]. rewrite get_set_other; [exact Hg|].
      intros E. apply Hfresh. rewrite <- E.
      apply (in_map snd _ _ (timed_timer _ _ HT tm Htm)).
    + simpl. eexists. split; [apply get_set_same|reflexivity].
Qed.

Lemma Timed_answered made this k p (f : Runtime.t -> Runtime.t) :
  Timed made this ->
  get k (pendingRequests this) = Some p ->
  (forall r, timers (f r) = timers r) -> (forall r, sending (f r) = sending r) ->
  Timed made (with_rt f (answered k p this)).
Proof.
  intros HT Hg Hft Hfs. constructor; simpl; rewrite ?Hft, ?Hfs; simpl.
  - intros tm Htm. apply filter_In in Htm. now apply (timed_timer _ _ HT).
  - apply (timed_send _ _ HT).
  - intros tm Htm. apply filter_In in Htm. destruct Htm as [Htm Hne].
    apply negb_true_iff, Nat.eqb_neq in Hne.
    destruct (timed_entry _ _ HT tm Htm) as (p' & Hg' & Hh).
    exists p'. split; [|exact Hh]. rewrite get_delete_other; [exact Hg'|].
    intros E. rewrite E in Hg'. congruence.
Qed.

Lemma Timed_handleParsed made parsed this :
  Inv this -> Timed made this -> Timed made (handleParsed parsed this).
Proof.
  intros HI HT. destruct (malformed parsed) as [e|] eqn:Hm.
  - rewrite (handleParsed_malformed _ _ _ Hm). destruct HT. constructor; auto.
  - destruct (correlates parsed this) as [[k p]|] eqn:Hc.
    + destruct (correlates_inv _ _ _ _ Hc) as (v & rid & -> & _ & _ & _ & _ & Hg).
      rewrite (handleParsed_matched _ _ _ _ Hc).
      destruct (reply v); now apply Timed_answered.
    + now rewrite (handleParsed_unmatched _ _ Hm Hc).
Qed.

Lemma Timed_onSendSettled made call failure this :
  Inv this -> Timed made this -> NoDup (map snd made) ->
  Timed made (onSendSettled call failure this).
Proof.
  intros HI HT Hnd. unfold onSendSettled.
  destruct (find_send call this) as [s|] eqn:Hf; auto.
  destruct (find_send_Some _ _ _ Hf) as [Hs _].
  destruct (inv_send _ HI _ Hs) as (Est & Esw & _).
  destruct failure as [error|].
  - constructor; simpl.
    + intros tm Htm. apply filter_In in Htm. now apply (timed_timer _ _ HT).
    + intros s' Hs'. apply filter_In in Hs'. now apply (timed_send _ _ HT).
    + intros tm Htm. apply filter_In in Htm. destruct Htm as [Htm Hne].
      apply negb_true_iff, Nat.eqb_neq in Hne.
      destruct (timed_entry _ _ HT tm Htm) as (p & Hg & Hh).
      exists p. split; [|exact Hh]. rewrite get_delete_other; [exact Hg|].
      intros E. apply Hne.
      destruct (inv_timer _ HI _ Htm) as (Ew & _).
      rewrite <- Ew, Est, <- Esw.
      apply (NoDup_snd_fst made _ _ (timer_id tm) Hnd).
      * now apply (timed_timer _ _ HT).
      * rewrite E. now apply (timed_send _ _ HT).
  - constructor; simpl.
    + apply (timed_timer _ _ HT).
    + intros s' Hs'. apply filter_In in Hs'. now apply (timed_send _ _ HT).
    + apply (timed_entry _ _ HT).
Qed.

Lemma cleanup_no_timers made this : Timed made this -> timers (rt (cleanup this)) = [].
Proof.
  intros HT. destruct (fold_cleanup (pendingRequests this) (rt this)) as (_ & B & _).
  destruct (timers (rt (cleanup this))) as [|tm rest] eqn:E; [reflexivity|].
  exfalso. assert (Htm : In tm (timers (rt (cleanup this)))) by (rewrite E; now left).
  simpl in Htm. unfold entries in Htm. apply B in Htm. destruct Htm as [Htm Hne].
  destruct (timed_entry _ _ HT tm Htm) as (p & Hg & Hh).
  apply (Hne (timer_id tm, p)); [now apply get_In|]. simpl. congruence.
Qed.

Lemma Timed_cleanup made this : Timed made this -> Timed made (cleanup this).
Proof.
  intros HT. pose proof (cleanup_no_timers made this HT) as Hnone.
  destruct (fold_cleanup (pendingRequests this) (rt this)) as (_ & _ & C & _).
  constructor.
  - rewrite Hnone. intros tm [].
  - intros s. simpl. unfold entries. rewrite C. apply (timed_send _ _ HT).
  - rewrite Hnone. intros tm [].
Qed.

Lemma Timed_tick made this :
  Inv this -> Timed made this -> NoDup (map snd made) -> Timed made (tick this).
Proof.
  intros HI HT Hnd. unfold tick.
  set (now := (clock (rt this) + 1)%Z).
  set (fired := filter (is_due now) (timers (rt this))).
  destruct (fold_onTimeout fired (with_rt advance this)) as (_ & B & C & _ & _ & _ & _ & _ & I & _).
  simpl in *. fold now in B. constructor.
  - intros tm. rewrite B. intros Htm. apply filter_In in Htm. now apply (timed_timer _ _ HT).
  - intros s. rewrite C. apply (timed_send _ _ HT).
  - intros tm. rewrite B. intros Htm. apply filter_In in Htm. destruct Htm as [Htm Hnd'].
    destruct (timed_entry _ _ HT tm Htm) as (p & Hg & Hh).
    exists p. split; [|exact Hh]. apply I. split; [exact Hg|].
    intros Hin. apply in_map_iff in Hin. destruct Hin as (tf & Hid & Htf).
    apply filter_In in Htf. destruct Htf as [Htf Hdue].
    assert (tf = tm); [|subst tf; now rewrite Hdue in Hnd'].
    apply (NoDup_map_same handle (timers (rt this))); auto; [apply HI|].
    destruct (inv_timer _ HI _ Htm) as (E1 & _). destruct (inv_timer _ HI _ Htf) as (E2 & _).
    rewrite <- E1, <- E2.
    apply (NoDup_snd_fst made _ _ (timer_id tm) Hnd).
    + rewrite <- Hid. now apply (timed_timer _ _ HT).
    + now apply (timed_timer _ _ HT).
Qed.

Lemma Timed_step made this e :
  Inv this -> Timed made this ->
  NoDup (map snd (made ++ issues this e)) ->
  Timed (made ++ issues this e) (step JSON_parse this e).
Proof.
  intros HI HT Hnd. destruct e; try (simpl in Hnd; rewrite app_nil_r in *); simpl.
  - destruct HT. constructor; auto.
  - now apply Timed_sendRequest.
  - now apply Timed_handleParsed.
  - now apply Timed_onSendSettled.
  - now apply Timed_cleanup.
  - now apply Timed_tick.
Qed.

Lemma Timed_run events made this :
  Inv this -> Timed made this ->
  NoDup (map snd (made ++ issued JSON_parse events this)) ->
  Timed (made ++ issued JSON_parse events this) (run JSON_parse events this).
Proof.
  revert made this. induction events as [|e events IH]; intros made this HI HT Hnd.
  - simpl. now rewrite app_nil_r.
  - change (run JSON_parse (e :: events) this)
      with (run JSON_parse events (step JSON_parse this e)).
    cbn [issued] in *. rewrite app_assoc in *. apply IH; auto.
    + now apply Inv_step.
    + apply Timed_step; auto.
      rewrite map_app in Hnd. now apply NoDup_app_remove_r in Hnd.
Qed.

(** X5. disconnect leaves no timer behind: in a run in which no two requests
    carried the same id, every live timer is the timer of an entry of the
    table, whatever frames arrived, and cleanup clears every live timer, so
    nothing of the transport keeps the event loop busy afterwards. *)
Theorem cleanup_clears_every_timer (events : list Event) :
  let this := run JSON_parse events create in
  NoDup (map snd (issued JSON_parse events create)) ->
  (forall tm, In tm (timers (rt this)) ->
              exists p, get (timer_id tm) (pendingRequests this) = Some p /\
                        timeout p = handle tm) /\
  timers (rt (cleanup this)) = [] /\
  pendingRequests (cleanup this) = [] /\
  connected (cleanup this) = false.
Proof.
  intros this Hnd.
  pose proof (Timed_run events [] create Inv_create Timed_create Hnd) as HT.
  simpl in HT. fold this in HT.
  split; [apply (timed_entry _ _ HT)|].
  split; [apply (cleanup_no_timers _ _ HT)|split; reflexivity].
Qed.

End Runs.

(** An instance of X2: the first request and its response. *)
Lemma request_response_round_trip_witness :
  let this := run Sample.one_frame [Connects] create in
  let this1 := fst (sendRequest Sample.first_request this) in
  let this2 := handleResponse Sample.one_frame "tools" this1 in
  outcome this1 0 = None /\
  outcome this2 0 = Some (Resolved Sample.tools_frame) /\
  timers (rt this2) = [] /\ pendingRequests this2 = [].
Proof.
  intros this this1 this2.
  destruct (request_response_round_trip Sample.one_frame [Connects] Sample.first_request
              "tools" Sample.tools_frame (JNum 1) eq_refl eq_refl eq_refl eq_refl eq_refl
              eq_refl eq_refl) as (_ & A & _ & B & C & _ & D).
  split; [exact A|]. split; [exact B|]. split; [exact C|]. exact (D eq_refl).
Defined.

(** An instance of X3: a request with id 0, answered at once by a response
    with id 0. *)
Lemma falsy_id_request_times_out_witness :
  let this0 := run Scenario.zero_parser [Connects] create in
  let this2 := run Scenario.zero_parser Scenario.frame_then_wait
                 (fst (sendRequest Sample.zero_request this0)) in
  Scenario.zero_parser "zero" = Some Sample.zero_frame /\
  outcome this2 0 = None /\
  outcome (tick this2) 0 = Some (Rejected (RequestTimedOut (IdNum 0) 30000)).
Proof.
  intros this0 this2.
  assert (Hl : left_alone 0 Scenario.frame_then_wait = true) by (vm_compute; reflexivity).
  destruct (falsy_id_request_times_out Scenario.zero_parser [Connects] Sample.zero_request
              Scenario.frame_then_wait eq_refl eq_refl Hl) as (_ & Hwait & Hfire).
  split; [reflexivity|]. split; [apply Hwait; vm_compute; reflexivity|].
  apply Hfire. vm_compute. reflexivity.
Defined.

(** An instance of X4: nothing but time follows the first request. *)
Lemma settled_within_timeout_witness :
  let this0 := run Sample.no_frames [Connects] create in
  let this2 := run Sample.no_frames (ticks 30000) (fst (sendRequest Sample.first_request this0)) in
  outcome this2 0 <> None.
Proof.
  intros this0 this2.
  assert (H1 : answers_settle Sample.no_frames [Connects] create = true) by reflexivity.
  assert (H2 : answers_settle Sample.no_frames (ticks 30000)
                 (fst (sendRequest Sample.first_request this0)) = true)
    by (vm_compute; reflexivity).
  assert (H3 : (30000 <= count_ticks (ticks 30000))%Z) by (vm_compute; discriminate).
  destruct (settled_within_timeout Sample.no_frames [Connects] Sample.first_request
              (ticks 30000) eq_refl H1 H2 H3) as (_ & A & _).
  exact A.
Defined.

(** An instance of X5: cleanup with one request in flight. *)
Lemma cleanup_clears_every_timer_witness :
  let this := run Sample.no_frames Scenario.one_request create in
  List.length (timers (rt this)) = 1 /\
  timers (rt (cleanup this)) = [].
Proof.
  intros this.
  assert (H1 : NoDup (map snd (issued Sample.no_frames Scenario.one_request create))).
  { vm_compute. constructor; [simpl; tauto|constructor]. }
  destruct (cleanup_clears_every_timer Sample.no_frames Scenario.one_request H1)
    as (_ & A & _).
  split; [reflexivity|exact A].
Defined.

End RequestFacts.

(* ------------------------------------------------------------------ *)
(** ** connect() of the streaming-HTTP transport *)

Module HttpConnectFacts.
Import HttpStreamTransport HttpConnect.

Section Runs.
Variable JSON_parse : string -> option JsonValue.

Lemma http_connectCall_handleStreamData chunk this :
  connectCall (handleStreamData JSON_parse chunk this) = connectCall this.
Proof.
  unfold handleStreamData.
  now destruct (Framing.handleStreamData (BaseTransport.handleResponse JSON_parse) chunk
                  (buffer this, base this)).
Qed.

Lemma http_dispatch_settled this e p :
  connectCall this = Some p -> p <> Pending ->
  connectCall (dispatch JSON_parse this e) = Some p.
Proof.
  intros Hc Hp. destruct e; simpl.
  - rewrite Hc. unfold onResponse.
    destruct (negb (statusCode =? 200)%Z); simpl; rewrite Hc; destruct p; simpl; congruence.
  - rewrite Hc. destruct p; simpl; congruence.
  - destruct (responseStream this); [|exact Hc].
    now rewrite http_connectCall_handleStreamData.
  - now destruct (responseStream this).
  - now destruct (responseStream this).
Qed.

Lemma http_run_settled events this p :
  connectCall this = Some p -> p <> Pending ->
  connectCall (run JSON_parse events this) = Some p.
Proof.
  revert this. induction events as [|e events IH]; intros this Hc Hp; [exact Hc|].
  apply IH; [|exact Hp]. now apply http_dispatch_settled.
Qed.

Lemma http_run_expected events this :
  connectCall this = Some Pending ->
  connectCall (run JSON_parse events this) = Some (expected events).
Proof.
  revert this. induction events as [|e events IH]; intros this Hc; [exact Hc|].
  change (run JSON_parse (e :: events) this)
    with (run JSON_parse events (dispatch JSON_parse this e)).
  destruct e; cbn [expected].
  - apply http_run_settled.
    + simpl. rewrite Hc. unfold onResponse.
      destruct (statusCode =? 200)%Z; simpl; now rewrite Hc.
    + destruct (statusCode =? 200)%Z; discriminate.
  - apply http_run_settled; [simpl; now rewrite Hc|discriminate].
  - apply IH. simpl. destruct (responseStream this); [|exact Hc].
    now rewrite http_connectCall_handleStreamData.
  - apply IH. simpl. now destruct (responseStream this).
  - apply IH. simpl. now destruct (responseStream this).
Qed.

Lemma http_connected_handleStreamData chunk this :
  BaseTransport.connected (base (handleStreamData JSON_parse chunk this)) =
  BaseTransport.connected (base this).
Proof.
  unfold handleStreamData.
  destruct (Framing.handleStreamData (BaseTransport.handleResponse JSON_parse) chunk
              (buffer this, base this)) as [b' base'] eqn:E.
  simpl. unfold Framing.handleStreamData in E. injection E as _ <-. cbn [fst snd].
  generalize (base this).
  induction (removelast (Text.split_newline (buffer this ++ chunk))) as [|line lines IH];
    intros b; [reflexivity|].
  simpl. rewrite IH. unfold Framing.process_line.
  destruct (Text.nonempty (Text.trim line)); [|reflexivity].
  apply SseFacts.connected_handleParsed.
Qed.

Lemma http_run_connected events this :
  BaseTransport.connected (base (run JSON_parse events this)) = true ->
  BaseTransport.connected (base this) = true \/ existsb is_ok events = true.
Proof.
  revert this. induction events as [|e events IH]; intros this Hc; [now left|].
  change (run JSON_parse (e :: events) this)
    with (run JSON_parse events (dispatch JSON_parse this e)) in Hc.
  destruct (IH _ Hc) as [H|H]; [|right; simpl; rewrite H; apply orb_true_r].
  destruct e; simpl in *.
  - destruct (connectCall this); [|now left]. unfold onResponse in H.
    destruct (statusCode =? 200)%Z; simpl in *; [now right|now left].
  - now left.
  - destruct (responseStream this); [|now left].
    rewrite http_connected_handleStreamData in H. now left.
  - destruct (responseStream this); [discriminate|now left].
  - destruct (responseStream this); [discriminate|now left].
Qed.

(** X6. connect() of the streaming-HTTP transport, called on a transport
    that is not connected: the first response, or the first error of the
    request, settles the promise and nothing after it changes it; status 200
    fulfils it, any other status rejects it with 'Failed to connect:
    <status>', an error of the request rejects it with that error.  A
    response with another status leaves the transport as it was but for the
    promise, and the transport is connected afterwards only if a response
    with status 200 came. *)
Theorem http_connect_settles (this : t) (events : list Event) :
  BaseTransport.connected (base this) = false ->
  let started := connect (Ok tt) this in
  let final := run JSON_parse events started in
  connectCall started = Some Pending /\
  connectCall final = Some (expected events) /\
  (BaseTransport.connected (base final) = true -> existsb is_ok events = true) /\
  (forall that statusCode,
      statusCode <> 200%Z ->
      dispatch JSON_parse that (Response statusCode) =
      with_connectCall (settle_connect (RejectedWith (HttpConnectFailed statusCode))
                          (connectCall that)) that) /\
  (forall that,
      connectCall that <> None ->
      BaseTransport.connected (base (dispatch JSON_parse that (Response 200))) = true /\
      responseStream (dispatch JSON_parse that (Response 200)) = true).
Proof.
  intros Hc started final.
  assert (Hs : connectCall started = Some Pending).
  { unfold started, connect. now rewrite Hc. }
  split; [exact Hs|]. split; [now apply http_run_expected|]. split; [|split].
  - intros Hf. destruct (http_run_connected events started Hf) as [H|H]; [|exact H].
    unfold started, connect in H. rewrite Hc in H. simpl in H. congruence.
  - intros that statusCode Hne. simpl. apply Z.eqb_neq in Hne.
    destruct (connectCall that) eqn:E.
    + unfold onResponse. rewrite Hne, E. reflexivity.
    + destruct that. simpl in *. now subst.
  - intros that Hsome. simpl. destruct (connectCall that); [|congruence]. now split.
Qed.

End Runs.

(** An instance of X6: the server answers 200. *)
Lemma http_connect_settles_witness :
  let final := run Sample.no_frames [Response 200] (connect (Ok tt) Sample.http_transport) in
  connectCall final = Some Fulfilled /\
  BaseTransport.connected (base final) = true.
Proof.
  intros final.
  destruct (http_connect_settles Sample.no_frames Sample.http_transport [Response 200] eq_refl)
    as (_ & A & _).
  split; [exact A|reflexivity].
Defined.

End HttpConnectFacts.

(* ------------------------------------------------------------------ *)
(** ** connect() of the process-pipe transport *)

Module StdioConnectFacts.
Import StdioTransport StdioConnect.

Section Runs.
Variable JSON_parse : string -> option JsonValue.

Lemma stdio_handleStreamData_fields chunk this :
  connectCall (handleStreamData JSON_parse chunk this) = connectCall this /\
  process (handleStreamData JSON_parse chunk this) = process this /\
  BaseTransport.connected (base (handleStreamData JSON_parse chunk this)) =
  BaseTransport.connected (base this).
Proof.
  unfold handleStreamData.
  destruct (Framing.handleStreamData (BaseTransport.handleResponse JSON_parse) chunk
              (buffer this, base this)) as [b' base'] eqn:E.
  simpl. split; [reflexivity|]. split; [reflexivity|].
  unfold Framing.handleStreamData in E. injection E as _ <-. cbn [fst snd].
  generalize (base this).
  induction (removelast (Text.split_newline (buffer this ++ chunk))) as [|line lines IH];
    intros b; [reflexivity|].
  simpl. rewrite IH. unfold Framing.process_line.
  destruct (Text.nonempty (Text.trim line)); [|reflexivity].
  apply SseFacts.connected_handleParsed.
Qed.

Lemma stdio_dispatch_process this e : process (dispatch JSON_parse this e) = process this.
Proof.
  unfold dispatch. destruct (connectCall this); [|reflexivity].
  destruct e; simpl; try reflexivity.
  - unfold onProcessError. now destruct (negb (BaseTransport.connected (base this))).
  - unfold onStartTimer.
    destruct (process this) as [q|] eqn:E; [destruct (negb (killed q))|]; simpl; congruence.
Qed.

Lemma stdio_run_process events this : process (run JSON_parse events this) = process this.
Proof.
  revert this. induction events as [|e events IH]; intros this; [reflexivity|].
  change (run JSON_parse (e :: events) this)
    with (run JSON_parse events (dispatch JSON_parse this e)).
  now rewrite IH, stdio_dispatch_process.
Qed.

Lemma stdio_dispatch_settled this e p :
  connectCall this = Some p -> p <> Pending ->
  connectCall (dispatch JSON_parse this e) = Some p.
Proof.
  intros Hc Hp. unfold dispatch. rewrite Hc. destruct e; simpl; auto.
  - unfold onProcessError. destruct (negb (BaseTransport.connected (base this))); simpl; auto.
    rewrite Hc. destruct p; simpl; congruence.
  - unfold onStartTimer. destruct (process this) as [q|]; [destruct (negb (killed q))|];
      simpl; rewrite Hc; destruct p; simpl; congruence.
Qed.

Lemma stdio_run_settled events this p :
  connectCall this = Some p -> p <> Pending ->
  connectCall (run JSON_parse events this) = Some p.
Proof.
  revert this. induction events as [|e events IH]; intros this Hc Hp; [exact Hc|].
  apply IH; [|exact Hp]. now apply stdio_dispatch_settled.
Qed.

Lemma stdio_run_expected events this :
  connectCall this = Some Pending ->
  BaseTransport.connected (base this) = false ->
  process this = Some {| killed := false |} ->
  connectCall (run JSON_parse events this) = Some (expected events).
Proof.
  revert this. induction events as [|e events IH]; intros this Hc Hd Hp; [exact Hc|].
  change (run JSON_parse (e :: events) this)
    with (run JSON_parse events (dispatch JSON_parse this e)).
  destruct e; cbn [expected].
  - destruct (stdio_handleStreamData_fields data this) as (A & B & C).
    apply IH; unfold dispatch; rewrite Hc; cbv beta iota; congruence.
  - apply IH; unfold dispatch; rewrite Hc; simpl; congruence.
  - apply stdio_run_settled; [|discriminate].
    unfold dispatch. rewrite Hc. simpl. unfold onProcessError. rewrite Hd. simpl.
    now rewrite Hc.
  - apply IH; unfold dispatch; rewrite Hc; simpl; auto.
  - apply stdio_run_settled; [|discriminate].
    unfold dispatch. rewrite Hc. simpl. unfold onStartTimer. rewrite Hp. simpl.
    now rewrite Hc.
Qed.

Lemma stdio_run_connected events this :
  BaseTransport.connected (base (run JSON_parse events this)) = true ->
  BaseTransport.connected (base this) = true \/ In StartTimer events.
Proof.
  revert this. induction events as [|e events IH]; intros this Hc; [now left|].
  change (run JSON_parse (e :: events) this)
    with (run JSON_parse events (dispatch JSON_parse this e)) in Hc.
  destruct (IH _ Hc) as [H|H]; [|right; now right].
  unfold dispatch in H. destruct (connectCall this); [|now left].
  destruct e; cbv beta iota in H.
  - cbv beta iota in H.
    rewrite (proj2 (proj2 (stdio_handleStreamData_fields data this))) in H. now left.
  - now left.
  - unfold onProcessError in H.
    destruct (BaseTransport.connected (base this)) eqn:E; [now left|].
    simpl in H. congruence.
  - discriminate.
  - right. now left.
Qed.

(** X7. connect() of the process-pipe transport, called on a transport that
    is not connected, once spawn has returned: the first of an error of the
    process and the 100 ms timer settles the promise, the error by rejecting
    it, the timer by fulfilling it, and nothing after it changes it.  The
    timer marks the transport connected whatever came before it, an exit or
    an error of the process included; the transport is connected only after
    the timer, and sendMessage then has a process to write to, the message
    followed by one newline.  When disconnect() runs while the promise is
    pending, the timer rejects it with 'Process failed to start' and the
    transport stays disconnected. *)
Theorem stdio_connect_settles (this : t) (events : list Event) (message : string) :
  BaseTransport.connected (base this) = false ->
  let started := connect (Ok tt) this in
  let final := run JSON_parse events started in
  connectCall started = Some Pending /\
  connectCall final = Some (expected events) /\
  BaseTransport.connected (base (dispatch JSON_parse final StartTimer)) = true /\
  (BaseTransport.connected (base final) = true ->
   In StartTimer events /\
   StdioSendMessage.sendMessage message final =
     Ok (message ++ String Text.newline EmptyString)%string) /\
  (expected events = Pending ->
   let gone := dispatch JSON_parse (disconnect final) StartTimer in
   connectCall gone = Some (RejectedWith ProcessFailedToStart) /\
   BaseTransport.connected (base gone) = false /\
   StdioSendMessage.sendMessage message gone = Throw ProcessNotAvailable).
Proof.
  intros Hc started final.
  assert (Hs : connectCall started = Some Pending).
  { unfold started, connect. now rewrite Hc. }
  assert (Hp : process started = Some {| killed := false |}).
  { unfold started, connect. now rewrite Hc. }
  assert (Hd : BaseTransport.connected (base started) = false).
  { unfold started, connect. now rewrite Hc. }
  assert (Hpf : process final = Some {| killed := false |}).
  { unfold final. now rewrite stdio_run_process. }
  assert (He : connectCall final = Some (expected events)).
  { now apply stdio_run_expected. }
  split; [exact Hs|]. split; [exact He|]. split; [|split].
  - unfold dispatch. rewrite He. simpl. unfold onStartTimer. now rewrite Hpf.
  - intros Hf. split.
    + destruct (stdio_run_connected events started Hf) as [H|H]; [congruence|exact H].
    + unfold StdioSendMessage.sendMessage. now rewrite Hpf.
  - intros Hpend gone. unfold gone, dispatch, disconnect. simpl. rewrite He.
    unfold onStartTimer, StdioSendMessage.sendMessage. simpl. rewrite He, Hpend. now split.
Qed.

End Runs.

(** An instance of X7: the process exits before the timer fires. *)
Lemma stdio_connect_settles_witness :
  let final := run Sample.no_frames Scenario.exit_then_timer
                 (connect (Ok tt) Sample.stdio_transport) in
  connectCall final = Some Fulfilled /\
  BaseTransport.connected (base final) = true /\
  StdioSendMessage.sendMessage "{}" final = Ok ("{}" ++ Sample.line_feed)%string.
Proof.
  intros final.
  destruct (stdio_connect_settles Sample.no_frames Sample.stdio_transport
              Scenario.exit_then_timer "{}" eq_refl) as (_ & A & _ & B & _).
  split; [exact A|]. split; [reflexivity|]. apply (B eq_refl).
Defined.

End StdioConnectFacts.

(* ------------------------------------------------------------------ *)
(** ** The message endpoint of the event-stream transport *)

Module SseEndpointFacts.
Import SseTransport.

Section Runs.
Variable JSON_parse : string -> option JsonValue.

Lemma endpoint_known_run events this seen :
  (BaseTransport.connected (base this) = true ->
   eventSource this = true /\
   exists data, messageEndpoint this = Some data /\ In (EndpointEvent data) seen) ->
  BaseTransport.connected (base (run JSON_parse events this)) = true ->
  eventSource (run JSON_parse events this) = true /\
  exists data,
    messageEndpoint (run JSON_parse events this) = Some data /\
    In (EndpointEvent data) (seen ++ events).
Proof.
  revert this seen. induction events as [|e events IH]; intros this seen Hinv Hc.
  - rewrite app_nil_r. now apply Hinv.
  - change (run JSON_parse (e :: events) this)
      with (run JSON_parse events (dispatch JSON_parse this e)) in *.
    replace (seen ++ e :: events) with ((seen ++ [e]) ++ events)
      by now rewrite <- app_assoc.
    apply IH; [|exact Hc]. clear IH Hc. intros Hc.
    unfold dispatch in *. destruct (eventSource this) eqn:Hes; simpl in *.
    + destruct e; simpl in *.
      * split; [exact Hes|]. exists data. split; [reflexivity|].
        apply in_or_app. right. now left.
      * destruct (Hinv Hc) as (_ & data & Hm & Hin).
        split; [exact Hes|]. exists data. split; [exact Hm|]. apply in_or_app. now left.
      * unfold BaseTransport.handleResponse in Hc.
        rewrite SseFacts.connected_handleParsed in Hc.
        destruct (Hinv Hc) as (_ & data' & Hm & Hin).
        split; [exact Hes|]. exists data'. split; [exact Hm|]. apply in_or_app. now left.
      * unfold onError in *.
        destruct (negb (BaseTransport.connected (base this)) && negb (receivedEvent this))
          eqn:Hg; simpl in *.
        -- apply andb_true_iff in Hg. destruct Hg as [Hg _].
           apply negb_true_iff in Hg. congruence.
        -- discriminate.
    + destruct (Hinv Hc) as (Hes' & _). congruence.
Qed.

(** X8. The event-stream transport is connected only with a message endpoint
    on record: after connect() on a transport that is not connected and
    whatever the EventSource dispatches, a connected transport has its
    EventSource open and holds the data of an endpoint event it received,
    and sendMessage then throws 'Message endpoint not available' exactly
    when that data was the empty string; otherwise it POSTs to the origin of
    the configured URL followed by the endpoint. *)
Theorem sse_connected_has_endpoint (URL_origin : string -> Exc JsError string) (this : t)
    (events : list Event) :
  BaseTransport.connected (base this) = false ->
  let final := run JSON_parse events (connect (Ok tt) this) in
  BaseTransport.connected (base final) = true ->
  eventSource final = true /\
  exists data,
    messageEndpoint final = Some data /\ In (EndpointEvent data) events /\
    (SseSendMessage.sendMessage URL_origin final = Throw MessageEndpointNotAvailable <->
     data = EmptyString) /\
    (forall origin,
        data <> EmptyString -> URL_origin (url this) = Ok origin ->
        SseSendMessage.sendMessage URL_origin final = Ok (origin ++ data)%string).
Proof.
  intros Hc final Hf.
  assert (Hurl : forall evs s, url (run JSON_parse evs s) = url s).
  { induction evs as [|e evs IH]; intros s; [reflexivity|].
    change (run JSON_parse (e :: evs) s) with (run JSON_parse evs (dispatch JSON_parse s e)).
    rewrite IH. unfold dispatch. destruct (eventSource s); [|reflexivity].
    destruct e; simpl; auto. unfold onError.
    now destruct (negb (BaseTransport.connected (base s)) && negb (receivedEvent s)). }
  destruct (endpoint_known_run events (connect (Ok tt) this) []) as (Hes & data & Hm & Hin).
  - unfold connect. rewrite Hc. simpl. congruence.
  - exact Hf.
  - split; [exact Hes|]. exists data. split; [exact Hm|]. split; [exact Hin|].
    fold final in Hm. unfold SseSendMessage.sendMessage. rewrite Hm.
    assert (Hu : url final = url this).
    { unfold final. rewrite Hurl. unfold connect. now rewrite Hc. }
    rewrite Hu. split.
    + destruct data as [|c data]; simpl.
      * tauto.
      * split; [|discriminate]. destruct (URL_origin (url this)); discriminate.
    + intros origin Hne Ho. destruct data as [|c data]; [congruence|]. simpl. now rewrite Ho.
Qed.

End Runs.

(** An instance of X8: the endpoint event arrives. *)
Lemma sse_connected_has_endpoint_witness :
  let final := run Sample.no_frames [EndpointEvent "/messages?sessionId=1"]
                 (connect (Ok tt) Sample.sse_transport) in
  BaseTransport.connected (base final) = true /\
  eventSource final = true /\
  SseSendMessage.sendMessage Scenario.origin_of final =
    Ok "http://localhost:3000/messages?sessionId=1".
Proof.
  intros final.
  destruct (sse_connected_has_endpoint Sample.no_frames Scenario.origin_of Sample.sse_transport
              [EndpointEvent "/messages?sessionId=1"] eq_refl eq_refl) as (A & _).
  split; [reflexivity|]. split; [exact A|reflexivity].
Defined.

End SseEndpointFacts.

(* ------------------------------------------------------------------ *)
(** ** The client *)

Module ClientFacts.

Local Abbreviation transport_connect := connect.
Local Abbreviation transport_disconnect := disconnect.
Import JsMap JsMapFacts McpClient Aggregation Session McpClientFacts.

(** X9. createTransport: a configuration without a url and without a
    command never yields a transport, whatever its type says; without a
    type, a command makes a process-pipe transport even when a url is given
    too, and a url alone makes an event-stream transport, never a
    streaming-HTTP one; a transport that is returned is of the kind the type
    names when there is one, carries the url or the command of the
    configuration, is not connected, has an empty table and no connect() in
    progress. *)
Theorem createTransport_by_kind (config : IMcpServerConfig) :
  (present (cfg_url config) = false -> present (cfg_command config) = false ->
   exists e, createTransport config = Throw e) /\
  (present (cfg_type config) = false -> present (cfg_command config) = true ->
   exists p, createTransport config = Ok (Stdio p)) /\
  (present (cfg_type config) = false -> present (cfg_command config) = false ->
   present (cfg_url config) = true ->
   exists s, createTransport config = Ok (Sse s)) /\
  (forall tr,
      createTransport config = Ok tr ->
      base tr = BaseTransport.create /\ isConnected tr = false /\ connectCall tr = None /\
      match tr with
      | Sse s =>
          cfg_url config = Some (SseTransport.url s) /\
          SseTransport.headers s = cfg_headers config /\
          (present (cfg_type config) = true -> cfg_type config = Some "sse")
      | HttpStream h =>
          cfg_url config = Some (HttpStreamTransport.url h) /\
          HttpStreamTransport.headers h = cfg_headers config /\
          cfg_type config = Some "httpStream"
      | Stdio p =>
          cfg_command config = Some (StdioTransport.command p) /\
          StdioTransport.args p = cfg_args config /\
          StdioTransport.env p = cfg_env config /\
          (present (cfg_type config) = true -> cfg_type config = Some "stdio")
      end).
Proof.
  unfold createTransport, SseTransport.create, HttpStreamTransport.create,
    StdioTransport.create, bind.
  destruct config as [ty u cmd a h e]. cbn [cfg_type cfg_url cfg_command cfg_args cfg_headers cfg_env].
  split; [|split; [|split]].
  - intros Hu Hc. rewrite Hu, Hc. simpl.
    destruct (present ty); [destruct ty as [ty|]|]; eauto.
    destruct (ty =? "sse")%string; eauto.
    destruct (ty =? "httpStream")%string; eauto.
    destruct (ty =? "stdio")%string; eauto.
  - intros Ht Hc. rewrite Ht, Hc. simpl. eauto.
  - intros Ht Hc Hu. rewrite Ht, Hc, Hu. simpl. eauto.
  - intros tr.
    destruct (present ty) eqn:Ht.
    + destruct ty as [ty|]; [|discriminate].
      destruct (ty =? "sse")%string eqn:E1.
      * apply String.eqb_eq in E1. subst ty.
        destruct (present u) eqn:Hu; simpl; [|discriminate].
        intros [= <-]. destruct u as [u|]; [|discriminate]. simpl. auto 10.
      * destruct (ty =? "httpStream")%string eqn:E2.
        -- apply String.eqb_eq in E2. subst ty.
           destruct (present u) eqn:Hu; simpl; [|discriminate].
           intros [= <-]. destruct u as [u|]; [|discriminate]. simpl. auto 10.
        -- destruct (ty =? "stdio")%string eqn:E3; [|discriminate].
           apply String.eqb_eq in E3. subst ty.
           destruct (present cmd) eqn:Hc; simpl; [|discriminate].
           intros [= <-]. destruct cmd as [cmd|]; [|discriminate]. simpl. auto 10.
    + destruct (present cmd) eqn:Hc.
      * simpl. intros [= <-]. destruct cmd as [cmd|]; [|discriminate]. simpl.
        repeat split; auto; discriminate.
      * destruct (present u) eqn:Hu; [|discriminate].
        simpl. intros [= <-]. destruct u as [u|]; [|discriminate]. simpl.
        repeat split; auto; discriminate.
Qed.

(** *** disconnect *)

Lemma fold_disconnect (refs : list nat) (c : t) :
  let c' := fold_left (fun acc ref => on_transport ref transport_disconnect acc) refs c in
  servers c' = servers c /\ connectJobs c' = connectJobs c /\
  connectResult c' = connectResult c /\ requestIdCounter c' = requestIdCounter c /\
  earlierCalls c' = earlierCalls c /\
  List.length (heap c') = List.length (heap c) /\
  forall ref tr,
    nth_error (heap c) ref = Some tr ->
    nth_error (heap c') ref =
    Some (if existsb (Nat.eqb ref) refs then transport_disconnect tr else tr).
Proof.
  revert c. induction refs as [|r refs IH]; intros c; cbn [fold_left].
  - repeat split; auto.
  - destruct (IH (on_transport r transport_disconnect c)) as (A & B & C & D & G & E & F).
    cbn zeta. rewrite A, B, C, D, G, E. unfold on_transport at 1 2 3 4 5 6.
    destruct (nth_error (heap c) r) as [tr0|] eqn:Hr; cbn [servers connectJobs connectResult
      requestIdCounter earlierCalls heap with_heap]; rewrite ?length_update;
      (do 6 (split; [reflexivity|])); intros ref tr Hn; cbn [existsb].
    + destruct (Nat.eqb_spec ref r) as [->|Hne].
      * assert (tr0 = tr) by congruence. subst tr0. cbn [orb].
        rewrite (F r (transport_disconnect tr)).
        -- destruct (existsb (Nat.eqb r) refs); [now rewrite DisconnectFacts.disconnect_twice|reflexivity].
        -- unfold on_transport. rewrite Hr. cbn [heap with_heap].
           apply (nth_error_update_same _ _ _ _ Hr).
      * cbn [orb]. apply F. unfold on_transport. rewrite Hr. cbn [heap with_heap].
        rewrite nth_error_update_other; auto.
    + destruct (Nat.eqb_spec ref r) as [->|Hne]; [congruence|].
      cbn [orb]. apply F. unfold on_transport. now rewrite Hr.
Qed.

Lemma disconnect_refs (c : t) :
  fold_left (fun acc entry => on_transport (snd entry) transport_disconnect acc) (JsMap.entries (servers c)) c =
  fold_left (fun acc ref => on_transport ref transport_disconnect acc) (JsMap.values (servers c)) c.
Proof.
  unfold JsMap.entries, JsMap.values. generalize (servers c) as m. intros m. revert c.
  induction m as [|[name ref] m IH]; intros c; [reflexivity|]. simpl. apply IH.
Qed.

(** X10. disconnect() of the client: it disconnects every transport of the
    registry (which rejects the requests it has in flight), empties the
    registry, and leaves every other transport the client has made, the ones
    whose connect() is still in progress, and the closures of every call of
    connect() as they were; afterwards no server is connected, every call by
    name fails with 'Server not found', the list calls make no request, and
    a second disconnect() changes nothing. *)
Theorem client_disconnect (c : t) :
  let c' := McpClient.disconnect c in
  getConnectedServers c' = [] /\
  (forall ref tr,
      nth_error (heap c) ref = Some tr ->
      nth_error (heap c') ref = Some (if registered c ref then transport_disconnect tr else tr)) /\
  List.length (heap c') = List.length (heap c) /\
  connectJobs c' = connectJobs c /\ connectResult c' = connectResult c /\
  earlierCalls c' = earlierCalls c /\
  (forall serverName, isServerConnected serverName c' = false) /\
  (forall serverName toolName params uri promptName args,
      callTool serverName toolName params c' = (c', Threw (ServerNotFound serverName)) /\
      readResource serverName uri c' = (c', Threw (ServerNotFound serverName)) /\
      getPrompt serverName promptName args c' = (c', Threw (ServerNotFound serverName))) /\
  (forall method, list_start method c' = (c', [])) /\
  McpClient.disconnect c' = c'.
Proof.
  intros c'. unfold c', McpClient.disconnect. rewrite disconnect_refs.
  destruct (fold_disconnect (JsMap.values (servers c)) c) as (A & B & C & D & G & E & F).
  cbn zeta in *.
  set (c1 := fold_left (fun acc ref => on_transport ref transport_disconnect acc)
               (JsMap.values (servers c)) c) in *.
  split; [reflexivity|]. split; [exact F|]. split; [exact E|].
  split; [exact B|]. split; [exact C|]. split; [exact G|]. split; [reflexivity|].
  split; [intros; repeat split|]. split; [reflexivity|reflexivity].
Qed.

(** *** connect() fulfilled *)

Lemma NoDup_keys_run JSON_parse events c :
  NoDup (keys (servers c)) -> NoDup (keys (servers (run JSON_parse events c))).
Proof.
  revert c. induction events as [|e events IH]; intros c Hnd; [exact Hnd|].
  change (run JSON_parse (e :: events) c) with (run JSON_parse events (deliver JSON_parse c e)).
  apply IH. unfold deliver. apply NoDup_keys_resume.
  now rewrite servers_on_transport.
Qed.

Lemma names_run JSON_parse events c :
  map job_name (connectJobs (run JSON_parse events c)) = map job_name (connectJobs c).
Proof. now rewrite !names_of_keys, keys_run_kept. Qed.

(** X11. connect() of a new client with a configuration that names at least
    one server: when its promise is fulfilled, whatever happened on the
    transports in the meantime, the registry holds exactly the servers of
    the configuration, each once, each with a transport whose connect() was
    fulfilled, so the count connect() logs is the number of configured
    servers. *)
Theorem connect_fulfilled_registers_all (JSON_parse : string -> option JsonValue)
    (entries : list (string * IMcpServerConfig)) (opened : string -> Exc JsError unit)
    (events : list (nat * TransportEvent)) :
  entries <> [] ->
  NoDup (map fst entries) ->
  let c := run JSON_parse events
             (McpClient.connect (Ok {| mcpServers := Some entries |}) opened create) in
  connectResult c = Some Fulfilled ->
  (forall name, In name (getConnectedServers c) <-> In name (map fst entries)) /\
  NoDup (getConnectedServers c) /\
  JsMap.size (servers c) = List.length entries /\
  (forall name,
      In name (map fst entries) ->
      exists ref tr,
        JsMap.get name (servers c) = Some ref /\ nth_error (heap c) ref = Some tr /\
        connectCall tr = Some Fulfilled).
Proof.
  intros Hne Hnd c Hful.
  set (started := McpClient.connect (Ok {| mcpServers := Some entries |}) opened create) in *.
  destruct (Connecting_connect opened entries create Hne Hnd) as (Hstarted & HC0 & Hnames0 & _).
  fold started in Hstarted, HC0, Hnames0.
  pose proof (Connecting_run JSON_parse create events started HC0) as HC. fold c in HC.
  destruct HC as [[Hndj Hreg Honly (p & Hr & _ & Hall)] Hfol _ _].
  assert (Hp : p = Fulfilled) by congruence.
  specialize (Hall Hp). rewrite forallb_forall in Hall.
  assert (Hnames : map job_name (connectJobs c) = map fst entries).
  { unfold c. now rewrite names_run. }
  assert (Hjob : forall name, In name (map fst entries) ->
                 exists job, In job (connectJobs c) /\ job_name job = name /\
                             job_state job = Fulfilled).
  { intros name Hin. rewrite <- Hnames in Hin. apply in_map_iff in Hin.
    destruct Hin as (job & Hn & Hin). exists job. split; [exact Hin|]. split; [exact Hn|].
    specialize (Hall job Hin). unfold is_fulfilled in Hall.
    now destruct (job_state job). }
  assert (Hkeys : NoDup (getConnectedServers c)).
  { unfold getConnectedServers, c. apply NoDup_keys_run. rewrite Hstarted.
    apply NoDup_keys_resume.
    destruct (start_jobs_fold opened entries (begin_connect create)) as (A & _).
    cbn zeta in A. rewrite A. constructor. }
  assert (Hiff : forall name, In name (getConnectedServers c) <-> In name (map fst entries)).
  { intros name. split.
    - intros Hin. destruct (JsMap.get name (servers c)) as [ref|] eqn:Hg.
      + destruct (Honly _ _ (taken_create name) Hg) as (job & Hj & Hn & _).
        rewrite <- Hnames, <- Hn. now apply in_map.
      + apply get_None_key in Hg. contradiction.
    - intros Hin. destruct (Hjob name Hin) as (job & Hj & Hn & Hs).
      destruct (Hreg job Hj Hs (taken_create _)) as (ref & _ & Hg). rewrite Hn in Hg.
      apply (get_Some_key _ _ _ Hg). }
  split; [exact Hiff|]. split; [exact Hkeys|]. split.
  - unfold JsMap.size. change (List.length (servers c)) with (List.length (servers c)).
    rewrite <- (length_map fst (servers c)), <- (length_map fst entries).
    apply Nat.le_antisymm; apply NoDup_incl_length; auto; intros name Hin; now apply Hiff.
  - intros name Hin. destruct (Hjob name Hin) as (job & Hj & Hn & Hs).
    destruct (Hreg job Hj Hs (taken_create _)) as (ref & Ht & Hg).
    pose proof (Hfol job Hj) as Hf. unfold follows in Hf. rewrite Ht in Hf.
    destruct Hf as (tr & Hnth & Hv).
    exists ref, tr. rewrite Hn in Hg. split; [exact Hg|]. split; [exact Hnth|].
    apply verdict_settled; [congruence|discriminate].
Qed.

(** *** What the calls return *)

Section Sessions.
Variable JSON_parse : string -> option JsonValue.

Lemma reachable_create : reachable JSON_parse BaseTransport.create.
Proof. now exists []. Qed.

Lemma reachable_step b e :
  reachable JSON_parse b -> reachable JSON_parse (BaseTransport.step JSON_parse b e).
Proof.
  intros [events ->]. exists (events ++ [e]). unfold BaseTransport.run.
  now rewrite fold_left_app.
Qed.

Lemma reachable_lines lines b :
  reachable JSON_parse b ->
  reachable JSON_parse
    (fold_left (Framing.process_line (BaseTransport.handleResponse JSON_parse)) lines b).
Proof.
  revert b. induction lines as [|line lines IH]; intros b Hb; [exact Hb|].
  cbn [fold_left]. apply IH. unfold Framing.process_line.
  destruct (Text.nonempty (Text.trim line)); [|exact Hb].
  apply (reachable_step b (BaseTransport.Receives (Text.trim line)) Hb).
Qed.

Lemma reachable_dispatch (tr : Transport) e :
  reachable JSON_parse (base tr) -> reachable JSON_parse (base (dispatch JSON_parse tr e)).
Proof.
  intros Hb.
  pose proof (reachable_step _ BaseTransport.Connects Hb) as Hconnects.
  pose proof (reachable_step _ BaseTransport.CleansUp Hb) as Hcleans.
  destruct e as [|call failure|e|e|e].
  - unfold dispatch. rewrite base_with_base.
    apply (reachable_step _ BaseTransport.Ticks Hb).
  - unfold dispatch. rewrite base_with_base.
    apply (reachable_step _ (BaseTransport.SendSettles call failure) Hb).
  - destruct tr as [s|h|p]; try exact Hb. cbn [dispatch base Transport_ITransport] in *.
    unfold SseTransport.dispatch. destruct (SseTransport.eventSource s); [|exact Hb].
    destruct e as [data| |data|error]; cbn [negb].
    + exact Hconnects.
    + exact Hb.
    + apply (reachable_step _ (BaseTransport.Receives data) Hb).
    + unfold SseTransport.onError.
      destruct (negb (BaseTransport.connected (SseTransport.base s)) &&
                negb (SseTransport.receivedEvent s)); [exact Hb|exact Hcleans].
  - destruct tr as [s|h|p]; try exact Hb. cbn [dispatch base Transport_ITransport] in *.
    destruct e as [statusCode|error|chunk| |error]; cbn [HttpStreamTransport.dispatch].
    + destruct (HttpStreamTransport.connectCall h); [|exact Hb].
      unfold HttpStreamTransport.onResponse.
      destruct (negb (statusCode =? 200)%Z); [exact Hb|exact Hconnects].
    + exact Hb.
    + destruct (HttpStreamTransport.responseStream h); [|exact Hb].
      unfold HttpStreamTransport.handleStreamData, Framing.handleStreamData.
      cbn [fst snd HttpStreamTransport.base]. now apply reachable_lines.
    + destruct (HttpStreamTransport.responseStream h); [exact Hcleans|exact Hb].
    + destruct (HttpStreamTransport.responseStream h); [exact Hcleans|exact Hb].
  - destruct tr as [s|h|p]; try exact Hb. cbn [dispatch base Transport_ITransport] in *.
    unfold StdioTransport.dispatch. destruct (StdioTransport.connectCall p); [|exact Hb].
    destruct e as [data|data|error|code signal|].
    + unfold StdioTransport.handleStreamData, Framing.handleStreamData.
      cbn [fst snd StdioTransport.base]. now apply reachable_lines.
    + exact Hb.
    + unfold StdioTransport.onProcessError.
      destruct (negb (BaseTransport.connected (StdioTransport.base p)));
        [exact Hb|exact Hcleans].
    + exact Hcleans.
    + unfold StdioTransport.onStartTimer.
      destruct (StdioTransport.process p) as [q|]; [|exact Hb].
      destruct (negb (StdioTransport.killed q)); [exact Hconnects|exact Hb].
Qed.

Lemma reachable_sendRequest request (tr : Transport) :
  reachable JSON_parse (base tr) ->
  reachable JSON_parse (base (fst (sendRequest request tr))).
Proof.
  intros Hb. unfold sendRequest. cbn [fst]. rewrite base_with_base.
  apply (reachable_step _ (BaseTransport.Sends request) Hb).
Qed.

Lemma base_connect opened (tr : Transport) : base (transport_connect opened tr) = base tr.
Proof.
  destruct tr as [s|h|p]; cbn.
  - unfold SseTransport.connect.
    destruct (BaseTransport.connected (SseTransport.base s)); [reflexivity|].
    now destruct opened.
  - unfold HttpStreamTransport.connect.
    destruct (BaseTransport.connected (HttpStreamTransport.base h)); [reflexivity|].
    now destruct opened.
  - unfold StdioTransport.connect.
    destruct (BaseTransport.connected (StdioTransport.base p)); [reflexivity|].
    now destruct opened.
Qed.

Lemma createTransport_base config tr :
  createTransport config = Ok tr -> base tr = BaseTransport.create.
Proof.
  unfold createTransport, SseTransport.create, HttpStreamTransport.create,
    StdioTransport.create, bind.
  destruct (if present (cfg_type config) then _ else _) as [ty|]; [|discriminate].
  destruct (ty =? "sse")%string.
  { destruct (negb (present (cfg_url config))); [discriminate|]. now intros [= <-]. }
  destruct (ty =? "httpStream")%string.
  { destruct (negb (present (cfg_url config))); [discriminate|]. now intros [= <-]. }
  destruct (ty =? "stdio")%string; [|discriminate].
  destruct (negb (present (cfg_command config))); [discriminate|]. now intros [= <-].
Qed.

Lemma sound_on_transport ref f c :
  (forall tr, reachable JSON_parse (base tr) -> reachable JSON_parse (base (f tr))) ->
  sound JSON_parse c -> sound JSON_parse (on_transport ref f c).
Proof.
  intros Hf Hs. unfold on_transport. destruct (nth_error (heap c) ref) as [tr0|] eqn:Hn;
    [|exact Hs].
  intros tr Hin. cbn [heap with_heap] in Hin. apply In_update in Hin.
  destruct Hin as [->|Hin]; [|now apply Hs].
  apply Hf, Hs. apply (nth_error_In _ _ Hn).
Qed.

Lemma sound_same_heap c c' : heap c' = heap c -> sound JSON_parse c -> sound JSON_parse c'.
Proof. intros E Hs tr Hin. apply Hs. now rewrite <- E. Qed.

Lemma sound_start_jobs opened entries c :
  sound JSON_parse c -> sound JSON_parse (fold_left (start_job opened) entries c).
Proof.
  revert c. induction entries as [|[name config] entries IH]; intros c Hs; [exact Hs|].
  cbn [fold_left]. apply IH. unfold start_job.
  destruct (createTransport config) as [tr0|e] eqn:Hc.
  - intros tr Hin. cbn [heap with_jobs with_heap] in Hin. apply in_app_or in Hin.
    destruct Hin as [Hin|[<-|[]]]; [now apply Hs|].
    rewrite base_connect, (createTransport_base _ _ Hc). apply reachable_create.
  - exact Hs.
Qed.

Lemma sound_connect loaded opened c :
  sound JSON_parse c -> sound JSON_parse (McpClient.connect loaded opened c).
Proof.
  intros Hs. assert (Hb : sound JSON_parse (begin_connect c)) by exact Hs.
  unfold McpClient.connect.
  destruct loaded as [config|e]; [|exact Hb].
  destruct (mcpServers config) as [[|entry entries]|]; try exact Hb.
  apply (sound_same_heap _ _ (heap_resume _)). now apply sound_start_jobs.
Qed.

Lemma sound_deliver c event :
  sound JSON_parse c -> sound JSON_parse (deliver JSON_parse c event).
Proof.
  intros Hs. unfold deliver. apply (sound_same_heap _ _ (heap_resume _)).
  apply sound_on_transport; [|exact Hs]. intros tr. apply reachable_dispatch.
Qed.

Lemma sound_disconnect c : sound JSON_parse c -> sound JSON_parse (McpClient.disconnect c).
Proof.
  intros Hs. unfold McpClient.disconnect.
  apply (sound_same_heap
           (fold_left (fun acc entry => on_transport (snd entry) transport_disconnect acc)
              (JsMap.entries (servers c)) c)); [reflexivity|].
  generalize (JsMap.entries (servers c)) as l. intros l. revert c Hs.
  induction l as [|entry l IH]; intros c Hs; [exact Hs|].
  cbn [fold_left]. apply IH. apply sound_on_transport; [|exact Hs].
  intros tr Hb. rewrite DisconnectFacts.base_disconnect.
  apply (reachable_step _ BaseTransport.CleansUp Hb).
Qed.

Lemma sound_call_start serverName method params c :
  sound JSON_parse c -> sound JSON_parse (fst (call_start serverName method params c)).
Proof.
  intros Hs. unfold call_start. destruct (JsMap.get serverName (servers c)) as [ref|];
    [|exact Hs].
  cbn -[sendRequest update]. destruct (nth_error (heap c) ref) as [tr0|] eqn:Hn; [|exact Hs].
  destruct (sendRequest _ tr0) as [tr' result] eqn:E. cbn [fst].
  intros tr Hin. cbn [heap with_heap with_counter] in Hin. apply In_update in Hin.
  destruct Hin as [->|Hin]; [|now apply Hs].
  replace tr' with (fst (sendRequest
    {| method := method; params := Some params; id := IdNum (requestIdCounter c + 1) |} tr0))
    by now rewrite E.
  apply reachable_sendRequest, Hs. apply (nth_error_In _ _ Hn).
Qed.

Lemma sound_list_start method c :
  sound JSON_parse c -> sound JSON_parse (fst (list_start method c)).
Proof.
  intros Hs. unfold list_start. generalize (@nil ListJob) as jobs.
  generalize (JsMap.entries (servers c)) as l. intros l. revert c Hs.
  induction l as [|[name ref] l IH]; intros c Hs jobs; [exact Hs|].
  cbn [fold_left]. unfold list_start_one at 2. cbn -[sendRequest update fold_left].
  destruct (nth_error (heap c) ref) as [tr0|] eqn:Hn.
  - destruct (sendRequest _ tr0) as [tr' result] eqn:E. apply IH.
    intros tr Hin. cbn [heap with_heap with_counter] in Hin. apply In_update in Hin.
    destruct Hin as [->|Hin]; [|now apply Hs].
    replace tr' with (fst (sendRequest
      {| method := method; params := Some (JObj []); id := IdNum (requestIdCounter c + 1) |}
      tr0)) by now rewrite E.
    apply reachable_sendRequest, Hs. apply (nth_error_In _ _ Hn).
  - apply IH. exact Hs.
Qed.

(** What a step adds to the calls of resolve: nothing but a validated
    response without an error field. *)
Lemma resolved_step b e c v :
  In c (Runtime.settlements (BaseTransport.rt (BaseTransport.step JSON_parse b e))) ->
  Runtime.what c = Resolved v ->
  In c (Runtime.settlements (BaseTransport.rt b)) \/
  (validateResponse v = Ok v /\ prop v "error" = None).
Proof.
  intros Hin Hw. destruct e; cbn [BaseTransport.step] in Hin.
  - now left.
  - left. unfold BaseTransport.sendRequest in Hin.
    now destruct (BaseTransport.connected b).
  - unfold BaseTransport.handleResponse in Hin.
    destruct (Correlation.malformed (JSON_parse data)) as [err|] eqn:Hm.
    + rewrite (BaseTransportFacts.handleParsed_malformed _ _ _ Hm) in Hin. now left.
    + destruct (Correlation.correlates (JSON_parse data) b) as [[k p]|] eqn:Hc.
      * destruct (BaseTransportFacts.correlates_inv _ _ _ _ Hc) as (v0 & rid & Hp & Hv & _).
        rewrite Hp in *. rewrite (BaseTransportFacts.handleParsed_matched _ _ _ _ Hc) in Hin.
        unfold Correlation.reply in Hin.
        destruct (prop v0 "error") as [err|] eqn:He.
        -- left. destruct (BaseTransport.rejection err); simpl in Hin; try exact Hin.
           apply in_app_or in Hin. destruct Hin as [Hin|[<-|[]]]; auto; discriminate.
        -- simpl in Hin. apply in_app_or in Hin. destruct Hin as [Hin|[<-|[]]]; [now left|].
           right. simpl in Hw. injection Hw as <-. auto.
      * rewrite (BaseTransportFacts.handleParsed_unmatched _ _ Hm Hc) in Hin. now left.
  - left. unfold BaseTransport.onSendSettled in Hin.
    destruct (BaseTransport.find_send call b); [|exact Hin].
    destruct failure; simpl in Hin; [|exact Hin].
    apply in_app_or in Hin. destruct Hin as [Hin|[<-|[]]]; [exact Hin|discriminate].
  - left. simpl in Hin.
    destruct (BaseTransportFacts.fold_cleanup (BaseTransport.pendingRequests b)
                (BaseTransport.rt b)) as (A & _).
    unfold JsMap.entries in Hin. rewrite A in Hin. apply in_app_or in Hin.
    destruct Hin as [Hin|Hin]; [exact Hin|].
    apply in_map_iff in Hin. destruct Hin as (entry & <- & _). discriminate.
  - left. destruct (BaseTransportFacts.tick_fields b) as (A & _). rewrite A in Hin.
    apply in_app_or in Hin. destruct Hin as [Hin|Hin]; [exact Hin|].
    apply in_map_iff in Hin. destruct Hin as (tm & <- & _). discriminate.
Qed.

Lemma resolved_valid b n v :
  reachable JSON_parse b ->
  BaseTransport.outcome b n = Some (Resolved v) ->
  validateResponse v = Ok v /\ prop v "error" = None.
Proof.
  intros [events ->] Ho.
  assert (Hin : exists c, In c (Runtime.settlements (BaseTransport.rt
                                 (BaseTransport.run JSON_parse events BaseTransport.create))) /\
                          Runtime.what c = Resolved v).
  { unfold BaseTransport.outcome, Runtime.promise in Ho.
    induction (Runtime.settlements _) as [|c l IH]; [discriminate|].
    simpl in Ho. destruct (Nat.eqb (Runtime.who c) n).
    - injection Ho as Ho. exists c. split; [now left|exact Ho].
    - destruct (IH Ho) as (c' & Hc' & Hw). exists c'. split; [now right|exact Hw]. }
  destruct Hin as (c & Hin & Hw). clear Ho.
  assert (Hgen : forall evs b0,
             In c (Runtime.settlements (BaseTransport.rt (BaseTransport.run JSON_parse evs b0))) ->
             In c (Runtime.settlements (BaseTransport.rt b0)) \/
             (validateResponse v = Ok v /\ prop v "error" = None)).
  { induction evs as [|e evs IH]; intros b0 H0; [now left|].
    change (BaseTransport.run JSON_parse (e :: evs) b0)
      with (BaseTransport.run JSON_parse evs (BaseTransport.step JSON_parse b0 e)) in H0.
    destruct (IH _ H0) as [H1|H1]; [|now right].
    apply (resolved_step b0 e c v H1 Hw). }
  destruct (Hgen events BaseTransport.create Hin) as [H|H]; [destruct H|exact H].
Qed.

(** X12. What callTool, readResource and getPrompt return: in every state a
    client reaches through connect(), disconnect(), the calls and the events
    of its transports, a call that awaits a request returns the result field
    of the response that resolved it, and throws what rejected it.  The
    response has passed validateResponse and has no error field, so the
    throws 'Tool call failed', 'Resource read failed' and 'Get prompt
    failed' of the three methods never run: an error response rejects the
    request with 'JSON-RPC error <code>: <message>' instead. *)
Theorem calls_return_results :
  sound JSON_parse create /\
  (forall c,
      sound JSON_parse c ->
      (forall loaded opened, sound JSON_parse (McpClient.connect loaded opened c)) /\
      (forall event, sound JSON_parse (deliver JSON_parse c event)) /\
      sound JSON_parse (McpClient.disconnect c) /\
      (forall serverName toolName params uri promptName args,
          sound JSON_parse (fst (callTool serverName toolName params c)) /\
          sound JSON_parse (fst (readResource serverName uri c)) /\
          sound JSON_parse (fst (getPrompt serverName promptName args c))) /\
      (forall method, sound JSON_parse (fst (list_start method c))) /\
      (forall ref tr call v,
          nth_error (heap c) ref = Some tr ->
          BaseTransport.outcome (base tr) call = Some (Resolved v) ->
          validateResponse v = Ok v /\ prop v "error" = None) /\
      (forall failed ref call,
          call_finish failed c ref call =
          match nth_error (heap c) ref with
          | None => None
          | Some tr =>
              match BaseTransport.outcome (base tr) call with
              | None => None
              | Some (Rejected e) => Some (Throw e)
              | Some (Resolved v) => Some (Ok (prop v "result"))
              end
          end)).
Proof.
  split; [intros tr []|]. intros c Hs.
  assert (Hvalid : forall ref tr call v,
             nth_error (heap c) ref = Some tr ->
             BaseTransport.outcome (base tr) call = Some (Resolved v) ->
             validateResponse v = Ok v /\ prop v "error" = None).
  { intros ref tr call v Hn Ho. apply (resolved_valid (base tr) call v); [|exact Ho].
    apply Hs. apply (nth_error_In _ _ Hn). }
  split; [intros; now apply sound_connect|]. split; [intros; now apply sound_deliver|].
  split; [now apply sound_disconnect|].
  split; [intros; unfold callTool, readResource, getPrompt;
          repeat split; now apply sound_call_start|].
  split; [intros; now apply sound_list_start|]. split; [exact Hvalid|].
  intros failed ref call. unfold call_finish.
  destruct (nth_error (heap c) ref) as [tr|] eqn:Hn; [|reflexivity].
  destruct (BaseTransport.outcome (base tr) call) as [[v|e]|] eqn:Ho; try reflexivity.
  destruct (Hvalid ref tr call v Hn Ho) as [_ He]. now rewrite He.
Qed.

End Sessions.

(** An instance of X11: both servers of the sample configuration connect. *)
Lemma connect_fulfilled_registers_all_witness :
  let c := run Sample.no_frames Scenario.both_up Sample.connecting in
  connectResult c = Some Fulfilled /\
  getConnectedServers c = ["stream"; "events"] /\
  JsMap.size (servers c) = 2.
Proof.
  intros c.
  assert (H1 : Sample.two_servers <> []) by discriminate.
  assert (H2 : NoDup (map fst Sample.two_servers)).
  { simpl. constructor; [simpl; intros [H|[]]; discriminate|].
    constructor; [simpl; tauto|constructor]. }
  assert (H3 : connectResult c = Some Fulfilled) by reflexivity.
  destruct (connect_fulfilled_registers_all Sample.no_frames Sample.two_servers
              Sample.opens_fine Scenario.both_up H1 H2 H3) as (_ & _ & A & _).
  split; [exact H3|]. split; [reflexivity|exact A].
Defined.

(** An instance of X9: a command and a url, and no type. *)
Lemma createTransport_by_kind_witness :
  exists p, createTransport Scenario.command_and_url = Ok (Stdio p).
Proof.
  destruct (createTransport_by_kind Scenario.command_and_url) as (_ & A & _).
  apply A; reflexivity.
Defined.

(** An instance of X10: disconnect() of the client whose server 'stream' is
    up and whose server 'events' failed to connect. *)
Lemma client_disconnect_witness :
  let c' := McpClient.disconnect Sample.half_connected in
  getConnectedServers Sample.half_connected = ["stream"] /\
  getConnectedServers c' = [] /\
  option_map isConnected (nth_error (heap c') 1) = Some false /\
  nth_error (heap c') 0 = nth_error (heap Sample.half_connected) 0.
Proof.
  intros c'.
  destruct (client_disconnect Sample.half_connected) as (A & B & _).
  split; [reflexivity|]. split; [exact A|]. split; [reflexivity|].
  destruct (nth_error (heap Sample.half_connected) 0) as [tr|] eqn:E; [|discriminate].
  fold c' in B. rewrite (B 0 tr E). reflexivity.
Defined.

(** An instance of X12: a tool of 'stream' is called and the response
    arrives. *)
Lemma calls_return_results_witness :
  snd (callTool "stream" "echo" None
         (run Sample.one_frame Sample.one_up_one_down Sample.connecting)) = Awaits 1 0 /\
  call_finish ToolCallFailed Scenario.answered_call 1 0 =
    Some (Ok (Some (JObj [("tools", JArr [JObj [("name", JStr "echo")]])]))).
Proof.
  destruct (calls_return_results Sample.one_frame) as [H0 Hstep].
  assert (Hs : sound Sample.one_frame Scenario.answered_call).
  { unfold Scenario.answered_call, Scenario.called, Sample.connecting.
    pose proof (proj1 (Hstep _ H0) (Ok {| mcpServers := Some Sample.two_servers |})
                  Sample.opens_fine) as H1.
    assert (Hrun : forall events c, sound Sample.one_frame c ->
                                    sound Sample.one_frame (run Sample.one_frame events c)).
    { induction events as [|e events IH]; intros c Hc; [exact Hc|].
      apply IH. apply (proj1 (proj2 (Hstep c Hc)) e). }
    apply Hrun.
    apply (proj1 (proj1 (proj2 (proj2 (proj2 (Hstep _ (Hrun _ _ H1)))))
                    "stream" "echo" None "" "" None)). }
  destruct (Hstep _ Hs) as (_ & _ & _ & _ & _ & _ & Hfinish).
  split; [reflexivity|]. rewrite Hfinish. reflexivity.
Defined.

End ClientFacts.

(* ------------------------------------------------------------------ *)
(** ** Line endings *)

Module LineEndingFacts.
Import Text Framing LineEndings FramingFacts.

Lemma no_newline_cons c s :
  no_newline (String c s) = true -> Ascii.eqb c newline = false /\ no_newline s = true.
Proof.
  unfold no_newline. cbn [split_newline]. destruct (Ascii.eqb c newline).
  - pose proof (split_newline_nonempty s). destruct (split_newline s); [congruence|discriminate].
  - pose proof (split_newline_nonempty s).
    destruct (split_newline s) as [|x [|y l]]; try discriminate; [congruence|auto].
Qed.

Lemma split_terminated line pre rest :
  no_newline line = true -> no_newline pre = true ->
  split_newline (line ++ pre ++ String newline rest) =
  (line ++ pre)%string :: split_newline rest.
Proof.
  intros Hl Hp. induction line as [|c line IH].
  - cbn [String.append]. induction pre as [|c pre IHp].
    + cbn [String.append split_newline]. now rewrite Ascii.eqb_refl.
    + apply no_newline_cons in Hp. destruct Hp as [Hc Hp].
      cbn [String.append split_newline]. rewrite Hc, (IHp Hp). reflexivity.
  - apply no_newline_cons in Hl. destruct Hl as [Hc Hl].
    cbn [String.append split_newline]. rewrite Hc, (IH Hl). reflexivity.
Qed.

Lemma split_written items :
  forallb (fun item : string * bool => no_newline (fst item)) items = true ->
  split_newline (written items) =
  map (fun item : string * bool => (fst item ++ (if snd item then String carriage_return EmptyString
                                 else EmptyString))%string) items ++ [EmptyString].
Proof.
  induction items as [|[line crlf] items IH]; intros Hall; [reflexivity|].
  cbn [forallb fst] in Hall. apply andb_true_iff in Hall. destruct Hall as [Hl Hall].
  change (written ((line, crlf) :: items))
    with (terminated (line, crlf) ++ written items)%string.
  unfold terminated at 1. cbn [fst snd map app]. rewrite append_assoc. destruct crlf.
  - change (line ++ String carriage_return (String newline EmptyString) ++ written items)%string
      with (line ++ String carriage_return EmptyString ++ String newline (written items))%string.
    rewrite (split_terminated line (String carriage_return EmptyString) (written items) Hl
               eq_refl), (IH Hall). reflexivity.
  - change (line ++ String newline EmptyString ++ written items)%string
      with (line ++ EmptyString ++ String newline (written items))%string.
    rewrite (split_terminated line EmptyString (written items) Hl eq_refl), (IH Hall).
    reflexivity.
Qed.

Lemma trimEnd_whitespace s c :
  is_whitespace c = true -> trimEnd (s ++ String c EmptyString) = trimEnd s.
Proof.
  intros Hc. induction s as [|a s IH].
  - cbn [String.append trimEnd]. now rewrite Hc.
  - cbn [String.append trimEnd]. now rewrite IH.
Qed.

Lemma trim_whitespace s c :
  is_whitespace c = true -> trim (s ++ String c EmptyString) = trim s.
Proof.
  intros Hc. unfold trim. induction s as [|a s IH].
  - cbn [String.append trimStart]. now rewrite Hc.
  - cbn [String.append trimStart]. destruct (is_whitespace a); [exact IH|].
    change (String a (s ++ String c EmptyString)) with (String a s ++ String c EmptyString)%string.
    now apply trimEnd_whitespace.
Qed.

Lemma removelast_snoc {A : Type} (l : list A) (x : A) : removelast (l ++ [x]) = l.
Proof. rewrite removelast_app by discriminate. simpl. apply app_nil_r. Qed.

Lemma last_snoc {A : Type} (l : list A) (x d : A) : last (l ++ [x]) d = x.
Proof. induction l as [|y l IH]; [reflexivity|]. simpl. rewrite IH. now destruct (l ++ [x]) eqn:E; [destruct l; discriminate|]. Qed.

Lemma delivered_written items :
  forallb (fun item : string * bool => no_newline (fst item)) items = true ->
  delivered (written items) = filter nonempty (map (fun item : string * bool => trim (fst item)) items) /\
  last (split_newline (written items)) EmptyString = EmptyString.
Proof.
  intros Hall. unfold delivered. rewrite (split_written items Hall).
  rewrite removelast_snoc, last_snoc. split; [|reflexivity].
  rewrite map_map. f_equal. apply map_ext. intros [line crlf]. cbn [fst snd].
  destruct crlf; [|now rewrite append_empty_r].
  now apply trim_whitespace.
Qed.

Section Transports.
Variable JSON_parse : string -> option JsonValue.

(** X13. Line endings: when a peer writes lines that end in a line feed or
    in a carriage return and a line feed, in any mix, a streaming-HTTP and a
    process-pipe transport with an empty buffer hand handleResponse, however
    the text is cut into chunks, the trimmed text of each line that is not
    blank, in order and once; the carriage returns are dropped, blank lines
    are skipped, and the buffer is empty again afterwards. *)
Theorem line_endings (items : list (string * bool)) (chunks : list string)
    (http : HttpStreamTransport.t) (stdio : StdioTransport.t) :
  forallb (fun item : string * bool => no_newline (fst item)) items = true ->
  whole chunks = written items ->
  HttpStreamTransport.buffer http = EmptyString ->
  StdioTransport.buffer stdio = EmptyString ->
  let lines := filter nonempty (map (fun item : string * bool => trim (fst item)) items) in
  feed record chunks (EmptyString, []) = (EmptyString, lines) /\
  HttpStreamTransport.base (HttpStreamTransport.feed JSON_parse chunks http) =
    fold_left (fun b line => BaseTransport.handleResponse JSON_parse line b) lines
      (HttpStreamTransport.base http) /\
  HttpStreamTransport.buffer (HttpStreamTransport.feed JSON_parse chunks http) = EmptyString /\
  StdioTransport.base (StdioTransport.feed JSON_parse chunks stdio) =
    fold_left (fun b line => BaseTransport.handleResponse JSON_parse line b) lines
      (StdioTransport.base stdio) /\
  StdioTransport.buffer (StdioTransport.feed JSON_parse chunks stdio) = EmptyString.
Proof.
  intros Hall Hwhole Hh Hp lines.
  destruct (delivered_written items Hall) as [Hd Hl]. unfold delivered in Hd.
  rewrite http_feed, stdio_feed. cbn zeta. rewrite Hh, Hp.
  rewrite !(feed_whole _ chunks EmptyString _ eq_refl). cbn [fst snd String.append].
  rewrite Hwhole, Hl, !fold_process_line, Hd, fold_record. auto.
Qed.

End Transports.

(** An instance of X13: three lines, cut in three chunks. *)
Lemma line_endings_witness :
  whole Scenario.three_lines_cut = written Scenario.three_lines /\
  feed record Scenario.three_lines_cut (EmptyString, []) = (EmptyString, ["{a}"; "{b}"]) /\
  HttpStreamTransport.buffer
    (HttpStreamTransport.feed Sample.no_frames Scenario.three_lines_cut Sample.http_transport) =
  EmptyString.
Proof.
  assert (H1 : forallb (fun item : string * bool => no_newline (fst item))
                 Scenario.three_lines = true) by reflexivity.
  assert (H2 : whole Scenario.three_lines_cut = written Scenario.three_lines) by reflexivity.
  destruct (line_endings Sample.no_frames Scenario.three_lines Scenario.three_lines_cut
              Sample.http_transport Sample.stdio_transport H1 H2 eq_refl eq_refl)
    as (A & _ & B & _).
  split; [exact H2|]. split; [exact A|exact B].
Defined.

End LineEndingFacts.

(* ------------------------------------------------------------------ *)
(** ** disconnect() during connect() *)

Module ConnectingFacts.

Section Runs.
Variable JSON_parse : string -> option JsonValue.

Lemma sse_closed_run events (s : SseTransport.t) :
  SseTransport.eventSource s = false -> SseTransport.run JSON_parse events s = s.
Proof.
  intros Hs. induction events as [|e events IH]; [reflexivity|].
  change (SseTransport.run JSON_parse (e :: events) s)
    with (SseTransport.run JSON_parse events (SseTransport.dispatch JSON_parse s e)).
  unfold SseTransport.dispatch. rewrite Hs. exact IH.
Qed.

(** X14. disconnect() while connect() is in progress does not settle the
    promise of connect().  On the event-stream transport it closes the
    EventSource: nothing that is dispatched afterwards changes the transport,
    and a promise that was pending stays pending for good.  On the
    streaming-HTTP transport it does not abort the request: a response with
    status 200 that arrives afterwards opens the response stream, marks the
    transport connected and fulfils the promise. *)
Theorem disconnect_while_connecting (s : SseTransport.t) (h : HttpStreamTransport.t)
    (events : list SseTransport.Event) :
  let closed := SseTransport.disconnect s in
  SseTransport.run JSON_parse events closed = closed /\
  SseTransport.connectCall closed = SseTransport.connectCall s /\
  BaseTransport.connected (SseTransport.base closed) = false /\
  HttpStreamTransport.connectCall (HttpStreamTransport.disconnect h) =
    HttpStreamTransport.connectCall h /\
  (HttpStreamTransport.connectCall h = Some Pending ->
   let late := HttpStreamTransport.dispatch JSON_parse (HttpStreamTransport.disconnect h)
                 (HttpStreamTransport.Response 200) in
   BaseTransport.connected (HttpStreamTransport.base late) = true /\
   HttpStreamTransport.responseStream late = true /\
   HttpStreamTransport.connectCall late = Some Fulfilled).
Proof.
  intros closed. split; [now apply sse_closed_run|].
  split; [reflexivity|]. split; [reflexivity|]. split; [reflexivity|].
  intros Hp late. unfold late. simpl. rewrite Hp. simpl. rewrite Hp. auto.
Qed.

End Runs.

(** An instance of X14: disconnect() right after connect(). *)
Lemma disconnect_while_connecting_witness :
  let connecting := SseTransport.connect (Ok tt) Sample.sse_transport in
  let closed := SseTransport.disconnect connecting in
  SseTransport.connectCall
    (SseTransport.run Sample.no_frames
       [SseTransport.EndpointEvent "/messages"; SseTransport.ErrorEvent Sample.bare_error]
       closed) = Some Pending /\
  HttpStreamTransport.connectCall
    (HttpStreamTransport.dispatch Sample.no_frames
       (HttpStreamTransport.disconnect
          (HttpStreamTransport.connect (Ok tt) Sample.http_transport))
       (HttpStreamTransport.Response 200)) = Some Fulfilled.
Proof.
  intros connecting closed.
  destruct (disconnect_while_connecting Sample.no_frames connecting
              (HttpStreamTransport.connect (Ok tt) Sample.http_transport)
              [SseTransport.EndpointEvent "/messages"; SseTransport.ErrorEvent Sample.bare_error])
    as (A & _ & _ & _ & B).
  fold closed in A. rewrite A. split; [reflexivity|]. apply (B eq_refl).
Defined.

End ConnectingFacts.
